(** * Integer arithmetic in an arbitrary base

    A shallow embedding of the C sources of the binary-conversion
    implementation ([big_integer.c], [big_integer_arithmetic.c],
    [arithmetic_helper.c], [impl_binary_conversion.c], [common.c]), of the
    digit-wise implementation ([impl_naive.c]) and of the checks of the
    input ([main.c], [util.c]), and the properties of them that the
    specification states or that the code shows.

    Conventions of the embedding.
    - A [uint8_t] is a [byte]; arithmetic on it is done in [Z] through
      [byte.unsigned] and written back with [byte.of_Z], which is the
      conversion modulo 256 that an assignment to a [uint8_t] performs.  Wider
      unsigned types are [Z] with the reduction modulo [2 ^ 16] or [2 ^ 64]
      written where the C conversion happens.
    - A [big_integer] is its sign flag and its byte buffer, least significant
      byte first.  The field [length] of the C struct is set once by
      [create_big_integer] to the size of the buffer and never assigned again,
      so it is read off the buffer ([bi_length]).
    - A function that mutates its arguments returns their new values.
    - A [for] loop with a counter is a [Fixpoint] on the number of iterations
      that remain, with the counter as an argument.  A loop whose trip count
      is not a simple expression runs on fuel and answers [OutOfFuel] when
      the fuel is exhausted; the lemmas show that this does not happen.
    - [abort_err] and [exit] end the process: the outcome [Abort].
    - A read outside a buffer yields the zero byte and a write outside a
      buffer is dropped.  Both are undefined in C; the statements that depend
      on an access carry the bound that keeps it inside. *)

From Stdlib Require Import ZArith List Lia Bool String Ascii.
From stdpp Require Import base list numbers.
From coqutil Require Import Byte.
Import ListNotations.
Local Open Scope Z_scope.

(** ** Outcomes *)

Inductive outcome (A : Type) : Type :=
| Done (x : A)
| Abort
| OutOfFuel.
Arguments Done {A} x.
Arguments Abort {A}.
Arguments OutOfFuel {A}.

Definition obind {A B : Type} (m : outcome A) (k : A -> outcome B) : outcome B :=
  match m with
  | Done x => k x
  | Abort => Abort
  | OutOfFuel => OutOfFuel
  end.

#[global] Instance outcome_ret : MRet outcome := fun A x => Done x.
#[global] Instance outcome_bind : MBind outcome := fun A B k m => obind m k.

(** ** Bytes and machine integers *)

Definition byte_eqb (x y : byte) : bool := byte.unsigned x =? byte.unsigned y.

(** The conversion of an integer to [bool]: anything but zero is [true]. *)
Definition to_bool (z : Z) : bool := negb (z =? 0).

Definition of_bool (b : bool) : Z := if b then 1 else 0.

Definition uint16 (z : Z) : Z := z mod 2 ^ 16.
Definition uint64 (z : Z) : Z := z mod 2 ^ 64.

(** The value of a buffer read as a little-endian number. *)
Fixpoint le_val (l : list byte) : Z :=
  match l with
  | [] => 0
  | b :: t => byte.unsigned b + 256 * le_val t
  end.

(** The [n] low bytes of [z], least significant first ([memcpy] out of an
    integer on a little-endian machine). *)
Fixpoint le_bytes (n : nat) (z : Z) : list byte :=
  match n with
  | O => []
  | S n' => byte.of_Z z :: le_bytes n' (z / 256)
  end.

(** ** [big_integer.c] *)

Record big_integer : Type := mk_big_integer {
  sign : bool;
  mem : list byte
}.

Definition bi_length (v : big_integer) : nat := length (mem v).

Definition set_sign (v : big_integer) (s : bool) : big_integer :=
  {| sign := s; mem := mem v |}.

Definition set_mem (v : big_integer) (m : list byte) : big_integer :=
  {| sign := sign v; mem := m |}.

Definition create_big_integer (bytes : nat) (sgn : bool) : big_integer :=
  {| sign := sgn; mem := replicate bytes Byte.x00 |}.

Definition set_byte_value_of_big_integer (big_int : big_integer) (index : nat)
    (value : byte) : big_integer :=
  set_mem big_int (<[index := value]> (mem big_int)).

Definition get_byte_value_of_big_integer (big_int : big_integer) (index : nat) : byte :=
  nth index (mem big_int) Byte.x00.

Fixpoint create_of_bytes_loop (n i : nat) (bytes : list byte) (val : big_integer)
    : big_integer :=
  match n with
  | O => val
  | S n' =>
      create_of_bytes_loop n' (S i) bytes
        (set_byte_value_of_big_integer val i (nth i bytes Byte.x00))
  end.

Definition create_big_integer_of_bytes (len : nat) (bytes : list byte) (sgn : bool)
    : big_integer :=
  create_of_bytes_loop len 0 bytes (create_big_integer len sgn).

Definition set_bit_value_of_big_integer (big_int : big_integer) (bit_index : nat)
    (value : bool) : big_integer :=
  let b := byte.unsigned (get_byte_value_of_big_integer big_int (bit_index / 8)%nat) in
  let i := Z.of_nat (bit_index mod 8)%nat in
  let b' := if value then Z.lor b (Z.shiftl 1 i)
            else Z.land b (Z.lnot (Z.shiftl 1 i)) in
  set_byte_value_of_big_integer big_int (bit_index / 8)%nat (byte.of_Z b').

(** [memcpy] of 7 bytes into a zeroed [uint64_t], guarded by the bounds check. *)
Definition get_7_bytes__of_big_integer (big_int : big_integer) (index : nat)
    : outcome Z :=
  if (bi_length big_int <=? index + 6)%nat then Abort
  else Done (le_val (take 7 (drop index (mem big_int)))).

(** Writes [bs] over the buffer from [index] on. *)
Definition write_bytes (m : list byte) (index : nat) (bs : list byte) : list byte :=
  take index m ++ bs ++ drop (index + length bs) m.

Definition set_7_bytes__of_big_integer (big_int : big_integer) (index : nat)
    (value : Z) : outcome big_integer :=
  if (bi_length big_int <=? index + 6)%nat then Abort
  else Done (set_mem big_int (write_bytes (mem big_int) index (le_bytes 7 value))).

(** A [__m128i] seen as its two 64-bit lanes. *)
Record m128i : Type := mk_m128i { lo64 : Z; hi64 : Z }.

Definition get_15_bytes__of_big_integer (big_int : big_integer) (index : nat)
    : outcome m128i :=
  if (bi_length big_int <=? index + 14)%nat then Abort
  else Done {| lo64 := le_val (take 8 (drop index (mem big_int)));
               hi64 := le_val (take 7 (drop (index + 8) (mem big_int))) |}.

Definition set_15_bytes__of_big_integer (big_int : big_integer) (index : nat)
    (value : m128i) : outcome big_integer :=
  if (bi_length big_int <=? index + 14)%nat then Abort
  else Done (set_mem big_int
               (write_bytes (mem big_int) index
                  (le_bytes 8 (lo64 value) ++ le_bytes 7 (hi64 value)))).

Definition get_most_significant_bit (value : big_integer) : bool :=
  to_bool (Z.land
             (byte.unsigned (get_byte_value_of_big_integer value (bi_length value - 1)))
             128).

Definition clone_big_integer (og : big_integer) : big_integer :=
  set_mem (create_big_integer (bi_length og) (sign og))
          (write_bytes (replicate (bi_length og) Byte.x00) 0 (mem og)).

Fixpoint set_zero_loop (n i : nat) (value : big_integer) : big_integer :=
  match n with
  | O => value
  | S n' => set_zero_loop n' (S i) (set_byte_value_of_big_integer value i Byte.x00)
  end.

Definition set_zero (value : big_integer) : big_integer :=
  set_sign (set_zero_loop (bi_length value) 0 value) false.

Definition copy_big_integer_value_into_another (source destination : big_integer)
    : big_integer :=
  let d := set_sign (set_zero destination) (sign source) in
  set_mem d (write_bytes (mem d) 0
               (take (Nat.min (bi_length source) (bi_length destination)) (mem source))).

(** [add_size] is a [size_t]: the new length is computed modulo [2 ^ 64].  The
    [memcpy] copies all of the source.  A new buffer shorter than the source,
    which only a sum that wraps gives, makes the copy pass the end of the
    allocation: the behaviour is undefined in C, and the bytes that fit, which
    the model keeps there, are not a result of the code.  The model follows the
    source when [bi_length og] is at most the new length. *)
Definition clone_big_integer_add_size (og : big_integer) (add_size : Z) : big_integer :=
  let new_len := Z.to_nat (uint64 (Z.of_nat (bi_length og) + add_size)) in
  {| sign := sign og;
     mem := take new_len (mem og ++ replicate (new_len - bi_length og) Byte.x00) |}.

Definition negate_big_integer (value : big_integer) : big_integer :=
  set_sign value (negb (sign value)).

(** *** Zero test *)

Fixpoint is_zero_loop (n i : nat) (value : big_integer) : bool :=
  match n with
  | O => true
  | S n' =>
      if byte_eqb (get_byte_value_of_big_integer value i) Byte.x00
      then is_zero_loop n' (S i) value
      else false
  end.

(** [_mm_testz_si128 a b]: 1 when [a & b] is all zero. *)
Definition mm_testz_si128 (a b : m128i) : Z :=
  if (Z.land (lo64 a) (lo64 b) =? 0) && (Z.land (hi64 a) (hi64 b) =? 0) then 1 else 0.

(** The loops of [big_integer_is_zero_simd] either return [false] ([None]) or
    fall through with the index reached. *)
Fixpoint is_zero_simd_loop15 (fuel i : nat) (value : big_integer)
    : outcome (option nat) :=
  match fuel with
  | O => OutOfFuel
  | S fuel' =>
      if (i + 14 <? bi_length value)%nat then
        vector ← get_15_bytes__of_big_integer value i;
        if negb (to_bool (mm_testz_si128 vector vector)) then Done None
        else is_zero_simd_loop15 fuel' (i + 15) value
      else Done (Some i)
  end.

Fixpoint is_zero_simd_loop7 (fuel i : nat) (value : big_integer)
    : outcome (option nat) :=
  match fuel with
  | O => OutOfFuel
  | S fuel' =>
      if (i + 6 <? bi_length value)%nat then
        byte7 ← get_7_bytes__of_big_integer value i;
        if negb (byte7 =? 0) then Done None
        else is_zero_simd_loop7 fuel' (i + 7) value
      else Done (Some i)
  end.

Definition big_integer_is_zero_simd (value : big_integer) : outcome bool :=
  let len := bi_length value in
  r15 ← is_zero_simd_loop15 (S len) 0 value;
  match r15 with
  | None => Done false
  | Some i =>
      r7 ← is_zero_simd_loop7 (S len) i value;
      match r7 with
      | None => Done false
      | Some i => Done (is_zero_loop (len - i) i value)
      end
  end.

Definition big_integer_is_zero (value : big_integer) (simd : bool) : outcome bool :=
  if simd then big_integer_is_zero_simd value
  else Done (is_zero_loop (bi_length value) 0 value).

(** *** Equality *)

Fixpoint is_equal_loop (n i : nat) (a b : big_integer) : bool :=
  match n with
  | O => true
  | S n' =>
      if (i <? bi_length a)%nat && (i <? bi_length b)%nat then
        if negb (byte_eqb (get_byte_value_of_big_integer a i)
                          (get_byte_value_of_big_integer b i))
        then false
        else is_equal_loop n' (S i) a b
      else if (i <? bi_length a)%nat
                && negb (byte_eqb (get_byte_value_of_big_integer a i) Byte.x00)
      then false
      else if (i <? bi_length b)%nat
                && negb (byte_eqb (get_byte_value_of_big_integer b i) Byte.x00)
      then false
      else is_equal_loop n' (S i) a b
  end.

Definition big_integer_is_equal (a b : big_integer) : outcome bool :=
  if negb (eqb (sign a) (sign b)) then Done false
  else
    za ← big_integer_is_zero_simd a;
    zb ← (if za then big_integer_is_zero_simd b else Done false);
    if za && zb then Done true
    else Done (is_equal_loop (Nat.max (bi_length a) (bi_length b)) 0 a b).

(** ** The SSE intrinsics used by the vectorised paths

    Each is the lane-wise operation of the Intel reference on two 64-bit
    lanes. *)

Definition ones64 : Z := 2 ^ 64 - 1.

(** The 64-bit lane read as a signed integer. *)
Definition sint64 (z : Z) : Z := if z <? 2 ^ 63 then z else z - 2 ^ 64.

Definition mm_set_epi64x (e1 e0 : Z) : m128i :=
  {| lo64 := uint64 e0; hi64 := uint64 e1 |}.

Definition mm_set_epi32 (e3 e2 e1 e0 : Z) : m128i :=
  {| lo64 := e0 mod 2 ^ 32 + 2 ^ 32 * (e1 mod 2 ^ 32);
     hi64 := e2 mod 2 ^ 32 + 2 ^ 32 * (e3 mod 2 ^ 32) |}.

Definition mm_and_si128 (a b : m128i) : m128i :=
  {| lo64 := Z.land (lo64 a) (lo64 b); hi64 := Z.land (hi64 a) (hi64 b) |}.

Definition mm_or_si128 (a b : m128i) : m128i :=
  {| lo64 := Z.lor (lo64 a) (lo64 b); hi64 := Z.lor (hi64 a) (hi64 b) |}.

Definition mm_add_epi64 (a b : m128i) : m128i :=
  {| lo64 := uint64 (lo64 a + lo64 b); hi64 := uint64 (hi64 a + hi64 b) |}.

Definition mm_sub_epi64 (a b : m128i) : m128i :=
  {| lo64 := uint64 (lo64 a - lo64 b); hi64 := uint64 (hi64 a - hi64 b) |}.

Definition mm_cmpeq_epi64 (a b : m128i) : m128i :=
  {| lo64 := if lo64 a =? lo64 b then ones64 else 0;
     hi64 := if hi64 a =? hi64 b then ones64 else 0 |}.

Definition mm_cmpgt_epi64 (a b : m128i) : m128i :=
  {| lo64 := if sint64 (lo64 b) <? sint64 (lo64 a) then ones64 else 0;
     hi64 := if sint64 (hi64 b) <? sint64 (hi64 a) then ones64 else 0 |}.

Definition mm_extract_epi8 (a : m128i) (idx : Z) : Z :=
  if idx <? 8 then Z.land (Z.shiftr (lo64 a) (8 * idx)) 255
  else Z.land (Z.shiftr (hi64 a) (8 * (idx - 8))) 255.

Definition mm_extract_epi16 (a : m128i) (idx : Z) : Z :=
  if idx <? 4 then Z.land (Z.shiftr (lo64 a) (16 * idx)) 65535
  else Z.land (Z.shiftr (hi64 a) (16 * (idx - 4))) 65535.

(** ** [arithmetic_helper.c] *)

Fixpoint binary_logarithm_loop (n : nat) (value : Z) : Z :=
  match n with
  | O => -1
  | S i => if 2 ^ Z.of_nat i <? Z.abs value then Z.of_nat i + 1
           else binary_logarithm_loop i value
  end.

Definition binary_logarithm_8bit_abs_ceil (value : Z) : Z :=
  binary_logarithm_loop 8 value.

(** [max] and [min] on [size_t]. *)
Definition size_max (a b : Z) : Z := if b <? a then a else b.
Definition size_min (a b : Z) : Z := if a <? b then a else b.

(** ** Sizes ([big_integer.c]) *)

(** The source evaluates the expression in [int], where the division
    truncates, and converts the result to [size_t]; the model evaluates it
    in [Z].  The two agree when the exponent is not negative and the product
    of the logarithm and the exponent is below [2 ^ 31]; beyond that the
    product overflows [int] in the source and the size of the model is not
    the size the code computes. *)
Definition get_big_integer_min_size_exponentiation (base : Z) (exponent : Z) : nat :=
  Z.to_nat (Z.quot (binary_logarithm_8bit_abs_ceil base * exponent) 8 + 1).

(** The length, a [size_t], is passed for the [int] exponent: the model
    follows the source for a length below [2 ^ 31]. *)
Definition get_big_integer_min_size (base : Z) (len : nat) : nat :=
  get_big_integer_min_size_exponentiation base (Z.of_nat len).

(** ** [big_integer_arithmetic.c] *)

(** *** Magnitude addition

    The warning that the functions log when the last carry is set has no
    effect on the operands and is left out. *)

Fixpoint addition_sisd_loop (n i : nat) (value_a value_b : big_integer) (carry : bool)
    : big_integer * bool :=
  match n with
  | O => (value_a, carry)
  | S n' =>
      let a := byte.unsigned (get_byte_value_of_big_integer value_a i) in
      let res :=
        if (i <? bi_length value_b)%nat then
          let b := byte.unsigned (get_byte_value_of_big_integer value_b i) in
          uint16 (a + b + of_bool carry)
        else uint16 (a + of_bool carry) in
      let carry' := to_bool (Z.land (Z.shiftr res 8) 1) in
      addition_sisd_loop n' (S i)
        (set_byte_value_of_big_integer value_a i (byte.of_Z res)) value_b carry'
  end.

Definition big_integer_addition_sisd (value_a value_b : big_integer) : big_integer :=
  fst (addition_sisd_loop (bi_length value_a) 0 value_a value_b false).

(** One pass of the 15-byte loop body: the new 128-bit value and the carry. *)
Definition addition_simd_step15 (a_bytes b_bytes : m128i) (carry : bool) : m128i * bool :=
  let lower64_mask := mm_set_epi64x 0 ones64 in
  let a_lower := mm_and_si128 a_bytes lower64_mask in
  let b_lower := mm_and_si128 b_bytes lower64_mask in
  let a_lower_max := to_bool (mm_extract_epi8 (mm_cmpeq_epi64 a_lower lower64_mask) 0) in
  let b_lower_max := to_bool (mm_extract_epi8 (mm_cmpeq_epi64 b_lower lower64_mask) 0) in
  let carry_128 := mm_set_epi32 0 0 0 (of_bool carry) in
  let result := mm_add_epi64 a_bytes b_bytes in
  let result := mm_add_epi64 result carry_128 in
  let sub_mask := mm_set_epi64x 0 9223372036854775808 in
  let a_lower_signed := mm_sub_epi64 a_lower sub_mask in
  let b_lower_signed := mm_sub_epi64 b_lower sub_mask in
  let first_result_lower := mm_and_si128 result lower64_mask in
  let lower_result_signed := mm_sub_epi64 first_result_lower sub_mask in
  let cmp_a := mm_cmpgt_epi64 a_lower_signed lower_result_signed in
  let cmp_b := mm_cmpgt_epi64 b_lower_signed lower_result_signed in
  let cmp_ab := mm_or_si128 cmp_a cmp_b in
  let std_carry := negb (to_bool (mm_testz_si128 cmp_ab cmp_ab)) in
  let max_carry := a_lower_max && b_lower_max && carry in
  let carry_happens := std_carry || max_carry in
  let result :=
    if carry_happens then mm_add_epi64 result (mm_set_epi64x 1 0) else result in
  let highest_bytes := mm_extract_epi16 result 7 in
  (result, to_bool (Z.land (Z.shiftr highest_bytes 8) 1)).

Fixpoint addition_simd_loop15 (fuel i : nat) (value_a value_b : big_integer)
    (carry : bool) : outcome (big_integer * nat * bool) :=
  match fuel with
  | O => OutOfFuel
  | S fuel' =>
      if (i + 14 <? bi_length value_a)%nat && (i + 14 <? bi_length value_b)%nat then
        a_bytes ← get_15_bytes__of_big_integer value_a i;
        b_bytes ← get_15_bytes__of_big_integer value_b i;
        let '(result, carry') := addition_simd_step15 a_bytes b_bytes carry in
        value_a' ← set_15_bytes__of_big_integer value_a i result;
        addition_simd_loop15 fuel' (i + 15) value_a' value_b carry'
      else Done (value_a, i, carry)
  end.

Fixpoint addition_simd_loop7 (fuel i : nat) (value_a value_b : big_integer)
    (carry : bool) : outcome (big_integer * nat * bool) :=
  match fuel with
  | O => OutOfFuel
  | S fuel' =>
      if (i + 6 <? bi_length value_a)%nat && (i + 6 <? bi_length value_b)%nat then
        a_qword ← get_7_bytes__of_big_integer value_a i;
        b_qword ← get_7_bytes__of_big_integer value_b i;
        let sum := uint64 (a_qword + b_qword) in
        let sum := uint64 (sum + of_bool carry) in
        let carry' := to_bool (Z.land (Z.shiftr sum 56) 1) in
        value_a' ← set_7_bytes__of_big_integer value_a i sum;
        addition_simd_loop7 fuel' (i + 7) value_a' value_b carry'
      else Done (value_a, i, carry)
  end.

Definition big_integer_addition_simd (value_a value_b : big_integer)
    : outcome big_integer :=
  let a_length := bi_length value_a in
  '(a1, i1, c1) ← addition_simd_loop15 (S a_length) 0 value_a value_b false;
  '(a2, i2, c2) ← addition_simd_loop7 (S a_length) i1 a1 value_b c1;
  Done (fst (addition_sisd_loop (a_length - i2) i2 a2 value_b c2)).

(** *** Magnitude subtraction *)

Fixpoint subtraction_sisd_loop (n i : nat) (value_a value_b : big_integer)
    (borrow : bool) : big_integer * bool :=
  match n with
  | O => (value_a, borrow)
  | S n' =>
      let a := byte.unsigned (get_byte_value_of_big_integer value_a i) in
      let res :=
        if (i <? bi_length value_b)%nat then
          let b := byte.unsigned (get_byte_value_of_big_integer value_b i) in
          uint16 (a - b - of_bool borrow)
        else uint16 (a - of_bool borrow) in
      let borrow' := to_bool (Z.land (Z.shiftr res 15) 1) in
      subtraction_sisd_loop n' (S i)
        (set_byte_value_of_big_integer value_a i (byte.of_Z res)) value_b borrow'
  end.

Definition big_integer_subtraction_sisd (value_a value_b : big_integer) : big_integer :=
  fst (subtraction_sisd_loop (bi_length value_a) 0 value_a value_b false).

Definition subtraction_simd_step15 (a_bytes b_bytes : m128i) (borrow : bool)
    : m128i * bool :=
  let lower64_mask := mm_set_epi64x 0 ones64 in
  let a_lower := mm_and_si128 a_bytes lower64_mask in
  let b_lower := mm_and_si128 b_bytes lower64_mask in
  let b_lower_max := to_bool (mm_extract_epi8 (mm_cmpeq_epi64 b_lower lower64_mask) 0) in
  let borrow_128 := mm_set_epi32 0 0 0 (of_bool borrow) in
  let result := mm_sub_epi64 a_bytes b_bytes in
  let result := mm_sub_epi64 result borrow_128 in
  let sub_mask := mm_set_epi64x 0 9223372036854775808 in
  let a_lower_signed := mm_sub_epi64 a_lower sub_mask in
  let first_result_lower := mm_and_si128 result lower64_mask in
  let lower_result_signed := mm_sub_epi64 first_result_lower sub_mask in
  let cmp_a := mm_cmpgt_epi64 lower_result_signed a_lower_signed in
  let std_borrow := negb (to_bool (mm_testz_si128 cmp_a cmp_a)) in
  let max_borrow := b_lower_max && (of_bool borrow =? 1) in
  let borrow_happens := std_borrow || max_borrow in
  let result :=
    if borrow_happens then mm_sub_epi64 result (mm_set_epi64x 1 0) else result in
  let highest_bytes := mm_extract_epi16 result 7 in
  (result, to_bool (Z.land (Z.shiftr highest_bytes 15) 1)).

Fixpoint subtraction_simd_loop15 (fuel i : nat) (value_a value_b : big_integer)
    (borrow : bool) : outcome (big_integer * nat * bool) :=
  match fuel with
  | O => OutOfFuel
  | S fuel' =>
      if (i + 14 <? bi_length value_a)%nat && (i + 14 <? bi_length value_b)%nat then
        a_bytes ← get_15_bytes__of_big_integer value_a i;
        b_bytes ← get_15_bytes__of_big_integer value_b i;
        let '(result, borrow') := subtraction_simd_step15 a_bytes b_bytes borrow in
        value_a' ← set_15_bytes__of_big_integer value_a i result;
        subtraction_simd_loop15 fuel' (i + 15) value_a' value_b borrow'
      else Done (value_a, i, borrow)
  end.

Fixpoint subtraction_simd_loop7 (fuel i : nat) (value_a value_b : big_integer)
    (borrow : bool) : outcome (big_integer * nat * bool) :=
  match fuel with
  | O => OutOfFuel
  | S fuel' =>
      if (i + 6 <? bi_length value_a)%nat && (i + 6 <? bi_length value_b)%nat then
        a_qword ← get_7_bytes__of_big_integer value_a i;
        b_qword ← get_7_bytes__of_big_integer value_b i;
        let res := uint64 (a_qword - b_qword) in
        let res := uint64 (res - of_bool borrow) in
        let borrow' := to_bool (Z.land (Z.shiftr res 56) 1) in
        value_a' ← set_7_bytes__of_big_integer value_a i res;
        subtraction_simd_loop7 fuel' (i + 7) value_a' value_b borrow'
      else Done (value_a, i, borrow)
  end.

Definition big_integer_subtraction_simd (value_a value_b : big_integer)
    : outcome big_integer :=
  let a_length := bi_length value_a in
  '(a1, i1, c1) ← subtraction_simd_loop15 (S a_length) 0 value_a value_b false;
  '(a2, i2, c2) ← subtraction_simd_loop7 (S a_length) i1 a1 value_b c1;
  Done (fst (subtraction_sisd_loop (a_length - i2) i2 a2 value_b c2)).

(** *** Comparison of magnitudes *)

(** The loop of [positive_big_integer_is_greater_than] runs from the most
    significant index downwards: the iteration with [n = S i] handles index
    [i]. *)
Fixpoint greater_than_loop (n : nat) (a b : big_integer) : bool :=
  match n with
  | O => false
  | S i =>
      let a_len := bi_length a in
      let b_len := bi_length b in
      let a_byte :=
        if (i <? a_len)%nat then get_byte_value_of_big_integer a i else Byte.x00 in
      let b_byte :=
        if (i <? b_len)%nat then get_byte_value_of_big_integer b i else Byte.x00 in
      if (b_len <=? i)%nat && (i <? a_len)%nat then
        if negb (byte_eqb a_byte Byte.x00) then true else greater_than_loop i a b
      else if (a_len <=? i)%nat && (i <? b_len)%nat then
        if negb (byte_eqb b_byte Byte.x00) then false else greater_than_loop i a b
      else if byte_eqb a_byte b_byte then greater_than_loop i a b
      else byte.unsigned b_byte <? byte.unsigned a_byte
  end.

Definition positive_big_integer_is_greater_than (a b : big_integer) (simd : bool)
    : outcome bool :=
  if sign a || sign b then Abort
  else
    let max_length := Nat.max (bi_length a) (bi_length b) in
    a_zero ← big_integer_is_zero a simd;
    b_zero ← big_integer_is_zero b simd;
    if a_zero && b_zero then Done false
    else if a_zero && negb (sign b) then Done false
    else Done (greater_than_loop max_length a b).

(** *** Signed addition and subtraction

    The two functions call each other.  The recursion is on [fuel];
    [call_depth] is enough for every pair of operands
    ([addition_fuel_enough], [subtraction_fuel_enough]).  The two operands
    are distinct objects at every call site. *)

Fixpoint addition_fuel (fuel : nat) (value_a value_b : big_integer) (simd : bool)
    {struct fuel} : outcome (big_integer * big_integer) :=
  match fuel with
  | O => OutOfFuel
  | S fuel' =>
      let a_sign := sign value_a in
      let b_sign := sign value_b in
      if a_sign && negb b_sign then
        '(a1, b1) ← subtraction_fuel fuel' (set_sign value_a false) value_b simd;
        Done (set_sign a1 (negb (sign a1)), b1)
      else if negb a_sign && b_sign then
        '(a1, b1) ← subtraction_fuel fuel' value_a (set_sign value_b false) simd;
        Done (a1, set_sign b1 true)
      else if simd then
        a1 ← big_integer_addition_simd value_a value_b;
        Done (a1, value_b)
      else Done (big_integer_addition_sisd value_a value_b, value_b)
  end
with subtraction_fuel (fuel : nat) (value_a value_b : big_integer) (simd : bool)
    {struct fuel} : outcome (big_integer * big_integer) :=
  match fuel with
  | O => OutOfFuel
  | S fuel' =>
      let a_sign := sign value_a in
      let b_sign := sign value_b in
      if negb a_sign && b_sign then
        '(a1, b1) ← addition_fuel fuel' value_a (set_sign value_b false) simd;
        Done (a1, set_sign b1 true)
      else if a_sign && negb b_sign then
        '(a1, b1) ← addition_fuel fuel' (set_sign value_a false) value_b simd;
        Done (negate_big_integer a1, b1)
      else if a_sign && b_sign then
        let value_a := set_sign value_a false in
        let b_copy :=
          clone_big_integer_add_size value_b
            (size_max 0 (uint64 (Z.of_nat (bi_length value_a)
                                 - Z.of_nat (bi_length value_b)))) in
        let b_copy := set_sign b_copy false in
        '(b_copy, value_a) ← subtraction_fuel fuel' b_copy value_a simd;
        Done (copy_big_integer_value_into_another b_copy value_a, value_b)
      else
        gt ← positive_big_integer_is_greater_than value_b value_a simd;
        if (gt : bool) then
          let b_copy := clone_big_integer value_b in
          '(value_b, value_a) ← subtraction_fuel fuel' value_b value_a simd;
          let value_b := negate_big_integer value_b in
          let value_a := copy_big_integer_value_into_another value_b value_a in
          let value_b := copy_big_integer_value_into_another b_copy value_b in
          Done (value_a, value_b)
        else if simd then
          a1 ← big_integer_subtraction_simd value_a value_b;
          Done (a1, value_b)
        else Done (big_integer_subtraction_sisd value_a value_b, value_b)
  end.

Definition call_depth : nat := 4.

Definition big_integer_addition (value_a value_b : big_integer) (simd : bool)
    : outcome (big_integer * big_integer) :=
  addition_fuel call_depth value_a value_b simd.

Definition big_integer_subtraction (value_a value_b : big_integer) (simd : bool)
    : outcome (big_integer * big_integer) :=
  subtraction_fuel call_depth value_a value_b simd.

(** *** Increment *)

Fixpoint increment_loop (n i : nat) (sgn : bool) (value : big_integer) : big_integer :=
  match n with
  | O => value
  | S n' =>
      let b := get_byte_value_of_big_integer value i in
      if negb sgn then
        let inc := uint16 (byte.unsigned b + 1) in
        let value := set_byte_value_of_big_integer value i (byte.of_Z inc) in
        let carry := to_bool (Z.shiftr inc 8) in
        if negb carry then value else increment_loop n' (S i) sgn value
      else if byte_eqb b Byte.x00 then increment_loop n' (S i) sgn value
      else
        increment_loop n' (S i) sgn
          (set_byte_value_of_big_integer value i (byte.of_Z (byte.unsigned b - 1)))
  end.

Definition big_integer_increment (value : big_integer) : big_integer :=
  increment_loop (bi_length value) 0 (sign value) value.

(** *** Shifts *)

Fixpoint shl_sisd_loop (n i : nat) (value : big_integer) (bit_count : Z) (carry : byte)
    : big_integer :=
  match n with
  | O => value
  | S n' =>
      let b := byte.unsigned (get_byte_value_of_big_integer value i) in
      let shifted := uint16 (Z.shiftl b bit_count) in
      let shifted := Z.lor shifted (byte.unsigned carry) in
      let lower_byte := byte.of_Z shifted in
      shl_sisd_loop n' (S i) (set_byte_value_of_big_integer value i lower_byte)
        bit_count (byte.of_Z (Z.shiftr shifted 8))
  end.

Definition big_integer_shl_bitwise_0_to_7__sisd (value : big_integer) (bit_count : Z)
    : big_integer :=
  shl_sisd_loop (bi_length value) 0 value bit_count Byte.x00.

Fixpoint shl_simd56_loop (fuel i : nat) (value : big_integer) (bit_count : Z)
    (carry : byte) : outcome (big_integer * nat * byte) :=
  match fuel with
  | O => OutOfFuel
  | S fuel' =>
      if (i + 6 <? bi_length value)%nat then
        value7 ← get_7_bytes__of_big_integer value i;
        let shifted := uint64 (Z.shiftl value7 bit_count) in
        let shifted := Z.lor shifted (byte.unsigned carry) in
        let lower7 := Z.land shifted 72057594037927935 in
        value' ← set_7_bytes__of_big_integer value i lower7;
        shl_simd56_loop fuel' (i + 7) value' bit_count (byte.of_Z (Z.shiftr shifted 56))
      else Done (value, i, carry)
  end.

Definition big_integer_shl_bitwise_0_to_7__simd56 (value : big_integer) (bit_count : Z)
    : outcome big_integer :=
  let len := bi_length value in
  '(v1, i1, c1) ← shl_simd56_loop (S len) 0 value bit_count Byte.x00;
  Done (shl_sisd_loop (len - i1) i1 v1 bit_count c1).

Definition big_integer_shl_bitwise_0_to_7 (value : big_integer) (bit_count : Z)
    (simd : bool) : outcome big_integer :=
  if simd then big_integer_shl_bitwise_0_to_7__simd56 value bit_count
  else Done (big_integer_shl_bitwise_0_to_7__sisd value bit_count).

(** The first loop of [big_integer_shl_byte_wise] runs from index
    [length - count - 1] downwards: the iteration with [n = S i] moves byte
    [i]. *)
Fixpoint shl_byte_wise_move (n : nat) (value : big_integer) (count : nat) : big_integer :=
  match n with
  | O => value
  | S i =>
      shl_byte_wise_move i
        (set_byte_value_of_big_integer value (i + count)
           (get_byte_value_of_big_integer value i)) count
  end.

Definition big_integer_shl_byte_wise (value : big_integer) (count : nat) : big_integer :=
  let value := shl_byte_wise_move (bi_length value - count) value count in
  set_zero_loop count 0 value.

(** *** Multiplication *)

Fixpoint multiply_uint8_loop (n : nat) (i : Z) (mul : byte) (result temp : big_integer)
    (to_shift : Z) (simd : bool) : outcome (big_integer * big_integer) :=
  match n with
  | O => Done (result, temp)
  | S n' =>
      let bit := to_bool (Z.land (Z.shiftr (byte.unsigned mul) i) 1) in
      if bit then
        '(temp, to_shift) ←
          (if negb (i =? 0) then
             temp' ← big_integer_shl_bitwise_0_to_7 temp
                       (byte.unsigned (byte.of_Z (1 + to_shift))) simd;
             Done (temp', 0)
           else Done (temp, to_shift));
        '(result, temp) ← big_integer_addition result temp simd;
        multiply_uint8_loop n' (i + 1) mul result temp to_shift simd
      else if negb (i =? 0) then
        multiply_uint8_loop n' (i + 1) mul result temp (to_shift + 1) simd
      else multiply_uint8_loop n' (i + 1) mul result temp to_shift simd
  end.

(** Returns the new values of [result] and [temp]; [value] is only read. *)
Definition big_integer_multiply_uint8 (value : big_integer) (mul : byte)
    (result temp : big_integer) (simd : bool) : outcome (big_integer * big_integer) :=
  let result := set_zero result in
  let temp := copy_big_integer_value_into_another value temp in
  multiply_uint8_loop 8 0 mul result temp 0 simd.

Fixpoint multiplication_loop (n i : nat) (a b res pp temp : big_integer) (simd : bool)
    : outcome (big_integer * big_integer * big_integer) :=
  match n with
  | O => Done (res, pp, temp)
  | S n' =>
      let b_i := get_byte_value_of_big_integer b i in
      if byte_eqb b_i Byte.x00 then multiplication_loop n' (S i) a b res pp temp simd
      else
        '(pp, temp) ← big_integer_multiply_uint8 a b_i pp temp simd;
        let pp := big_integer_shl_byte_wise pp i in
        '(res, pp) ← big_integer_addition res pp simd;
        multiplication_loop n' (S i) a b res pp temp simd
  end.

(** Returns the new value of [res]; [a] and [b] are only read. *)
Definition big_integer_multiplication (a b res : big_integer) (simd : bool)
    : outcome big_integer :=
  let b_len := bi_length b in
  let pp := create_big_integer (bi_length res) false in
  let temp := create_big_integer (bi_length a + 1) false in
  '(res, _, _) ← multiplication_loop b_len 0 a b res pp temp simd;
  Done (set_sign res ((sign a && negb (sign b)) || (sign b && negb (sign a)))).

(** The argument [abs(mul)] is converted to the [uint8_t] parameter. *)
Definition big_integer_multiply_int_neg256_to_256 (value : big_integer) (mul : Z)
    (result temp : big_integer) (simd : bool) : outcome (big_integer * big_integer) :=
  '(result, temp) ←
    big_integer_multiply_uint8 value (byte.of_Z (Z.abs mul)) result temp simd;
  Done (set_sign result ((sign value && (0 <? mul)) || (negb (sign value) && (mul <? 0))),
        temp).

(** *** Comparison with a small integer *)

Fixpoint greater_equal_int16_loop (n i : nat) (a : big_integer) (a_negative : bool)
    : bool :=
  match n with
  | O => if negb a_negative then false else true
  | S n' =>
      let b := byte.unsigned (get_byte_value_of_big_integer a i) in
      if a_negative && (0 <? b) then false
      else if negb a_negative && (0 <? b) then true
      else greater_equal_int16_loop n' (S i) a a_negative
  end.

Definition big_integer_greater_equal_int16 (a : big_integer) (b : Z) (simd : bool)
    : outcome bool :=
  let len := bi_length a in
  let a_negative := sign a in
  a_zero ← big_integer_is_zero a simd;
  let b_zero := b =? 0 in
  if a_zero && b_zero then Done true
  else if a_zero && (b <? 0) then Done true
  else if a_zero && (0 <? b) then Done false
  else if a_negative && (0 <=? b) then Done false
  else if negb a_negative && (b <=? 0) then Done true
  else
    let first_byte := byte.unsigned (get_byte_value_of_big_integer a 0) in
    if negb a_negative && (first_byte =? b) then Done true
    else if negb a_negative && (b <? first_byte) then Done true
    else if a_negative && (b <? first_byte) then Done false
    else Done (greater_equal_int16_loop (len - 1) 1 a a_negative).

(** *** Division by a small integer *)

(** The inner loop over the bits of byte [i], from bit 7 downwards: the
    iteration with [n = S j] handles bit [j]. *)
Fixpoint division_bit_loop (n : nat) (i : nat) (value quotient remainder
    divisor_big : big_integer) (div : byte) (simd : bool)
    : outcome (big_integer * big_integer * big_integer) :=
  match n with
  | O => Done (quotient, remainder, divisor_big)
  | S j =>
      remainder ← big_integer_shl_bitwise_0_to_7 remainder 1 simd;
      let bit_i :=
        to_bool (Z.land (Z.shiftr (byte.unsigned (get_byte_value_of_big_integer value i))
                                  (Z.of_nat j)) 1) in
      let remainder :=
        set_byte_value_of_big_integer remainder 0
          (byte.of_Z (Z.lor (byte.unsigned (get_byte_value_of_big_integer remainder 0))
                            (of_bool bit_i))) in
      b ← big_integer_greater_equal_int16 remainder (byte.unsigned div) simd;
      if (b : bool) then
        '(remainder, divisor_big) ← big_integer_subtraction remainder divisor_big simd;
        let quotient := set_bit_value_of_big_integer quotient (i * 8 + j) true in
        division_bit_loop j i value quotient remainder divisor_big div simd
      else division_bit_loop j i value quotient remainder divisor_big div simd
  end.

(** The outer loop over the bytes, from the most significant downwards. *)
Fixpoint division_byte_loop (n : nat) (value quotient remainder
    divisor_big : big_integer) (div : byte) (simd : bool)
    : outcome (big_integer * big_integer * big_integer) :=
  match n with
  | O => Done (quotient, remainder, divisor_big)
  | S i =>
      '(quotient, remainder, divisor_big) ←
        division_bit_loop 8 i value quotient remainder divisor_big div simd;
      division_byte_loop i value quotient remainder divisor_big div simd
  end.

(** Returns the remainder and the new values of [value], [temp_value] (the
    quotient is built in it) and [temp_value2] (the remainder is built in
    it). *)
Definition big_integer_division_int9_t (value : big_integer) (divisor : Z)
    (temp_value temp_value2 : big_integer) (simd : bool)
    : outcome (Z * big_integer * big_integer * big_integer) :=
  if divisor =? 0 then Abort
  else
    let div := byte.of_Z (Z.abs divisor) in
    let value_sign := sign value in
    let value := set_sign value false in
    let quotient := set_zero temp_value in
    let remainder := set_zero temp_value2 in
    let divisor_big := create_big_integer 2 false in
    let divisor_big :=
      set_byte_value_of_big_integer divisor_big 0 (byte.of_Z (Z.abs divisor)) in
    '(quotient, remainder, divisor_big) ←
      division_byte_loop (bi_length value) value quotient remainder divisor_big div simd;
    let value := copy_big_integer_value_into_another quotient value in
    let remainder16 := byte.unsigned (get_byte_value_of_big_integer remainder 0) in
    let value :=
      if (value_sign && (0 <? divisor)) || (negb value_sign && (divisor <? 0))
      then set_sign value true else value in
    let remainder16 := if value_sign then remainder16 * -1 else remainder16 in
    Done (remainder16, value, quotient, remainder).

(** ** [common.c] *)

(** A C string is the list of its characters before the terminator. *)
Definition cstring : Type := list byte.

Definition char_at (s : cstring) (i : nat) : byte := nth i s Byte.x00.

Fixpoint generate_lut_loop (n i : nat) (lut : list byte) (alph : cstring) : list byte :=
  match n with
  | O => lut
  | S n' =>
      generate_lut_loop n' (S i)
        (<[Z.to_nat (byte.unsigned (char_at alph i)) := byte.of_Z (Z.of_nat i)]> lut) alph
  end.

Definition generate_lut (lut : list byte) (alph_len : nat) (alph : cstring) : list byte :=
  generate_lut_loop alph_len 0 lut alph.

(** ** [impl_binary_conversion.c] *)

Definition char_minus : byte := Byte.x2d.
Definition char_plus : byte := Byte.x2b.
Definition char_star : byte := Byte.x2a.

Definition get_char_value (c : byte) (lookup : list byte) : byte :=
  nth (Z.to_nat (byte.unsigned c)) lookup Byte.x00.

(** The state of the parsing loop: the two accumulators, the two products,
    the weight and the two scratch integers.  [current_weight] and [temp]
    are pointers that the loop swaps: here the values change places. *)
Record parse_state : Type := mk_parse_state {
  ps_z1_binary : big_integer;
  ps_z2_binary : big_integer;
  ps_z1_temp : big_integer;
  ps_z2_temp : big_integer;
  ps_current_weight : big_integer;
  ps_temp : big_integer;
  ps_temp2 : big_integer
}.

Definition parse_digit (z : cstring) (z_length i : nat) (lookup : list byte)
    (current_weight z_binary z_temp temp2 : big_integer) (simd : bool)
    : outcome (big_integer * big_integer * big_integer) :=
  if (i <? z_length)%nat then
    let char_index := (z_length - 1 - i)%nat in
    let digit_value := get_char_value (char_at z char_index) lookup in
    '(z_temp, temp2) ←
      big_integer_multiply_uint8 current_weight digit_value z_temp temp2 simd;
    '(z_binary, z_temp) ← big_integer_addition z_binary z_temp simd;
    Done (z_binary, z_temp, temp2)
  else Done (z_binary, z_temp, temp2).

Fixpoint parse_loop (n i : nat) (base : Z) (z1 z2 : cstring) (z1_length z2_length : nat)
    (lookup : list byte) (st : parse_state) (simd : bool) : outcome parse_state :=
  match n with
  | O => Done st
  | S n' =>
      '(z1_binary, z1_temp, temp2) ←
        parse_digit z1 z1_length i lookup (ps_current_weight st) (ps_z1_binary st)
          (ps_z1_temp st) (ps_temp2 st) simd;
      '(z2_binary, z2_temp, temp2) ←
        parse_digit z2 z2_length i lookup (ps_current_weight st) (ps_z2_binary st)
          (ps_z2_temp st) temp2 simd;
      '(temp, temp2) ←
        big_integer_multiply_int_neg256_to_256 (ps_current_weight st) base
          (ps_temp st) temp2 simd;
      parse_loop n' (S i) base z1 z2 z1_length z2_length lookup
        {| ps_z1_binary := z1_binary; ps_z2_binary := z2_binary;
           ps_z1_temp := z1_temp; ps_z2_temp := z2_temp;
           ps_current_weight := temp; ps_temp := ps_current_weight st;
           ps_temp2 := temp2 |} simd
  end.

Definition convert_numbers_from_any_base_into_binary (base : Z) (alph z1 z2 : cstring)
    (z1_length z2_length : nat) (z1_binary z2_binary : big_integer) (simd : bool)
    : outcome (big_integer * big_integer) :=
  let lookup := generate_lut (replicate 256 Byte.x00) (length alph) alph in
  let z1_temp := create_big_integer (bi_length z1_binary) false in
  let z2_temp := create_big_integer (bi_length z2_binary) false in
  let max_length := Nat.max z1_length z2_length in
  let current_weight :=
    create_big_integer
      (get_big_integer_min_size_exponentiation base (Z.of_nat max_length)) false in
  let temp := create_big_integer (bi_length current_weight) false in
  let temp2 := create_big_integer (bi_length current_weight) false in
  let current_weight := set_byte_value_of_big_integer current_weight 0 Byte.x01 in
  st ← parse_loop max_length 0 base z1 z2 z1_length z2_length lookup
         {| ps_z1_binary := z1_binary; ps_z2_binary := z2_binary;
            ps_z1_temp := z1_temp; ps_z2_temp := z2_temp;
            ps_current_weight := current_weight; ps_temp := temp;
            ps_temp2 := temp2 |} simd;
  Done (ps_z1_binary st, ps_z2_binary st).

(** *** Projection to a positive base: Double Dabble *)

(** The adjustment of the digit cells after a shift. *)
Fixpoint dabble_loop (n j : nat) (calc_buffer : big_integer)
    (conversion_trigger carry_add : byte) : big_integer :=
  match n with
  | O => calc_buffer
  | S n' =>
      let b := get_byte_value_of_big_integer calc_buffer j in
      if byte.unsigned conversion_trigger <=? byte.unsigned b then
        let calc_buffer :=
          set_byte_value_of_big_integer calc_buffer j
            (byte.of_Z (byte.unsigned b + byte.unsigned carry_add)) in
        let calc_buffer :=
          set_byte_value_of_big_integer calc_buffer (j + 1)
            (byte.of_Z
               (byte.unsigned (get_byte_value_of_big_integer calc_buffer (j + 1)) + 1)) in
        dabble_loop n' (S j) calc_buffer conversion_trigger carry_add
      else dabble_loop n' (S j) calc_buffer conversion_trigger carry_add
  end.

(** One shift-and-adjust iteration on the digit buffer and the value that
    remains to be shifted in. *)
Definition double_dabble_step (calc_buffer remaining_value : big_integer)
    (conversion_trigger carry_add : byte) (simd : bool)
    : outcome (big_integer * big_integer) :=
  calc_buffer ← big_integer_shl_bitwise_0_to_7 calc_buffer 1 simd;
  let most_significant_bit := get_most_significant_bit remaining_value in
  let calc_buffer :=
    set_byte_value_of_big_integer calc_buffer 0
      (byte.of_Z (Z.lor (byte.unsigned (get_byte_value_of_big_integer calc_buffer 0))
                        (of_bool most_significant_bit))) in
  remaining_value ← big_integer_shl_bitwise_0_to_7 remaining_value 1 simd;
  Done (dabble_loop (bi_length calc_buffer) 0 calc_buffer conversion_trigger carry_add,
        remaining_value).

Fixpoint double_dabble_loop (n : nat) (calc_buffer remaining_value : big_integer)
    (conversion_trigger carry_add : byte) (simd : bool)
    : outcome (big_integer * big_integer) :=
  match n with
  | O => Done (calc_buffer, remaining_value)
  | S n' =>
      '(calc_buffer, remaining_value) ←
        double_dabble_step calc_buffer remaining_value conversion_trigger carry_add simd;
      double_dabble_loop n' calc_buffer remaining_value conversion_trigger carry_add simd
  end.

(** The index of the most significant digit cell that is not zero (0 when
    there is none): the iteration with [n = S i] inspects cell [i]. *)
Fixpoint start_nonzero_loop (n : nat) (calc_buffer : big_integer) : nat :=
  match n with
  | O => O
  | S i =>
      if negb (byte_eqb (get_byte_value_of_big_integer calc_buffer i) Byte.x00) then i
      else start_nonzero_loop i calc_buffer
  end.

(** The digits are written from cell [calc_buffer_start_nonzero] downwards
    at increasing positions of the output; [written] holds the characters
    written so far.  The loop stops early when the output is full. *)
Fixpoint output_loop (n : nat) (calc_buffer : big_integer) (alph : cstring)
    (buffer_length output_buffer_index : nat) (written : list byte) : list byte * nat :=
  match n with
  | O => (written, output_buffer_index)
  | S i =>
      if (buffer_length <=? output_buffer_index)%nat then (written, output_buffer_index)
      else
        let b := get_byte_value_of_big_integer calc_buffer i in
        let c := char_at alph (Z.to_nat (byte.unsigned b)) in
        output_loop i calc_buffer alph buffer_length (S output_buffer_index)
          (written ++ [c])
  end.

Definition convert_to_positive_base (value : big_integer) (base : Z) (alph : cstring)
    (buffer_length : nat) (simd : bool) : outcome cstring :=
  let conversion_trigger := byte.of_Z base in
  let carry_add := byte.of_Z (256 - base) in
  let calc_buffer := create_big_integer buffer_length false in
  let remaining_value := clone_big_integer value in
  let value_length := bi_length value in
  '(calc_buffer, remaining_value) ←
    double_dabble_loop (value_length * 8) calc_buffer remaining_value
      conversion_trigger carry_add simd;
  let calc_buffer_start_nonzero :=
    start_nonzero_loop (bi_length calc_buffer) calc_buffer in
  let output_buffer_index := if sign value then 1%nat else 0%nat in
  let '(digits, output_buffer_index) :=
    output_loop (S calc_buffer_start_nonzero) calc_buffer alph buffer_length
      output_buffer_index [] in
  if (buffer_length <=? output_buffer_index)%nat then Abort
  else Done ((if sign value then [char_minus] else []) ++ digits).

(** *** Projection to a negative base: repeated division *)

(** The [while] loop; [buffer] holds the digits written so far, least
    significant first. *)
Fixpoint negative_base_loop (fuel : nat) (value temp temp2 : big_integer) (base : Z)
    (alph : cstring) (buffer : list byte) (simd : bool) : outcome (list byte) :=
  match fuel with
  | O => OutOfFuel
  | S fuel' =>
      z ← big_integer_is_zero value simd;
      if (z : bool) then Done buffer
      else
        let base_abs := if base <? 0 then - base else base in
        '(remainder, value, temp, temp2) ←
          big_integer_division_int9_t value base temp temp2 simd;
        let '(remainder, value) :=
          if remainder <? 0 then (remainder + base_abs, big_integer_increment value)
          else (remainder, value) in
        if (remainder <? 0) || (Z.of_nat (length alph) <=? remainder) then Abort
        else
          negative_base_loop fuel' value temp temp2 base alph
            (buffer ++ [char_at alph (Z.to_nat remainder)]) simd
  end.

(** The reversal in place, with its check of the two indices. *)
Fixpoint reverse_loop (fuel : nat) (i j : nat) (buffer_length : nat) (buffer : list byte)
    : outcome (list byte) :=
  match fuel with
  | O => OutOfFuel
  | S fuel' =>
      if (j <? i)%nat then
        if (buffer_length <=? i)%nat || (buffer_length <=? j)%nat then Abort
        else
          let temp_start := nth j buffer Byte.x00 in
          let buffer := <[j := nth i buffer Byte.x00]> buffer in
          let buffer := <[i := temp_start]> buffer in
          reverse_loop fuel' (i - 1) (j + 1) buffer_length buffer
      else Done buffer
  end.

Definition convert_to_negative_base (fuel : nat) (value : big_integer) (base : Z)
    (alph : cstring) (buffer_length : nat) (simd : bool) : outcome cstring :=
  z ← big_integer_is_zero value simd;
  if (z : bool) then Done [char_at alph 0]
  else
    let temp := create_big_integer (bi_length value) false in
    let temp2 := create_big_integer (bi_length value) false in
    buffer ← negative_base_loop fuel value temp temp2 base alph [] simd;
    reverse_loop (S (length buffer)) (length buffer - 1) 0 buffer_length buffer.

(** The characters written to the output before the terminator.  [fuel]
    bounds the number of digits that the negative-base loop may produce. *)
Definition convert_big_integer_to_any_base (fuel : nat) (value : big_integer) (base : Z)
    (alph : cstring) (buffer_length : nat) (simd : bool) : outcome cstring :=
  if 0 <? base then convert_to_positive_base value base alph buffer_length simd
  else convert_to_negative_base fuel value base alph buffer_length simd.

(** *** The entry point *)

Definition arith_op_any_base__binary_conversion (fuel : nat) (base : Z)
    (alph z1 z2 : cstring) (op : byte) (simd : bool) : outcome cstring :=
  let z1_negative := (1 <? base) && byte_eqb (char_at z1 0) char_minus in
  let z2_negative := (1 <? base) && byte_eqb (char_at z2 0) char_minus in
  let z1_length := length z1 in
  let z2_length := length z2 in
  let z1_binary_minsize := get_big_integer_min_size base z1_length in
  let z2_binary_minsize := get_big_integer_min_size base z2_length in
  let z2_binary := create_big_integer z2_binary_minsize false in
  let addition_subtraction_min_result_size :=
    (Nat.max z1_binary_minsize z2_binary_minsize + 1)%nat in
  let z1_binary :=
    if byte_eqb op char_plus || byte_eqb op char_minus
    then create_big_integer addition_subtraction_min_result_size false
    else create_big_integer z1_binary_minsize false in
  '(z1_binary, z2_binary) ←
    convert_numbers_from_any_base_into_binary base alph z1 z2 z1_length z2_length
      z1_binary z2_binary simd;
  let z1_binary := if z1_negative then set_sign z1_binary true else z1_binary in
  let z2_binary := if z2_negative then set_sign z2_binary true else z2_binary in
  '(res, result_length) ←
    (if byte_eqb op char_plus then
       let result_length := (Nat.max z1_length z2_length + 2)%nat in
       let result_length :=
         if base <? 0 then (result_length + 1)%nat else result_length in
       '(z1_binary, _) ← big_integer_addition z1_binary z2_binary simd;
       Done (z1_binary, result_length)
     else if byte_eqb op char_minus then
       '(z1_binary, _) ← big_integer_subtraction z1_binary z2_binary simd;
       Done (z1_binary, (Nat.max z1_length z2_length + 3)%nat)
     else if byte_eqb op char_star then
       let res :=
         create_big_integer (bi_length z1_binary + bi_length z2_binary) false in
       res ← big_integer_multiplication z1_binary z2_binary res simd;
       Done (res, (Nat.max z1_length z2_length * 2 + 1)%nat)
     else Abort);
  z ← big_integer_is_zero res simd;
  let res := if (z : bool) then set_sign res false else res in
  convert_big_integer_to_any_base fuel res base alph result_length simd.

Definition arith_op_any_base__binary_conversion__sisd (fuel : nat) (base : Z)
    (alph z1 z2 : cstring) (op : byte) : outcome cstring :=
  arith_op_any_base__binary_conversion fuel base alph z1 z2 op false.

Definition arith_op_any_base__binary_conversion__simd (fuel : nat) (base : Z)
    (alph z1 z2 : cstring) (op : byte) : outcome cstring :=
  arith_op_any_base__binary_conversion fuel base alph z1 z2 op true.

Definition cstr (s : string) : cstring := list_byte_of_string s.

(** ** [impl_naive.c]

    The digit-wise core works on the strings themselves.  A string is the
    list of its characters; the capacity of the buffers that the C code
    writes to is not modelled.  The pointers that walk over the digits of an
    operand from its last character are the number [k] of iterations done:
    [current_digit_a] is [a_ms_digit + a_len - 1 - k].  The result is written
    least significant digit first and reversed at the end.

    The lookup table of these functions is a local array that is not
    initialised: [lut0] is its content on entry. *)

Module Naive.

Fixpoint add_sub_unsigned_loop (fuel : nat) (add : bool) (base_abs carry_offset : Z)
    (alph : cstring) (lut : list byte) (z1 z2 : cstring) (k : nat) (carry : Z)
    (result : list byte) : outcome (list byte) :=
  match fuel with
  | O => OutOfFuel
  | S fuel' =>
      let a_len := length z1 in
      let b_len := length z2 in
      if (k <? a_len)%nat || (k <? b_len)%nat || negb (carry =? 0) then
        let a := if (k <? a_len)%nat then char_at z1 (a_len - 1 - k) else char_at alph 0 in
        let b := if (k <? b_len)%nat then char_at z2 (b_len - 1 - k) else char_at alph 0 in
        let a_idx := byte.unsigned (get_char_value a lut) in
        let b_idx := byte.unsigned (get_char_value b lut) in
        let sum_idx := (if add then a_idx + b_idx else a_idx - b_idx) + carry in
        if base_abs <=? sum_idx then
          add_sub_unsigned_loop fuel' add base_abs carry_offset alph lut z1 z2 (S k)
            carry_offset (result ++ [char_at alph (Z.to_nat (sum_idx - base_abs))])
        else if sum_idx <? 0 then
          add_sub_unsigned_loop fuel' add base_abs carry_offset alph lut z1 z2 (S k)
            (- carry_offset) (result ++ [char_at alph (Z.to_nat (sum_idx + base_abs))])
        else
          add_sub_unsigned_loop fuel' add base_abs carry_offset alph lut z1 z2 (S k)
            0 (result ++ [char_at alph (Z.to_nat sum_idx)])
      else Done result
  end.

(** The loop that strips the leading zeros of the result: [e] is the
    offset of [current_digit_result]. *)
Fixpoint strip_leading_zeros_loop (n : nat) (result : list byte) (zero : byte) (e : nat)
    : nat :=
  match n with
  | O => e
  | S n' =>
      if (1 <? e)%nat && byte_eqb (char_at result (e - 1)) zero
      then strip_leading_zeros_loop n' result zero (e - 1)
      else e
  end.

(** The reversal of a string in place. *)
Fixpoint reverse_string_loop (n : nat) (i j : nat) (s : list byte) : list byte :=
  match n with
  | O => s
  | S n' =>
      if (i <? j)%nat then
        let tmp := char_at s i in
        let s := <[i := char_at s j]> s in
        let s := <[j := tmp]> s in
        reverse_string_loop n' (S i) (j - 1) s
      else s
  end.

Definition reverse_string (s : list byte) : list byte :=
  reverse_string_loop (length s) 0 (length s - 1) s.

Definition add_sub_unsigned (fuel : nat) (lut0 : list byte) (add negate : bool) (base : Z)
    (alph z1 z2 : cstring) : outcome cstring :=
  let carry_offset := if base <? 0 then -1 else 1 in
  let base_abs := Z.abs base in
  let lut := generate_lut lut0 (Z.to_nat base_abs) alph in
  result ← add_sub_unsigned_loop fuel add base_abs carry_offset alph lut z1 z2 0 0 [];
  let e := strip_leading_zeros_loop (length result) result (char_at alph 0) (length result) in
  let result := take e result in
  let result :=
    if negate && negb (byte_eqb (char_at result (e - 1)) (char_at alph 0))
    then result ++ [char_minus] else result in
  Done (reverse_string result).

(** The loop runs over the characters up to the terminator, which
    [char_at] reads as the zero byte. *)
Fixpoint cmp_unsigned_loop (n : nat) (lut : list byte) (z1 z2 : cstring) (i : nat) : Z :=
  match n with
  | O => 0
  | S n' =>
      let c1 := byte.unsigned (get_char_value (char_at z1 i) lut) in
      let c2 := byte.unsigned (get_char_value (char_at z2 i) lut) in
      if c1 <? c2 then -1
      else if c2 <? c1 then 1
      else if negb (byte_eqb (char_at z1 (S i)) Byte.x00)
           then cmp_unsigned_loop n' lut z1 z2 (S i)
           else 0
  end.

Definition cmp_unsigned_pos_base (lut0 : list byte) (base : Z) (alph z1 z2 : cstring) : Z :=
  let z1_len := length z1 in
  let z2_len := length z2 in
  if (z1_len <? z2_len)%nat then -1
  else if (z2_len <? z1_len)%nat then 1
  else
    let lut := generate_lut lut0 (Z.to_nat base) alph in
    cmp_unsigned_loop z1_len lut z1 z2 0.

Definition sub_unsigned_to_signed (fuel : nat) (lut0 : list byte) (base : Z)
    (alph z1 z2 : cstring) : outcome cstring :=
  if cmp_unsigned_pos_base lut0 base alph z1 z2 <? 0
  then add_sub_unsigned fuel lut0 false true base alph z2 z1
  else add_sub_unsigned fuel lut0 false false base alph z1 z2.

(** The two inner loops that reduce a product to a digit and a carry. *)
Fixpoint carry_add_loop (fuel : nat) (prod_idx carry base_abs carry_offset : Z)
    : outcome (Z * Z) :=
  match fuel with
  | O => OutOfFuel
  | S fuel' =>
      if base_abs <=? prod_idx
      then carry_add_loop fuel' (prod_idx - base_abs) (carry + carry_offset) base_abs
             carry_offset
      else Done (prod_idx, carry)
  end.

Fixpoint carry_sub_loop (fuel : nat) (prod_idx carry base_abs carry_offset : Z)
    : outcome (Z * Z) :=
  match fuel with
  | O => OutOfFuel
  | S fuel' =>
      if prod_idx <? 0
      then carry_sub_loop fuel' (prod_idx + base_abs) (carry - carry_offset) base_abs
             carry_offset
      else Done (prod_idx, carry)
  end.

Fixpoint mul_unsigned_loop (fuel : nat) (base_abs carry_offset : Z) (alph : cstring)
    (lut : list byte) (z1 : cstring) (b_idx : Z) (k : nat) (carry : Z)
    (result : list byte) : outcome (list byte) :=
  match fuel with
  | O => OutOfFuel
  | S fuel' =>
      let a_len := length z1 in
      if (k <? a_len)%nat || negb (carry =? 0) then
        let a := if (k <? a_len)%nat then char_at z1 (a_len - 1 - k) else char_at alph 0 in
        let a_idx := byte.unsigned (get_char_value a lut) in
        let prod_idx := a_idx * b_idx + carry in
        '(prod_idx, carry) ←
          (if base_abs <=? prod_idx
           then carry_add_loop fuel' prod_idx 0 base_abs carry_offset
           else if prod_idx <? 0
                then carry_sub_loop fuel' prod_idx 0 base_abs carry_offset
                else Done (prod_idx, 0));
        mul_unsigned_loop fuel' base_abs carry_offset alph lut z1 b_idx (S k) carry
          (result ++ [char_at alph (Z.to_nat prod_idx)])
      else Done result
  end.

Definition mul_unsigned_and_shift_left (fuel : nat) (lut0 : list byte) (shift : nat)
    (base : Z) (alph z1 : cstring) (z2 : byte) : outcome cstring :=
  let carry_offset := if base <? 0 then -1 else 1 in
  let base_abs := Z.abs base in
  let lut := generate_lut lut0 (Z.to_nat base_abs) alph in
  let b_idx := byte.unsigned (get_char_value z2 lut) in
  result ← mul_unsigned_loop fuel base_abs carry_offset alph lut z1 b_idx 0 0 [];
  let e := strip_leading_zeros_loop (length result) result (char_at alph 0) (length result) in
  let result := reverse_string (take e result) in
  Done (result ++ replicate shift (char_at alph 0)).

(** The loop over all but the most significant digit of the multiplier
    [b]: [tmp_result_1] holds the sum of the partial products. *)
Fixpoint mul_unsigned_sum_loop (n : nat) (fuel : nat) (lut0 : list byte) (i : nat)
    (base : Z) (alph a b : cstring) (max_shift : nat) (tmp_result_1 : cstring)
    : outcome cstring :=
  match n with
  | O => Done tmp_result_1
  | S n' =>
      tmp_result_2 ←
        mul_unsigned_and_shift_left fuel lut0 i base alph a (char_at b (max_shift - i));
      tmp_result_3 ← add_sub_unsigned fuel lut0 true false base alph tmp_result_1 tmp_result_2;
      mul_unsigned_sum_loop n' fuel lut0 (S i) base alph a b max_shift tmp_result_3
  end.

Definition mul_unsigned (fuel : nat) (lut0 : list byte) (negate : bool) (base : Z)
    (alph z1 z2 : cstring) : outcome cstring :=
  let tmp_result_1 := [char_at alph 0] in
  let z1_len := length z1 in
  let z2_len := length z2 in
  let '(a, b, max_shift) :=
    if (z2_len <=? z1_len)%nat then (z1, z2, (z2_len - 1)%nat)
    else (z2, z1, (z1_len - 1)%nat) in
  tmp_result_1 ←
    mul_unsigned_sum_loop max_shift fuel lut0 0 base alph a b max_shift tmp_result_1;
  tmp_result_2 ←
    mul_unsigned_and_shift_left fuel lut0 max_shift base alph a
      (char_at b (max_shift - max_shift));
  add_sub_unsigned fuel lut0 true negate base alph tmp_result_1 tmp_result_2.

(** Returns the string without the sign and whether the sign is positive. *)
Definition strip_sign (z : cstring) : cstring * bool :=
  if byte_eqb (char_at z 0) char_minus then (tail z, false) else (z, true).

Fixpoint strip_zeroes (z : cstring) (zero : byte) : cstring :=
  match z with
  | c :: t =>
      if byte_eqb c zero && negb (byte_eqb (char_at t 0) Byte.x00)
      then strip_zeroes t zero else z
  | [] => z
  end.

(** [result] is the content of the result buffer on entry: an operator that
    is not legal leaves it as it is. *)
Definition impl_naive (fuel : nat) (lut0 : list byte) (base : Z) (alph z1 z2 : cstring)
    (op : byte) (result : cstring) : outcome cstring :=
  if base <? 0 then
    let z1 := strip_zeroes z1 (char_at alph 0) in
    let z2 := strip_zeroes z2 (char_at alph 0) in
    if byte_eqb op char_plus then add_sub_unsigned fuel lut0 true false base alph z1 z2
    else if byte_eqb op char_minus then add_sub_unsigned fuel lut0 false false base alph z1 z2
    else if byte_eqb op char_star then mul_unsigned fuel lut0 false base alph z1 z2
    else Done result
  else
    let '(z1, z1_pos) := strip_sign z1 in
    let '(z2, z2_pos) := strip_sign z2 in
    let z1 := strip_zeroes z1 (char_at alph 0) in
    let z2 := strip_zeroes z2 (char_at alph 0) in
    if byte_eqb op char_plus then
      if z1_pos && z2_pos then add_sub_unsigned fuel lut0 true false base alph z1 z2
      else if z1_pos then sub_unsigned_to_signed fuel lut0 base alph z1 z2
      else if z2_pos then sub_unsigned_to_signed fuel lut0 base alph z2 z1
      else add_sub_unsigned fuel lut0 true true base alph z1 z2
    else if byte_eqb op char_minus then
      if z1_pos && z2_pos then sub_unsigned_to_signed fuel lut0 base alph z1 z2
      else if z1_pos then add_sub_unsigned fuel lut0 true false base alph z1 z2
      else if z2_pos then add_sub_unsigned fuel lut0 true true base alph z1 z2
      else sub_unsigned_to_signed fuel lut0 base alph z2 z1
    else if byte_eqb op char_star then
      if negb (Bool.eqb z1_pos z2_pos) then mul_unsigned fuel lut0 true base alph z1 z2
      else mul_unsigned fuel lut0 false base alph z1 z2
    else Done result.

End Naive.

(** ** [util.c] and [main.c]: the size of the result buffer and the checks of the input

    [exit_err_msg] prints a message and ends the process: the outcome
    [Abort].  [size_t] arithmetic is done modulo [2 ^ 64]. *)

Definition max_chars (a b : cstring) : Z :=
  let n_a := Z.of_nat (length a) in
  let n_b := Z.of_nat (length b) in
  if n_b <? n_a then n_a else n_b.

Definition max_needed_chars_mul (a b : cstring) : Z := uint64 (max_chars a b * 2 + 1).

Definition max_needed_chars_add_sub (a b : cstring) : Z := uint64 (max_chars a b + 2).

(** [isprint] in the C locale. *)
Definition isprint (c : byte) : bool :=
  (32 <=? byte.unsigned c) && (byte.unsigned c <=? 126).

(** The characters from ['0'] on; [c] is the [char] that the loop increments. *)
Fixpoint create_alph_loop (n : nat) (c : Z) : cstring :=
  match n with
  | O => []
  | S n' => byte.of_Z c :: create_alph_loop n' (c + 1)
  end.

Definition create_alph (base_abs : nat) : cstring := create_alph_loop base_abs 48.

(** The inner loop of [check_alphabet]: the search for a second occurrence
    of [alph[i]] from index [j] on. *)
Fixpoint check_alphabet_inner (n : nat) (alph : cstring) (i j : nat) : outcome unit :=
  match n with
  | O => Done tt
  | S n' =>
      if byte_eqb (char_at alph i) (char_at alph j) then Abort
      else check_alphabet_inner n' alph i (S j)
  end.

Fixpoint check_alphabet_loop (n : nat) (alph : cstring) (base : Z) (i : nat) : outcome unit :=
  match n with
  | O => Done tt
  | S n' =>
      if (0 <? base) && byte_eqb (char_at alph i) char_minus then Abort
      else if negb (isprint (char_at alph i)) then Abort
      else
        _ ← check_alphabet_inner (length alph - (i + 1)) alph i (i + 1);
        check_alphabet_loop n' alph base (S i)
  end.

Definition check_alphabet (alph : cstring) (base : Z) : outcome unit :=
  let length := length alph in
  _ ← check_alphabet_loop length alph base 0;
  if negb (Z.of_nat length =? Z.abs base) then Abort else Done tt.

(** [strchr]: the index of the first occurrence of [c] in the string, whose
    terminator counts as part of it. *)
Fixpoint strchr (s : cstring) (c : byte) : option nat :=
  match s with
  | [] => if byte_eqb c Byte.x00 then Some 0%nat else None
  | a :: t => if byte_eqb a c then Some 0%nat else option_map S (strchr t c)
  end.

Fixpoint check_numbers_loop (n : nat) (z alph : cstring) (i : nat) : outcome unit :=
  match n with
  | O => Done tt
  | S n' =>
      match strchr alph (char_at z i) with
      | None => Abort
      | Some _ => check_numbers_loop n' z alph (S i)
      end
  end.

Definition check_numbers (z1 z2 alph : cstring) (base : Z) : outcome unit :=
  let z1 := if (0 <? base) && byte_eqb (char_at z1 0) char_minus then tail z1 else z1 in
  let z2 := if (0 <? base) && byte_eqb (char_at z2 0) char_minus then tail z2 else z2 in
  let len1 := length z1 in
  let len2 := length z2 in
  if (len1 <? 1)%nat then Abort
  else if (len2 <? 1)%nat then Abort
  else
    _ ← check_numbers_loop len1 z1 alph 0;
    check_numbers_loop len2 z2 alph 0.


(** ** Notions used in the statements *)

(** The value of a sign-magnitude integer. *)
Definition bi_value (v : big_integer) : Z :=
  if sign v then - le_val (mem v) else le_val (mem v).

(** The value of the [n] bytes of [v] from index [i]; bytes beyond the end of
    the buffer count as zero. *)
Definition seg_val (v : big_integer) (i n : nat) : Z := le_val (take n (drop i (mem v))).

(** Two integers have the same magnitude when they agree byte by byte, a
    byte beyond the end of a buffer counting as zero. *)
Definition same_magnitude (a b : big_integer) : Prop :=
  forall k, get_byte_value_of_big_integer a k = get_byte_value_of_big_integer b k.

Definition magnitude_is_zero (a : big_integer) : Prop :=
  forall k, get_byte_value_of_big_integer a k = Byte.x00.

(** The carry that the byte loop of the shift holds after [n] bytes. *)
Definition shl_carry (v : big_integer) (i n : nat) (k : Z) (c : byte) : byte :=
  byte.of_Z ((seg_val v i n * 2 ^ k + byte.unsigned c) / 256 ^ Z.of_nat n).

(** Inputs of the examples. *)
Definition positive_zero : big_integer := {| sign := false; mem := [Byte.x00] |}.
Definition negative_zero : big_integer := {| sign := true; mem := [Byte.x00] |}.
Definition minus_one : big_integer := {| sign := true; mem := [Byte.x01] |}.
Definition minus_256 : big_integer := {| sign := true; mem := [Byte.x00; Byte.x01] |}.
Definition minus_257 : big_integer := {| sign := true; mem := [Byte.x01; Byte.x01] |}.

(** The state of the long division when the bits of the dividend [V] from
    bit [K] upwards have been consumed: the quotient buffer holds the
    quotient of those bits by [d], shifted back into place, and the
    remainder buffer holds their remainder. *)
Definition division_invariant (V d : Z) (lq lr : nat) (K : Z)
    (quotient remainder : big_integer) : Prop :=
  sign quotient = false /\ sign remainder = false /\
  bi_length quotient = lq /\ bi_length remainder = lr /\
  le_val (mem quotient) = (V / 2 ^ K / d) * 2 ^ K /\
  le_val (mem remainder) = (V / 2 ^ K) mod d.

(** Inputs of the example for the division. *)
Definition two_bytes_256 : big_integer := {| sign := false; mem := [Byte.x00; Byte.x01] |}.
Definition two_bytes_zero : big_integer := {| sign := false; mem := [Byte.x00; Byte.x00] |}.

(** Every cell of a digit buffer holds a digit of the base [b]. *)
Definition digits_below (b : Z) (calc_buffer : big_integer) : Prop :=
  forall k, 0 <= byte.unsigned (get_byte_value_of_big_integer calc_buffer k) < b.

(** The value of a list of digits, least significant digit first. *)
Fixpoint digits_value (base : Z) (ds : list Z) : Z :=
  match ds with
  | [] => 0
  | d :: t => d + base * digits_value base t
  end.

(** The lookup table that the conversion builds for an alphabet, and the
    digits of a string under it, least significant digit first. *)
Definition lookup_of (alph : cstring) : list byte :=
  generate_lut (replicate 256 Byte.x00) (length alph) alph.

Definition digit_of (alph : cstring) (c : byte) : Z :=
  byte.unsigned (get_char_value c (lookup_of alph)).

Definition digits_of (alph z : cstring) : list Z := rev (map (digit_of alph) z).

Definition number_value (base : Z) (alph z : cstring) : Z :=
  digits_value base (digits_of alph z).

Definition digit_list (base : Z) (ds : list Z) : Prop :=
  Forall (fun d => 0 <= d < Z.abs base) ds.

(** A digit list without its most significant zero digits; the list of the
    number zero is empty. *)
Fixpoint trim (ds : list Z) : list Z :=
  match ds with
  | [] => []
  | d :: t =>
      match trim t with
      | [] => if d =? 0 then [] else [d]
      | t' => d :: t'
      end
  end.

(** The character of a digit and the string of a trimmed digit list, most
    significant digit first; the number zero is the single zero digit. *)
Definition char_of (alph : cstring) (d : Z) : byte := char_at alph (Z.to_nat d).

Definition digits_string (alph : cstring) (cs : list Z) : cstring :=
  match cs with
  | [] => [char_at alph 0]
  | _ => rev (map (char_of alph) cs)
  end.

(** The value of the digit cells of the Double Dabble buffer. *)
Definition cells (calc_buffer : big_integer) : list Z := map byte.unsigned (mem calc_buffer).

Definition cells_value (base : Z) (calc_buffer : big_integer) : Z :=
  digits_value base (cells calc_buffer).

(** An alphabet of a base has as many characters as the base has digits,
    all distinct, and does not contain the minus sign when the base is
    positive. *)
Definition valid_alphabet (base : Z) (alph : cstring) : Prop :=
  Z.of_nat (length alph) = Z.abs base /\ NoDup alph /\
  (0 < base -> ~ In char_minus alph).

(** The digits of a number: the string without the minus sign that may
    precede the digits in a positive base.  The test is the one of the
    entry point. *)
Definition has_minus (base : Z) (z : cstring) : bool :=
  (1 <? base) && byte_eqb (char_at z 0) char_minus.

Definition digit_chars (base : Z) (z : cstring) : cstring :=
  if has_minus base z then tail z else z.

Definition valid_number (base : Z) (alph z : cstring) : Prop :=
  digit_chars base z <> [] /\ Forall (fun c => In c alph) (digit_chars base z).

(** The canonical form of a number: the leading zero digits that are
    redundant are stripped, and the minus sign is kept unless what remains
    is the single zero digit. *)
Fixpoint strip_zeroes (zero : byte) (s : cstring) : cstring :=
  match s with
  | c :: (_ :: _) as t => if byte_eqb c zero then strip_zeroes zero t else s
  | _ => s
  end.

Definition is_zero_string (zero : byte) (s : cstring) : bool :=
  match s with
  | [c] => byte_eqb c zero
  | _ => false
  end.

Definition canonicalize (base : Z) (alph z : cstring) : cstring :=
  let zero := char_at alph 0 in
  let digits := strip_zeroes zero (digit_chars base z) in
  if has_minus base z && negb (is_zero_string zero digits) then char_minus :: digits
  else digits.

(** The number of iterations that the digit loops of the digit-wise core
    still need when [m] digits remain and the carry is [carry]. *)
Definition steps_left (m : nat) (carry : Z) : nat :=
  match m with
  | O => if carry =? 0 then 0 else if 0 <? carry then 1 else 2
  | S _ => m + 2
  end.
(** The number that a string stands for: in a positive base a minus sign
    before the digits negates their value. *)
Definition signed_value (base : Z) (alph z : cstring) : Z :=
  if has_minus base z then - number_value base alph (digit_chars base z)
  else number_value base alph (digit_chars base z).

(** [s] is the numeral of [v]: its digits without redundant leading zeros,
    after a minus sign when the base is positive and [v] is negative. *)
Definition numeral_of (base : Z) (alph : cstring) (v : Z) (s : cstring) : Prop :=
  exists W,
    digit_list base W /\
    digits_value base W = (if 0 <? base then Z.abs v else v) /\
    s = (if (0 <? base) && (v <? 0) then [char_minus] else [])
        ++ digits_string alph (trim W).

(** The operation that an operator character selects. *)
Definition arith (op : byte) (v1 v2 : Z) : Z :=
  if byte_eqb op char_plus then v1 + v2
  else if byte_eqb op char_minus then v1 - v2
  else v1 * v2.

(** The least and the greatest number that [k] digits can write. *)
Fixpoint digit_range (base : Z) (k : nat) : Z * Z :=
  match k with
  | O => (0, 0)
  | S k' =>
      let '(lo, hi) := digit_range base k' in
      if 0 <? base then (base * lo, Z.abs base - 1 + base * hi)
      else (base * hi, Z.abs base - 1 + base * lo)
  end.

(** * Properties *)

(** ** Bytes, buffers and their values *)

Lemma byte_eqb_eq (x y : byte) : byte_eqb x y = true <-> x = y.
Proof.
  unfold byte_eqb. rewrite Z.eqb_eq. split; [apply byte.unsigned_inj | congruence].
Qed.

Lemma byte_eqb_refl (x : byte) : byte_eqb x x = true.
Proof. by apply byte_eqb_eq. Qed.

Lemma byte_eqb_zero (x : byte) : byte_eqb x Byte.x00 = (byte.unsigned x =? 0).
Proof. reflexivity. Qed.

Lemma byte_range (x : byte) : 0 <= byte.unsigned x < 256.
Proof. apply byte.unsigned_range. Qed.

Lemma unsigned_of_Z_mod (z : Z) : byte.unsigned (byte.of_Z z) = z mod 256.
Proof. apply byte.unsigned_of_Z. Qed.

Lemma unsigned_of_Z_small (z : Z) : 0 <= z < 256 -> byte.unsigned (byte.of_Z z) = z.
Proof. intros H. rewrite unsigned_of_Z_mod. by apply Z.mod_small. Qed.

Lemma le_val_nonneg (l : list byte) : 0 <= le_val l.
Proof. induction l as [|x l IH]; simpl; [lia|]. pose proof (byte_range x). lia. Qed.

Lemma le_val_bound (l : list byte) : 0 <= le_val l < 256 ^ Z.of_nat (length l).
Proof.
  induction l as [|x l IH]; [simpl; lia|].
  cbn [le_val length]. rewrite Nat2Z.inj_succ, Z.pow_succ_r by lia.
  pose proof (byte_range x). lia.
Qed.

Lemma le_val_app (l1 l2 : list byte) :
  le_val (l1 ++ l2) = le_val l1 + 256 ^ Z.of_nat (length l1) * le_val l2.
Proof.
  induction l1 as [|x l1 IH]; [simpl; lia|].
  cbn [le_val length app]. rewrite IH, Nat2Z.inj_succ, Z.pow_succ_r by lia. lia.
Qed.

Lemma le_val_replicate_zero (n : nat) : le_val (replicate n Byte.x00) = 0.
Proof. induction n as [|n IH]; simpl; [done|]. rewrite IH. done. Qed.

Lemma le_val_zero_iff (l : list byte) : le_val l = 0 <-> Forall (fun x => x = Byte.x00) l.
Proof.
  induction l as [|x l IH]; simpl.
  - split; [constructor | done].
  - pose proof (byte_range x). pose proof (le_val_nonneg l). split.
    + intros H1. constructor.
      * apply byte.unsigned_inj. change (byte.unsigned Byte.x00) with 0. lia.
      * apply IH. lia.
    + intros H1. inversion H1 as [|? ? Hx Hl]; subst.
      apply IH in Hl. rewrite Hl. done.
Qed.

Lemma length_le_bytes (n : nat) (z : Z) : length (le_bytes n z) = n.
Proof. revert z. induction n as [|n IH]; intros z; simpl; [done|]. by rewrite IH. Qed.

Lemma le_val_le_bytes (n : nat) (z : Z) :
  le_val (le_bytes n z) = z mod 256 ^ Z.of_nat n.
Proof.
  revert z. induction n as [|n IH]; intros z.
  - simpl. by rewrite Z.mod_1_r.
  - cbn [le_bytes le_val]. rewrite IH, unsigned_of_Z_mod.
    rewrite Nat2Z.inj_succ, Z.pow_succ_r by lia.
    rewrite Z.rem_mul_r by lia. lia.
Qed.

Lemma le_bytes_le_val (l : list byte) : le_bytes (length l) (le_val l) = l.
Proof.
  induction l as [|x l IH]; [done|].
  cbn [length le_bytes le_val]. pose proof (byte_range x). f_equal.
  - apply byte.unsigned_inj. rewrite unsigned_of_Z_mod.
    generalize (le_val l). intros w. Z.div_mod_to_equations. lia.
  - transitivity (le_bytes (length l) (le_val l)); [f_equal | exact IH].
    generalize (le_val l). intros w. Z.div_mod_to_equations. lia.
Qed.

Lemma le_val_inj (l1 l2 : list byte) :
  length l1 = length l2 -> le_val l1 = le_val l2 -> l1 = l2.
Proof.
  intros Hlen Hval. rewrite <- (le_bytes_le_val l1), <- (le_bytes_le_val l2).
  by rewrite Hlen, Hval.
Qed.

Lemma le_bytes_mod (n : nat) (z : Z) : le_bytes n (z mod 256 ^ Z.of_nat n) = le_bytes n z.
Proof.
  apply le_val_inj; [by rewrite !length_le_bytes|].
  rewrite !le_val_le_bytes. apply Z.mod_mod. lia.
Qed.

Lemma le_bytes_app (n m : nat) (z : Z) :
  le_bytes (n + m) z = le_bytes n z ++ le_bytes m (z / 256 ^ Z.of_nat n).
Proof.
  revert z. induction n as [|n IH]; intros z.
  - simpl. by rewrite Z.div_1_r.
  - cbn [Nat.add le_bytes app]. rewrite IH. do 2 f_equal.
    rewrite Nat2Z.inj_succ, Z.pow_succ_r by lia.
    rewrite Z.div_div by lia. done.
Qed.

(** ** Accessors *)

Lemma bi_length_set_byte v i x : bi_length (set_byte_value_of_big_integer v i x) = bi_length v.
Proof. unfold bi_length. simpl. apply length_insert. Qed.

Lemma sign_set_byte v i x : sign (set_byte_value_of_big_integer v i x) = sign v.
Proof. done. Qed.

Lemma get_set_byte_eq v i x :
  (i < bi_length v)%nat ->
  get_byte_value_of_big_integer (set_byte_value_of_big_integer v i x) i = x.
Proof.
  intros H. unfold get_byte_value_of_big_integer. simpl.
  rewrite nth_lookup, list_lookup_insert_eq; done.
Qed.

Lemma get_set_byte_ne v i j x :
  i <> j ->
  get_byte_value_of_big_integer (set_byte_value_of_big_integer v i x) j =
  get_byte_value_of_big_integer v j.
Proof.
  intros H. unfold get_byte_value_of_big_integer. simpl.
  rewrite !nth_lookup, list_lookup_insert_ne; done.
Qed.

Lemma get_byte_overflow v i :
  (bi_length v <= i)%nat -> get_byte_value_of_big_integer v i = Byte.x00.
Proof. intros H. unfold get_byte_value_of_big_integer. by apply nth_overflow. Qed.

Lemma drop_get v i :
  (i < bi_length v)%nat ->
  drop i (mem v) = get_byte_value_of_big_integer v i :: drop (S i) (mem v).
Proof.
  intros H. unfold get_byte_value_of_big_integer.
  destruct (lookup_lt_is_Some_2 (mem v) i H) as [x Hx].
  rewrite nth_lookup, Hx. simpl. by apply drop_S.
Qed.

(** ** The zero test: the vectorised path agrees with the sequential one *)

Lemma is_zero_loop_seg n i v :
  (i + n <= bi_length v)%nat ->
  is_zero_loop n i v = (le_val (take n (drop i (mem v))) =? 0).
Proof.
  revert i. induction n as [|n IH]; intros i Hi; [done|].
  rewrite drop_get by lia. cbn [is_zero_loop take le_val].
  rewrite byte_eqb_zero, IH by lia.
  pose proof (byte_range (get_byte_value_of_big_integer v i)).
  pose proof (le_val_nonneg (take n (drop (S i) (mem v)))).
  destruct (Z.eqb_spec (byte.unsigned (get_byte_value_of_big_integer v i)) 0);
    destruct (Z.eqb_spec (le_val (take n (drop (S i) (mem v)))) 0);
    symmetry; try (apply Z.eqb_eq; lia); apply Z.eqb_neq; lia.
Qed.

Lemma is_zero_loop_app n m i v :
  is_zero_loop (n + m) i v = is_zero_loop n i v && is_zero_loop m (i + n) v.
Proof.
  revert i. induction n as [|n IH]; intros i.
  - simpl. by rewrite Nat.add_0_r.
  - cbn [Nat.add is_zero_loop]. destruct (byte_eqb _ _); [|done].
    rewrite IH. do 2 f_equal. lia.
Qed.

Lemma is_zero_loop_true n i v :
  is_zero_loop n i v = true <->
  forall k, (i <= k < i + n)%nat -> get_byte_value_of_big_integer v k = Byte.x00.
Proof.
  revert i. induction n as [|n IH]; intros i.
  - simpl. split; [intros _ k Hk; lia | done].
  - cbn [is_zero_loop].
    destruct (byte_eqb _ _) eqn:E.
    + apply byte_eqb_eq in E. rewrite IH. split.
      * intros H k Hk. destruct (decide (k = i)) as [->|]; [done|]. apply H. lia.
      * intros H k Hk. apply H. lia.
    + split; [done|]. intros H. rewrite (H i), byte_eqb_refl in E by lia. done.
Qed.

Lemma is_zero_simd_loop15_spec fuel i v :
  (i <= bi_length v)%nat -> (bi_length v + 1 <= fuel + i)%nat ->
  exists r, is_zero_simd_loop15 fuel i v = Done r /\
    match r with
    | None => is_zero_loop (bi_length v - i) i v = false
    | Some i' =>
        (i <= i' <= bi_length v)%nat /\
        is_zero_loop (bi_length v - i) i v = is_zero_loop (bi_length v - i') i' v
    end.
Proof.
  revert i. induction fuel as [|fuel IH]; intros i Hi Hfuel; [lia|].
  cbn [is_zero_simd_loop15].
  destruct (Nat.ltb_spec (i + 14) (bi_length v)) as [Hlt|Hge].
  - unfold get_15_bytes__of_big_integer.
    destruct (Nat.leb_spec (bi_length v) (i + 14)); [lia|].
    cbn [mbind outcome_bind obind]. unfold mm_testz_si128. cbn [lo64 hi64].
    rewrite !Z.land_diag.
    replace (bi_length v - i)%nat with (8 + (7 + (bi_length v - (i + 15))))%nat by lia.
    rewrite !is_zero_loop_app, (is_zero_loop_seg 8), (is_zero_loop_seg 7) by lia.
    replace (i + 8 + 7)%nat with (i + 15)%nat by lia.
    destruct (_ =? 0); [destruct (_ =? 0)|]; cbn.
    + destruct (IH (i + 15)%nat) as [r [Hr Hspec]]; [lia..|].
      exists r. split; [done|]. destruct r as [i'|]; [|done].
      split; [lia|]. apply Hspec.
    + by exists None.
    + by exists None.
  - exists (Some i). split; [done|]. split; [lia|done].
Qed.

Lemma is_zero_simd_loop7_spec fuel i v :
  (i <= bi_length v)%nat -> (bi_length v + 1 <= fuel + i)%nat ->
  exists r, is_zero_simd_loop7 fuel i v = Done r /\
    match r with
    | None => is_zero_loop (bi_length v - i) i v = false
    | Some i' =>
        (i <= i' <= bi_length v)%nat /\
        is_zero_loop (bi_length v - i) i v = is_zero_loop (bi_length v - i') i' v
    end.
Proof.
  revert i. induction fuel as [|fuel IH]; intros i Hi Hfuel; [lia|].
  cbn [is_zero_simd_loop7].
  destruct (Nat.ltb_spec (i + 6) (bi_length v)) as [Hlt|Hge].
  - unfold get_7_bytes__of_big_integer.
    destruct (Nat.leb_spec (bi_length v) (i + 6)); [lia|].
    cbn [mbind outcome_bind obind].
    replace (bi_length v - i)%nat with (7 + (bi_length v - (i + 7)))%nat by lia.
    rewrite !is_zero_loop_app, (is_zero_loop_seg 7) by lia.
    destruct (_ =? 0); cbn.
    + destruct (IH (i + 7)%nat) as [r [Hr Hspec]]; [lia..|].
      exists r. split; [done|]. destruct r as [i'|]; [|done].
      split; [lia|]. apply Hspec.
    + by exists None.
  - exists (Some i). split; [done|]. split; [lia|done].
Qed.

Lemma big_integer_is_zero_simd_sisd v :
  big_integer_is_zero_simd v = Done (is_zero_loop (bi_length v) 0 v).
Proof.
  unfold big_integer_is_zero_simd.
  destruct (is_zero_simd_loop15_spec (S (bi_length v)) 0 v) as [r [Hr Hspec]]; [lia..|].
  rewrite Hr. cbn [mbind outcome_bind obind]. rewrite Nat.sub_0_r in Hspec.
  destruct r as [i|]; [|by rewrite Hspec].
  destruct Hspec as [Hi Hspec].
  destruct (is_zero_simd_loop7_spec (S (bi_length v)) i v) as [r [Hr7 Hspec7]]; [lia..|].
  rewrite Hr7. cbn [mbind outcome_bind obind].
  destruct r as [i'|]; [|by rewrite Hspec, Hspec7].
  destruct Hspec7 as [Hi' Hspec7]. by rewrite Hspec, Hspec7.
Qed.

Lemma big_integer_is_zero_simd_irrelevant v simd :
  big_integer_is_zero v simd = Done (is_zero_loop (bi_length v) 0 v).
Proof. destruct simd; [apply big_integer_is_zero_simd_sisd | done]. Qed.

(** The zero test answers whether the magnitude is zero. *)
Lemma is_zero_loop_le_val v :
  is_zero_loop (bi_length v) 0 v = (le_val (mem v) =? 0).
Proof.
  rewrite is_zero_loop_seg by lia. rewrite drop_0.
  unfold bi_length. by rewrite firstn_all.
Qed.

(** ** Equality *)

Lemma is_equal_loop_true n i a b :
  (i + n <= Nat.max (bi_length a) (bi_length b))%nat ->
  is_equal_loop n i a b = true <->
  forall k, (i <= k < i + n)%nat ->
    get_byte_value_of_big_integer a k = get_byte_value_of_big_integer b k.
Proof.
  revert i. induction n as [|n IH]; intros i Hn.
  - simpl. split; [intros _ k Hk; lia | done].
  - cbn [is_equal_loop].
    assert (Hstep : forall P : Prop,
      (get_byte_value_of_big_integer a i = get_byte_value_of_big_integer b i) ->
      (is_equal_loop n (S i) a b = true <-> P) ->
      (P <-> (forall k, (S i <= k < S i + n)%nat ->
        get_byte_value_of_big_integer a k = get_byte_value_of_big_integer b k)) ->
      (is_equal_loop n (S i) a b = true <->
       forall k, (i <= k < i + S n)%nat ->
         get_byte_value_of_big_integer a k = get_byte_value_of_big_integer b k)).
    { intros P Heq H1 H2. rewrite H1, H2. split.
      - intros H k Hk. destruct (decide (k = i)) as [->|]; [done|]. apply H. lia.
      - intros H k Hk. apply H. lia. }
    assert (Hfail :
      get_byte_value_of_big_integer a i <> get_byte_value_of_big_integer b i ->
      (false = true <-> forall k, (i <= k < i + S n)%nat ->
         get_byte_value_of_big_integer a k = get_byte_value_of_big_integer b k)).
    { intros Hne. split; [done|]. intros H. destruct Hne. apply H. lia. }
    destruct (Nat.ltb_spec i (bi_length a)) as [Ha|Ha];
      destruct (Nat.ltb_spec i (bi_length b)) as [Hb|Hb]; cbn [andb negb].
    + destruct (byte_eqb _ _) eqn:E; cbn [negb].
      * apply byte_eqb_eq in E. eapply Hstep; [done|apply IH; lia|done].
      * apply Hfail. intros Heq. by rewrite Heq, byte_eqb_refl in E.
    + pose proof (get_byte_overflow b i ltac:(lia)) as Hb0.
      destruct (byte_eqb _ _) eqn:E; cbn [negb].
      * apply byte_eqb_eq in E. eapply Hstep; [congruence|apply IH; lia|done].
      * apply Hfail. intros Heq. by rewrite Heq, Hb0, byte_eqb_refl in E.
    + pose proof (get_byte_overflow a i ltac:(lia)) as Ha0.
      destruct (byte_eqb _ _) eqn:E; cbn [negb].
      * apply byte_eqb_eq in E. eapply Hstep; [congruence|apply IH; lia|done].
      * apply Hfail. intros Heq. by rewrite <- Heq, Ha0, byte_eqb_refl in E.
    + lia.
Qed.

Lemma is_zero_loop_magnitude v :
  is_zero_loop (bi_length v) 0 v = true <-> magnitude_is_zero v.
Proof.
  rewrite is_zero_loop_true. split.
  - intros H k. destruct (Nat.lt_ge_cases k (bi_length v)); [apply H; lia|].
    by apply get_byte_overflow.
  - intros H k _. apply H.
Qed.



(** ** Comparison with a small integer *)

Lemma greater_equal_int16_loop_zero n i a sgn :
  greater_equal_int16_loop n i a sgn = eqb sgn (is_zero_loop n i a).
Proof.
  revert i. induction n as [|n IH]; intros i; [by destruct sgn|].
  cbn [greater_equal_int16_loop is_zero_loop]. rewrite byte_eqb_zero, IH.
  pose proof (byte_range (get_byte_value_of_big_integer a i)).
  destruct (Z.eqb_spec (byte.unsigned (get_byte_value_of_big_integer a i)) 0) as [E|E].
  - rewrite E. by destruct sgn.
  - destruct (Z.ltb_spec 0 (byte.unsigned (get_byte_value_of_big_integer a i))); [|lia].
    by destruct sgn.
Qed.

Lemma le_val_head_tail v :
  le_val (mem v) =
  byte.unsigned (get_byte_value_of_big_integer v 0) + 256 * le_val (drop 1 (mem v)).
Proof.
  unfold get_byte_value_of_big_integer. destruct (mem v) as [|x l]; [done|].
  cbn. by rewrite drop_0.
Qed.

(** On an integer that is not negative the comparison is correct. *)
Lemma big_integer_greater_equal_int16_nonneg (a : big_integer) (b : Z) (simd : bool) :
  sign a = false -> -256 <= b <= 256 ->
  big_integer_greater_equal_int16 a b simd = Done (b <=? bi_value a).
Proof.
  intros Hs Hb. unfold big_integer_greater_equal_int16, bi_value.
  rewrite big_integer_is_zero_simd_irrelevant, Hs. cbn [mbind outcome_bind obind negb andb].
  rewrite is_zero_loop_le_val. pose proof (le_val_nonneg (mem a)) as Hnn.
  destruct (Z.eqb_spec (le_val (mem a)) 0) as [Hz|Hz]; cbn [andb].
  - rewrite Hz.
    destruct (Z.eqb_spec b 0); [f_equal; symmetry; apply Z.leb_le; lia|].
    destruct (Z.ltb_spec b 0); [f_equal; symmetry; apply Z.leb_le; lia|].
    destruct (Z.ltb_spec 0 b); [f_equal; symmetry; apply Z.leb_gt; lia|lia].
  - destruct (Z.leb_spec b 0); [f_equal; symmetry; apply Z.leb_le; lia|].
    rewrite greater_equal_int16_loop_zero. cbn [eqb].
    pose proof (le_val_head_tail a) as Hht.
    pose proof (byte_range (get_byte_value_of_big_integer a 0)).
    pose proof (le_val_nonneg (drop 1 (mem a))).
    destruct (Z.eqb_spec (byte.unsigned (get_byte_value_of_big_integer a 0)) b);
      [f_equal; symmetry; apply Z.leb_le; lia|].
    destruct (Z.ltb_spec b (byte.unsigned (get_byte_value_of_big_integer a 0)));
      [f_equal; symmetry; apply Z.leb_le; lia|].
    f_equal. destruct (Nat.eq_dec (bi_length a) 0%nat) as [Hl|Hl].
    + unfold bi_length in Hl. apply nil_length_inv in Hl. rewrite Hl in Hz. done.
    + rewrite is_zero_loop_seg by lia.
      replace (take (bi_length a - 1) (drop 1 (mem a))) with (drop 1 (mem a))
        by (symmetry; apply take_ge; rewrite length_drop; unfold bi_length; lia).
      destruct (Z.eqb_spec (le_val (drop 1 (mem a))) 0);
        symmetry; [apply Z.leb_gt | apply Z.leb_le]; lia.
Qed.

(** C6: the code at the failing input.  With [a = -1] and [b_small = -1]
    (and also [b_small = -5]) the answer is [false] on both paths, although
    [a >= b_small]. *)
Theorem big_integer_greater_equal_int16_negative_pair :
  bi_value minus_one = -1 /\
  big_integer_greater_equal_int16 minus_one (-1) false = Done false /\
  big_integer_greater_equal_int16 minus_one (-1) true = Done false /\
  big_integer_greater_equal_int16 minus_one (-5) false = Done false /\
  big_integer_greater_equal_int16 minus_one (-5) true = Done false.
Proof. repeat split; reflexivity. Qed.

(** ** Increment *)

Lemma insert_take_drop_get (l : list byte) i x :
  (i < length l)%nat -> <[i := x]> l = take i l ++ x :: drop (S i) l.
Proof. intros H. by apply insert_take_drop. Qed.

Lemma take_S_insert (l : list byte) i x :
  (i < length l)%nat -> take (S i) (<[i := x]> l) = take i l ++ [x].
Proof.
  intros H. rewrite insert_take_drop_get by done.
  rewrite take_app_ge by (rewrite length_take; lia).
  rewrite length_take, Nat.min_l by lia.
  replace (S i - i)%nat with 1%nat by lia. done.
Qed.

Lemma drop_S_insert (l : list byte) i x : drop (S i) (<[i := x]> l) = drop (S i) l.
Proof. apply drop_insert_lt. lia. Qed.

Lemma mem_set_byte v i x :
  mem (set_byte_value_of_big_integer v i x) = <[i := x]> (mem v).
Proof. done. Qed.

Lemma increment_loop_nonneg n i v :
  (i + n = bi_length v)%nat ->
  mem (increment_loop n i false v) =
  take i (mem v) ++ le_bytes n (le_val (drop i (mem v)) + 1).
Proof.
  revert i v. induction n as [|n IH]; intros i v Hn.
  - simpl. rewrite app_nil_r. symmetry. apply take_ge. unfold bi_length in Hn. lia.
  - cbn [increment_loop negb]. rewrite (drop_get v i) by lia.
    set (b := get_byte_value_of_big_integer v i). pose proof (byte_range b) as Hb.
    cbn [le_val le_bytes]. unfold uint16, to_bool.
    rewrite (Z.mod_small (byte.unsigned b + 1)) by lia.
    rewrite Z.shiftr_div_pow2 by lia. change (2 ^ 8) with 256.
    assert (Hlen : length (drop (S i) (mem v)) = n)
      by (rewrite length_drop; unfold bi_length in Hn; lia).
    set (rest := drop (S i) (mem v)) in *.
    destruct (Z.eqb_spec ((byte.unsigned b + 1) / 256) 0) as [E|E]; cbn [negb].
    + rewrite mem_set_byte, insert_take_drop_get by (unfold bi_length in Hn; lia).
      f_equal. fold rest. f_equal.
      * apply byte.unsigned_inj. rewrite !unsigned_of_Z_mod.
        generalize (le_val rest). intros w. Z.div_mod_to_equations. lia.
      * rewrite <- (le_bytes_le_val rest) at 1. rewrite Hlen. f_equal.
        generalize (le_val rest). intros w. Z.div_mod_to_equations. lia.
    + rewrite IH by (rewrite bi_length_set_byte; lia).
      rewrite mem_set_byte, drop_S_insert, take_S_insert by (unfold bi_length in Hn; lia).
      fold rest. rewrite <- app_assoc. cbn [app]. do 2 f_equal.
      * apply byte.unsigned_inj. rewrite !unsigned_of_Z_mod.
        generalize (le_val rest). intros w. Z.div_mod_to_equations. lia.
      * f_equal. generalize (le_val rest). intros w. Z.div_mod_to_equations. lia.
Qed.

Lemma sign_increment_loop n i s v : sign (increment_loop n i s v) = sign v.
Proof.
  revert i v. induction n as [|n IH]; intros i v; [done|].
  cbn [increment_loop]. destruct s; cbn [negb].
  - destruct (byte_eqb _ _); by rewrite IH.
  - destruct (negb _); [done|]. by rewrite IH.
Qed.

(** On an integer that is not negative the increment adds one to the
    magnitude, with the carry running from byte to byte; a carry out of the
    highest byte is lost. *)
Lemma big_integer_increment_nonneg (a : big_integer) :
  sign a = false ->
  sign (big_integer_increment a) = false /\
  bi_length (big_integer_increment a) = bi_length a /\
  le_val (mem (big_integer_increment a)) =
    (le_val (mem a) + 1) mod 256 ^ Z.of_nat (bi_length a).
Proof.
  intros Hs. unfold big_integer_increment. rewrite Hs.
  assert (Hm := increment_loop_nonneg (bi_length a) 0 a ltac:(lia)).
  rewrite take_0, drop_0 in Hm. cbn [app] in Hm. split; [|split].
  - by rewrite sign_increment_loop.
  - unfold bi_length at 1. by rewrite Hm, length_le_bytes.
  - by rewrite Hm, le_val_le_bytes.
Qed.

(** C7: the code at the failing inputs.  On [-256] (low byte zero) the
    increment leaves magnitude 0 instead of 255; on [-257] (two bytes that
    are not zero) it leaves magnitude 0 instead of 256. *)
Theorem big_integer_increment_negative_multibyte :
  le_val (mem minus_256) = 256 /\
  le_val (mem (big_integer_increment minus_256)) = 0 /\
  le_val (mem minus_257) = 257 /\
  le_val (mem (big_integer_increment minus_257)) = 0.
Proof. repeat split; reflexivity. Qed.

(** ** Magnitude addition and subtraction on a segment of the buffer *)

Lemma le_val_take_drop_S (l : list byte) i n :
  le_val (take (S n) (drop i l)) =
  byte.unsigned (nth i l Byte.x00) + 256 * le_val (take n (drop (S i) l)).
Proof.
  rewrite nth_lookup. destruct (l !! i) as [x|] eqn:E.
  - by rewrite (drop_S _ _ _ E).
  - apply lookup_ge_None in E. rewrite !drop_ge by lia. by rewrite !take_nil.
Qed.

Lemma seg_val_S v i n :
  seg_val v i (S n) =
  byte.unsigned (get_byte_value_of_big_integer v i) + 256 * seg_val v (S i) n.
Proof. apply le_val_take_drop_S. Qed.

Lemma seg_val_0 v i : seg_val v i 0 = 0.
Proof. done. Qed.

Lemma seg_val_bound v i n : 0 <= seg_val v i n < 256 ^ Z.of_nat n.
Proof.
  unfold seg_val. pose proof (le_val_bound (take n (drop i (mem v)))) as H.
  rewrite length_take in H.
  assert (256 ^ Z.of_nat (n `min` length (drop i (mem v))) <= 256 ^ Z.of_nat n)
    by (apply Z.pow_le_mono_r; lia).
  lia.
Qed.

Lemma seg_val_app v i n m :
  (i + n <= bi_length v)%nat ->
  seg_val v i (n + m) = seg_val v i n + 256 ^ Z.of_nat n * seg_val v (i + n) m.
Proof.
  intros H. unfold seg_val. rewrite <- take_take_drop, le_val_app, drop_drop.
  rewrite length_take, length_drop. unfold bi_length in H.
  by rewrite Nat.min_l by lia.
Qed.

Lemma seg_val_set_byte_gt v j x i n :
  (j < i)%nat -> seg_val (set_byte_value_of_big_integer v j x) i n = seg_val v i n.
Proof. intros H. unfold seg_val. by rewrite mem_set_byte, drop_insert_lt. Qed.

Lemma seg_val_all v : seg_val v 0 (bi_length v) = le_val (mem v).
Proof. unfold seg_val, bi_length. by rewrite drop_0, firstn_all. Qed.

Lemma set_mem_set_byte v i x m : set_mem (set_byte_value_of_big_integer v i x) m = set_mem v m.
Proof. done. Qed.

Lemma set_mem_id v : set_mem v (mem v) = v.
Proof. by destruct v. Qed.

Lemma land_1 (z : Z) : Z.land z 1 = z mod 2.
Proof. change 1 with (Z.ones 1). rewrite Z.land_ones by lia. done. Qed.

Lemma add_carry_bit (s : Z) :
  0 <= s < 512 -> to_bool (Z.land (Z.shiftr (uint16 s) 8) 1) = (256 <=? s).
Proof.
  intros H. unfold to_bool, uint16. rewrite land_1, Z.shiftr_div_pow2 by lia.
  rewrite (Z.mod_small s) by lia. change (2 ^ 8) with 256.
  destruct (Z.leb_spec 256 s); [apply negb_true_iff|apply negb_false_iff];
    [apply Z.eqb_neq|apply Z.eqb_eq]; Z.div_mod_to_equations; lia.
Qed.

Lemma sub_borrow_bit (s : Z) :
  -512 < s < 256 -> to_bool (Z.land (Z.shiftr (uint16 s) 15) 1) = (s <? 0).
Proof.
  intros H. unfold to_bool, uint16. rewrite land_1, Z.shiftr_div_pow2 by lia.
  change (2 ^ 15) with 32768. change (2 ^ 16) with 65536.
  destruct (Z.ltb_spec s 0); [apply negb_true_iff|apply negb_false_iff];
    [apply Z.eqb_neq|apply Z.eqb_eq]; Z.div_mod_to_equations; lia.
Qed.

Lemma of_Z_uint16 (z : Z) : byte.of_Z (uint16 z) = byte.of_Z z.
Proof.
  apply byte.unsigned_inj. rewrite !unsigned_of_Z_mod. unfold uint16.
  change (2 ^ 16) with (256 * 256). rewrite Z.rem_mul_r by lia.
  Z.div_mod_to_equations. lia.
Qed.

Lemma of_bool_range (c : bool) : 0 <= of_bool c <= 1.
Proof. destruct c; simpl; lia. Qed.

Lemma of_Z_congr (x y : Z) : x mod 256 = y mod 256 -> byte.of_Z x = byte.of_Z y.
Proof. intros H. apply byte.unsigned_inj. by rewrite !unsigned_of_Z_mod. Qed.

(** The byte loop of the addition writes the sum of the two segments and the
    carry, and leaves the carry out of the segment. *)
Lemma addition_sisd_loop_spec n i a b c :
  (i + n <= bi_length a)%nat ->
  addition_sisd_loop n i a b c =
    (set_mem a (take i (mem a)
                ++ le_bytes n (seg_val a i n + seg_val b i n + of_bool c)
                ++ drop (i + n) (mem a)),
     256 ^ Z.of_nat n <=? seg_val a i n + seg_val b i n + of_bool c).
Proof.
  revert i a c. induction n as [|n IH]; intros i a c Hn.
  - cbn [addition_sisd_loop le_bytes app]. rewrite Nat.add_0_r, take_drop, set_mem_id.
    rewrite !seg_val_0. by destruct c.
  - cbn [addition_sisd_loop].
    set (x := byte.unsigned (get_byte_value_of_big_integer a i)).
    set (y := byte.unsigned (get_byte_value_of_big_integer b i)).
    assert (Hres : (if (i <? bi_length b)%nat then uint16 (x + y + of_bool c)
                    else uint16 (x + of_bool c)) = uint16 (x + y + of_bool c)).
    { destruct (Nat.ltb_spec i (bi_length b)); [done|].
      subst y. rewrite get_byte_overflow by lia.
      change (byte.unsigned Byte.x00) with 0. by rewrite Z.add_0_r. }
    rewrite Hres. clear Hres.
    pose proof (byte_range (get_byte_value_of_big_integer a i)) as Hx.
    pose proof (byte_range (get_byte_value_of_big_integer b i)) as Hy.
    pose proof (of_bool_range c) as Hc. fold x in Hx. fold y in Hy.
    rewrite add_carry_bit, of_Z_uint16 by lia.
    rewrite IH by (rewrite bi_length_set_byte; lia).
    rewrite set_mem_set_byte, mem_set_byte, seg_val_set_byte_gt by lia.
    rewrite take_S_insert by (unfold bi_length in Hn; lia).
    rewrite drop_insert_lt by lia.
    rewrite !seg_val_S. fold x y.
    pose proof (seg_val_bound a (S i) n) as Ha'.
    pose proof (seg_val_bound b (S i) n) as Hb'.
    set (A' := seg_val a (S i) n) in *. set (B' := seg_val b (S i) n) in *.
    assert (Hc' : of_bool (256 <=? x + y + of_bool c) = (x + y + of_bool c) / 256).
    { destruct (Z.leb_spec 256 (x + y + of_bool c)); cbn [of_bool];
        Z.div_mod_to_equations; lia. }
    rewrite Hc'.
    assert (E1 : byte.of_Z (x + 256 * A' + (y + 256 * B') + of_bool c)
                 = byte.of_Z (x + y + of_bool c))
      by (apply of_Z_congr; Z.div_mod_to_equations; lia).
    assert (E2 : (x + 256 * A' + (y + 256 * B') + of_bool c) / 256
                 = A' + B' + (x + y + of_bool c) / 256)
      by (Z.div_mod_to_equations; lia).
    f_equal.
    + f_equal. rewrite <- app_assoc. cbn [app le_bytes]. rewrite E1, E2.
      by replace (i + S n)%nat with (S i + n)%nat by lia.
    + rewrite Nat2Z.inj_succ, Z.pow_succ_r by lia.
      assert (0 < 256 ^ Z.of_nat n) by (apply Z.pow_pos_nonneg; lia).
      set (P := 256 ^ Z.of_nat n) in *.
      destruct (Z.leb_spec P (A' + B' + (x + y + of_bool c) / 256));
        [symmetry; apply Z.leb_le | symmetry; apply Z.leb_gt];
        Z.div_mod_to_equations; nia.
Qed.

Lemma subtraction_sisd_loop_spec n i a b c :
  (i + n <= bi_length a)%nat ->
  subtraction_sisd_loop n i a b c =
    (set_mem a (take i (mem a)
                ++ le_bytes n (seg_val a i n - seg_val b i n - of_bool c)
                ++ drop (i + n) (mem a)),
     seg_val a i n - seg_val b i n - of_bool c <? 0).
Proof.
  revert i a c. induction n as [|n IH]; intros i a c Hn.
  - cbn [subtraction_sisd_loop le_bytes app]. rewrite Nat.add_0_r, take_drop, set_mem_id.
    rewrite !seg_val_0. by destruct c.
  - cbn [subtraction_sisd_loop].
    set (x := byte.unsigned (get_byte_value_of_big_integer a i)).
    set (y := byte.unsigned (get_byte_value_of_big_integer b i)).
    assert (Hres : (if (i <? bi_length b)%nat then uint16 (x - y - of_bool c)
                    else uint16 (x - of_bool c)) = uint16 (x - y - of_bool c)).
    { destruct (Nat.ltb_spec i (bi_length b)); [done|].
      subst y. rewrite get_byte_overflow by lia.
      change (byte.unsigned Byte.x00) with 0. by rewrite Z.sub_0_r. }
    rewrite Hres. clear Hres.
    pose proof (byte_range (get_byte_value_of_big_integer a i)) as Hx.
    pose proof (byte_range (get_byte_value_of_big_integer b i)) as Hy.
    pose proof (of_bool_range c) as Hc. fold x in Hx. fold y in Hy.
    rewrite sub_borrow_bit, of_Z_uint16 by lia.
    rewrite IH by (rewrite bi_length_set_byte; lia).
    rewrite set_mem_set_byte, mem_set_byte, seg_val_set_byte_gt by lia.
    rewrite take_S_insert by (unfold bi_length in Hn; lia).
    rewrite drop_insert_lt by lia.
    rewrite !seg_val_S. fold x y.
    pose proof (seg_val_bound a (S i) n) as Ha'.
    pose proof (seg_val_bound b (S i) n) as Hb'.
    set (A' := seg_val a (S i) n) in *. set (B' := seg_val b (S i) n) in *.
    assert (Hc' : - of_bool (x - y - of_bool c <? 0) = (x - y - of_bool c) / 256).
    { destruct (Z.ltb_spec (x - y - of_bool c) 0); cbn [of_bool];
        Z.div_mod_to_equations; lia. }
    replace (A' - B' - of_bool (x - y - of_bool c <? 0))
      with (A' - B' + (x - y - of_bool c) / 256) by lia.
    assert (E1 : byte.of_Z (x + 256 * A' - (y + 256 * B') - of_bool c)
                 = byte.of_Z (x - y - of_bool c))
      by (apply of_Z_congr; Z.div_mod_to_equations; lia).
    assert (E2 : (x + 256 * A' - (y + 256 * B') - of_bool c) / 256
                 = A' - B' + (x - y - of_bool c) / 256)
      by (Z.div_mod_to_equations; lia).
    f_equal.
    + f_equal. rewrite <- app_assoc. cbn [app le_bytes]. rewrite E1, E2.
      by replace (i + S n)%nat with (S i + n)%nat by lia.
    + destruct (Z.ltb_spec (A' - B' + (x - y - of_bool c) / 256) 0);
        [symmetry; apply Z.ltb_lt | symmetry; apply Z.ltb_ge];
        Z.div_mod_to_equations; lia.
Qed.

(** ** The vectorised magnitude addition and subtraction *)

Lemma land_ones64 (x : Z) : 0 <= x < 2 ^ 64 -> Z.land x ones64 = x.
Proof.
  intros H. change ones64 with (Z.ones 64). rewrite Z.land_ones by lia.
  by apply Z.mod_small.
Qed.

Lemma sint64_biased (x : Z) :
  0 <= x < 2 ^ 64 -> sint64 (uint64 (x - uint64 9223372036854775808)) = x - 2 ^ 63.
Proof.
  intros H. unfold sint64, uint64.
  change (9223372036854775808 mod 2 ^ 64) with (2 ^ 63).
  destruct (Z.ltb_spec ((x - 2 ^ 63) mod 2 ^ 64) (2 ^ 63));
    Z.div_mod_to_equations; lia.
Qed.

Lemma extract_cmpeq_max (x : Z) :
  0 <= x < 2 ^ 64 ->
  to_bool (mm_extract_epi8
             (mm_cmpeq_epi64 {| lo64 := x; hi64 := 0 |} (mm_set_epi64x 0 ones64)) 0)
  = (x =? ones64).
Proof.
  intros H. unfold mm_cmpeq_epi64, mm_set_epi64x, mm_extract_epi8. cbn [lo64 hi64].
  change (uint64 ones64) with ones64. by destruct (x =? ones64).
Qed.

Lemma high_bit_56 (h : Z) :
  0 <= h < 2 ^ 57 ->
  to_bool (Z.land (Z.shiftr (Z.land (Z.shiftr h (16 * (7 - 4))) 65535) 8) 1)
  = (2 ^ 56 <=? h).
Proof.
  intros H. unfold to_bool. rewrite land_1.
  change 65535 with (Z.ones 16). rewrite Z.land_ones by lia.
  rewrite !Z.shiftr_div_pow2 by lia.
  destruct (Z.leb_spec (2 ^ 56) h); [apply negb_true_iff|apply negb_false_iff];
    [apply Z.eqb_neq|apply Z.eqb_eq]; Z.div_mod_to_equations; lia.
Qed.

Lemma mask_lower64 (l h : Z) :
  0 <= l < 2 ^ 64 ->
  mm_and_si128 {| lo64 := l; hi64 := h |} (mm_set_epi64x 0 ones64)
  = {| lo64 := l; hi64 := 0 |}.
Proof.
  intros H. unfold mm_and_si128, mm_set_epi64x. cbn [lo64 hi64].
  change (uint64 0) with 0. change (uint64 ones64) with ones64.
  by rewrite Z.land_0_r, land_ones64.
Qed.

Lemma set_epi32_low (c : bool) :
  mm_set_epi32 0 0 0 (of_bool c) = {| lo64 := of_bool c; hi64 := 0 |}.
Proof. by destruct c. Qed.

Lemma uint64_range (x : Z) : 0 <= uint64 x < 2 ^ 64.
Proof. unfold uint64. apply Z.mod_pos_bound. lia. Qed.

Lemma sub_bias (l : Z) :
  mm_sub_epi64 {| lo64 := l; hi64 := 0 |} (mm_set_epi64x 0 9223372036854775808)
  = {| lo64 := uint64 (l - uint64 9223372036854775808); hi64 := 0 |}.
Proof. done. Qed.

Lemma cmpgt_biased (x y : Z) :
  0 <= x < 2 ^ 64 -> 0 <= y < 2 ^ 64 ->
  mm_cmpgt_epi64 {| lo64 := uint64 (x - uint64 9223372036854775808); hi64 := 0 |}
                 {| lo64 := uint64 (y - uint64 9223372036854775808); hi64 := 0 |}
  = {| lo64 := if y <? x then ones64 else 0; hi64 := 0 |}.
Proof.
  intros Hx Hy. unfold mm_cmpgt_epi64. cbn [lo64 hi64].
  rewrite !sint64_biased by done. f_equal.
  destruct (Z.ltb_spec (y - 2 ^ 63) (x - 2 ^ 63)); destruct (Z.ltb_spec y x); done || lia.
Qed.

Lemma testz_flags (p q : bool) :
  let v := mm_or_si128 {| lo64 := if p then ones64 else 0; hi64 := 0 |}
                       {| lo64 := if q then ones64 else 0; hi64 := 0 |} in
  negb (to_bool (mm_testz_si128 v v)) = p || q.
Proof. by destruct p, q. Qed.

Lemma testz_flag (p : bool) :
  let v := {| lo64 := if p then ones64 else 0; hi64 := 0 |} in
  negb (to_bool (mm_testz_si128 v v)) = p.
Proof. by destruct p. Qed.

Lemma addition_simd_step15_spec la ha lb hb c :
  0 <= la < 2 ^ 64 -> 0 <= ha < 2 ^ 56 -> 0 <= lb < 2 ^ 64 -> 0 <= hb < 2 ^ 56 ->
  addition_simd_step15 {| lo64 := la; hi64 := ha |} {| lo64 := lb; hi64 := hb |} c =
    ({| lo64 := (la + lb + of_bool c) mod 2 ^ 64;
        hi64 := ha + hb + (la + lb + of_bool c) / 2 ^ 64 |},
     2 ^ 56 <=? ha + hb + (la + lb + of_bool c) / 2 ^ 64).
Proof.
  intros Hla Hha Hlb Hhb. pose proof (of_bool_range c) as Hc.
  unfold addition_simd_step15. cbv zeta.
  rewrite !mask_lower64, !extract_cmpeq_max, set_epi32_low by done.
  assert (Hsum : mm_add_epi64
            (mm_add_epi64 {| lo64 := la; hi64 := ha |} {| lo64 := lb; hi64 := hb |})
            {| lo64 := of_bool c; hi64 := 0 |}
          = {| lo64 := uint64 (la + lb + of_bool c); hi64 := ha + hb |}).
  { unfold mm_add_epi64, uint64. cbn [lo64 hi64]. f_equal.
    - Z.div_mod_to_equations. lia.
    - Z.div_mod_to_equations. lia. }
  rewrite !Hsum. rewrite !mask_lower64 by apply uint64_range.
  rewrite !sub_bias, !cmpgt_biased by (done || apply uint64_range).
  rewrite testz_flags.
  set (s := la + lb + of_bool c).
  assert (Hcarry : (uint64 s <? la) || (uint64 s <? lb)
                   || (la =? ones64) && (lb =? ones64) && c = (2 ^ 64 <=? s)).
  { unfold uint64, ones64. subst s.
    destruct (Z.ltb_spec ((la + lb + of_bool c) mod 2 ^ 64) la);
    destruct (Z.ltb_spec ((la + lb + of_bool c) mod 2 ^ 64) lb);
    destruct (Z.eqb_spec la (2 ^ 64 - 1)); destruct (Z.eqb_spec lb (2 ^ 64 - 1));
    destruct c; cbn [orb andb of_bool] in *;
    symmetry; try (apply Z.leb_le; Z.div_mod_to_equations; lia);
    apply Z.leb_gt; Z.div_mod_to_equations; lia. }
  rewrite Hcarry.
  assert (Hdiv : s / 2 ^ 64 = of_bool (2 ^ 64 <=? s)).
  { destruct (Z.leb_spec (2 ^ 64) s); cbn [of_bool]; subst s;
      Z.div_mod_to_equations; lia. }
  rewrite Hdiv.
  destruct (2 ^ 64 <=? s); cbn [of_bool].
  - unfold mm_add_epi64, mm_set_epi64x, mm_extract_epi16. cbn [lo64 hi64].
    change (7 <? 4) with false. cbv iota.
    change (uint64 0) with 0. change (uint64 1) with 1. rewrite Z.add_0_r.
    assert (E : uint64 (ha + hb + 1) = ha + hb + 1)
      by (unfold uint64; apply Z.mod_small; lia).
    rewrite E, high_bit_56 by lia. f_equal. f_equal.
    unfold uint64. apply Z.mod_mod. lia.
  - unfold mm_extract_epi16. cbn [lo64 hi64].
    change (7 <? 4) with false. cbv iota. rewrite Z.add_0_r.
    by rewrite high_bit_56 by lia.
Qed.

Lemma high_bit_63 (h : Z) :
  - 2 ^ 57 < h < 2 ^ 57 ->
  to_bool (Z.land (Z.shiftr (Z.land (Z.shiftr (uint64 h) (16 * (7 - 4))) 65535) 15) 1)
  = (h <? 0).
Proof.
  intros H. unfold to_bool, uint64. rewrite land_1.
  change 65535 with (Z.ones 16). rewrite Z.land_ones by lia.
  rewrite !Z.shiftr_div_pow2 by lia.
  destruct (Z.ltb_spec h 0); [apply negb_true_iff|apply negb_false_iff];
    [apply Z.eqb_neq|apply Z.eqb_eq]; Z.div_mod_to_equations; lia.
Qed.

Lemma subtraction_simd_step15_spec la ha lb hb c :
  0 <= la < 2 ^ 64 -> 0 <= ha < 2 ^ 56 -> 0 <= lb < 2 ^ 64 -> 0 <= hb < 2 ^ 56 ->
  subtraction_simd_step15 {| lo64 := la; hi64 := ha |} {| lo64 := lb; hi64 := hb |} c =
    ({| lo64 := (la - lb - of_bool c) mod 2 ^ 64;
        hi64 := uint64 (ha - hb + (la - lb - of_bool c) / 2 ^ 64) |},
     ha - hb + (la - lb - of_bool c) / 2 ^ 64 <? 0).
Proof.
  intros Hla Hha Hlb Hhb. pose proof (of_bool_range c) as Hc.
  unfold subtraction_simd_step15. cbv zeta.
  rewrite !mask_lower64, !extract_cmpeq_max, set_epi32_low by done.
  assert (Hdiff : mm_sub_epi64
            (mm_sub_epi64 {| lo64 := la; hi64 := ha |} {| lo64 := lb; hi64 := hb |})
            {| lo64 := of_bool c; hi64 := 0 |}
          = {| lo64 := uint64 (la - lb - of_bool c); hi64 := uint64 (ha - hb) |}).
  { unfold mm_sub_epi64, uint64. cbn [lo64 hi64]. f_equal.
    - Z.div_mod_to_equations. lia.
    - Z.div_mod_to_equations. lia. }
  rewrite !Hdiff. rewrite !mask_lower64 by apply uint64_range.
  rewrite !sub_bias, !cmpgt_biased by (done || apply uint64_range).
  rewrite testz_flag.
  set (s := la - lb - of_bool c).
  assert (Hborrow : (la <? uint64 s) || (lb =? ones64) && (of_bool c =? 1) = (s <? 0)).
  { unfold uint64, ones64. subst s.
    destruct (Z.ltb_spec la ((la - lb - of_bool c) mod 2 ^ 64));
    destruct (Z.eqb_spec lb (2 ^ 64 - 1));
    destruct c; cbn [orb andb of_bool Z.eqb] in *;
    symmetry; try (apply Z.ltb_lt; Z.div_mod_to_equations; lia);
    apply Z.ltb_ge; Z.div_mod_to_equations; lia. }
  rewrite Hborrow.
  assert (Hdiv : s / 2 ^ 64 = - of_bool (s <? 0)).
  { destruct (Z.ltb_spec s 0); cbn [of_bool]; subst s;
      Z.div_mod_to_equations; lia. }
  rewrite Hdiv.
  destruct (s <? 0); cbn [of_bool].
  - unfold mm_sub_epi64, mm_set_epi64x, mm_extract_epi16. cbn [lo64 hi64].
    change (7 <? 4) with false. cbv iota.
    change (uint64 0) with 0. change (uint64 1) with 1. rewrite Z.sub_0_r.
    assert (E : uint64 (uint64 (ha - hb) - 1) = uint64 (ha - hb + - (1)))
      by (unfold uint64; Z.div_mod_to_equations; lia).
    rewrite E, high_bit_63 by lia. f_equal. f_equal.
    unfold uint64. apply Z.mod_mod. lia.
  - unfold mm_extract_epi16. cbn [lo64 hi64].
    change (7 <? 4) with false. cbv iota. rewrite Z.add_0_r.
    by rewrite high_bit_63 by lia.
Qed.

Lemma seg_val_15 v i :
  (i + 15 <= bi_length v)%nat ->
  seg_val v i 15 = seg_val v i 8 + 2 ^ 64 * seg_val v (i + 8) 7.
Proof. intros H. change 15%nat with (8 + 7)%nat. by rewrite seg_val_app by lia. Qed.

Lemma get_15_bytes_in_range v i :
  (i + 14 < bi_length v)%nat ->
  get_15_bytes__of_big_integer v i
  = Done {| lo64 := seg_val v i 8; hi64 := seg_val v (i + 8) 7 |}.
Proof.
  intros H. unfold get_15_bytes__of_big_integer.
  by destruct (Nat.leb_spec (bi_length v) (i + 14)); [lia|].
Qed.

Lemma set_15_bytes_in_range v i r :
  (i + 14 < bi_length v)%nat ->
  set_15_bytes__of_big_integer v i r
  = Done (set_mem v (take i (mem v) ++ (le_bytes 8 (lo64 r) ++ le_bytes 7 (hi64 r))
                     ++ drop (i + 15) (mem v))).
Proof.
  intros H. unfold set_15_bytes__of_big_integer, write_bytes.
  destruct (Nat.leb_spec (bi_length v) (i + 14)); [lia|].
  by rewrite length_app, !length_le_bytes.
Qed.

Lemma get_7_bytes_in_range v i :
  (i + 6 < bi_length v)%nat ->
  get_7_bytes__of_big_integer v i = Done (seg_val v i 7).
Proof.
  intros H. unfold get_7_bytes__of_big_integer.
  by destruct (Nat.leb_spec (bi_length v) (i + 6)); [lia|].
Qed.

Lemma set_7_bytes_in_range v i z :
  (i + 6 < bi_length v)%nat ->
  set_7_bytes__of_big_integer v i z
  = Done (set_mem v (take i (mem v) ++ le_bytes 7 z ++ drop (i + 7) (mem v))).
Proof.
  intros H. unfold set_7_bytes__of_big_integer, write_bytes.
  destruct (Nat.leb_spec (bi_length v) (i + 6)); [lia|].
  by rewrite length_le_bytes.
Qed.

Lemma seg_val_8_range v i : 0 <= seg_val v i 8 < 2 ^ 64.
Proof. apply (seg_val_bound v i 8). Qed.

Lemma seg_val_7_range v i : 0 <= seg_val v i 7 < 2 ^ 56.
Proof. apply (seg_val_bound v i 7). Qed.

Lemma le_bytes_15_split (z l h : Z) :
  z mod 2 ^ 64 = l mod 2 ^ 64 -> (z / 2 ^ 64) mod 2 ^ 56 = h mod 2 ^ 56 ->
  le_bytes 8 l ++ le_bytes 7 h = le_bytes 15 z.
Proof.
  intros Hl Hh. change 15%nat with (8 + 7)%nat. rewrite (le_bytes_app 8 7 z).
  rewrite <- (le_bytes_mod 8 l), <- (le_bytes_mod 8 z).
  rewrite <- (le_bytes_mod 7 h), <- (le_bytes_mod 7 (z / _)).
  change (256 ^ Z.of_nat 8) with (2 ^ 64). change (256 ^ Z.of_nat 7) with (2 ^ 56).
  by rewrite Hl, Hh.
Qed.

(** One pass of the 15-byte loop does what 15 passes of the byte loop do. *)
Lemma addition_chunk15 i a b c :
  (i + 14 < bi_length a)%nat -> (i + 14 < bi_length b)%nat ->
  let r := addition_simd_step15
             {| lo64 := seg_val a i 8; hi64 := seg_val a (i + 8) 7 |}
             {| lo64 := seg_val b i 8; hi64 := seg_val b (i + 8) 7 |} c in
  (set_mem a (take i (mem a) ++ (le_bytes 8 (lo64 r.1) ++ le_bytes 7 (hi64 r.1))
              ++ drop (i + 15) (mem a)), r.2)
  = addition_sisd_loop 15 i a b c.
Proof.
  intros Ha Hb.
  pose proof (seg_val_8_range a i). pose proof (seg_val_7_range a (i + 8)).
  pose proof (seg_val_8_range b i). pose proof (seg_val_7_range b (i + 8)).
  pose proof (of_bool_range c).
  rewrite addition_simd_step15_spec, addition_sisd_loop_spec by (done || lia).
  cbn [fst snd lo64 hi64]. rewrite !seg_val_15 by lia.
  set (la := seg_val a i 8) in *. set (ha := seg_val a (i + 8) 7) in *.
  set (lb := seg_val b i 8) in *. set (hb := seg_val b (i + 8) 7) in *.
  f_equal.
  - do 3 f_equal. apply le_bytes_15_split; Z.div_mod_to_equations; lia.
  - change (256 ^ Z.of_nat 15) with (2 ^ 120).
    destruct (Z.leb_spec (2 ^ 56) (ha + hb + (la + lb + of_bool c) / 2 ^ 64));
      symmetry; [apply Z.leb_le | apply Z.leb_gt]; Z.div_mod_to_equations; lia.
Qed.

Lemma subtraction_chunk15 i a b c :
  (i + 14 < bi_length a)%nat -> (i + 14 < bi_length b)%nat ->
  let r := subtraction_simd_step15
             {| lo64 := seg_val a i 8; hi64 := seg_val a (i + 8) 7 |}
             {| lo64 := seg_val b i 8; hi64 := seg_val b (i + 8) 7 |} c in
  (set_mem a (take i (mem a) ++ (le_bytes 8 (lo64 r.1) ++ le_bytes 7 (hi64 r.1))
              ++ drop (i + 15) (mem a)), r.2)
  = subtraction_sisd_loop 15 i a b c.
Proof.
  intros Ha Hb.
  pose proof (seg_val_8_range a i). pose proof (seg_val_7_range a (i + 8)).
  pose proof (seg_val_8_range b i). pose proof (seg_val_7_range b (i + 8)).
  pose proof (of_bool_range c).
  rewrite subtraction_simd_step15_spec, subtraction_sisd_loop_spec by (done || lia).
  cbn [fst snd lo64 hi64]. rewrite !seg_val_15 by lia.
  set (la := seg_val a i 8) in *. set (ha := seg_val a (i + 8) 7) in *.
  set (lb := seg_val b i 8) in *. set (hb := seg_val b (i + 8) 7) in *.
  f_equal.
  - do 3 f_equal. unfold uint64.
    apply le_bytes_15_split; Z.div_mod_to_equations; lia.
  - destruct (Z.ltb_spec (ha - hb + (la - lb - of_bool c) / 2 ^ 64) 0);
      symmetry; [apply Z.ltb_lt | apply Z.ltb_ge]; Z.div_mod_to_equations; lia.
Qed.

Lemma bi_length_set_mem v m : bi_length (set_mem v m) = length m.
Proof. done. Qed.

Lemma length_splice (m : list byte) i (bs : list byte) :
  (i + length bs <= length m)%nat ->
  length (take i m ++ bs ++ drop (i + length bs) m) = length m.
Proof. intros H. rewrite !length_app, length_take, length_drop. lia. Qed.

Lemma bi_length_addition_sisd_loop n i a b c :
  bi_length (addition_sisd_loop n i a b c).1 = bi_length a.
Proof.
  revert i a c. induction n as [|n IH]; intros i a c; [done|].
  cbn [addition_sisd_loop]. by rewrite IH, bi_length_set_byte.
Qed.

Lemma bi_length_subtraction_sisd_loop n i a b c :
  bi_length (subtraction_sisd_loop n i a b c).1 = bi_length a.
Proof.
  revert i a c. induction n as [|n IH]; intros i a c; [done|].
  cbn [subtraction_sisd_loop]. by rewrite IH, bi_length_set_byte.
Qed.

Lemma sign_addition_sisd_loop n i a b c :
  sign (addition_sisd_loop n i a b c).1 = sign a.
Proof.
  revert i a c. induction n as [|n IH]; intros i a c; [done|].
  cbn [addition_sisd_loop]. by rewrite IH.
Qed.

Lemma sign_subtraction_sisd_loop n i a b c :
  sign (subtraction_sisd_loop n i a b c).1 = sign a.
Proof.
  revert i a c. induction n as [|n IH]; intros i a c; [done|].
  cbn [subtraction_sisd_loop]. by rewrite IH.
Qed.

Lemma addition_sisd_loop_app n m i a b c :
  addition_sisd_loop (n + m) i a b c =
  addition_sisd_loop m (i + n) (addition_sisd_loop n i a b c).1 b
                     (addition_sisd_loop n i a b c).2.
Proof.
  revert i a c. induction n as [|n IH]; intros i a c.
  - cbn. by rewrite Nat.add_0_r.
  - cbn [Nat.add addition_sisd_loop]. rewrite IH. by replace (S i + n)%nat with (i + S n)%nat by lia.
Qed.

Lemma subtraction_sisd_loop_app n m i a b c :
  subtraction_sisd_loop (n + m) i a b c =
  subtraction_sisd_loop m (i + n) (subtraction_sisd_loop n i a b c).1 b
                        (subtraction_sisd_loop n i a b c).2.
Proof.
  revert i a c. induction n as [|n IH]; intros i a c.
  - cbn. by rewrite Nat.add_0_r.
  - cbn [Nat.add subtraction_sisd_loop]. rewrite IH. by replace (S i + n)%nat with (i + S n)%nat by lia.
Qed.

Lemma bit_56 (s : Z) :
  0 <= s < 2 ^ 57 -> to_bool (Z.land (Z.shiftr s 56) 1) = (2 ^ 56 <=? s).
Proof.
  intros H. unfold to_bool. rewrite land_1, Z.shiftr_div_pow2 by lia.
  destruct (Z.leb_spec (2 ^ 56) s); [apply negb_true_iff|apply negb_false_iff];
    [apply Z.eqb_neq|apply Z.eqb_eq]; Z.div_mod_to_equations; lia.
Qed.

Lemma bit_56_neg (s : Z) :
  - 2 ^ 56 <= s < 2 ^ 56 -> to_bool (Z.land (Z.shiftr (uint64 s) 56) 1) = (s <? 0).
Proof.
  intros H. unfold to_bool, uint64. rewrite land_1, Z.shiftr_div_pow2 by lia.
  destruct (Z.ltb_spec s 0); [apply negb_true_iff|apply negb_false_iff];
    [apply Z.eqb_neq|apply Z.eqb_eq]; Z.div_mod_to_equations; lia.
Qed.

Lemma addition_chunk7 i a b c :
  (i + 6 < bi_length a)%nat -> (i + 6 < bi_length b)%nat ->
  let sum := uint64 (uint64 (seg_val a i 7 + seg_val b i 7) + of_bool c) in
  (set_mem a (take i (mem a) ++ le_bytes 7 sum ++ drop (i + 7) (mem a)),
   to_bool (Z.land (Z.shiftr sum 56) 1))
  = addition_sisd_loop 7 i a b c.
Proof.
  intros Ha Hb.
  pose proof (seg_val_7_range a i). pose proof (seg_val_7_range b i).
  pose proof (of_bool_range c).
  rewrite addition_sisd_loop_spec by lia. cbv zeta.
  assert (E : uint64 (uint64 (seg_val a i 7 + seg_val b i 7) + of_bool c)
              = seg_val a i 7 + seg_val b i 7 + of_bool c).
  { unfold uint64. rewrite (Z.mod_small (seg_val a i 7 + seg_val b i 7)) by lia.
    apply Z.mod_small. lia. }
  rewrite E, bit_56 by lia. done.
Qed.

Lemma mod_64_56 (x : Z) : (x mod 2 ^ 64) mod 2 ^ 56 = x mod 2 ^ 56.
Proof.
  apply Z.mod_mod_divide. exists (2 ^ 8). reflexivity.
Qed.

Lemma subtraction_chunk7 i a b c :
  (i + 6 < bi_length a)%nat -> (i + 6 < bi_length b)%nat ->
  let res := uint64 (uint64 (seg_val a i 7 - seg_val b i 7) - of_bool c) in
  (set_mem a (take i (mem a) ++ le_bytes 7 res ++ drop (i + 7) (mem a)),
   to_bool (Z.land (Z.shiftr res 56) 1))
  = subtraction_sisd_loop 7 i a b c.
Proof.
  intros Ha Hb.
  pose proof (seg_val_7_range a i). pose proof (seg_val_7_range b i).
  pose proof (of_bool_range c).
  rewrite subtraction_sisd_loop_spec by lia. cbv zeta.
  assert (E : uint64 (uint64 (seg_val a i 7 - seg_val b i 7) - of_bool c)
              = uint64 (seg_val a i 7 - seg_val b i 7 - of_bool c)).
  { unfold uint64. Z.div_mod_to_equations. lia. }
  rewrite E, bit_56_neg by lia. f_equal. do 3 f_equal.
  rewrite <- (le_bytes_mod 7 (uint64 _)), <- (le_bytes_mod 7 (_ - _ - _)).
  f_equal. unfold uint64. change (256 ^ Z.of_nat 7) with (2 ^ 56).
  apply mod_64_56.
Qed.

Lemma addition_simd_loop15_spec fuel i a b c :
  (i <= bi_length a)%nat -> (bi_length a + 1 <= fuel + i)%nat ->
  exists n, (i + n <= bi_length a)%nat /\
    addition_simd_loop15 fuel i a b c =
    Done ((addition_sisd_loop n i a b c).1, (i + n)%nat, (addition_sisd_loop n i a b c).2).
Proof.
  revert i a c. induction fuel as [|fuel IH]; intros i a c Hi Hfuel; [lia|].
  cbn [addition_simd_loop15].
  destruct (Nat.ltb_spec (i + 14) (bi_length a)) as [Ha|Ha];
    [destruct (Nat.ltb_spec (i + 14) (bi_length b)) as [Hb|Hb]|]; cbn [andb].
  - rewrite !get_15_bytes_in_range by done. cbn [mbind outcome_bind obind].
    pose proof (addition_chunk15 i a b c Ha Hb) as Hchunk. cbv zeta in Hchunk.
    destruct (addition_simd_step15 _ _ c) as [r c'] eqn:Hstep.
    cbn [fst snd] in Hchunk.
    rewrite set_15_bytes_in_range by done. cbn [mbind outcome_bind obind].
    set (a' := set_mem a _) in *.
    assert (Ha' : a' = (addition_sisd_loop 15 i a b c).1) by (by rewrite <- Hchunk).
    assert (Hc' : c' = (addition_sisd_loop 15 i a b c).2) by (by rewrite <- Hchunk).
    clearbody a'. subst a' c'.
    destruct (IH (i + 15)%nat (addition_sisd_loop 15 i a b c).1
                 (addition_sisd_loop 15 i a b c).2) as [n [Hn Hloop]];
      [rewrite bi_length_addition_sisd_loop; lia..|].
    rewrite bi_length_addition_sisd_loop in Hn.
    exists (15 + n)%nat. split; [lia|].
    rewrite Hloop, (addition_sisd_loop_app 15 n).
    by replace (i + (15 + n))%nat with (i + 15 + n)%nat by lia.
  - exists 0%nat. split; [lia|]. cbn. by rewrite Nat.add_0_r.
  - exists 0%nat. split; [lia|]. cbn. by rewrite Nat.add_0_r.
Qed.

Lemma addition_simd_loop7_spec fuel i a b c :
  (i <= bi_length a)%nat -> (bi_length a + 1 <= fuel + i)%nat ->
  exists n, (i + n <= bi_length a)%nat /\
    addition_simd_loop7 fuel i a b c =
    Done ((addition_sisd_loop n i a b c).1, (i + n)%nat, (addition_sisd_loop n i a b c).2).
Proof.
  revert i a c. induction fuel as [|fuel IH]; intros i a c Hi Hfuel; [lia|].
  cbn [addition_simd_loop7].
  destruct (Nat.ltb_spec (i + 6) (bi_length a)) as [Ha|Ha];
    [destruct (Nat.ltb_spec (i + 6) (bi_length b)) as [Hb|Hb]|]; cbn [andb].
  - rewrite !get_7_bytes_in_range by done. cbn [mbind outcome_bind obind].
    pose proof (addition_chunk7 i a b c Ha Hb) as Hchunk. cbv zeta in Hchunk.
    rewrite set_7_bytes_in_range by done. cbn [mbind outcome_bind obind].
    set (a' := set_mem a _) in *. set (c' := to_bool _) in *.
    assert (Ha' : a' = (addition_sisd_loop 7 i a b c).1) by (by rewrite <- Hchunk).
    assert (Hc' : c' = (addition_sisd_loop 7 i a b c).2) by (by rewrite <- Hchunk).
    clearbody a' c'. subst a' c'.
    destruct (IH (i + 7)%nat (addition_sisd_loop 7 i a b c).1
                 (addition_sisd_loop 7 i a b c).2) as [n [Hn Hloop]];
      [rewrite bi_length_addition_sisd_loop; lia..|].
    rewrite bi_length_addition_sisd_loop in Hn.
    exists (7 + n)%nat. split; [lia|].
    rewrite Hloop, (addition_sisd_loop_app 7 n).
    by replace (i + (7 + n))%nat with (i + 7 + n)%nat by lia.
  - exists 0%nat. split; [lia|]. cbn. by rewrite Nat.add_0_r.
  - exists 0%nat. split; [lia|]. cbn. by rewrite Nat.add_0_r.
Qed.

Lemma subtraction_simd_loop15_spec fuel i a b c :
  (i <= bi_length a)%nat -> (bi_length a + 1 <= fuel + i)%nat ->
  exists n, (i + n <= bi_length a)%nat /\
    subtraction_simd_loop15 fuel i a b c =
    Done ((subtraction_sisd_loop n i a b c).1, (i + n)%nat, (subtraction_sisd_loop n i a b c).2).
Proof.
  revert i a c. induction fuel as [|fuel IH]; intros i a c Hi Hfuel; [lia|].
  cbn [subtraction_simd_loop15].
  destruct (Nat.ltb_spec (i + 14) (bi_length a)) as [Ha|Ha];
    [destruct (Nat.ltb_spec (i + 14) (bi_length b)) as [Hb|Hb]|]; cbn [andb].
  - rewrite !get_15_bytes_in_range by done. cbn [mbind outcome_bind obind].
    pose proof (subtraction_chunk15 i a b c Ha Hb) as Hchunk. cbv zeta in Hchunk.
    destruct (subtraction_simd_step15 _ _ c) as [r c'] eqn:Hstep.
    cbn [fst snd] in Hchunk.
    rewrite set_15_bytes_in_range by done. cbn [mbind outcome_bind obind].
    set (a' := set_mem a _) in *.
    assert (Ha' : a' = (subtraction_sisd_loop 15 i a b c).1) by (by rewrite <- Hchunk).
    assert (Hc' : c' = (subtraction_sisd_loop 15 i a b c).2) by (by rewrite <- Hchunk).
    clearbody a'. subst a' c'.
    destruct (IH (i + 15)%nat (subtraction_sisd_loop 15 i a b c).1
                 (subtraction_sisd_loop 15 i a b c).2) as [n [Hn Hloop]];
      [rewrite bi_length_subtraction_sisd_loop; lia..|].
    rewrite bi_length_subtraction_sisd_loop in Hn.
    exists (15 + n)%nat. split; [lia|].
    rewrite Hloop, (subtraction_sisd_loop_app 15 n).
    by replace (i + (15 + n))%nat with (i + 15 + n)%nat by lia.
  - exists 0%nat. split; [lia|]. cbn. by rewrite Nat.add_0_r.
  - exists 0%nat. split; [lia|]. cbn. by rewrite Nat.add_0_r.
Qed.

Lemma subtraction_simd_loop7_spec fuel i a b c :
  (i <= bi_length a)%nat -> (bi_length a + 1 <= fuel + i)%nat ->
  exists n, (i + n <= bi_length a)%nat /\
    subtraction_simd_loop7 fuel i a b c =
    Done ((subtraction_sisd_loop n i a b c).1, (i + n)%nat, (subtraction_sisd_loop n i a b c).2).
Proof.
  revert i a c. induction fuel as [|fuel IH]; intros i a c Hi Hfuel; [lia|].
  cbn [subtraction_simd_loop7].
  destruct (Nat.ltb_spec (i + 6) (bi_length a)) as [Ha|Ha];
    [destruct (Nat.ltb_spec (i + 6) (bi_length b)) as [Hb|Hb]|]; cbn [andb].
  - rewrite !get_7_bytes_in_range by done. cbn [mbind outcome_bind obind].
    pose proof (subtraction_chunk7 i a b c Ha Hb) as Hchunk. cbv zeta in Hchunk.
    rewrite set_7_bytes_in_range by done. cbn [mbind outcome_bind obind].
    set (a' := set_mem a _) in *. set (c' := to_bool _) in *.
    assert (Ha' : a' = (subtraction_sisd_loop 7 i a b c).1) by (by rewrite <- Hchunk).
    assert (Hc' : c' = (subtraction_sisd_loop 7 i a b c).2) by (by rewrite <- Hchunk).
    clearbody a' c'. subst a' c'.
    destruct (IH (i + 7)%nat (subtraction_sisd_loop 7 i a b c).1
                 (subtraction_sisd_loop 7 i a b c).2) as [n [Hn Hloop]];
      [rewrite bi_length_subtraction_sisd_loop; lia..|].
    rewrite bi_length_subtraction_sisd_loop in Hn.
    exists (7 + n)%nat. split; [lia|].
    rewrite Hloop, (subtraction_sisd_loop_app 7 n).
    by replace (i + (7 + n))%nat with (i + 7 + n)%nat by lia.
  - exists 0%nat. split; [lia|]. cbn. by rewrite Nat.add_0_r.
  - exists 0%nat. split; [lia|]. cbn. by rewrite Nat.add_0_r.
Qed.

(** SIMD and SISD magnitude addition agree. *)
Lemma big_integer_addition_simd_sisd a b :
  big_integer_addition_simd a b = Done (big_integer_addition_sisd a b).
Proof.
  unfold big_integer_addition_simd, big_integer_addition_sisd.
  destruct (addition_simd_loop15_spec (S (bi_length a)) 0 a b false)
    as [n1 [Hn1 H1]]; [lia..|].
  rewrite H1. cbn [mbind outcome_bind obind].
  destruct (addition_simd_loop7_spec (S (bi_length a)) (0 + n1)
              (addition_sisd_loop n1 0 a b false).1 b
              (addition_sisd_loop n1 0 a b false).2)
    as [n2 [Hn2 H2]]; [rewrite bi_length_addition_sisd_loop; lia..|].
  rewrite bi_length_addition_sisd_loop in Hn2.
  rewrite H2. cbn [mbind outcome_bind obind]. f_equal.
  replace (bi_length a) with (n1 + (n2 + (bi_length a - (0 + n1 + n2))))%nat at 2
    by lia.
  by rewrite !addition_sisd_loop_app.
Qed.

(** SIMD and SISD magnitude subtraction agree. *)
Lemma big_integer_subtraction_simd_sisd a b :
  big_integer_subtraction_simd a b = Done (big_integer_subtraction_sisd a b).
Proof.
  unfold big_integer_subtraction_simd, big_integer_subtraction_sisd.
  destruct (subtraction_simd_loop15_spec (S (bi_length a)) 0 a b false)
    as [n1 [Hn1 H1]]; [lia..|].
  rewrite H1. cbn [mbind outcome_bind obind].
  destruct (subtraction_simd_loop7_spec (S (bi_length a)) (0 + n1)
              (subtraction_sisd_loop n1 0 a b false).1 b
              (subtraction_sisd_loop n1 0 a b false).2)
    as [n2 [Hn2 H2]]; [rewrite bi_length_subtraction_sisd_loop; lia..|].
  rewrite bi_length_subtraction_sisd_loop in Hn2.
  rewrite H2. cbn [mbind outcome_bind obind]. f_equal.
  replace (bi_length a) with (n1 + (n2 + (bi_length a - (0 + n1 + n2))))%nat at 2
    by lia.
  by rewrite !subtraction_sisd_loop_app.
Qed.

(** ** The bitwise shift by 0 to 7 bits *)

Lemma testbit_above (c k n : Z) : 0 <= c < 2 ^ k -> k <= n -> Z.testbit c n = false.
Proof.
  intros Hc Hn. destruct (Z.eq_dec c 0) as [->|]; [apply Z.bits_0|].
  apply Z.bits_above_log2; [lia|].
  assert (Z.log2 c < k); [|lia].
  apply Z.log2_lt_pow2; lia.
Qed.

Lemma lor_shifted (x c k : Z) :
  0 <= k -> 0 <= c < 2 ^ k -> Z.lor (x * 2 ^ k) c = x * 2 ^ k + c.
Proof.
  intros Hk Hc. rewrite <- (Z.add_lor_land (x * 2 ^ k) c).
  assert (Z.land (x * 2 ^ k) c = 0); [|lia].
  apply Z.bits_inj'. intros n Hn. rewrite Z.land_spec, Z.bits_0.
  destruct (Z.lt_ge_cases n k).
  - rewrite <- Z.shiftl_mul_pow2, Z.shiftl_spec_low by lia. done.
  - rewrite (testbit_above c k n) by lia. apply andb_false_r.
Qed.


Lemma shl_step (b k : Z) (c : byte) :
  0 <= b < 256 -> 0 <= k <= 7 -> byte.unsigned c < 2 ^ k ->
  Z.lor (uint16 (Z.shiftl b k)) (byte.unsigned c) = b * 2 ^ k + byte.unsigned c /\
  byte.unsigned (byte.of_Z (Z.shiftr (b * 2 ^ k + byte.unsigned c) 8))
    = (b * 2 ^ k + byte.unsigned c) / 256 /\
  (b * 2 ^ k + byte.unsigned c) / 256 < 2 ^ k.
Proof.
  intros Hb Hk Hc. pose proof (byte_range c) as Hcr.
  assert (1 <= 2 ^ k <= 128).
  { split; [apply (Z.pow_le_mono_r 2 0 k); lia|apply (Z.pow_le_mono_r 2 k 7); lia]. }
  assert (Hs : uint16 (Z.shiftl b k) = b * 2 ^ k).
  { unfold uint16. rewrite Z.shiftl_mul_pow2 by lia. apply Z.mod_small. nia. }
  rewrite Hs, lor_shifted by lia. split; [done|].
  rewrite Z.shiftr_div_pow2 by lia. change (2 ^ 8) with 256.
  assert ((b * 2 ^ k + byte.unsigned c) / 256 < 2 ^ k).
  { apply Z.div_lt_upper_bound; nia. }
  split; [|done]. rewrite unsigned_of_Z_mod. apply Z.mod_small.
  split; [apply Z.div_pos; nia | lia].
Qed.

Lemma shl_carry_small v i n k c :
  0 <= k <= 7 -> byte.unsigned c < 2 ^ k ->
  byte.unsigned (shl_carry v i n k c)
    = (seg_val v i n * 2 ^ k + byte.unsigned c) / 256 ^ Z.of_nat n
  /\ byte.unsigned (shl_carry v i n k c) < 2 ^ k.
Proof.
  intros Hk Hc. pose proof (byte_range c) as Hcr. pose proof (seg_val_bound v i n) as Hv.
  assert (1 <= 2 ^ k <= 128).
  { split; [apply (Z.pow_le_mono_r 2 0 k); lia|apply (Z.pow_le_mono_r 2 k 7); lia]. }
  assert (0 < 256 ^ Z.of_nat n) by (apply Z.pow_pos_nonneg; lia).
  assert ((seg_val v i n * 2 ^ k + byte.unsigned c) / 256 ^ Z.of_nat n < 2 ^ k).
  { apply Z.div_lt_upper_bound; nia. }
  unfold shl_carry. rewrite unsigned_of_Z_mod, Z.mod_small; [done|].
  split; [apply Z.div_pos; nia | lia].
Qed.

Lemma shl_sisd_loop_step n i v k c :
  0 <= k <= 7 -> byte.unsigned c < 2 ^ k ->
  shl_sisd_loop (S n) i v k c =
  shl_sisd_loop n (S i)
    (set_byte_value_of_big_integer v i
       (byte.of_Z (byte.unsigned (get_byte_value_of_big_integer v i) * 2 ^ k
                   + byte.unsigned c)))
    k (shl_carry v i 1 k c).
Proof.
  intros Hk Hc. cbn [shl_sisd_loop].
  pose proof (byte_range (get_byte_value_of_big_integer v i)) as Hb.
  destruct (shl_step _ k c Hb Hk Hc) as [E1 [E2 E3]]. rewrite E1.
  f_equal. unfold shl_carry. rewrite seg_val_S, seg_val_0, Z.mul_0_r, Z.add_0_r.
  rewrite Z.shiftr_div_pow2 by lia. done.
Qed.

Lemma shl_sisd_loop_spec n i v k c :
  (i + n <= bi_length v)%nat -> 0 <= k <= 7 -> byte.unsigned c < 2 ^ k ->
  shl_sisd_loop n i v k c =
    set_mem v (take i (mem v)
               ++ le_bytes n (seg_val v i n * 2 ^ k + byte.unsigned c)
               ++ drop (i + n) (mem v)).
Proof.
  revert i v c. induction n as [|n IH]; intros i v c Hn Hk Hc.
  - cbn [shl_sisd_loop le_bytes app]. by rewrite Nat.add_0_r, take_drop, set_mem_id.
  - rewrite shl_sisd_loop_step by done.
    destruct (shl_carry_small v i 1 k c Hk Hc) as [Hc1 Hc1'].
    rewrite IH by (done || rewrite bi_length_set_byte; lia).
    rewrite set_mem_set_byte, mem_set_byte, seg_val_set_byte_gt by lia.
    rewrite take_S_insert by (unfold bi_length in Hn; lia).
    rewrite drop_insert_lt by lia. rewrite Hc1.
    rewrite !seg_val_S, seg_val_0, Z.mul_0_r, Z.add_0_r.
    change (256 ^ Z.of_nat 1) with 256.
    set (b := byte.unsigned (get_byte_value_of_big_integer v i)).
    set (V' := seg_val v (S i) n). set (P := 2 ^ k). set (cz := byte.unsigned c).
    f_equal. rewrite <- app_assoc. cbn [app le_bytes].
    assert (E1 : byte.of_Z ((b + 256 * V') * P + cz) = byte.of_Z (b * P + cz)).
    { apply of_Z_congr. replace ((b + 256 * V') * P + cz)
        with (b * P + cz + (V' * P) * 256) by lia. apply Z.mod_add. lia. }
    assert (E2 : ((b + 256 * V') * P + cz) / 256 = V' * P + (b * P + cz) / 256).
    { replace ((b + 256 * V') * P + cz) with ((V' * P) * 256 + (b * P + cz)) by lia.
      rewrite Z.div_add_l by lia. done. }
    rewrite E1, E2. by replace (i + S n)%nat with (S i + n)%nat by lia.
Qed.

Lemma bi_length_shl_sisd_loop n i v k c : bi_length (shl_sisd_loop n i v k c) = bi_length v.
Proof.
  revert i v c. induction n as [|n IH]; intros i v c; [done|].
  cbn [shl_sisd_loop]. by rewrite IH, bi_length_set_byte.
Qed.

Lemma sign_shl_sisd_loop n i v k c : sign (shl_sisd_loop n i v k c) = sign v.
Proof.
  revert i v c. induction n as [|n IH]; intros i v c; [done|].
  cbn [shl_sisd_loop]. by rewrite IH.
Qed.

Lemma shl_sisd_loop_app n m i v k c :
  0 <= k <= 7 -> byte.unsigned c < 2 ^ k ->
  shl_sisd_loop (n + m) i v k c =
  shl_sisd_loop m (i + n) (shl_sisd_loop n i v k c) k (shl_carry v i n k c).
Proof.
  intros Hk. revert i v c. induction n as [|n IH]; intros i v c Hc.
  - cbn [Nat.add shl_sisd_loop]. rewrite Nat.add_0_r. f_equal.
    unfold shl_carry. rewrite seg_val_0, Z.mul_0_l, Z.add_0_l.
    change (256 ^ Z.of_nat 0) with 1. by rewrite Z.div_1_r, byte.of_Z_unsigned.
  - cbn [Nat.add]. rewrite !shl_sisd_loop_step by done.
    destruct (shl_carry_small v i 1 k c Hk Hc) as [Hc1 Hc1'].
    rewrite IH by done. replace (S i + n)%nat with (i + S n)%nat by lia.
    f_equal. unfold shl_carry at 1 3.
    rewrite seg_val_set_byte_gt, Hc1 by lia.
    rewrite !seg_val_S, seg_val_0, Z.mul_0_r, Z.add_0_r.
    change (256 ^ Z.of_nat 1) with 256.
    rewrite Nat2Z.inj_succ, Z.pow_succ_r by lia.
    set (b := byte.unsigned (get_byte_value_of_big_integer v i)).
    set (V' := seg_val v (S i) n). set (P := 2 ^ k). set (cz := byte.unsigned c).
    f_equal. rewrite <- Z.div_div by lia. f_equal.
    replace ((b + 256 * V') * P + cz) with ((V' * P) * 256 + (b * P + cz)) by lia.
    by rewrite Z.div_add_l by lia.
Qed.

Lemma shl_chunk7 i v k c :
  (i + 6 < bi_length v)%nat -> 0 <= k <= 7 -> byte.unsigned c < 2 ^ k ->
  let shifted := Z.lor (uint64 (Z.shiftl (seg_val v i 7) k)) (byte.unsigned c) in
  set_mem v (take i (mem v) ++ le_bytes 7 (Z.land shifted 72057594037927935)
             ++ drop (i + 7) (mem v)) = shl_sisd_loop 7 i v k c /\
  byte.of_Z (Z.shiftr shifted 56) = shl_carry v i 7 k c.
Proof.
  intros Hi Hk Hc. pose proof (seg_val_7_range v i) as Hv.
  pose proof (byte_range c) as Hcr. cbv zeta.
  assert (1 <= 2 ^ k <= 128).
  { split; [apply (Z.pow_le_mono_r 2 0 k); lia|apply (Z.pow_le_mono_r 2 k 7); lia]. }
  assert (Hs : uint64 (Z.shiftl (seg_val v i 7) k) = seg_val v i 7 * 2 ^ k).
  { unfold uint64. rewrite Z.shiftl_mul_pow2 by lia. apply Z.mod_small. nia. }
  rewrite Hs, lor_shifted by lia. split.
  - rewrite shl_sisd_loop_spec by (done || lia). do 3 f_equal.
    change 72057594037927935 with (Z.ones 56). rewrite Z.land_ones by lia.
    apply (le_bytes_mod 7).
  - unfold shl_carry. by rewrite Z.shiftr_div_pow2 by lia.
Qed.

Lemma shl_simd56_loop_spec fuel i v k c :
  (i <= bi_length v)%nat -> (bi_length v + 1 <= fuel + i)%nat ->
  0 <= k <= 7 -> byte.unsigned c < 2 ^ k ->
  exists n, (i + n <= bi_length v)%nat /\
    shl_simd56_loop fuel i v k c =
    Done (shl_sisd_loop n i v k c, (i + n)%nat, shl_carry v i n k c).
Proof.
  intros Hi Hfuel Hk. revert i v c Hi Hfuel.
  induction fuel as [|fuel IH]; intros i v c Hi Hfuel Hc; [lia|].
  cbn [shl_simd56_loop].
  destruct (Nat.ltb_spec (i + 6) (bi_length v)) as [Hv|Hv].
  - rewrite get_7_bytes_in_range by done. cbn [mbind outcome_bind obind].
    rewrite set_7_bytes_in_range by done. cbn [mbind outcome_bind obind].
    destruct (shl_chunk7 i v k c Hv Hk Hc) as [E1 E2]. cbv zeta in E1, E2.
    rewrite E1, E2.
    destruct (shl_carry_small v i 7 k c Hk Hc) as [_ Hc7].
    destruct (IH (i + 7)%nat (shl_sisd_loop 7 i v k c) (shl_carry v i 7 k c))
      as [n [Hn Hloop]]; [rewrite bi_length_shl_sisd_loop; lia..|done|].
    rewrite bi_length_shl_sisd_loop in Hn.
    exists (7 + n)%nat. split; [lia|]. rewrite Hloop.
    rewrite (shl_sisd_loop_app 7 n) by done.
    replace (i + (7 + n))%nat with (i + 7 + n)%nat by lia. do 2 f_equal.
    (* the carry after 7 + n bytes *)
    destruct (shl_carry_small v i 7 k c Hk Hc) as [Hc7v _].
    unfold shl_carry at 1 3. rewrite Hc7v.
    rewrite (seg_val_app v i 7 n) by lia.
    assert (Hseg : seg_val (shl_sisd_loop 7 i v k c) (i + 7) n = seg_val v (i + 7) n).
    { rewrite shl_sisd_loop_spec by (done || lia). unfold seg_val. cbn [mem set_mem].
      rewrite app_assoc, drop_app_length'; [done|].
      rewrite length_app, length_take, length_le_bytes. unfold bi_length in Hv. lia. }
    rewrite Hseg. rewrite Nat2Z.inj_add, Z.pow_add_r by lia.
    set (V7 := seg_val v i 7). set (V' := seg_val v (i + 7) n).
    set (P := 2 ^ k). set (cz := byte.unsigned c).
    f_equal. rewrite <- Z.div_div by lia. f_equal.
    replace ((V7 + 256 ^ Z.of_nat 7 * V') * P + cz)
      with ((V' * P) * 256 ^ Z.of_nat 7 + (V7 * P + cz)) by lia.
    rewrite Z.div_add_l by lia. lia.
  - exists 0%nat. split; [lia|]. rewrite Nat.add_0_r. cbn [shl_sisd_loop]. do 2 f_equal.
    unfold shl_carry. rewrite seg_val_0, Z.mul_0_l, Z.add_0_l.
    change (256 ^ Z.of_nat 0) with 1. by rewrite Z.div_1_r, byte.of_Z_unsigned.
Qed.

(** SIMD and SISD shifts agree when the count is at most 7. *)
Lemma big_integer_shl_simd_sisd v k :
  0 <= k <= 7 ->
  big_integer_shl_bitwise_0_to_7__simd56 v k
  = Done (big_integer_shl_bitwise_0_to_7__sisd v k).
Proof.
  intros Hk. unfold big_integer_shl_bitwise_0_to_7__simd56,
    big_integer_shl_bitwise_0_to_7__sisd.
  assert (Hc : byte.unsigned Byte.x00 < 2 ^ k).
  { change (byte.unsigned Byte.x00) with 0. apply Z.pow_pos_nonneg; lia. }
  destruct (shl_simd56_loop_spec (S (bi_length v)) 0 v k Byte.x00)
    as [n [Hn Hloop]]; [lia..|done|].
  rewrite Hloop. cbn [mbind outcome_bind obind]. f_equal.
  replace (bi_length v) with (n + (bi_length v - (0 + n)))%nat at 2 by lia.
  by rewrite shl_sisd_loop_app.
Qed.

Lemma big_integer_shl_simd_irrelevant v k simd :
  0 <= k <= 7 ->
  big_integer_shl_bitwise_0_to_7 v k simd
  = Done (big_integer_shl_bitwise_0_to_7__sisd v k).
Proof.
  intros Hk. destruct simd; [by apply big_integer_shl_simd_sisd | done].
Qed.

(** ** Comparison of magnitudes *)

Lemma seg_val_snoc v n :
  seg_val v 0 (S n) =
  seg_val v 0 n + 256 ^ Z.of_nat n * byte.unsigned (get_byte_value_of_big_integer v n).
Proof.
  destruct (Nat.lt_ge_cases n (bi_length v)) as [H|H].
  - replace (S n) with (n + 1)%nat by lia. rewrite seg_val_app by lia.
    cbn [Nat.add]. rewrite seg_val_S, seg_val_0. lia.
  - rewrite get_byte_overflow by done. change (byte.unsigned Byte.x00) with 0.
    unfold seg_val. rewrite drop_0, !take_ge by (unfold bi_length in H; lia). lia.
Qed.

Lemma seg_val_beyond v n : (bi_length v <= n)%nat -> seg_val v 0 n = le_val (mem v).
Proof. intros H. unfold seg_val. by rewrite drop_0, take_ge. Qed.

Lemma greater_than_loop_step i a b :
  greater_than_loop (S i) a b =
  if byte_eqb (get_byte_value_of_big_integer a i) (get_byte_value_of_big_integer b i)
  then greater_than_loop i a b
  else byte.unsigned (get_byte_value_of_big_integer b i)
       <? byte.unsigned (get_byte_value_of_big_integer a i).
Proof.
  cbn [greater_than_loop].
  pose proof (byte_range (get_byte_value_of_big_integer a i)) as Ha.
  pose proof (byte_range (get_byte_value_of_big_integer b i)) as Hb.
  destruct (Nat.ltb_spec i (bi_length a)) as [Hia|Hia];
    destruct (Nat.ltb_spec i (bi_length b)) as [Hib|Hib];
    destruct (Nat.leb_spec (bi_length a) i); try lia;
    destruct (Nat.leb_spec (bi_length b) i); try lia; cbn [andb].
  - done.
  - rewrite (get_byte_overflow b i) by done. rewrite byte_eqb_zero.
    change (byte.unsigned Byte.x00) with 0.
    destruct (Z.eqb_spec (byte.unsigned (get_byte_value_of_big_integer a i)) 0);
      cbn [negb]; [done|]. symmetry. apply Z.ltb_lt. lia.
  - rewrite (get_byte_overflow a i) by done.
    unfold byte_eqb at 2. change (byte.unsigned Byte.x00) with 0.
    rewrite byte_eqb_zero, (Z.eqb_sym 0).
    destruct (Z.eqb_spec (byte.unsigned (get_byte_value_of_big_integer b i)) 0);
      cbn [negb]; [done|]. symmetry. apply Z.ltb_ge. lia.
  - rewrite !get_byte_overflow by done. by rewrite byte_eqb_refl.
Qed.

Lemma greater_than_loop_spec n a b :
  greater_than_loop n a b = (seg_val b 0 n <? seg_val a 0 n).
Proof.
  induction n as [|n IH]; [done|].
  rewrite greater_than_loop_step, IH, !seg_val_snoc.
  pose proof (byte_range (get_byte_value_of_big_integer a n)) as Ha.
  pose proof (byte_range (get_byte_value_of_big_integer b n)) as Hb.
  pose proof (seg_val_bound a 0 n). pose proof (seg_val_bound b 0 n).
  set (x := byte.unsigned (get_byte_value_of_big_integer a n)) in *.
  set (y := byte.unsigned (get_byte_value_of_big_integer b n)) in *.
  set (P := 256 ^ Z.of_nat n) in *.
  unfold byte_eqb. fold x y.
  destruct (Z.eqb_spec x y) as [->|Hne].
  - destruct (Z.ltb_spec (seg_val b 0 n) (seg_val a 0 n));
      symmetry; [apply Z.ltb_lt | apply Z.ltb_ge]; lia.
  - destruct (Z.ltb_spec y x); symmetry; [apply Z.ltb_lt | apply Z.ltb_ge]; nia.
Qed.

(** On two integers that are not negative the comparison is the comparison
    of the magnitudes. *)
Lemma positive_big_integer_is_greater_than_spec a b simd :
  sign a = false -> sign b = false ->
  positive_big_integer_is_greater_than a b simd
  = Done (le_val (mem b) <? le_val (mem a)).
Proof.
  intros Ha Hb. unfold positive_big_integer_is_greater_than.
  rewrite Ha, Hb, !big_integer_is_zero_simd_irrelevant.
  cbn [orb mbind outcome_bind obind negb]. rewrite !is_zero_loop_le_val.
  rewrite greater_than_loop_spec, !seg_val_beyond by lia.
  pose proof (le_val_nonneg (mem a)). pose proof (le_val_nonneg (mem b)).
  destruct (Z.eqb_spec (le_val (mem a)) 0) as [Ea|Ea];
    destruct (Z.eqb_spec (le_val (mem b)) 0) as [Eb|Eb]; cbn [andb]; try done;
    f_equal; symmetry; apply Z.ltb_ge; lia.
Qed.

(** ** Copies *)

Lemma mem_set_zero_loop n i v :
  (i + n <= bi_length v)%nat ->
  mem (set_zero_loop n i v) = take i (mem v) ++ replicate n Byte.x00 ++ drop (i + n) (mem v).
Proof.
  revert i v. induction n as [|n IH]; intros i v Hn.
  - cbn. by rewrite Nat.add_0_r, take_drop.
  - cbn [set_zero_loop]. rewrite IH by (rewrite bi_length_set_byte; lia).
    rewrite mem_set_byte, take_S_insert by (unfold bi_length in Hn; lia).
    rewrite drop_insert_lt by lia. rewrite <- app_assoc. cbn [app replicate].
    by replace (i + S n)%nat with (S i + n)%nat by lia.
Qed.

Lemma sign_set_zero_loop n i v : sign (set_zero_loop n i v) = sign v.
Proof. revert i v. induction n as [|n IH]; intros i v; [done|]. cbn. by rewrite IH. Qed.

Lemma set_zero_create v : set_zero v = create_big_integer (bi_length v) false.
Proof.
  unfold set_zero, create_big_integer, set_sign. f_equal.
  rewrite mem_set_zero_loop by lia. rewrite take_0, drop_ge by (unfold bi_length; lia).
  cbn. by rewrite app_nil_r.
Qed.

Lemma bi_length_create n s : bi_length (create_big_integer n s) = n.
Proof. unfold bi_length. cbn. apply length_replicate. Qed.

Lemma le_val_create n s : le_val (mem (create_big_integer n s)) = 0.
Proof. cbn. apply le_val_replicate_zero. Qed.

Lemma clone_big_integer_id v : clone_big_integer v = v.
Proof.
  destruct v as [s m]. unfold clone_big_integer, set_mem, write_bytes, bi_length. cbn.
  f_equal. rewrite drop_ge by (rewrite length_replicate; lia). by rewrite app_nil_r.
Qed.

Lemma copy_big_integer_mem src dst :
  mem (copy_big_integer_value_into_another src dst) =
  take (bi_length dst) (mem src ++ replicate (bi_length dst - bi_length src) Byte.x00).
Proof.
  unfold copy_big_integer_value_into_another, write_bytes.
  rewrite set_zero_create. cbn [mem set_mem set_sign create_big_integer].
  rewrite take_0, length_take. fold (bi_length src). cbn [app Nat.add].
  destruct (Nat.le_ge_cases (bi_length src) (bi_length dst)) as [H|H].
  - replace (bi_length src `min` bi_length dst)%nat with (bi_length src) by lia.
    replace (bi_length src `min` bi_length src)%nat with (bi_length src) by lia.
    rewrite take_ge by (unfold bi_length in *; lia).
    rewrite drop_replicate.
    rewrite (take_ge (_ ++ _)); [done|].
    rewrite length_app, length_replicate. unfold bi_length in *. lia.
  - replace (bi_length src `min` bi_length dst)%nat with (bi_length dst) by lia.
    replace (bi_length dst `min` bi_length src)%nat with (bi_length dst) by lia.
    rewrite drop_ge by (rewrite length_replicate; lia).
    replace (bi_length dst - bi_length src)%nat with 0%nat by lia.
    cbn [replicate]. by rewrite !app_nil_r.
Qed.

Lemma sign_copy_big_integer src dst :
  sign (copy_big_integer_value_into_another src dst) = sign src.
Proof. done. Qed.

Lemma bi_length_copy_big_integer src dst :
  bi_length (copy_big_integer_value_into_another src dst) = bi_length dst.
Proof.
  unfold bi_length at 1. rewrite copy_big_integer_mem, length_take, length_app,
    length_replicate. unfold bi_length. lia.
Qed.

Lemma big_integer_eq (x y : big_integer) : sign x = sign y -> mem x = mem y -> x = y.
Proof. destruct x, y. cbn. by intros -> ->. Qed.

Lemma copy_big_integer_same_length src dst :
  bi_length dst = bi_length src -> copy_big_integer_value_into_another src dst = src.
Proof.
  intros H. apply big_integer_eq; [done|].
  rewrite copy_big_integer_mem, H, Nat.sub_diag. cbn [replicate].
  rewrite app_nil_r. apply take_ge. unfold bi_length. lia.
Qed.

Lemma le_val_take (l : list byte) n : le_val (take n l) = le_val l mod 256 ^ Z.of_nat n.
Proof.
  rewrite <- (take_drop n l) at 2. rewrite le_val_app, length_take.
  destruct (Nat.le_ge_cases n (length l)) as [H|H].
  - rewrite Nat.min_l by lia.
    pose proof (le_val_bound (take n l)) as Hb. rewrite length_take, Nat.min_l in Hb by lia.
    rewrite (Z.mul_comm (256 ^ Z.of_nat n)), Z.mod_add by lia.
    symmetry. by apply Z.mod_small.
  - rewrite drop_ge by lia. cbn [le_val]. rewrite Z.mul_0_r, Z.add_0_r.
    pose proof (le_val_bound (take n l)) as Hb. symmetry. apply Z.mod_small.
    split; [lia|]. eapply Z.lt_le_trans; [apply Hb|].
    apply Z.pow_le_mono_r; [lia|]. rewrite length_take. lia.
Qed.

Lemma le_val_copy_big_integer src dst :
  le_val (mem (copy_big_integer_value_into_another src dst))
  = le_val (mem src) mod 256 ^ Z.of_nat (bi_length dst).
Proof.
  rewrite copy_big_integer_mem, le_val_take, le_val_app, le_val_replicate_zero. f_equal. lia.
Qed.

(** ** Signed addition and subtraction: the second operand is preserved *)

Lemma set_sign_idem v s : sign v = s -> set_sign v s = v.
Proof. intros <-. by destruct v. Qed.

Lemma set_sign_set_sign v s t : set_sign (set_sign v s) t = set_sign v t.
Proof. done. Qed.

Lemma bi_length_set_sign v s : bi_length (set_sign v s) = bi_length v.
Proof. done. Qed.

Lemma bi_length_negate v : bi_length (negate_big_integer v) = bi_length v.
Proof. done. Qed.

Lemma bi_length_addition_sisd a b : bi_length (big_integer_addition_sisd a b) = bi_length a.
Proof. apply bi_length_addition_sisd_loop. Qed.

Lemma bi_length_subtraction_sisd a b :
  bi_length (big_integer_subtraction_sisd a b) = bi_length a.
Proof. apply bi_length_subtraction_sisd_loop. Qed.

(** The magnitude step at the end of [big_integer_addition]. *)
Lemma addition_magnitude a b (simd : bool) :
  (if simd then a1 ← big_integer_addition_simd a b; Done (a1, b)
   else Done (big_integer_addition_sisd a b, b))
  = Done (big_integer_addition_sisd a b, b).
Proof. destruct simd; [|done]. by rewrite big_integer_addition_simd_sisd. Qed.

Lemma subtraction_magnitude a b (simd : bool) :
  (if simd then a1 ← big_integer_subtraction_simd a b; Done (a1, b)
   else Done (big_integer_subtraction_sisd a b, b))
  = Done (big_integer_subtraction_sisd a b, b).
Proof. destruct simd; [|done]. by rewrite big_integer_subtraction_simd_sisd. Qed.

Lemma addition_fuel_S fuel value_a value_b simd :
  addition_fuel (S fuel) value_a value_b simd =
  if sign value_a && negb (sign value_b) then
    '(a1, b1) ← subtraction_fuel fuel (set_sign value_a false) value_b simd;
    Done (set_sign a1 (negb (sign a1)), b1)
  else if negb (sign value_a) && sign value_b then
    '(a1, b1) ← subtraction_fuel fuel value_a (set_sign value_b false) simd;
    Done (a1, set_sign b1 true)
  else if simd then
    a1 ← big_integer_addition_simd value_a value_b;
    Done (a1, value_b)
  else Done (big_integer_addition_sisd value_a value_b, value_b).
Proof. done. Qed.

Lemma subtraction_fuel_S fuel value_a value_b simd :
  subtraction_fuel (S fuel) value_a value_b simd =
  if negb (sign value_a) && sign value_b then
    '(a1, b1) ← addition_fuel fuel value_a (set_sign value_b false) simd;
    Done (a1, set_sign b1 true)
  else if sign value_a && negb (sign value_b) then
    '(a1, b1) ← addition_fuel fuel (set_sign value_a false) value_b simd;
    Done (negate_big_integer a1, b1)
  else if sign value_a && sign value_b then
    let value_a := set_sign value_a false in
    let b_copy :=
      clone_big_integer_add_size value_b
        (size_max 0 (uint64 (Z.of_nat (bi_length value_a)
                             - Z.of_nat (bi_length value_b)))) in
    let b_copy := set_sign b_copy false in
    '(b_copy, value_a) ← subtraction_fuel fuel b_copy value_a simd;
    Done (copy_big_integer_value_into_another b_copy value_a, value_b)
  else
    gt ← positive_big_integer_is_greater_than value_b value_a simd;
    if (gt : bool) then
      let b_copy := clone_big_integer value_b in
      '(value_b, value_a) ← subtraction_fuel fuel value_b value_a simd;
      let value_b := negate_big_integer value_b in
      let value_a := copy_big_integer_value_into_another value_b value_a in
      let value_b := copy_big_integer_value_into_another b_copy value_b in
      Done (value_a, value_b)
    else if simd then
      a1 ← big_integer_subtraction_simd value_a value_b;
      Done (a1, value_b)
    else Done (big_integer_subtraction_sisd value_a value_b, value_b).
Proof. done. Qed.

(** Addition of two integers of the same sign. *)
Lemma addition_fuel_same_sign fuel a b simd :
  sign a = sign b ->
  addition_fuel (S fuel) a b simd = Done (big_integer_addition_sisd a b, b).
Proof.
  intros H. rewrite addition_fuel_S, H.
  destruct (sign b); cbn [andb negb]; apply addition_magnitude.
Qed.

(** Subtraction of two integers that are not negative. *)
Lemma subtraction_fuel_nonneg fuel a b simd :
  sign a = false -> sign b = false ->
  subtraction_fuel (S (S fuel)) a b simd =
  if le_val (mem a) <? le_val (mem b) then
    Done (copy_big_integer_value_into_another
            (negate_big_integer (big_integer_subtraction_sisd b a)) a, b)
  else Done (big_integer_subtraction_sisd a b, b).
Proof.
  intros Ha Hb. rewrite subtraction_fuel_S, Ha, Hb. cbn [andb negb].
  rewrite positive_big_integer_is_greater_than_spec by done.
  cbn [mbind outcome_bind obind].
  destruct (Z.ltb_spec (le_val (mem a)) (le_val (mem b))) as [Hlt|Hge].
  - cbv zeta. rewrite subtraction_fuel_S, Ha, Hb. cbn [andb negb].
    rewrite positive_big_integer_is_greater_than_spec by done.
    destruct (Z.ltb_spec (le_val (mem b)) (le_val (mem a))); [lia|].
    cbn [mbind outcome_bind obind].
    rewrite subtraction_magnitude. cbn [mbind outcome_bind obind].
    rewrite clone_big_integer_id. f_equal. f_equal.
    apply copy_big_integer_same_length.
    by rewrite bi_length_negate, bi_length_subtraction_sisd.
  - apply subtraction_magnitude.
Qed.

Lemma subtraction_fuel_nonneg_frame fuel a b simd :
  sign a = false -> sign b = false ->
  exists a', subtraction_fuel (S (S fuel)) a b simd = Done (a', b)
             /\ bi_length a' = bi_length a.
Proof.
  intros Ha Hb. rewrite subtraction_fuel_nonneg by done.
  destruct (_ <? _); eexists; (split; [done|]).
  - apply bi_length_copy_big_integer.
  - apply bi_length_subtraction_sisd.
Qed.

Lemma subtraction_fuel_frame fuel a b simd :
  exists a', subtraction_fuel (S (S (S fuel))) a b simd = Done (a', b).
Proof.
  destruct (sign a) eqn:Ha, (sign b) eqn:Hb.
  - rewrite subtraction_fuel_S, Ha, Hb. cbn [andb negb]. cbv zeta.
    match goal with |- context [subtraction_fuel _ ?x ?y ?s] =>
      destruct (subtraction_fuel_nonneg_frame fuel x y s) as [r [Hr _]];
        [done..|rewrite Hr] end.
    cbn [mbind outcome_bind obind]. eauto.
  - rewrite subtraction_fuel_S, Ha, Hb. cbn [andb negb]. cbv zeta.
    rewrite addition_fuel_same_sign by done. cbn [mbind outcome_bind obind]. eauto.
  - rewrite subtraction_fuel_S, Ha, Hb. cbn [andb negb]. cbv zeta.
    rewrite addition_fuel_same_sign by done. cbn [mbind outcome_bind obind].
    rewrite set_sign_set_sign, (set_sign_idem b true Hb). eauto.
  - destruct (subtraction_fuel_nonneg_frame (S fuel) a b simd Ha Hb) as [x [Hx _]]. eauto.
Qed.

Lemma addition_fuel_frame fuel a b simd :
  exists a', addition_fuel (S (S (S fuel))) a b simd = Done (a', b).
Proof.
  destruct (sign a) eqn:Ha, (sign b) eqn:Hb.
  - rewrite addition_fuel_same_sign by congruence. eauto.
  - rewrite addition_fuel_S, Ha, Hb. cbn [andb negb].
    match goal with |- context [subtraction_fuel _ ?x ?y ?s] =>
      destruct (subtraction_fuel_nonneg_frame fuel x y s) as [r [Hr _]];
        [done..|rewrite Hr] end.
    cbn [mbind outcome_bind obind]. eauto.
  - rewrite addition_fuel_S, Ha, Hb. cbn [andb negb].
    match goal with |- context [subtraction_fuel _ ?x ?y ?s] =>
      destruct (subtraction_fuel_nonneg_frame fuel x y s) as [r [Hr _]];
        [done..|rewrite Hr] end.
    cbn [mbind outcome_bind obind]. rewrite set_sign_set_sign, (set_sign_idem b true Hb). eauto.
  - rewrite addition_fuel_same_sign by congruence. eauto.
Qed.



(** ** Values of the magnitude operations *)

Lemma le_val_nth (l : list byte) i :
  byte.unsigned (nth i l Byte.x00) = (le_val l / 256 ^ Z.of_nat i) mod 256.
Proof.
  revert i. induction l as [|b t IH]; intros i.
  - destruct i; cbn [nth le_val]; change (byte.unsigned Byte.x00) with 0;
      by rewrite Z.div_0_l by (apply Z.pow_nonzero; lia).
  - pose proof (byte_range b). destruct i as [|i]; cbn [nth le_val].
    + change (256 ^ Z.of_nat 0) with 1. rewrite Z.div_1_r.
      generalize (le_val t). intros w. Z.div_mod_to_equations. lia.
    + rewrite IH, Nat2Z.inj_succ, Z.pow_succ_r by lia.
      rewrite <- Z.div_div by lia. do 2 f_equal.
      generalize (le_val t). intros w. Z.div_mod_to_equations. lia.
Qed.

Lemma get_byte_le_val v i :
  byte.unsigned (get_byte_value_of_big_integer v i)
  = (le_val (mem v) / 256 ^ Z.of_nat i) mod 256.
Proof. apply le_val_nth. Qed.

Lemma le_val_insert (l : list byte) i x :
  (i < length l)%nat ->
  le_val (<[i := x]> l)
  = le_val l + 256 ^ Z.of_nat i * (byte.unsigned x - byte.unsigned (nth i l Byte.x00)).
Proof.
  intros H. destruct (lookup_lt_is_Some_2 l i H) as [y Hy].
  assert (E : le_val l = le_val (take i l)
              + 256 ^ Z.of_nat i * (byte.unsigned y + 256 * le_val (drop (S i) l))).
  { rewrite <- (take_drop i l) at 1. rewrite (drop_S _ _ _ Hy), le_val_app.
    by rewrite length_take, Nat.min_l by lia. }
  rewrite insert_take_drop_get, le_val_app, length_take, Nat.min_l by lia.
  rewrite E, nth_lookup, Hy. cbn [le_val]. unfold default. cbn [from_option id]. ring.
Qed.

Lemma le_val_set_byte v i x :
  (i < bi_length v)%nat ->
  le_val (mem (set_byte_value_of_big_integer v i x))
  = le_val (mem v)
    + 256 ^ Z.of_nat i
      * (byte.unsigned x - byte.unsigned (get_byte_value_of_big_integer v i)).
Proof. intros H. rewrite mem_set_byte. by apply le_val_insert. Qed.

Lemma whole_buffer (m : list byte) (bs : list byte) :
  length bs = length m -> take 0 m ++ bs ++ drop (0 + length bs) m = bs.
Proof. intros H. rewrite take_0, drop_ge by lia. by rewrite app_nil_r. Qed.

Lemma mem_shl_sisd v k :
  0 <= k <= 7 ->
  mem (big_integer_shl_bitwise_0_to_7__sisd v k)
  = le_bytes (bi_length v) (le_val (mem v) * 2 ^ k).
Proof.
  intros Hk. unfold big_integer_shl_bitwise_0_to_7__sisd.
  rewrite shl_sisd_loop_spec; [|lia|done|].
  - cbn [mem set_mem]. rewrite seg_val_all. change (byte.unsigned Byte.x00) with 0.
    rewrite Z.add_0_r.
    rewrite <- (length_le_bytes (bi_length v) (le_val (mem v) * 2 ^ k)) at 2.
    apply whole_buffer. by rewrite length_le_bytes.
  - change (byte.unsigned Byte.x00) with 0. apply Z.pow_pos_nonneg; lia.
Qed.

Lemma le_val_shl_sisd v k :
  0 <= k <= 7 ->
  le_val (mem (big_integer_shl_bitwise_0_to_7__sisd v k))
  = (le_val (mem v) * 2 ^ k) mod 256 ^ Z.of_nat (bi_length v).
Proof. intros Hk. by rewrite mem_shl_sisd, le_val_le_bytes. Qed.

Lemma bi_length_shl_sisd v k :
  bi_length (big_integer_shl_bitwise_0_to_7__sisd v k) = bi_length v.
Proof. apply bi_length_shl_sisd_loop. Qed.

Lemma sign_shl_sisd v k : sign (big_integer_shl_bitwise_0_to_7__sisd v k) = sign v.
Proof. apply sign_shl_sisd_loop. Qed.

Lemma seg_val_whole v n :
  seg_val v 0 n = le_val (mem v) mod 256 ^ Z.of_nat n.
Proof. unfold seg_val. by rewrite drop_0, le_val_take. Qed.

Lemma mem_addition_sisd a b :
  mem (big_integer_addition_sisd a b)
  = le_bytes (bi_length a) (le_val (mem a) + le_val (mem b)).
Proof.
  unfold big_integer_addition_sisd. rewrite addition_sisd_loop_spec by lia.
  cbn [fst mem set_mem of_bool]. rewrite seg_val_all, Z.add_0_r.
  set (z := le_val (mem a) + seg_val b 0 (bi_length a)).
  rewrite <- (length_le_bytes (bi_length a) z) at 2.
  rewrite whole_buffer by (by rewrite length_le_bytes).
  rewrite <- le_bytes_mod, <- (le_bytes_mod _ (_ + le_val (mem b))). f_equal.
  subst z. rewrite seg_val_whole. apply Zplus_mod_idemp_r.
Qed.

Lemma le_val_addition_sisd a b :
  le_val (mem (big_integer_addition_sisd a b))
  = (le_val (mem a) + le_val (mem b)) mod 256 ^ Z.of_nat (bi_length a).
Proof. by rewrite mem_addition_sisd, le_val_le_bytes. Qed.

Lemma sign_addition_sisd a b : sign (big_integer_addition_sisd a b) = sign a.
Proof. apply sign_addition_sisd_loop. Qed.

Lemma mem_subtraction_sisd a b :
  mem (big_integer_subtraction_sisd a b)
  = le_bytes (bi_length a) (le_val (mem a) - le_val (mem b)).
Proof.
  unfold big_integer_subtraction_sisd. rewrite subtraction_sisd_loop_spec by lia.
  cbn [fst mem set_mem of_bool]. rewrite seg_val_all, Z.sub_0_r.
  set (z := le_val (mem a) - seg_val b 0 (bi_length a)).
  rewrite <- (length_le_bytes (bi_length a) z) at 2.
  rewrite whole_buffer by (by rewrite length_le_bytes).
  rewrite <- le_bytes_mod, <- (le_bytes_mod _ (_ - le_val (mem b))). f_equal.
  subst z. rewrite seg_val_whole. apply Zminus_mod_idemp_r.
Qed.

Lemma le_val_subtraction_sisd a b :
  le_val (mem (big_integer_subtraction_sisd a b))
  = (le_val (mem a) - le_val (mem b)) mod 256 ^ Z.of_nat (bi_length a).
Proof. by rewrite mem_subtraction_sisd, le_val_le_bytes. Qed.

Lemma sign_subtraction_sisd a b : sign (big_integer_subtraction_sisd a b) = sign a.
Proof. apply sign_subtraction_sisd_loop. Qed.

Lemma le_val_lt_length v : le_val (mem v) < 256 ^ Z.of_nat (bi_length v).
Proof. apply le_val_bound. Qed.

(** Setting a bit above which the byte holds nothing below adds its weight. *)
Lemma le_val_set_bit v n :
  (n / 8 < bi_length v)%nat ->
  (exists q, le_val (mem v) = q * 2 ^ (Z.of_nat n + 1)) ->
  le_val (mem (set_bit_value_of_big_integer v n true))
  = le_val (mem v) + 2 ^ Z.of_nat n.
Proof.
  intros Hn [q Hq]. unfold set_bit_value_of_big_integer.
  rewrite le_val_set_byte by done.
  set (i := (n / 8)%nat) in *. set (j := (n mod 8)%nat).
  assert (Hij : n = (8 * i + j)%nat) by (subst i j; apply Nat.div_mod_eq).
  assert (Hj : (j < 8)%nat) by (subst j; apply Nat.mod_upper_bound; lia).
  set (b := byte.unsigned (get_byte_value_of_big_integer v i)).
  pose proof (byte_range (get_byte_value_of_big_integer v i)) as Hbr. fold b in Hbr.
  assert (Hb : b = (q * 2 ^ (Z.of_nat j + 1)) mod 256).
  { subst b. rewrite get_byte_le_val, Hq, Hij. f_equal.
    replace (Z.of_nat (8 * i + j) + 1) with ((Z.of_nat j + 1) + 8 * Z.of_nat i) by lia.
    rewrite Z.pow_add_r, Z.mul_assoc by lia.
    replace (256 ^ Z.of_nat i) with (2 ^ (8 * Z.of_nat i))
      by (rewrite Z.pow_mul_r by lia; done).
    apply Z.div_mul. apply Z.pow_nonzero; lia. }
  assert (Hlor : Z.lor b (Z.shiftl 1 (Z.of_nat j)) = b + 2 ^ Z.of_nat j
                 /\ b + 2 ^ Z.of_nat j < 256).
  { rewrite Z.shiftl_1_l.
    assert (Hmul : b = (b / 2 ^ (Z.of_nat j + 1)) * 2 ^ (Z.of_nat j + 1)
                   /\ b + 2 ^ Z.of_nat j < 256).
    { clearbody b. clear Hq Hn Hij.
      do 8 (destruct j as [|j]; [cbn in Hb |- *; Z.div_mod_to_equations; lia|]). lia. }
    destruct Hmul as [Hmul Hlt]. split; [|done]. rewrite Hmul at 1.
    rewrite lor_shifted; [lia|lia|].
    split; [apply Z.pow_nonneg; lia | apply Z.pow_lt_mono_r; lia]. }
  destruct Hlor as [Hlor Hlt]. rewrite Hlor.
  assert (0 < 2 ^ Z.of_nat j) by (apply Z.pow_pos_nonneg; lia).
  rewrite unsigned_of_Z_small by lia.
  replace (2 ^ Z.of_nat n) with (256 ^ Z.of_nat i * 2 ^ Z.of_nat j); [ring|].
  rewrite Hij, Nat2Z.inj_add, Nat2Z.inj_mul, Z.pow_add_r, Z.pow_mul_r by lia. done.
Qed.

Lemma bi_length_set_bit v n x : bi_length (set_bit_value_of_big_integer v n x) = bi_length v.
Proof. apply bi_length_set_byte. Qed.

Lemma sign_set_bit v n x : sign (set_bit_value_of_big_integer v n x) = sign v.
Proof. done. Qed.

(** ** Division by a small integer *)

Lemma big_integer_subtraction_nonneg_ge a b simd :
  sign a = false -> sign b = false -> le_val (mem b) <= le_val (mem a) ->
  big_integer_subtraction a b simd = Done (big_integer_subtraction_sisd a b, b).
Proof.
  intros Ha Hb Hle. unfold big_integer_subtraction, call_depth.
  rewrite subtraction_fuel_nonneg by done.
  by destruct (Z.ltb_spec (le_val (mem a)) (le_val (mem b))); [lia|].
Qed.

Lemma bit_of_byte v i j :
  0 <= j < 8 ->
  of_bool (to_bool (Z.land (Z.shiftr (byte.unsigned (get_byte_value_of_big_integer v i)) j) 1))
  = (le_val (mem v) / 2 ^ (8 * Z.of_nat i + j)) mod 2.
Proof.
  intros Hj. rewrite land_1, Z.shiftr_div_pow2, get_byte_le_val by lia.
  rewrite Z.pow_add_r, Z.pow_mul_r by lia. change (2 ^ 8) with 256.
  rewrite <- Z.div_div by (try apply Z.pow_pos_nonneg; lia).
  set (w := le_val (mem v) / 256 ^ Z.of_nat i).
  assert (E : (w mod 256 / 2 ^ j) mod 2 = (w / 2 ^ j) mod 2).
  { assert (Hcases : j = 0 \/ j = 1 \/ j = 2 \/ j = 3 \/ j = 4 \/ j = 5 \/ j = 6 \/ j = 7)
      by lia.
    destruct Hcases as [->|[->|[->|[->|[->|[->|[->| ->]]]]]]];
      cbn; Z.div_mod_to_equations; lia. }
  rewrite E. unfold to_bool.
  destruct (Z.eqb_spec ((w / 2 ^ j) mod 2) 0) as [->|Hne]; cbn [negb of_bool]; [done|].
  Z.div_mod_to_equations. lia.
Qed.

Section Division.
Variables (value : big_integer) (d : Z) (lq lr : nat) (simd : bool).
Hypothesis Hd : 1 <= d <= 255.
Hypothesis Hlq : (bi_length value <= lq)%nat.
Hypothesis Hlr : 2 * d <= 256 ^ Z.of_nat lr.

Let V := le_val (mem value).
Let div := byte.of_Z d.
Let divisor_big :=
  set_byte_value_of_big_integer (create_big_integer 2 false) 0 (byte.of_Z d).

Lemma division_divisor_big : le_val (mem divisor_big) = d /\ sign divisor_big = false.
Proof.
  split; [|done]. subst divisor_big. cbn.
  rewrite unsigned_of_Z_small by lia. change (byte.unsigned Byte.x00) with 0. lia.
Qed.

Lemma division_bit_step i j quotient remainder :
  (i < bi_length value)%nat -> (j < 8)%nat ->
  division_invariant V d lq lr (8 * Z.of_nat i + Z.of_nat j + 1) quotient remainder ->
  exists quotient' remainder',
    division_bit_loop (S j) i value quotient remainder divisor_big div simd
    = division_bit_loop j i value quotient' remainder' divisor_big div simd /\
    division_invariant V d lq lr (8 * Z.of_nat i + Z.of_nat j) quotient' remainder'.
Proof.
  intros Hi Hj (HsQ & HsR & HlQ & HlR & HQ & HR).
  set (K := 8 * Z.of_nat i + Z.of_nat j) in *.
  assert (HK : 0 <= K) by lia.
  assert (Hlr1 : (1 <= lr)%nat).
  { destruct lr; [|lia]. change (256 ^ Z.of_nat 0) with 1 in Hlr. lia. }
  cbn [division_bit_loop].
  rewrite big_integer_shl_simd_irrelevant by lia. cbn [mbind outcome_bind obind].
  set (x := (V / 2 ^ K) mod 2).
  assert (Hx : 0 <= x <= 1) by (subst x; Z.div_mod_to_equations; lia).
  assert (Hbit : of_bool (to_bool (Z.land (Z.shiftr (byte.unsigned
             (get_byte_value_of_big_integer value i)) (Z.of_nat j)) 1)) = x).
  { apply bit_of_byte. lia. }
  set (Vk := V / 2 ^ (K + 1)) in *.
  assert (HVk : V / 2 ^ K = 2 * Vk + x).
  { subst Vk x. rewrite Z.pow_add_r, <- Z.div_div by (try apply Z.pow_pos_nonneg; lia).
    change (2 ^ 1) with 2. Z.div_mod_to_equations. lia. }
  assert (HVk0 : 0 <= Vk).
  { subst Vk. apply Z.div_pos; [apply le_val_nonneg | apply Z.pow_pos_nonneg; lia]. }
  set (R := Vk mod d) in *.
  assert (HRr : 0 <= R < d) by (subst R; apply Z.mod_pos_bound; lia).
  assert (Hdm : Vk = d * (Vk / d) + R) by (subst R; apply Z.div_mod; lia).
  (* the remainder after the shift and the new low bit *)
  set (R1 := big_integer_shl_bitwise_0_to_7__sisd remainder 1).
  assert (HR1 : le_val (mem R1) = 2 * R).
  { subst R1. rewrite le_val_shl_sisd, HR, HlR by lia. change (2 ^ 1) with 2.
    rewrite Z.mod_small; lia. }
  assert (HR1l : bi_length R1 = lr) by (subst R1; by rewrite bi_length_shl_sisd).
  assert (HR1s : sign R1 = false) by (subst R1; by rewrite sign_shl_sisd).
  set (R2 := set_byte_value_of_big_integer R1 0 _).
  assert (HR2 : le_val (mem R2) = 2 * R + x).
  { subst R2. rewrite le_val_set_byte by lia. rewrite Hbit.
    pose proof (byte_range (get_byte_value_of_big_integer R1 0)) as Hb0.
    assert (Hb0' : byte.unsigned (get_byte_value_of_big_integer R1 0) = (2 * R) mod 256).
    { rewrite get_byte_le_val, HR1. change (256 ^ Z.of_nat 0) with 1.
      by rewrite Z.div_1_r. }
    set (b0 := byte.unsigned (get_byte_value_of_big_integer R1 0)) in *.
    assert (Hlor : Z.lor b0 x = b0 + x /\ b0 + x < 256).
    { assert (b0 = (b0 / 2) * 2 ^ 1 /\ b0 + x < 256)
        as [Hm Hlt] by (change (2 ^ 1) with 2; Z.div_mod_to_equations; lia).
      split; [|done]. rewrite Hm at 1. rewrite lor_shifted; [lia|lia|].
      change (2 ^ 1) with 2. lia. }
    destruct Hlor as [Hlor Hlt]. rewrite Hlor, unsigned_of_Z_small by lia.
    change (256 ^ Z.of_nat 0) with 1. lia. }
  assert (HR2l : bi_length R2 = lr) by (subst R2; by rewrite bi_length_set_byte).
  assert (HR2s : sign R2 = false) by done.
  rewrite big_integer_greater_equal_int16_nonneg; [|done|].
  2: { subst div. rewrite unsigned_of_Z_small by lia. lia. }
  cbn [mbind outcome_bind obind]. unfold bi_value. rewrite HR2s, HR2.
  subst div. rewrite unsigned_of_Z_small by lia.
  destruct division_divisor_big as [HD HDs].
  destruct (Z.leb_spec d (2 * R + x)) as [Hge|Hlt].
  - rewrite big_integer_subtraction_nonneg_ge by (done || lia).
    cbn [mbind outcome_bind obind].
    eexists _, _. split; [done|].
    repeat split.
    + done.
    + by rewrite sign_subtraction_sisd.
    + by rewrite bi_length_set_bit.
    + by rewrite bi_length_subtraction_sisd.
    + rewrite le_val_set_bit.
      * rewrite HQ. replace (Z.of_nat (i * 8 + j)) with K by lia.
        rewrite HVk. fold Vk. rewrite (Z.pow_add_r 2 K 1) by lia. change (2 ^ 1) with 2.
        assert (Hq' : (2 * Vk + x) / d = 2 * (Vk / d) + 1).
        { symmetry. apply (Z.div_unique_pos _ d _ (2 * R + x - d)); lia. }
        rewrite Hq'. ring.
      * rewrite HlQ. assert ((i * 8 + j) / 8 = i)%nat; [|lia].
        rewrite Nat.add_comm, Nat.div_add by lia. rewrite Nat.div_small by lia. lia.
      * rewrite HQ. replace (Z.of_nat (i * 8 + j) + 1) with (K + 1) by lia. eauto.
    + rewrite le_val_subtraction_sisd, HR2, HD, HR2l. rewrite HVk.
      assert (0 < 256 ^ Z.of_nat lr) by (apply Z.pow_pos_nonneg; lia).
      rewrite Z.mod_small by lia.
      apply (Z.mod_unique_pos _ d (2 * (Vk / d) + 1)); lia.
  - eexists _, _. split; [done|].
    repeat split; try done.
    + rewrite HQ, HVk. fold Vk. rewrite (Z.pow_add_r 2 K 1) by lia. change (2 ^ 1) with 2.
      assert (Hq' : (2 * Vk + x) / d = 2 * (Vk / d)).
      { symmetry. apply (Z.div_unique_pos _ d _ (2 * R + x)); lia. }
      rewrite Hq'. ring.
    + rewrite HR2, HVk. apply (Z.mod_unique_pos _ d (2 * (Vk / d))); lia.
Qed.

Lemma division_bit_loop_spec n i quotient remainder :
  (n <= 8)%nat -> (i < bi_length value)%nat ->
  division_invariant V d lq lr (8 * Z.of_nat i + Z.of_nat n) quotient remainder ->
  exists quotient' remainder',
    division_bit_loop n i value quotient remainder divisor_big div simd
    = Done (quotient', remainder', divisor_big) /\
    division_invariant V d lq lr (8 * Z.of_nat i) quotient' remainder'.
Proof.
  revert quotient remainder. induction n as [|j IH]; intros quotient remainder Hn Hi Hinv.
  - exists quotient, remainder. split; [done|]. by rewrite Z.add_0_r in Hinv.
  - destruct (division_bit_step i j quotient remainder) as (Q' & R' & Hstep & Hinv');
      [done|lia| |].
    { by replace (8 * Z.of_nat i + Z.of_nat j + 1)
        with (8 * Z.of_nat i + Z.of_nat (S j)) by lia. }
    rewrite Hstep. apply IH; [lia|done|done].
Qed.

Lemma division_byte_loop_spec n quotient remainder :
  (n <= bi_length value)%nat ->
  division_invariant V d lq lr (8 * Z.of_nat n) quotient remainder ->
  exists quotient' remainder',
    division_byte_loop n value quotient remainder divisor_big div simd
    = Done (quotient', remainder', divisor_big) /\
    division_invariant V d lq lr 0 quotient' remainder'.
Proof.
  revert quotient remainder. induction n as [|i IH]; intros quotient remainder Hn Hinv.
  - exists quotient, remainder. split; [done|]. done.
  - cbn [division_byte_loop].
    destruct (division_bit_loop_spec 8 i quotient remainder) as (Q' & R' & Hbits & Hinv');
      [lia|lia| |].
    { by replace (8 * Z.of_nat i + Z.of_nat 8) with (8 * Z.of_nat (S i)) by lia. }
    rewrite Hbits. cbn [mbind outcome_bind obind]. apply IH; [lia|done].
Qed.
End Division.

(** The division by a small integer: quotient, remainder and the lengths of
    the scratch integers. *)
Lemma big_integer_division_value (a : big_integer) (d : Z)
    (temp_value temp_value2 : big_integer) (simd : bool) :
  d <> 0 -> - 255 <= d <= 255 ->
  (bi_length a <= bi_length temp_value)%nat ->
  2 * Z.abs d <= 256 ^ Z.of_nat (bi_length temp_value2) ->
  exists a' quotient remainder,
    big_integer_division_int9_t a d temp_value temp_value2 simd
    = Done ((if sign a then - (le_val (mem a) mod Z.abs d) else le_val (mem a) mod Z.abs d),
            a', quotient, remainder) /\
    bi_length a' = bi_length a /\
    sign a' = xorb (sign a) (d <? 0) /\
    le_val (mem a') = le_val (mem a) / Z.abs d /\
    0 <= le_val (mem a) mod Z.abs d < Z.abs d /\
    le_val (mem a) = le_val (mem a) / Z.abs d * Z.abs d + le_val (mem a) mod Z.abs d /\
    bi_length quotient = bi_length temp_value /\
    bi_length remainder = bi_length temp_value2.
Proof.
  intros Hd0 Hd Hlq Hlr. unfold big_integer_division_int9_t.
  destruct (Z.eqb_spec d 0) as [|_]; [done|].
  rewrite !set_zero_create.
  set (V := le_val (mem a)). set (dz := Z.abs d) in *.
  assert (Hdz : 1 <= dz <= 255) by lia.
  assert (HV : 0 <= V) by apply le_val_nonneg.
  destruct (division_byte_loop_spec (set_sign a false) dz (bi_length temp_value)
              (bi_length temp_value2) simd Hdz Hlq Hlr (bi_length (set_sign a false))
              (create_big_integer (bi_length temp_value) false)
              (create_big_integer (bi_length temp_value2) false))
    as (Q & R & Hloop & HsQ & HsR & HlQ & HlR & HQ & HR).
  { done. }
  { assert (Htop : le_val (mem (set_sign a false))
                   / 2 ^ (8 * Z.of_nat (bi_length (set_sign a false))) = 0).
    { apply Z.div_small. split; [done|]. rewrite Z.pow_mul_r by lia.
      change (2 ^ 8) with 256. apply (le_val_lt_length a). }
    repeat split; try done; try apply bi_length_create.
    - by rewrite le_val_create, Htop, Z.div_0_l, Z.mul_0_l by lia.
    - by rewrite le_val_create, Htop, Z.mod_0_l by lia. }
  rewrite Hloop. cbn [mbind outcome_bind obind].
  cbn [mem set_sign] in HQ, HR. fold V in HQ, HR.
  rewrite Z.pow_0_r, Z.div_1_r, Z.mul_1_r in HQ. rewrite Z.pow_0_r, Z.div_1_r in HR.
  assert (HRb : 0 <= V mod dz < dz) by (apply Z.mod_pos_bound; lia).
  assert (Hr0 : byte.unsigned (get_byte_value_of_big_integer R 0) = V mod dz).
  { rewrite get_byte_le_val, HR. change (256 ^ Z.of_nat 0) with 1.
    rewrite Z.div_1_r. apply Z.mod_small. lia. }
  rewrite Hr0.
  set (a1 := copy_big_integer_value_into_another Q (set_sign a false)).
  assert (Ha1 : le_val (mem a1) = V / dz).
  { subst a1. rewrite le_val_copy_big_integer, HQ.
    change (bi_length (set_sign a false)) with (bi_length a).
    apply Z.mod_small. split; [apply Z.div_pos; lia|].
    apply Z.le_lt_trans with V; [|apply (le_val_lt_length a)].
    apply Z.div_le_upper_bound; nia. }
  assert (Ha1l : bi_length a1 = bi_length a)
    by (subst a1; by rewrite bi_length_copy_big_integer).
  assert (Ha1s : sign a1 = false) by (subst a1; by rewrite sign_copy_big_integer).
  eexists _, Q, R. split; [|split; [|split; [|split; [|split; [|split; [|split]]]]]].
  - f_equal. f_equal. f_equal. f_equal. destruct (sign a); lia.
  - by destruct (_ || _).
  - destruct (sign a) eqn:Hs, (Z.ltb_spec d 0), (Z.ltb_spec 0 d);
      cbn [andb orb negb xorb]; done || lia.
  - by destruct (_ || _).
  - done.
  - rewrite (Z.div_mod V dz) at 1 by lia. lia.
  - done.
  - done.
Qed.




(** ** The two paths agree on every operation *)

Lemma obind_ext {A B : Type} (m : outcome A) (k1 k2 : A -> outcome B) :
  (forall x, k1 x = k2 x) -> m ≫= k1 = m ≫= k2.
Proof. intros H. destruct m; cbn; [apply H|done|done]. Qed.

Ltac bind_ext := apply obind_ext; intros.

Lemma big_integer_is_zero_paths v : big_integer_is_zero v true = big_integer_is_zero v false.
Proof. by rewrite !big_integer_is_zero_simd_irrelevant. Qed.

Lemma big_integer_shl_paths v k :
  0 <= k <= 7 ->
  big_integer_shl_bitwise_0_to_7 v k true = big_integer_shl_bitwise_0_to_7 v k false.
Proof. intros H. by rewrite !big_integer_shl_simd_irrelevant. Qed.

Lemma positive_big_integer_is_greater_than_paths a b :
  positive_big_integer_is_greater_than a b true
  = positive_big_integer_is_greater_than a b false.
Proof.
  unfold positive_big_integer_is_greater_than. by rewrite !big_integer_is_zero_paths.
Qed.

Lemma addition_subtraction_fuel_paths fuel :
  (forall a b, addition_fuel fuel a b true = addition_fuel fuel a b false) /\
  (forall a b, subtraction_fuel fuel a b true = subtraction_fuel fuel a b false).
Proof.
  induction fuel as [|fuel [IHa IHs]]; [done|]. split; intros a b.
  - rewrite !addition_fuel_S, !IHs.
    by rewrite (addition_magnitude a b true).
  - rewrite !subtraction_fuel_S. cbv zeta.
    rewrite !IHa, !IHs, positive_big_integer_is_greater_than_paths.
    by rewrite (subtraction_magnitude a b true).
Qed.

Lemma big_integer_addition_paths a b :
  big_integer_addition a b true = big_integer_addition a b false.
Proof. apply addition_subtraction_fuel_paths. Qed.

Lemma big_integer_subtraction_paths a b :
  big_integer_subtraction a b true = big_integer_subtraction a b false.
Proof. apply addition_subtraction_fuel_paths. Qed.

Lemma multiply_uint8_loop_paths n i mul result temp to_shift :
  0 <= i -> i + Z.of_nat n <= 8 -> 0 <= to_shift -> (to_shift < i \/ i = 0 /\ to_shift = 0) ->
  multiply_uint8_loop n i mul result temp to_shift true
  = multiply_uint8_loop n i mul result temp to_shift false.
Proof.
  revert i result temp to_shift.
  induction n as [|n IH]; intros i result temp to_shift Hi Hn Hs0 Hs; [done|].
  cbn [multiply_uint8_loop].
  destruct (to_bool _).
  - destruct (Z.eqb_spec i 0) as [->|Hne]; cbn [negb].
    + cbn [mbind outcome_bind obind]. rewrite big_integer_addition_paths.
      bind_ext. destruct x as [r t]. apply IH; lia.
    + rewrite big_integer_shl_paths.
      2: { rewrite unsigned_of_Z_small by lia. lia. }
      destruct (big_integer_shl_bitwise_0_to_7 _ _ false); [|done..].
      cbn [mbind outcome_bind obind]. rewrite big_integer_addition_paths.
      bind_ext. destruct x0 as [r t]. apply IH; lia.
  - destruct (Z.eqb_spec i 0) as [->|Hne]; cbn [negb]; apply IH; lia.
Qed.

Lemma big_integer_multiply_uint8_paths value mul result temp :
  big_integer_multiply_uint8 value mul result temp true
  = big_integer_multiply_uint8 value mul result temp false.
Proof. unfold big_integer_multiply_uint8. apply multiply_uint8_loop_paths; lia. Qed.

Lemma multiplication_loop_paths n i a b res pp temp :
  multiplication_loop n i a b res pp temp true
  = multiplication_loop n i a b res pp temp false.
Proof.
  revert i res pp temp. induction n as [|n IH]; intros i res pp temp; [done|].
  cbn [multiplication_loop]. destruct (byte_eqb _ _); [apply IH|].
  rewrite big_integer_multiply_uint8_paths. bind_ext. destruct x as [pp' temp'].
  rewrite big_integer_addition_paths. bind_ext. destruct x as [res' pp''].
  apply IH.
Qed.

Lemma big_integer_multiplication_paths a b res :
  big_integer_multiplication a b res true = big_integer_multiplication a b res false.
Proof.
  unfold big_integer_multiplication. by rewrite multiplication_loop_paths.
Qed.

Lemma big_integer_multiply_int_paths value mul result temp :
  big_integer_multiply_int_neg256_to_256 value mul result temp true
  = big_integer_multiply_int_neg256_to_256 value mul result temp false.
Proof.
  unfold big_integer_multiply_int_neg256_to_256.
  by rewrite big_integer_multiply_uint8_paths.
Qed.

Lemma big_integer_greater_equal_int16_paths a b :
  big_integer_greater_equal_int16 a b true = big_integer_greater_equal_int16 a b false.
Proof.
  unfold big_integer_greater_equal_int16. by rewrite big_integer_is_zero_paths.
Qed.

Lemma division_bit_loop_paths n i value quotient remainder divisor_big div :
  division_bit_loop n i value quotient remainder divisor_big div true
  = division_bit_loop n i value quotient remainder divisor_big div false.
Proof.
  revert quotient remainder divisor_big.
  induction n as [|n IH]; intros quotient remainder divisor_big; [done|].
  cbn [division_bit_loop]. rewrite big_integer_shl_paths by lia. bind_ext.
  rewrite big_integer_greater_equal_int16_paths. bind_ext.
  destruct x0; [|apply IH].
  rewrite big_integer_subtraction_paths. bind_ext. destruct x0. apply IH.
Qed.

Lemma division_byte_loop_paths n value quotient remainder divisor_big div :
  division_byte_loop n value quotient remainder divisor_big div true
  = division_byte_loop n value quotient remainder divisor_big div false.
Proof.
  revert quotient remainder divisor_big.
  induction n as [|n IH]; intros quotient remainder divisor_big; [done|].
  cbn [division_byte_loop]. rewrite division_bit_loop_paths. bind_ext.
  destruct x as [[q r] dv]. apply IH.
Qed.

Lemma big_integer_division_paths value divisor temp_value temp_value2 :
  big_integer_division_int9_t value divisor temp_value temp_value2 true
  = big_integer_division_int9_t value divisor temp_value temp_value2 false.
Proof.
  unfold big_integer_division_int9_t. by rewrite division_byte_loop_paths.
Qed.

Lemma parse_digit_paths z z_length i lookup current_weight z_binary z_temp temp2 :
  parse_digit z z_length i lookup current_weight z_binary z_temp temp2 true
  = parse_digit z z_length i lookup current_weight z_binary z_temp temp2 false.
Proof.
  unfold parse_digit. destruct (_ <? _)%nat; [|done].
  rewrite big_integer_multiply_uint8_paths. bind_ext. destruct x.
  by rewrite big_integer_addition_paths.
Qed.

Lemma parse_loop_paths n i base z1 z2 z1_length z2_length lookup st :
  parse_loop n i base z1 z2 z1_length z2_length lookup st true
  = parse_loop n i base z1 z2 z1_length z2_length lookup st false.
Proof.
  revert i st. induction n as [|n IH]; intros i st; [done|].
  cbn [parse_loop]. rewrite parse_digit_paths. bind_ext. destruct x as [[? ?] ?].
  rewrite parse_digit_paths. bind_ext. destruct x as [[? ?] ?].
  rewrite big_integer_multiply_int_paths. bind_ext. destruct x. apply IH.
Qed.

Lemma convert_numbers_paths base alph z1 z2 z1_length z2_length z1_binary z2_binary :
  convert_numbers_from_any_base_into_binary base alph z1 z2 z1_length z2_length
    z1_binary z2_binary true
  = convert_numbers_from_any_base_into_binary base alph z1 z2 z1_length z2_length
      z1_binary z2_binary false.
Proof.
  unfold convert_numbers_from_any_base_into_binary. by rewrite parse_loop_paths.
Qed.

Lemma double_dabble_loop_paths n calc_buffer remaining_value trigger carry_add :
  double_dabble_loop n calc_buffer remaining_value trigger carry_add true
  = double_dabble_loop n calc_buffer remaining_value trigger carry_add false.
Proof.
  revert calc_buffer remaining_value.
  induction n as [|n IH]; intros calc_buffer remaining_value; [done|].
  cbn [double_dabble_loop]. unfold double_dabble_step.
  rewrite !big_integer_shl_paths by lia.
  destruct (big_integer_shl_bitwise_0_to_7 calc_buffer 1 false); [|done..].
  cbn [mbind outcome_bind obind].
  destruct (big_integer_shl_bitwise_0_to_7 remaining_value 1 false); [|done..].
  cbn [mbind outcome_bind obind]. apply IH.
Qed.

Lemma convert_to_positive_base_paths value base alph buffer_length :
  convert_to_positive_base value base alph buffer_length true
  = convert_to_positive_base value base alph buffer_length false.
Proof.
  unfold convert_to_positive_base. by rewrite double_dabble_loop_paths.
Qed.

Lemma negative_base_loop_paths fuel value temp temp2 base alph buffer :
  negative_base_loop fuel value temp temp2 base alph buffer true
  = negative_base_loop fuel value temp temp2 base alph buffer false.
Proof.
  revert value temp temp2 buffer.
  induction fuel as [|fuel IH]; intros value temp temp2 buffer; [done|].
  cbn [negative_base_loop]. rewrite big_integer_is_zero_paths. bind_ext.
  destruct x; [done|]. rewrite big_integer_division_paths. bind_ext.
  destruct x as [[[r v] t1] t2]. destruct (r <? 0); destruct (_ || _); done || apply IH.
Qed.

Lemma convert_to_negative_base_paths fuel value base alph buffer_length :
  convert_to_negative_base fuel value base alph buffer_length true
  = convert_to_negative_base fuel value base alph buffer_length false.
Proof.
  unfold convert_to_negative_base. rewrite big_integer_is_zero_paths. bind_ext.
  destruct x; [done|]. by rewrite negative_base_loop_paths.
Qed.

Lemma convert_big_integer_to_any_base_paths fuel value base alph buffer_length :
  convert_big_integer_to_any_base fuel value base alph buffer_length true
  = convert_big_integer_to_any_base fuel value base alph buffer_length false.
Proof.
  unfold convert_big_integer_to_any_base.
  destruct (0 <? base);
    [apply convert_to_positive_base_paths | apply convert_to_negative_base_paths].
Qed.

(** C1: for every input the entry point writes the same result, or ends in
    the same way, with [use_simd = true] and with [use_simd = false]. *)
Theorem arith_op_simd_sisd_agree (fuel : nat) (base : Z) (alph z1 z2 : cstring)
    (op : byte) :
  arith_op_any_base__binary_conversion fuel base alph z1 z2 op true
  = arith_op_any_base__binary_conversion fuel base alph z1 z2 op false.
Proof.
  unfold arith_op_any_base__binary_conversion. cbv zeta.
  rewrite convert_numbers_paths. bind_ext. destruct x as [z1_binary z2_binary].
  rewrite big_integer_addition_paths, big_integer_subtraction_paths,
    big_integer_multiplication_paths.
  bind_ext. destruct x as [res result_length].
  rewrite big_integer_is_zero_paths. bind_ext.
  apply convert_big_integer_to_any_base_paths.
Qed.

(** ** Double Dabble: every cell stays below the base *)

Section DoubleDabble.
Variable base : Z.
Hypothesis Hbase : 2 <= base <= 128.

Let trigger := byte.of_Z base.
Let carry_add := byte.of_Z (256 - base).

Lemma shl_one_cells n i v :
  (forall k, (k < i)%nat ->
     byte.unsigned (get_byte_value_of_big_integer v k) <= 2 * base - 2) ->
  (forall k, (i <= k)%nat -> byte.unsigned (get_byte_value_of_big_integer v k) < base) ->
  forall k, byte.unsigned (get_byte_value_of_big_integer
                             (shl_sisd_loop n i v 1 Byte.x00) k) <= 2 * base - 2.
Proof.
  revert i v. induction n as [|n IH]; intros i v Hlow Hhigh k.
  - cbn [shl_sisd_loop].
    destruct (Nat.lt_ge_cases k i); [by apply Hlow|]. specialize (Hhigh k). lia.
  - cbn [shl_sisd_loop].
    pose proof (byte_range (get_byte_value_of_big_integer v i)) as Hb.
    pose proof (Hhigh i ltac:(lia)) as Hbi.
    set (b := byte.unsigned (get_byte_value_of_big_integer v i)) in *.
    assert (Hsh : Z.lor (uint16 (Z.shiftl b 1)) (byte.unsigned Byte.x00) = 2 * b).
    { change (byte.unsigned Byte.x00) with 0. rewrite Z.lor_0_r.
      unfold uint16. rewrite Z.shiftl_mul_pow2 by lia. change (2 ^ 1) with 2.
      rewrite Z.mod_small; lia. }
    rewrite Hsh.
    assert (Hc : byte.of_Z (Z.shiftr (2 * b) 8) = Byte.x00).
    { rewrite Z.shiftr_div_pow2 by lia. rewrite Z.div_small by lia. done. }
    rewrite Hc. apply IH.
    + intros m Hm. destruct (Nat.eq_dec m i) as [->|Hne].
      * destruct (Nat.lt_ge_cases i (bi_length v)).
        -- rewrite get_set_byte_eq by done. rewrite unsigned_of_Z_small; lia.
        -- rewrite get_byte_overflow by (by rewrite bi_length_set_byte). 
           change (byte.unsigned Byte.x00) with 0. lia.
      * rewrite get_set_byte_ne by done. apply Hlow. lia.
    + intros m Hm. rewrite get_set_byte_ne by lia. apply Hhigh. lia.
Qed.

Lemma dabble_loop_cells n j cb :
  (forall k, (k < j)%nat -> byte.unsigned (get_byte_value_of_big_integer cb k) < base) ->
  byte.unsigned (get_byte_value_of_big_integer cb j) <= 2 * base - 1 ->
  (forall k, (j < k)%nat ->
     byte.unsigned (get_byte_value_of_big_integer cb k) <= 2 * base - 2) ->
  (j + n = bi_length cb)%nat ->
  digits_below base (dabble_loop n j cb trigger carry_add).
Proof.
  revert j cb. induction n as [|n IH]; intros j cb Hlow Hj Hhigh Hlen k.
  - cbn [dabble_loop].
    pose proof (byte_range (get_byte_value_of_big_integer cb k)).
    destruct (Nat.lt_ge_cases k j) as [Hk|Hk].
    + specialize (Hlow k Hk). lia.
    + rewrite get_byte_overflow by lia. change (byte.unsigned Byte.x00) with 0. lia.
  - cbn [dabble_loop]. subst trigger carry_add.
    rewrite !unsigned_of_Z_small by lia.
    pose proof (byte_range (get_byte_value_of_big_integer cb j)) as Hbj.
    set (b := byte.unsigned (get_byte_value_of_big_integer cb j)) in *.
    destruct (Z.leb_spec base b) as [Hge|Hlt].
    + set (cb1 := set_byte_value_of_big_integer cb j (byte.of_Z (b + (256 - base)))).
      assert (Hcb1j : byte.unsigned (get_byte_value_of_big_integer cb1 j) = b - base).
      { subst cb1. rewrite get_set_byte_eq by lia. rewrite unsigned_of_Z_mod.
        replace (b + (256 - base)) with (b - base + 1 * 256) by lia.
        rewrite Z.mod_add by lia. apply Z.mod_small. lia. }
      assert (Hcb1o : forall m, m <> j ->
                get_byte_value_of_big_integer cb1 m = get_byte_value_of_big_integer cb m).
      { intros m Hm. subst cb1. by rewrite get_set_byte_ne. }
      apply IH.
      * intros m Hm. destruct (Nat.eq_dec m j) as [->|Hne].
        -- rewrite get_set_byte_ne, Hcb1j by lia. lia.
        -- rewrite get_set_byte_ne, Hcb1o by lia. apply Hlow. lia.
      * replace (j + 1)%nat with (S j) by lia.
        pose proof (Hhigh (S j) ltac:(lia)) as Hn1.
        pose proof (byte_range (get_byte_value_of_big_integer cb (S j))).
        rewrite (Hcb1o (S j)) by lia.
        destruct (Nat.lt_ge_cases (S j) (bi_length cb)).
        -- rewrite get_set_byte_eq by (subst cb1; by rewrite bi_length_set_byte).
           rewrite unsigned_of_Z_small; lia.
        -- rewrite get_byte_overflow
             by (subst cb1; by rewrite !bi_length_set_byte).
           change (byte.unsigned Byte.x00) with 0. lia.
      * intros m Hm. rewrite get_set_byte_ne, Hcb1o by lia. apply Hhigh. lia.
      * subst cb1. rewrite !bi_length_set_byte. lia.
    + apply IH.
      * intros m Hm. destruct (Nat.eq_dec m j) as [->|Hne]; [done|]. apply Hlow. lia.
      * pose proof (Hhigh (S j) ltac:(lia)). lia.
      * intros m Hm. apply Hhigh. lia.
      * lia.
Qed.

(** One shift-and-adjust iteration keeps every cell below the base. *)
Lemma double_dabble_step_cells calc_buffer remaining_value simd :
  digits_below base calc_buffer ->
  exists calc_buffer' remaining_value',
    double_dabble_step calc_buffer remaining_value trigger carry_add simd
    = Done (calc_buffer', remaining_value') /\
    digits_below base calc_buffer'.
Proof.
  intros Hcb. unfold double_dabble_step.
  rewrite !big_integer_shl_simd_irrelevant by lia. cbn [mbind outcome_bind obind].
  eexists _, _. split; [done|].
  set (cb1 := big_integer_shl_bitwise_0_to_7__sisd calc_buffer 1).
  assert (Hcb1 : forall k, byte.unsigned (get_byte_value_of_big_integer cb1 k)
                           <= 2 * base - 2).
  { subst cb1. unfold big_integer_shl_bitwise_0_to_7__sisd. apply shl_one_cells.
    - intros k Hk. lia.
    - intros k _. apply Hcb. }
  apply dabble_loop_cells.
  - intros k Hk. lia.
  - pose proof (Hcb1 0%nat) as H0.
    pose proof (byte_range (get_byte_value_of_big_integer cb1 0)) as Hr.
    set (b0 := byte.unsigned (get_byte_value_of_big_integer cb1 0)) in *.
    set (x := of_bool (get_most_significant_bit remaining_value)).
    assert (Hx : 0 <= x <= 1) by apply of_bool_range.
    assert (Hlor : 0 <= Z.lor b0 x <= b0 + x).
    { pose proof (Z.add_lor_land b0 x).
      assert (0 <= Z.land b0 x) by (apply Z.land_nonneg; lia).
      assert (0 <= Z.lor b0 x) by (apply Z.lor_nonneg; lia). lia. }
    destruct (Nat.lt_ge_cases 0 (bi_length cb1)).
    + rewrite get_set_byte_eq by done. rewrite unsigned_of_Z_small; lia.
    + rewrite get_byte_overflow by (by rewrite bi_length_set_byte).
      change (byte.unsigned Byte.x00) with 0. lia.
  - intros k Hk. rewrite get_set_byte_ne by lia. apply Hcb1.
  - lia.
Qed.

Lemma double_dabble_loop_cells n calc_buffer remaining_value simd :
  digits_below base calc_buffer ->
  exists calc_buffer' remaining_value',
    double_dabble_loop n calc_buffer remaining_value trigger carry_add simd
    = Done (calc_buffer', remaining_value') /\
    digits_below base calc_buffer'.
Proof.
  revert calc_buffer remaining_value.
  induction n as [|n IH]; intros calc_buffer remaining_value Hcb.
  - by exists calc_buffer, remaining_value.
  - cbn [double_dabble_loop].
    destruct (double_dabble_step_cells calc_buffer remaining_value simd Hcb)
      as (cb' & rem' & Hstep & Hcb').
    rewrite Hstep. cbn [mbind outcome_bind obind]. by apply IH.
Qed.
End DoubleDabble.

Lemma digits_below_create base n : 0 < base -> digits_below base (create_big_integer n false).
Proof.
  intros Hb k. unfold get_byte_value_of_big_integer. cbn [mem create_big_integer].
  rewrite nth_lookup. destruct (replicate n Byte.x00 !! k) as [x|] eqn:E.
  - apply lookup_replicate in E as [-> _]. change (byte.unsigned Byte.x00) with 0. cbn. lia.
  - cbn. change (byte.unsigned Byte.x00) with 0. lia.
Qed.

(** C8: in the projection to a positive base [b] with [2 <= b <= 128], after
    any number [n] of shift-and-adjust iterations on the digit buffer of the
    projection every cell of the buffer is below [b]; with [n] the number of
    bits of the value this is the buffer on termination. *)
Theorem double_dabble_cells_below_base (base : Z) (value : big_integer)
    (buffer_length n : nat) (simd : bool) :
  2 <= base <= 128 ->
  exists calc_buffer remaining_value,
    double_dabble_loop n (create_big_integer buffer_length false)
      (clone_big_integer value) (byte.of_Z base) (byte.of_Z (256 - base)) simd
    = Done (calc_buffer, remaining_value) /\
    digits_below base calc_buffer.
Proof.
  intros Hbase. apply double_dabble_loop_cells; [done|].
  apply digits_below_create. lia.
Qed.

(** ** More fuel does not change a result *)

Lemma obind_Done {A B : Type} (m : outcome A) (k : A -> outcome B) (r : B) :
  m ≫= k = Done r -> exists x, m = Done x /\ k x = Done r.
Proof. destruct m as [x| |]; cbn; [eauto|done|done]. Qed.

Lemma negative_base_loop_fuel_mono fuel k value temp temp2 base alph buffer simd r :
  negative_base_loop fuel value temp temp2 base alph buffer simd = Done r ->
  negative_base_loop (fuel + k) value temp temp2 base alph buffer simd = Done r.
Proof.
  revert value temp temp2 buffer.
  induction fuel as [|fuel IH]; intros value temp temp2 buffer H; [done|].
  cbn [Nat.add negative_base_loop] in *.
  apply obind_Done in H as [z [Hz H]]. rewrite Hz. cbn [mbind outcome_bind obind].
  destruct z; [done|].
  apply obind_Done in H as [[[[rem v] t1] t2] [Hd H]]. rewrite Hd.
  cbn [mbind outcome_bind obind] in *.
  destruct (rem <? 0); destruct (_ || _); done || by apply IH.
Qed.

Lemma convert_big_integer_to_any_base_fuel_mono fuel k value base alph buffer_length simd r :
  convert_big_integer_to_any_base fuel value base alph buffer_length simd = Done r ->
  convert_big_integer_to_any_base (fuel + k) value base alph buffer_length simd = Done r.
Proof.
  unfold convert_big_integer_to_any_base, convert_to_negative_base.
  destruct (0 <? base); [done|]. intros H.
  apply obind_Done in H as [z [Hz H]]. rewrite Hz. cbn [mbind outcome_bind obind].
  destruct z; [done|].
  apply obind_Done in H as [buf [Hb H]].
  by rewrite (negative_base_loop_fuel_mono _ _ _ _ _ _ _ _ _ _ Hb).
Qed.

Lemma arith_op_fuel_mono fuel k base alph z1 z2 op simd r :
  arith_op_any_base__binary_conversion fuel base alph z1 z2 op simd = Done r ->
  arith_op_any_base__binary_conversion (fuel + k) base alph z1 z2 op simd = Done r.
Proof.
  unfold arith_op_any_base__binary_conversion. cbv zeta. intros H.
  apply obind_Done in H as [[b1 b2] [Hp H]]. rewrite Hp. cbn [mbind outcome_bind obind] in *.
  apply obind_Done in H as [[res len] [Ho H]]. rewrite Ho. cbn [mbind outcome_bind obind] in *.
  apply obind_Done in H as [z [Hz H]]. rewrite Hz. cbn [mbind outcome_bind obind].
  by apply convert_big_integer_to_any_base_fuel_mono.
Qed.

(** C9: in base -2 over the alphabet "01", "11" times "11" is "1", on both
    paths and with any fuel from 2 on. *)
Theorem arith_op_negabinary_11_times_11 (fuel : nat) (simd : bool) :
  (2 <= fuel)%nat ->
  arith_op_any_base__binary_conversion fuel (-2) (cstr "01") (cstr "11") (cstr "11")
    char_star simd = Done (cstr "1").
Proof.
  intros Hfuel. replace fuel with (2 + (fuel - 2))%nat by lia.
  apply arith_op_fuel_mono. destruct simd; vm_compute; reflexivity.
Qed.

Lemma arith_op_negabinary_11_times_11_witness :
  (2 <= 5)%nat /\
  arith_op_any_base__binary_conversion 5 (-2) (cstr "01") (cstr "11") (cstr "11")
    char_star true = Done (cstr "1").
Proof. split; [lia | apply (arith_op_negabinary_11_times_11 5 true); lia]. Defined.


Lemma double_dabble_cells_below_base_witness :
  2 <= 10 <= 128 /\
  exists calc_buffer remaining_value,
    double_dabble_loop 8 (create_big_integer 4 false)
      (clone_big_integer minus_257) (byte.of_Z 10) (byte.of_Z (256 - 10)) false
    = Done (calc_buffer, remaining_value) /\
    digits_below 10 calc_buffer.
Proof.
  split; [lia|]. apply (double_dabble_cells_below_base 10 minus_257 4 8 false). lia.
Defined.

(** ** Values of the signed operations *)

Lemma bi_value_abs v : Z.abs (bi_value v) = le_val (mem v).
Proof. unfold bi_value. pose proof (le_val_nonneg (mem v)). destruct (sign v); lia. Qed.

Lemma bi_value_nonneg v : sign v = false -> bi_value v = le_val (mem v).
Proof. unfold bi_value. by intros ->. Qed.

Lemma bi_value_set_sign v s :
  bi_value (set_sign v s) = if s then - le_val (mem v) else le_val (mem v).
Proof. done. Qed.

Lemma le_val_copy_fits src dst :
  le_val (mem src) < 256 ^ Z.of_nat (bi_length dst) ->
  le_val (mem (copy_big_integer_value_into_another src dst)) = le_val (mem src).
Proof.
  intros H. rewrite le_val_copy_big_integer. apply Z.mod_small.
  split; [apply le_val_nonneg | done].
Qed.

(** The signed addition adds the values when the sum fits the first operand. *)
Lemma big_integer_addition_value a b simd :
  Z.abs (bi_value a + bi_value b) < 256 ^ Z.of_nat (bi_length a) ->
  exists a', big_integer_addition a b simd = Done (a', b) /\
    bi_length a' = bi_length a /\
    bi_value a' = bi_value a + bi_value b /\
    (sign a = false -> sign b = false -> sign a' = false).
Proof.
  intros Hfit. unfold big_integer_addition, call_depth.
  pose proof (le_val_nonneg (mem a)) as HA. pose proof (le_val_nonneg (mem b)) as HB.
  pose proof (le_val_lt_length a) as HAl.
  set (P := 256 ^ Z.of_nat (bi_length a)) in *.
  destruct (sign a) eqn:Ha, (sign b) eqn:Hb; unfold bi_value in Hfit; rewrite Ha, Hb in Hfit.
  - rewrite addition_fuel_same_sign by congruence.
    eexists. split; [done|]. split; [apply bi_length_addition_sisd|]. split; [|done].
    unfold bi_value. rewrite sign_addition_sisd, Ha, Hb, le_val_addition_sisd.
    fold P. rewrite Z.mod_small by lia. lia.
  - rewrite addition_fuel_S, Ha, Hb. cbn [andb negb].
    rewrite subtraction_fuel_nonneg by done. cbn [mem set_sign].
    destruct (Z.ltb_spec (le_val (mem a)) (le_val (mem b))) as [Hlt|Hge];
      cbn [mbind outcome_bind obind].
    + eexists. split; [done|]. split; [by rewrite bi_length_set_sign, bi_length_copy_big_integer|].
      split; [|done]. unfold bi_value at 1. cbn [sign set_sign negb mem].
      rewrite sign_copy_big_integer. cbn [negate_big_integer set_sign sign negb].
      rewrite sign_subtraction_sisd, Hb. cbn [negb].
      rewrite le_val_copy_big_integer. cbn [negate_big_integer set_sign mem].
      rewrite le_val_subtraction_sisd. cbn [mem set_sign].
      change (bi_length (set_sign a false)) with (bi_length a). fold P.
      pose proof (le_val_lt_length b).
      rewrite (Z.mod_small (_ - _)) by lia. rewrite Z.mod_small by lia.
      unfold bi_value. rewrite Ha, Hb. lia.
    + eexists. split; [done|]. split; [by rewrite bi_length_set_sign, bi_length_subtraction_sisd|].
      split; [|done]. unfold bi_value at 1. cbn [sign set_sign negb mem].
      rewrite sign_subtraction_sisd. cbn [sign set_sign negb].
      rewrite le_val_subtraction_sisd. cbn [mem set_sign].
      change (bi_length (set_sign a false)) with (bi_length a). fold P.
      rewrite Z.mod_small by lia. unfold bi_value. rewrite Ha, Hb. lia.
  - rewrite addition_fuel_S, Ha, Hb. cbn [andb negb].
    rewrite subtraction_fuel_nonneg by done. cbn [mem set_sign].
    destruct (Z.ltb_spec (le_val (mem a)) (le_val (mem b))) as [Hlt|Hge];
      cbn [mbind outcome_bind obind]; rewrite set_sign_set_sign, (set_sign_idem b true Hb).
    + eexists. split; [done|]. split; [by rewrite bi_length_copy_big_integer|].
      split; [|done]. unfold bi_value at 1.
      rewrite sign_copy_big_integer. cbn [negate_big_integer set_sign sign negb].
      rewrite sign_subtraction_sisd. cbn [sign set_sign negb].
      rewrite le_val_copy_big_integer. cbn [negate_big_integer set_sign mem].
      rewrite le_val_subtraction_sisd. cbn [mem set_sign].
      change (bi_length (set_sign b false)) with (bi_length b). fold P.
      pose proof (le_val_lt_length b).
      rewrite (Z.mod_small (_ - _)) by lia. rewrite Z.mod_small by lia.
      unfold bi_value. rewrite Ha, Hb. lia.
    + eexists. split; [done|]. split; [by rewrite bi_length_subtraction_sisd|].
      split; [|done]. unfold bi_value at 1.
      rewrite sign_subtraction_sisd, Ha.
      rewrite le_val_subtraction_sisd. cbn [mem set_sign]. fold P.
      rewrite Z.mod_small by lia. unfold bi_value. rewrite Ha, Hb. lia.
  - rewrite addition_fuel_same_sign by congruence.
    eexists. split; [done|]. split; [apply bi_length_addition_sisd|].
    split; [|intros _ _; by rewrite sign_addition_sisd].
    unfold bi_value. rewrite sign_addition_sisd, Ha, Hb, le_val_addition_sisd.
    fold P. rewrite Z.mod_small by lia. lia.
Qed.

Lemma big_integer_shl_value v k simd :
  0 <= k <= 7 -> le_val (mem v) * 2 ^ k < 256 ^ Z.of_nat (bi_length v) ->
  exists v', big_integer_shl_bitwise_0_to_7 v k simd = Done v' /\
    bi_length v' = bi_length v /\ sign v' = sign v /\
    le_val (mem v') = le_val (mem v) * 2 ^ k.
Proof.
  intros Hk Hfit. rewrite big_integer_shl_simd_irrelevant by done.
  eexists. split; [done|]. split; [apply bi_length_shl_sisd|]. split; [apply sign_shl_sisd|].
  rewrite le_val_shl_sisd by done. apply Z.mod_small.
  pose proof (le_val_nonneg (mem v)). assert (0 < 2 ^ k) by (apply Z.pow_pos_nonneg; lia). nia.
Qed.

(** ** Multiplication by a byte *)

Lemma bit_of_shiftr m i : 0 <= i -> Z.land (Z.shiftr m i) 1 = (m / 2 ^ i) mod 2.
Proof.
  intros Hi. rewrite Z.shiftr_div_pow2 by done.
  change 1 with (Z.ones 1). by rewrite Z.land_ones.
Qed.

Lemma mod_pow2_succ m i :
  0 <= i -> m mod 2 ^ (i + 1) = m mod 2 ^ i + 2 ^ i * ((m / 2 ^ i) mod 2).
Proof.
  intros Hi. rewrite Z.pow_add_r, Z.pow_1_r by lia.
  apply Z.rem_mul_r; [|lia]. apply Z.pow_nonzero; lia.
Qed.

Lemma bit_set_le m i : 0 <= i -> 0 <= m -> (m / 2 ^ i) mod 2 = 1 -> 2 ^ i <= m.
Proof.
  intros Hi Hm Hbit. assert (0 < 2 ^ i) by (apply Z.pow_pos_nonneg; lia).
  destruct (Z.lt_ge_cases m (2 ^ i)) as [Hlt|]; [|done].
  rewrite Z.div_small in Hbit by lia. done.
Qed.

Lemma multiply_uint8_loop_value n i mul result temp to_shift simd vv :
  Z.of_nat n + i = 8 -> 0 <= i -> 0 <= to_shift -> to_shift <= Z.max 0 (i - 1) ->
  bi_value temp = vv * 2 ^ (Z.max 0 (i - 1) - to_shift) ->
  bi_value result = vv * (byte.unsigned mul mod 2 ^ i) ->
  Z.abs vv * byte.unsigned mul < 256 ^ Z.of_nat (bi_length result) ->
  Z.abs vv * byte.unsigned mul < 256 ^ Z.of_nat (bi_length temp) ->
  exists result' temp',
    multiply_uint8_loop n i mul result temp to_shift simd = Done (result', temp') /\
    bi_length result' = bi_length result /\ bi_length temp' = bi_length temp /\
    bi_value result' = vv * byte.unsigned mul /\
    (sign result = false -> sign temp = false -> sign result' = false).
Proof.
  pose proof (byte.unsigned_range mul) as Hm.
  revert i result temp to_shift.
  induction n as [|n IH]; intros i result temp to_shift Hn Hi Hs Hsi Ht Hr Hfr Hft.
  - exists result, temp. repeat split; try done.
    rewrite Hr. f_equal. replace i with 8 by lia. apply Z.mod_small. lia.
  - cbn [multiply_uint8_loop]. rewrite bit_of_shiftr by done.
    pose proof (mod_pow2_succ (byte.unsigned mul) i Hi) as Hsucc.
    assert (0 < 2 ^ i) as Hpi by (apply Z.pow_pos_nonneg; lia).
    pose proof (Z.mod_pos_bound (byte.unsigned mul / 2 ^ i) 2 ltac:(lia)) as Hbit.
    pose proof (Z.mod_pos_bound (byte.unsigned mul) (2 ^ i) Hpi) as Hlow.
    pose proof (Z.mod_pos_bound (byte.unsigned mul) (2 ^ (i + 1))
                  ltac:(apply Z.pow_pos_nonneg; lia)) as Hlow'.
    assert (byte.unsigned mul mod 2 ^ (i + 1) <= byte.unsigned mul) as Hle
      by (apply Z.mod_le; [lia | apply Z.pow_pos_nonneg; lia]).
    unfold to_bool.
    destruct (Z.eqb_spec ((byte.unsigned mul / 2 ^ i) mod 2) 0) as [Hb0|Hb1]; cbn [negb].
    + assert (bi_value result = vv * (byte.unsigned mul mod 2 ^ (i + 1))) as Hr'
        by (rewrite Hsucc, Hb0, Z.mul_0_r, Z.add_0_r; done).
      destruct (Z.eqb_spec i 0) as [->|Hi0]; cbn [negb].
      * apply IH; try done; try lia.
      * apply IH; try done; try lia.
        rewrite Ht. f_equal. f_equal. lia.
    + assert ((byte.unsigned mul / 2 ^ i) mod 2 = 1) as Hbit1 by lia.
      pose proof (bit_set_le (byte.unsigned mul) i Hi ltac:(lia) Hbit1) as Hge.
      assert (exists temp1, (if negb (i =? 0)
                 then temp' ← big_integer_shl_bitwise_0_to_7 temp
                        (byte.unsigned (byte.of_Z (1 + to_shift))) simd; Done (temp', 0)
                 else Done (temp, to_shift)) = Done (temp1, 0 + (if i =? 0 then to_shift else 0))
               /\ bi_length temp1 = bi_length temp /\ sign temp1 = sign temp
               /\ bi_value temp1 = vv * 2 ^ i) as (temp1 & -> & Hl1 & Hs1 & Hv1).
      { destruct (Z.eqb_spec i 0) as [->|Hi0]; cbn [negb].
        - exists temp. repeat split; try done.
          rewrite Ht. f_equal. f_equal. lia.
        - rewrite byte.unsigned_of_Z. unfold byte.wrap.
          rewrite (Z.mod_small (1 + to_shift)) by lia.
          destruct (big_integer_shl_value temp (1 + to_shift) simd) as (t' & -> & Hl & Hsg & Hv);
            [lia| |].
          + rewrite <- bi_value_abs, Ht, Z.abs_mul, (Z.abs_eq (2 ^ _))
              by (apply Z.pow_nonneg; lia).
            rewrite <- Z.mul_assoc, <- Z.pow_add_r by lia.
            replace (Z.max 0 (i - 1) - to_shift + (1 + to_shift)) with i by lia.
            pose proof (Z.abs_nonneg vv). nia.
          + exists t'. repeat split; try done.
            unfold bi_value in *. rewrite Hsg, Hv.
            assert (2 ^ i = 2 ^ (Z.max 0 (i - 1) - to_shift) * 2 ^ (1 + to_shift)) as ->.
            { rewrite <- Z.pow_add_r by lia. f_equal. lia. }
            destruct (sign temp); lia. }
      cbn [mbind outcome_bind obind].
      assert (vv * (byte.unsigned mul mod 2 ^ i) + vv * 2 ^ i
              = vv * (byte.unsigned mul mod 2 ^ (i + 1))) as Hsum
        by (rewrite Hsucc, Hbit1; ring).
      destruct (big_integer_addition_value result temp1 simd) as (r' & -> & Hlr & Hvr & Hsr).
      { rewrite Hr, Hv1, Hsum, Z.abs_mul, (Z.abs_eq (_ mod _)) by lia.
        pose proof (Z.abs_nonneg vv). nia. }
      cbn [mbind outcome_bind obind].
      assert (0 + (if i =? 0 then to_shift else 0) = 0) as Hts
        by (destruct (Z.eqb_spec i 0); lia).
      rewrite Hts.
      destruct (IH (i + 1) r' temp1 0) as (r'' & t'' & -> & Hl'' & Hlt'' & Hv'' & Hs'');
        [lia | lia | lia | lia | | | | |].
      * rewrite Hv1. f_equal. f_equal. lia.
      * rewrite Hvr, Hr, Hv1. done.
      * by rewrite Hlr.
      * by rewrite Hl1.
      * exists r'', t''. repeat split; try done; try congruence.
        intros H1 H2. apply Hs''; [apply Hsr|]; congruence.
Qed.

Lemma bi_value_create n s : bi_value (create_big_integer n s) = 0.
Proof. unfold bi_value. rewrite le_val_create. by destruct (sign _). Qed.

(** [result] receives [value * mul]; [temp] keeps its length. *)
Lemma big_integer_multiply_uint8_value value mul result temp simd :
  Z.abs (bi_value value) * byte.unsigned mul < 256 ^ Z.of_nat (bi_length result) ->
  Z.abs (bi_value value) * byte.unsigned mul < 256 ^ Z.of_nat (bi_length temp) ->
  le_val (mem value) < 256 ^ Z.of_nat (bi_length temp) ->
  exists result' temp',
    big_integer_multiply_uint8 value mul result temp simd = Done (result', temp') /\
    bi_length result' = bi_length result /\ bi_length temp' = bi_length temp /\
    bi_value result' = bi_value value * byte.unsigned mul /\
    (sign value = false -> sign result' = false).
Proof.
  intros Hfr Hft Hfit. unfold big_integer_multiply_uint8.
  destruct (multiply_uint8_loop_value 8 0 mul (set_zero result)
              (copy_big_integer_value_into_another value temp) 0 simd (bi_value value))
    as (r' & t' & -> & Hlr & Hlt & Hv & Hs); try done.
  - unfold bi_value. rewrite sign_copy_big_integer, le_val_copy_fits by done.
    change (2 ^ (Z.max 0 (0 - 1) - 0)) with 1. lia.
  - rewrite set_zero_create, bi_value_create. change (2 ^ 0) with 1.
    rewrite Z.mod_1_r. lia.
  - by rewrite set_zero_create, bi_length_create.
  - by rewrite bi_length_copy_big_integer.
  - exists r', t'. rewrite Hlr, Hlt, set_zero_create, bi_length_create,
      bi_length_copy_big_integer. repeat split; try done.
    intros Hsv. apply Hs; [by rewrite set_zero_create | by rewrite sign_copy_big_integer].
Qed.

Lemma big_integer_multiply_int_value value mul result temp simd :
  - 255 <= mul <= 255 ->
  Z.abs (bi_value value) * Z.abs mul < 256 ^ Z.of_nat (bi_length result) ->
  Z.abs (bi_value value) * Z.abs mul < 256 ^ Z.of_nat (bi_length temp) ->
  le_val (mem value) < 256 ^ Z.of_nat (bi_length temp) ->
  exists result' temp',
    big_integer_multiply_int_neg256_to_256 value mul result temp simd
      = Done (result', temp') /\
    bi_length result' = bi_length result /\ bi_length temp' = bi_length temp /\
    bi_value result' = bi_value value * mul /\
    (sign value = false -> 0 <= mul -> sign result' = false).
Proof.
  intros Hmul Hfr Hft Hfit. unfold big_integer_multiply_int_neg256_to_256.
  assert (byte.unsigned (byte.of_Z (Z.abs mul)) = Z.abs mul) as Hb.
  { rewrite byte.unsigned_of_Z. unfold byte.wrap. apply Z.mod_small. lia. }
  destruct (big_integer_multiply_uint8_value value (byte.of_Z (Z.abs mul)) result temp simd)
    as (r' & t' & -> & Hlr & Hlt & Hv & Hs); rewrite ?Hb; try done.
  cbn [mbind outcome_bind obind].
  eexists _, _. split; [done|]. rewrite bi_length_set_sign. repeat split; try done.
  - rewrite bi_value_set_sign.
    assert (le_val (mem r') = le_val (mem value) * Z.abs mul) as ->.
    { rewrite <- !bi_value_abs, Hv, Hb, Z.abs_mul, (Z.abs_eq (Z.abs mul)); lia. }
    unfold bi_value. pose proof (le_val_nonneg (mem value)).
    destruct (sign value); cbn [andb orb negb];
      destruct (Z.ltb_spec 0 mul), (Z.ltb_spec mul 0); cbn [andb orb negb]; try lia.
  - intros Hsv Hm0. cbn [sign set_sign]. rewrite Hsv. cbn [andb orb negb].
    destruct (Z.ltb_spec mul 0); [lia|done].
Qed.

(** ** Parsing *)

Lemma digits_value_app base l1 l2 :
  digits_value base (l1 ++ l2)
  = digits_value base l1 + base ^ Z.of_nat (length l1) * digits_value base l2.
Proof.
  induction l1 as [|d l1 IH]; cbn [digits_value app length].
  - change (Z.of_nat 0) with 0. rewrite Z.pow_0_r. lia.
  - rewrite IH, Nat2Z.inj_succ, Z.pow_succ_r by lia. ring.
Qed.

Lemma digits_value_bound base ds :
  1 <= Z.abs base -> digit_list base ds ->
  Z.abs (digits_value base ds) <= Z.abs base ^ Z.of_nat (length ds) - 1.
Proof.
  intros Hb. induction 1 as [|d ds Hd Hds IH]; cbn [digits_value length].
  - change (Z.of_nat 0) with 0. rewrite Z.pow_0_r. lia.
  - rewrite Nat2Z.inj_succ, Z.pow_succ_r by lia.
    pose proof (Z.abs_triangle d (base * digits_value base ds)) as Htri.
    rewrite Z.abs_mul in Htri. nia.
Qed.

Lemma digit_list_take base ds n : digit_list base ds -> digit_list base (take n ds).
Proof. apply Forall_take. Qed.

Lemma pow_abs_le base (n m : nat) :
  1 <= Z.abs base -> (n <= m)%nat -> Z.abs base ^ Z.of_nat n <= Z.abs base ^ Z.of_nat m.
Proof. intros Hb Hnm. apply Z.pow_le_mono_r; lia. Qed.

Lemma rev_reverse {A} (l : list A) : rev l = reverse l.
Proof. apply rev_alt. Qed.

Lemma digits_of_lookup alph z i :
  (i < length z)%nat ->
  digits_of alph z !! i
  = Some (byte.unsigned (get_char_value (char_at z (length z - 1 - i)) (lookup_of alph))).
Proof.
  intros Hi. unfold digits_of. rewrite rev_reverse, reverse_lookup
    by (rewrite length_map; done).
  rewrite length_map, list_lookup_fmap.
  replace (length z - S i)%nat with (length z - 1 - i)%nat by lia.
  unfold char_at.
  destruct (z !! (length z - 1 - i)%nat) as [c|] eqn:Hc.
  - by rewrite (nth_lookup_Some _ _ _ _ Hc).
  - apply lookup_ge_None in Hc. lia.
Qed.

Lemma length_digits_of alph z : length (digits_of alph z) = length z.
Proof. unfold digits_of. by rewrite length_rev, length_map. Qed.

Lemma parse_digit_value base alph z i w zb zt t2 simd :
  2 <= Z.abs base ->
  digit_list base (digits_of alph z) ->
  bi_value w = base ^ Z.of_nat i ->
  bi_value zb = digits_value base (take i (digits_of alph z)) ->
  Z.abs base ^ Z.of_nat (length z) <= 256 ^ Z.of_nat (bi_length zb) ->
  bi_length zt = bi_length zb ->
  Z.abs base ^ Z.of_nat (S i) <= 256 ^ Z.of_nat (bi_length t2) ->
  exists zb' zt' t2',
    parse_digit z (length z) i (lookup_of alph) w zb zt t2 simd = Done (zb', zt', t2') /\
    bi_length zb' = bi_length zb /\ bi_length zt' = bi_length zt /\
    bi_length t2' = bi_length t2 /\
    bi_value zb' = digits_value base (take (S i) (digits_of alph z)) /\
    (sign w = false -> sign zb = false -> sign zb' = false).
Proof.
  intros Hb Hds Hw Hzb Hfit Hlt Hfit2. unfold parse_digit.
  destruct (Nat.ltb_spec i (length z)) as [Hi|Hi].
  - pose proof (digits_of_lookup alph z i Hi) as Hd.
    set (dg := get_char_value _ _) in *. cbv zeta.
    assert (0 <= byte.unsigned dg < Z.abs base) as Hdg.
    { unfold digit_list in Hds. rewrite Forall_lookup in Hds. apply (Hds i _ Hd). }
    assert (0 < Z.abs base ^ Z.of_nat i) as Hpi by (apply Z.pow_pos_nonneg; lia).
    assert (Z.abs (bi_value w) * byte.unsigned dg < Z.abs base ^ Z.of_nat (S i)) as Hwd.
    { rewrite Hw, Z.abs_pow, Nat2Z.inj_succ, Z.pow_succ_r by lia. nia. }
    pose proof (pow_abs_le base (S i) (length z) ltac:(lia) ltac:(lia)) as Hle.
    destruct (big_integer_multiply_uint8_value w dg zt t2 simd)
      as (zt' & t2' & -> & Hlzt & Hlt2 & Hvzt & Hszt); [rewrite Hlt; lia | lia | |].
    { rewrite <- bi_value_abs, Hw, Z.abs_pow.
      rewrite Nat2Z.inj_succ, Z.pow_succ_r in Hfit2 by lia. nia. }
    cbn [mbind outcome_bind obind].
    assert (take (S i) (digits_of alph z)
            = take i (digits_of alph z) ++ [byte.unsigned dg]) as Htake
      by (by apply take_S_r).
    assert (bi_value zb + bi_value zt'
            = digits_value base (take (S i) (digits_of alph z))) as Hsum.
    { rewrite Htake, digits_value_app, Hzb, Hvzt, Hw, length_take, length_digits_of.
      rewrite Nat.min_l by lia. cbn [digits_value]. ring. }
    destruct (big_integer_addition_value zb zt' simd) as (zb' & -> & Hlzb & Hvzb & Hszb).
    { rewrite Hsum.
      pose proof (digits_value_bound base (take (S i) (digits_of alph z)) ltac:(lia)
                    (digit_list_take _ _ _ Hds)) as Hbd.
      rewrite length_take, length_digits_of, Nat.min_l in Hbd by lia. lia. }
    cbn [mbind outcome_bind obind].
    exists zb', zt', t2'. repeat split; try done; try congruence.
    intros Hsw Hsz. apply Hszb; [done | by apply Hszt].
  - exists zb, zt, t2. repeat split; try done.
    rewrite Hzb, !take_ge by (rewrite length_digits_of; lia). done.
Qed.

Lemma parse_loop_value n i base alph z1 z2 st simd wl :
  2 <= Z.abs base <= 255 ->
  digit_list base (digits_of alph z1) -> digit_list base (digits_of alph z2) ->
  Z.abs base ^ Z.of_nat (length z1) <= 256 ^ Z.of_nat (bi_length (ps_z1_binary st)) ->
  Z.abs base ^ Z.of_nat (length z2) <= 256 ^ Z.of_nat (bi_length (ps_z2_binary st)) ->
  bi_length (ps_z1_temp st) = bi_length (ps_z1_binary st) ->
  bi_length (ps_z2_temp st) = bi_length (ps_z2_binary st) ->
  bi_length (ps_current_weight st) = wl -> bi_length (ps_temp st) = wl ->
  bi_length (ps_temp2 st) = wl ->
  Z.abs base ^ Z.of_nat (i + n) < 256 ^ Z.of_nat wl ->
  bi_value (ps_current_weight st) = base ^ Z.of_nat i ->
  bi_value (ps_z1_binary st) = digits_value base (take i (digits_of alph z1)) ->
  bi_value (ps_z2_binary st) = digits_value base (take i (digits_of alph z2)) ->
  exists st',
    parse_loop n i base z1 z2 (length z1) (length z2) (lookup_of alph) st simd = Done st' /\
    bi_length (ps_z1_binary st') = bi_length (ps_z1_binary st) /\
    bi_length (ps_z2_binary st') = bi_length (ps_z2_binary st) /\
    bi_value (ps_z1_binary st') = digits_value base (take (i + n) (digits_of alph z1)) /\
    bi_value (ps_z2_binary st') = digits_value base (take (i + n) (digits_of alph z2)) /\
    (0 < base -> sign (ps_current_weight st) = false ->
     sign (ps_z1_binary st) = false -> sign (ps_z2_binary st) = false ->
     sign (ps_z1_binary st') = false /\ sign (ps_z2_binary st') = false).
Proof.
  intros Hb Hd1 Hd2. revert i st.
  induction n as [|n IH];
    intros i st Hf1 Hf2 Hl1 Hl2 Hlw Hlt Hlt2 Hfw Hw Hv1 Hv2.
  - exists st. rewrite Nat.add_0_r. repeat split; done.
  - cbn [parse_loop].
    assert (Z.abs base ^ Z.of_nat (S i) <= Z.abs base ^ Z.of_nat (i + S n)) as Hle
      by (apply pow_abs_le; lia).
    destruct (parse_digit_value base alph z1 i (ps_current_weight st) (ps_z1_binary st)
                (ps_z1_temp st) (ps_temp2 st) simd)
      as (zb1 & zt1 & t2a & -> & Hlzb1 & Hlzt1 & Hlt2a & Hvzb1 & Hszb1);
      [lia | done | done | done | done | done | rewrite Hlt2; lia |].
    cbn [mbind outcome_bind obind].
    destruct (parse_digit_value base alph z2 i (ps_current_weight st) (ps_z2_binary st)
                (ps_z2_temp st) t2a simd)
      as (zb2 & zt2 & t2b & -> & Hlzb2 & Hlzt2 & Hlt2b & Hvzb2 & Hszb2);
      [lia | done | done | done | done | done | rewrite Hlt2a, Hlt2; lia |].
    cbn [mbind outcome_bind obind].
    assert (Z.abs (bi_value (ps_current_weight st)) * Z.abs base
            = Z.abs base ^ Z.of_nat (S i)) as Hwb.
    { rewrite Hw, Z.abs_pow, Nat2Z.inj_succ, Z.pow_succ_r by lia. ring. }
    assert (0 < Z.abs base ^ Z.of_nat i) as Hpi by (apply Z.pow_pos_nonneg; lia).
    destruct (big_integer_multiply_int_value (ps_current_weight st) base (ps_temp st) t2b simd)
      as (w' & t2c & -> & Hlw' & Hlt2c & Hvw' & Hsw');
      [lia | rewrite Hwb, Hlt; lia | rewrite Hwb, Hlt2b, Hlt2a, Hlt2; lia | |].
    { rewrite Hlt2b, Hlt2a, Hlt2, <- bi_value_abs, Hw, Z.abs_pow.
      rewrite Nat2Z.inj_succ, Z.pow_succ_r in Hle by lia. nia. }
    cbn [mbind outcome_bind obind].
    destruct (IH (S i) {| ps_z1_binary := zb1; ps_z2_binary := zb2;
                          ps_z1_temp := zt1; ps_z2_temp := zt2;
                          ps_current_weight := w'; ps_temp := ps_current_weight st;
                          ps_temp2 := t2c |})
      as (st' & -> & Hr1 & Hr2 & Hr3 & Hr4 & Hr5); cbn [ps_z1_binary ps_z2_binary
        ps_z1_temp ps_z2_temp ps_current_weight ps_temp ps_temp2] in *;
      [ by rewrite Hlzb1 | by rewrite Hlzb2 | congruence | congruence | congruence | done
      | congruence
      | by replace (S i + n)%nat with (i + S n)%nat by lia
      | rewrite Hvw', Hw, Nat2Z.inj_succ, Z.pow_succ_r by lia; ring
      | done | done | ].
    exists st'. replace (i + S n)%nat with (S i + n)%nat by lia.
    split; [done|]. split; [congruence|]. split; [congruence|].
    split; [done|]. split; [done|].
    intros Hpos Hs0 Hs1 Hs2.
    apply Hr5; [done | apply Hsw'; [done|lia] | by apply Hszb1 | by apply Hszb2].
Qed.

(** *** Sizes *)

Lemma binary_logarithm_spec v :
  2 <= Z.abs v <= 256 ->
  1 <= binary_logarithm_8bit_abs_ceil v <= 8 /\
  Z.abs v <= 2 ^ binary_logarithm_8bit_abs_ceil v.
Proof.
  intros Hv. unfold binary_logarithm_8bit_abs_ceil. cbn [binary_logarithm_loop].
  repeat match goal with
         | |- context [?x <? Z.abs v] =>
             let y := eval vm_compute in x in
             change x with y; destruct (Z.ltb_spec y (Z.abs v))
         end; cbn; lia.
Qed.

Lemma min_size_exponentiation_spec base (n : nat) :
  2 <= Z.abs base <= 256 ->
  (1 <= get_big_integer_min_size_exponentiation base (Z.of_nat n))%nat /\
  Z.abs base ^ Z.of_nat n
  < 256 ^ Z.of_nat (get_big_integer_min_size_exponentiation base (Z.of_nat n)).
Proof.
  intros Hb. destruct (binary_logarithm_spec base Hb) as [HL Hpow].
  unfold get_big_integer_min_size_exponentiation.
  set (L := binary_logarithm_8bit_abs_ceil base) in *.
  rewrite Z.quot_div_nonneg by lia.
  assert (0 <= L * Z.of_nat n / 8) as Hq by (apply Z.div_pos; lia).
  split; [lia|].
  rewrite Z2Nat.id by lia.
  apply Z.le_lt_trans with (2 ^ (L * Z.of_nat n)).
  - rewrite Z.pow_mul_r by lia. apply Z.pow_le_mono_l. lia.
  - change 256 with (2 ^ 8). rewrite <- Z.pow_mul_r by lia.
    apply Z.pow_lt_mono_r; [lia|lia|].
    pose proof (Z.mod_pos_bound (L * Z.of_nat n) 8 ltac:(lia)).
    pose proof (Z.div_mod (L * Z.of_nat n) 8 ltac:(lia)). lia.
Qed.

Lemma bi_value_unit_weight wl :
  (1 <= wl)%nat ->
  bi_value (set_byte_value_of_big_integer (create_big_integer wl false) 0 Byte.x01) = 1.
Proof.
  intros Hwl. unfold bi_value. rewrite sign_set_byte. cbn [sign create_big_integer].
  rewrite le_val_set_byte by (rewrite bi_length_create; lia).
  rewrite le_val_create. destruct wl; [lia|]. done.
Qed.

(** The parser stores the values of the two digit strings. *)
Lemma convert_numbers_value base alph z1 z2 n1 n2 simd :
  2 <= Z.abs base <= 255 ->
  digit_list base (digits_of alph z1) -> digit_list base (digits_of alph z2) ->
  Z.abs base ^ Z.of_nat (length z1) <= 256 ^ Z.of_nat n1 ->
  Z.abs base ^ Z.of_nat (length z2) <= 256 ^ Z.of_nat n2 ->
  exists b1 b2,
    convert_numbers_from_any_base_into_binary base alph z1 z2 (length z1) (length z2)
      (create_big_integer n1 false) (create_big_integer n2 false) simd = Done (b1, b2) /\
    bi_length b1 = n1 /\ bi_length b2 = n2 /\
    bi_value b1 = number_value base alph z1 /\ bi_value b2 = number_value base alph z2 /\
    (0 < base -> sign b1 = false /\ sign b2 = false).
Proof.
  intros Hb Hd1 Hd2 Hf1 Hf2. unfold convert_numbers_from_any_base_into_binary. cbv zeta.
  fold (lookup_of alph).
  destruct (min_size_exponentiation_spec base (length z1 `max` length z2) ltac:(lia))
    as [Hwl Hfw].
  set (wl := get_big_integer_min_size_exponentiation base _) in *.
  rewrite !bi_length_create.
  edestruct (parse_loop_value (length z1 `max` length z2) 0 base alph z1 z2) with (wl := wl)
    as (st' & -> & Hl1 & Hl2 & Hv1 & Hv2 & Hs);
    cbn [ps_z1_binary ps_z2_binary ps_z1_temp ps_z2_temp ps_current_weight ps_temp ps_temp2];
    rewrite ?bi_length_create, ?bi_length_set_byte, ?bi_value_create; try done.
  - apply bi_length_create.
  - rewrite bi_value_unit_weight by done. by rewrite Z.pow_0_r.
  - cbn [mbind outcome_bind obind].
    cbn [ps_z1_binary ps_z2_binary] in *. rewrite bi_length_create in Hl1, Hl2.
    rewrite !take_ge in Hv1, Hv2 by (rewrite length_digits_of; lia).
    exists (ps_z1_binary st'), (ps_z2_binary st').
    split; [done|]. split; [done|]. split; [done|]. split; [done|]. split; [done|].
    intros Hpos. by apply Hs.
Qed.

(** ** Digit lists *)

Lemma digits_value_trim base ds : digits_value base (trim ds) = digits_value base ds.
Proof.
  induction ds as [|d t IH]; [done|]. cbn [trim digits_value].
  destruct (trim t) as [|x t'] eqn:Et.
  - rewrite <- IH. cbn [digits_value].
    destruct (Z.eqb_spec d 0) as [->|]; cbn [digits_value]; lia.
  - rewrite <- IH. done.
Qed.

Lemma digit_list_trim base ds : digit_list base ds -> digit_list base (trim ds).
Proof.
  induction 1 as [|d t Hd Ht IH]; [constructor|]. cbn [trim].
  destruct (trim t) as [|x t'] eqn:Et.
  - destruct (d =? 0); [constructor | constructor; [done|constructor]].
  - by constructor.
Qed.

Lemma trim_idem ds : trim (trim ds) = trim ds.
Proof.
  induction ds as [|d t IH]; [done|]. cbn [trim].
  destruct (trim t) as [|x t'] eqn:Et.
  - destruct (Z.eqb_spec d 0) as [->|Hd]; [done|]. cbn [trim].
    destruct (Z.eqb_spec d 0); [done|done].
  - cbn [trim] in *. rewrite IH. done.
Qed.

Lemma length_trim ds : (length (trim ds) <= length ds)%nat.
Proof.
  induction ds as [|d t IH]; [done|]. cbn [trim].
  destruct (trim t) as [|x t'] eqn:Et.
  - destruct (d =? 0); cbn [length]; lia.
  - cbn [length] in *. lia.
Qed.

Lemma trim_nil_iff ds : trim ds = [] <-> Forall (fun d => d = 0) ds.
Proof.
  induction ds as [|d t IH]; [by split; [constructor|]|]. cbn [trim].
  destruct (trim t) as [|x t'] eqn:Et.
  - destruct (Z.eqb_spec d 0) as [->|Hd].
    + split; [|done]. intros _. constructor; [done|]. by apply IH.
    + split; [done|]. inversion 1. done.
  - split; [done|]. inversion 1 as [|? ? ? Ht]. by apply IH in Ht.
Qed.

Lemma digits_value_zeros base ds : Forall (fun d => d = 0) ds -> digits_value base ds = 0.
Proof. induction 1 as [|d t -> Ht IH]; cbn [digits_value]; lia. Qed.

Lemma digit_head_unique base d d' X Y :
  0 <= d < Z.abs base -> 0 <= d' < Z.abs base ->
  d + base * X = d' + base * Y -> d = d' /\ X = Y.
Proof.
  intros Hd Hd' Heq.
  assert (base <> 0) by lia.
  assert (d - d' = base * (Y - X)) as Hdiff by lia.
  assert (Y - X = 0) as H0.
  { destruct (Z.eq_dec (Y - X) 0) as [|Hne]; [done|].
    assert (Z.abs base * 1 <= Z.abs base * Z.abs (Y - X)) by (apply Z.mul_le_mono_nonneg_l; lia).
    assert (Z.abs (d - d') = Z.abs base * Z.abs (Y - X)) by (rewrite Hdiff; apply Z.abs_mul).
    lia. }
  split; nia.
Qed.

Lemma digits_value_zero base ds :
  digit_list base ds -> digits_value base ds = 0 -> Forall (fun d => d = 0) ds.
Proof.
  induction 1 as [|d t Hd Ht IH]; [constructor|]. cbn [digits_value]. intros Hv.
  destruct (digit_head_unique base d 0 (digits_value base t) 0) as [-> HX]; [done|lia|lia|].
  constructor; [done|]. by apply IH.
Qed.

(** Two digit lists of one number agree up to most significant zeros. *)
Lemma digits_value_inj base ds1 ds2 :
  digit_list base ds1 -> digit_list base ds2 ->
  digits_value base ds1 = digits_value base ds2 -> trim ds1 = trim ds2.
Proof.
  intros H1. revert ds2. induction H1 as [|d t Hd Ht IH]; intros ds2 H2 Hv.
  - symmetry. apply trim_nil_iff. apply (digits_value_zero base); [done|]. by rewrite <- Hv.
  - destruct H2 as [|d' t' Hd' Ht'].
    + apply trim_nil_iff. apply (digits_value_zero base); [by constructor|done].
    + cbn [digits_value] in Hv.
      destruct (digit_head_unique base d d' _ _ Hd Hd' Hv) as [Hdd HX].
      cbn [trim]. by rewrite Hdd, (IH t' Ht' HX).
Qed.

Lemma trim_snoc ds d : trim (ds ++ [d]) = if d =? 0 then trim ds else ds ++ [d].
Proof.
  induction ds as [|x t IH]; cbn [trim app].
  - by destruct (d =? 0).
  - rewrite IH. destruct (Z.eqb_spec d 0) as [Hd|Hd]; [done|].
    destruct t; done.
Qed.

Lemma trim_cons_inv d t : trim (d :: t) = d :: t -> trim t = t.
Proof.
  cbn [trim]. destruct (trim t) as [|x t'] eqn:Et.
  - destruct (d =? 0); [done|]. by intros [= <-].
  - by intros [= <-].
Qed.

Lemma trim_fixed_nonzero base ds :
  digit_list base ds -> trim ds = ds -> ds <> [] -> digits_value base ds <> 0.
Proof.
  intros Hds Ht Hne Hv. apply Hne. rewrite <- Ht. apply trim_nil_iff.
  by apply (digits_value_zero base).
Qed.

Lemma digits_value_lt base ds :
  0 < base -> digit_list base ds -> 0 <= digits_value base ds < base ^ Z.of_nat (length ds).
Proof.
  intros Hb. induction 1 as [|d t Hd Ht IH]; cbn [digits_value length].
  - change (Z.of_nat 0) with 0. rewrite Z.pow_0_r. lia.
  - rewrite Nat2Z.inj_succ, Z.pow_succ_r by lia. nia.
Qed.

(** ** Double Dabble: the digit cells hold the value *)

Lemma digits_value_insert base (l : list Z) i x :
  (i < length l)%nat ->
  digits_value base (<[i := x]> l)
  = digits_value base l + base ^ Z.of_nat i * (x - nth i l 0).
Proof.
  revert i. induction l as [|d t IH]; intros i Hi; cbn [length] in Hi; [lia|].
  destruct i as [|i]; cbn [digits_value nth].
  - change (Z.of_nat 0) with 0. rewrite Z.pow_0_r.
    change (<[0%nat := x]> (d :: t)) with (x :: t). cbn [digits_value]. lia.
  - change (<[S i := x]> (d :: t)) with (d :: <[i := x]> t). cbn [digits_value].
    rewrite IH, Nat2Z.inj_succ, Z.pow_succ_r by lia. ring.
Qed.

Lemma digits_value_ge_nth base (l : list Z) i :
  0 < base -> Forall (fun d => 0 <= d) l ->
  0 <= digits_value base l /\ base ^ Z.of_nat i * nth i l 0 <= digits_value base l.
Proof.
  intros Hb Hl. revert i. induction Hl as [|d t Hd Ht IH]; intros i.
  - cbn [digits_value]. destruct i; cbn [nth]; lia.
  - destruct (IH 0%nat) as [H0 _]. destruct i as [|i]; cbn [digits_value nth].
    + change (Z.of_nat 0) with 0. rewrite Z.pow_0_r. nia.
    + destruct (IH i) as [_ Hi]. rewrite Nat2Z.inj_succ, Z.pow_succ_r by lia. nia.
Qed.

Lemma digits_value_double base (l : list Z) :
  digits_value base (map (Z.mul 2) l) = 2 * digits_value base l.
Proof. induction l as [|d t IH]; cbn [map digits_value]; lia. Qed.

Lemma length_cells cb : length (cells cb) = bi_length cb.
Proof. unfold cells. by rewrite length_map. Qed.

Lemma nth_cells cb i : nth i (cells cb) 0 = byte.unsigned (get_byte_value_of_big_integer cb i).
Proof.
  unfold cells, get_byte_value_of_big_integer.
  change 0 with (byte.unsigned Byte.x00). apply map_nth.
Qed.

Lemma cells_set_byte cb i x :
  cells (set_byte_value_of_big_integer cb i x) = <[i := byte.unsigned x]> (cells cb).
Proof. unfold cells. rewrite mem_set_byte. apply list_fmap_insert. Qed.

Lemma cells_value_set_byte base cb i x :
  (i < bi_length cb)%nat ->
  cells_value base (set_byte_value_of_big_integer cb i x)
  = cells_value base cb
    + base ^ Z.of_nat i
      * (byte.unsigned x - byte.unsigned (get_byte_value_of_big_integer cb i)).
Proof.
  intros Hi. unfold cells_value.
  rewrite cells_set_byte, digits_value_insert, nth_cells by (by rewrite length_cells). done.
Qed.

Lemma cells_nonneg cb : Forall (fun d => 0 <= d) (cells cb).
Proof.
  unfold cells. apply Forall_fmap, Forall_true. intros x. cbn.
  pose proof (byte_range x). lia.
Qed.

Lemma le_val_double (l : list byte) :
  Forall (fun x => byte.unsigned x < 128) l ->
  le_val (map (fun x => byte.of_Z (2 * byte.unsigned x)) l) = 2 * le_val l.
Proof.
  induction 1 as [|x t Hx Ht IH]; [done|]. cbn [map le_val].
  pose proof (byte_range x). rewrite IH, unsigned_of_Z_small by lia. ring.
Qed.

Lemma mem_shl_one cb :
  (forall k, byte.unsigned (get_byte_value_of_big_integer cb k) < 128) ->
  mem (big_integer_shl_bitwise_0_to_7__sisd cb 1)
  = map (fun x => byte.of_Z (2 * byte.unsigned x)) (mem cb).
Proof.
  intros Hc. rewrite mem_shl_sisd by lia.
  assert (Forall (fun x => byte.unsigned x < 128) (mem cb)) as Hall.
  { apply Forall_lookup. intros i x Hx. specialize (Hc i).
    unfold get_byte_value_of_big_integer in Hc. by rewrite (nth_lookup_Some _ _ _ _ Hx) in Hc. }
  change (2 ^ 1) with 2. rewrite Z.mul_comm, <- le_val_double by done.
  unfold bi_length.
  rewrite <- (length_map (fun x => byte.of_Z (2 * byte.unsigned x)) (mem cb)).
  apply le_bytes_le_val.
Qed.

Lemma cells_shl_one cb :
  (forall k, byte.unsigned (get_byte_value_of_big_integer cb k) < 128) ->
  cells (big_integer_shl_bitwise_0_to_7__sisd cb 1) = map (Z.mul 2) (cells cb).
Proof.
  intros Hc. unfold cells. rewrite mem_shl_one by done. rewrite !map_map.
  apply map_ext_in. intros x Hx. apply unsigned_of_Z_small.
  apply In_nth with (d := Byte.x00) in Hx as (i & _ & <-).
  specialize (Hc i). unfold get_byte_value_of_big_integer in Hc.
  pose proof (byte_range (nth i (mem cb) Byte.x00)). lia.
Qed.

Lemma get_shl_one cb k :
  (forall k, byte.unsigned (get_byte_value_of_big_integer cb k) < 128) ->
  byte.unsigned (get_byte_value_of_big_integer (big_integer_shl_bitwise_0_to_7__sisd cb 1) k)
  = 2 * byte.unsigned (get_byte_value_of_big_integer cb k).
Proof.
  intros Hc. rewrite <- !nth_cells, cells_shl_one by done.
  change 0 with (2 * 0) at 1. by rewrite map_nth.
Qed.

Section DoubleDabbleValue.
Variable base : Z.
Hypothesis Hbase : 2 <= base <= 128.

Let trigger := byte.of_Z base.
Let carry_add := byte.of_Z (256 - base).

Lemma dabble_loop_value n j cb :
  (forall k, (k < j)%nat -> byte.unsigned (get_byte_value_of_big_integer cb k) < base) ->
  byte.unsigned (get_byte_value_of_big_integer cb j) <= 2 * base - 1 ->
  (forall k, (j < k)%nat ->
     byte.unsigned (get_byte_value_of_big_integer cb k) <= 2 * base - 2) ->
  (j + n = bi_length cb)%nat ->
  cells_value base cb < base ^ Z.of_nat (bi_length cb) ->
  cells_value base (dabble_loop n j cb trigger carry_add) = cells_value base cb /\
  bi_length (dabble_loop n j cb trigger carry_add) = bi_length cb.
Proof.
  revert j cb. induction n as [|n IH]; intros j cb Hlow Hj Hhigh Hlen Hfit; [done|].
  cbn [dabble_loop]. subst trigger carry_add.
  rewrite !unsigned_of_Z_small by lia.
  pose proof (byte_range (get_byte_value_of_big_integer cb j)) as Hbj.
  set (b := byte.unsigned (get_byte_value_of_big_integer cb j)) in *.
  destruct (Z.leb_spec base b) as [Hge|Hlt].
  - destruct (Nat.eq_dec n 0%nat) as [->|Hn].
    { exfalso.
      destruct (digits_value_ge_nth base (cells cb) j ltac:(lia) (cells_nonneg cb))
        as [_ Hnth].
      rewrite nth_cells in Hnth. fold b in Hnth. fold (cells_value base cb) in Hnth.
      replace (bi_length cb) with (S j) in Hfit by lia.
      rewrite Nat2Z.inj_succ, Z.pow_succ_r in Hfit by lia.
      assert (0 < base ^ Z.of_nat j) by (apply Z.pow_pos_nonneg; lia). nia. }
    set (cb1 := set_byte_value_of_big_integer cb j (byte.of_Z (b + (256 - base)))).
    assert (Hcb1j : byte.unsigned (get_byte_value_of_big_integer cb1 j) = b - base).
    { subst cb1. rewrite get_set_byte_eq by lia. rewrite unsigned_of_Z_mod.
      replace (b + (256 - base)) with (b - base + 1 * 256) by lia.
      rewrite Z.mod_add by lia. apply Z.mod_small. lia. }
    assert (Hcb1o : forall m, m <> j ->
              get_byte_value_of_big_integer cb1 m = get_byte_value_of_big_integer cb m).
    { intros m Hm. subst cb1. by rewrite get_set_byte_ne. }
    assert (Hl1 : bi_length cb1 = bi_length cb) by (subst cb1; apply bi_length_set_byte).
    pose proof (Hhigh (S j) ltac:(lia)) as Hn1.
    pose proof (byte_range (get_byte_value_of_big_integer cb (S j))) as Hr1.
    replace (j + 1)%nat with (S j) by lia.
    set (cb2 := set_byte_value_of_big_integer cb1 (S j) _).
    assert (Hv2 : cells_value base cb2 = cells_value base cb).
    { subst cb2. rewrite cells_value_set_byte by lia.
      rewrite (Hcb1o (S j)) by lia. rewrite unsigned_of_Z_small by lia.
      subst cb1. rewrite cells_value_set_byte by lia. fold b.
      rewrite unsigned_of_Z_mod.
      replace (b + (256 - base)) with (b - base + 1 * 256) by lia.
      rewrite Z.mod_add, (Z.mod_small (b - base)) by lia.
      rewrite Nat2Z.inj_succ, Z.pow_succ_r by lia. ring. }
    assert (Hl2 : bi_length cb2 = bi_length cb)
      by (subst cb2; rewrite bi_length_set_byte; done).
    destruct (IH (S j) cb2) as [Hv Hl].
    + intros m Hm. subst cb2. destruct (Nat.eq_dec m j) as [->|Hne].
      * rewrite get_set_byte_ne, Hcb1j by lia. lia.
      * rewrite get_set_byte_ne, Hcb1o by lia. apply Hlow. lia.
    + subst cb2. rewrite (Hcb1o (S j)) by lia.
      rewrite get_set_byte_eq by lia. rewrite unsigned_of_Z_small; lia.
    + intros m Hm. subst cb2. rewrite get_set_byte_ne, Hcb1o by lia. apply Hhigh. lia.
    + lia.
    + by rewrite Hv2, Hl2.
    + split; congruence.
  - apply IH.
    + intros m Hm. destruct (Nat.eq_dec m j) as [->|Hne]; [done|]. apply Hlow. lia.
    + pose proof (Hhigh (S j) ltac:(lia)). lia.
    + intros m Hm. apply Hhigh. lia.
    + lia.
    + done.
Qed.

Lemma most_significant_bit_byte (x : byte) :
  of_bool (to_bool (Z.land (byte.unsigned x) 128)) = byte.unsigned x / 128.
Proof. by destruct x. Qed.

Lemma most_significant_bit_value rem :
  (1 <= bi_length rem)%nat ->
  of_bool (get_most_significant_bit rem)
  = 2 * le_val (mem rem) / 256 ^ Z.of_nat (bi_length rem).
Proof.
  intros HL. unfold get_most_significant_bit.
  rewrite most_significant_bit_byte, get_byte_le_val.
  pose proof (le_val_bound (mem rem)) as Hb. fold (bi_length rem) in Hb.
  set (R := le_val (mem rem)) in *.
  destruct (bi_length rem) as [|k] eqn:E; [lia|].
  replace (S k - 1)%nat with k by lia.
  rewrite Nat2Z.inj_succ, Z.pow_succ_r in * by lia.
  assert (0 < 256 ^ Z.of_nat k) as Hp by (apply Z.pow_pos_nonneg; lia).
  assert (0 <= R / 256 ^ Z.of_nat k < 256) as Htop.
  { split; [apply Z.div_pos; lia|]. apply Z.div_lt_upper_bound; lia. }
  rewrite (Z.mod_small _ 256) by done.
  replace (256 * 256 ^ Z.of_nat k) with (2 * (256 ^ Z.of_nat k * 128)) by ring.
  rewrite Z.div_mul_cancel_l by lia. by rewrite Z.div_div by lia.
Qed.

Lemma lor_even_bit c x : 0 <= c -> 0 <= x <= 1 -> Z.lor (2 * c) x = 2 * c + x.
Proof.
  intros Hc Hx. pose proof (Z.add_lor_land (2 * c) x) as Hadd.
  assert (Z.land (2 * c) x = 0) as Hland; [|lia].
  assert (x = 0 \/ x = 1) as [->| ->] by lia; [apply Z.land_0_r|].
  change 1 with (Z.ones 1). rewrite Z.land_ones by lia.
  change (2 ^ 1) with 2. rewrite Z.mul_comm. apply Z.mod_mul. lia.
Qed.

(** One iteration doubles the value of the cells and shifts in the most
    significant bit of the remaining value. *)
Lemma double_dabble_step_value cb rem simd :
  digits_below base cb -> (1 <= bi_length cb)%nat -> (1 <= bi_length rem)%nat ->
  2 * cells_value base cb + of_bool (get_most_significant_bit rem)
    < base ^ Z.of_nat (bi_length cb) ->
  exists cb' rem',
    double_dabble_step cb rem trigger carry_add simd = Done (cb', rem') /\
    digits_below base cb' /\ bi_length cb' = bi_length cb /\
    bi_length rem' = bi_length rem /\
    cells_value base cb' = 2 * cells_value base cb + of_bool (get_most_significant_bit rem) /\
    le_val (mem rem') = (2 * le_val (mem rem)) mod 256 ^ Z.of_nat (bi_length rem).
Proof.
  intros Hcb HB HL Hfit. unfold double_dabble_step.
  rewrite !big_integer_shl_simd_irrelevant by lia. cbn [mbind outcome_bind obind].
  assert (Hlt : forall k, byte.unsigned (get_byte_value_of_big_integer cb k) < 128).
  { intros k. specialize (Hcb k). lia. }
  set (cb1 := big_integer_shl_bitwise_0_to_7__sisd cb 1).
  assert (Hl1 : bi_length cb1 = bi_length cb) by apply bi_length_shl_sisd.
  set (x := of_bool (get_most_significant_bit rem)) in *.
  assert (Hx : 0 <= x <= 1) by apply of_bool_range.
  set (cb2 := set_byte_value_of_big_integer cb1 0 _).
  assert (Hl2 : bi_length cb2 = bi_length cb)
    by (subst cb2; rewrite bi_length_set_byte; done).
  assert (Hc0 : byte.unsigned (get_byte_value_of_big_integer cb2 0)
                = 2 * byte.unsigned (get_byte_value_of_big_integer cb 0) + x).
  { subst cb2 cb1. rewrite get_set_byte_eq by lia. rewrite get_shl_one by done.
    pose proof (Hcb 0%nat). rewrite lor_even_bit by lia. rewrite unsigned_of_Z_small; lia. }
  assert (Hck : forall k, k <> 0%nat ->
            byte.unsigned (get_byte_value_of_big_integer cb2 k)
            = 2 * byte.unsigned (get_byte_value_of_big_integer cb k)).
  { intros k Hk. subst cb2 cb1. rewrite get_set_byte_ne by lia. by apply get_shl_one. }
  assert (Hv2 : cells_value base cb2 = 2 * cells_value base cb + x).
  { unfold cb2. rewrite cells_value_set_byte by lia.
    unfold cb1. rewrite !get_shl_one by done.
    unfold cells_value at 1. rewrite cells_shl_one, digits_value_double by done.
    fold (cells_value base cb). change (Z.of_nat 0) with 0. rewrite Z.pow_0_r.
    pose proof (Hcb 0%nat). rewrite lor_even_bit by lia.
    rewrite unsigned_of_Z_small by lia. lia. }
  destruct (dabble_loop_value (bi_length cb2) 0 cb2) as [Hv Hl].
  { intros k Hk. lia. }
  { rewrite Hc0. pose proof (Hcb 0%nat). lia. }
  { intros k Hk. rewrite Hck by lia. pose proof (Hcb k). lia. }
  { lia. }
  { by rewrite Hv2, Hl2. }
  eexists _, _. split; [done|].
  split.
  { apply (dabble_loop_cells base Hbase).
    - intros k Hk. lia.
    - rewrite Hc0. pose proof (Hcb 0%nat). lia.
    - intros k Hk. rewrite Hck by lia. pose proof (Hcb k). lia.
    - lia. }
  split; [congruence|]. split; [apply bi_length_shl_sisd|]. split; [congruence|].
  rewrite le_val_shl_sisd by lia. change (2 ^ 1) with 2. by rewrite Z.mul_comm.
Qed.

Lemma double_dabble_loop_value n cb rem simd V (t : nat) :
  digits_below base cb -> (1 <= bi_length cb)%nat ->
  (t + n = 8 * bi_length rem)%nat ->
  V * 2 ^ Z.of_nat t = cells_value base cb * 256 ^ Z.of_nat (bi_length rem) + le_val (mem rem) ->
  0 <= V < base ^ Z.of_nat (bi_length cb) ->
  exists cb' rem',
    double_dabble_loop n cb rem trigger carry_add simd = Done (cb', rem') /\
    digits_below base cb' /\ bi_length cb' = bi_length cb /\ cells_value base cb' = V.
Proof.
  revert cb rem t. induction n as [|n IH]; intros cb rem t Hcb HB Ht Hinv HV.
  - exists cb, rem. split; [done|]. split; [done|]. split; [done|].
    pose proof (le_val_bound (mem rem)) as HR. fold (bi_length rem) in HR.
    assert (2 ^ Z.of_nat t = 256 ^ Z.of_nat (bi_length rem)) as Hpow.
    { change 256 with (2 ^ 8). rewrite <- Z.pow_mul_r by lia. f_equal. lia. }
    rewrite Hpow in Hinv.
    assert (0 < 256 ^ Z.of_nat (bi_length rem)) by (apply Z.pow_pos_nonneg; lia).
    assert (V = (cells_value base cb * 256 ^ Z.of_nat (bi_length rem) + le_val (mem rem))
                / 256 ^ Z.of_nat (bi_length rem)) as HVeq
      by (rewrite <- Hinv; symmetry; apply Z.div_mul; lia).
    rewrite Z.div_add_l, Z.div_small in HVeq by lia. lia.
  - cbn [double_dabble_loop].
    assert (1 <= bi_length rem)%nat as HL by lia.
    pose proof (le_val_bound (mem rem)) as HR. fold (bi_length rem) in HR.
    pose proof (most_significant_bit_value rem HL) as Hmsb.
    set (P := 256 ^ Z.of_nat (bi_length rem)) in *.
    set (R := le_val (mem rem)) in *.
    assert (0 < P) as HP by (apply Z.pow_pos_nonneg; lia).
    pose proof (Z.div_mod (2 * R) P ltac:(lia)) as Hdm.
    pose proof (Z.mod_pos_bound (2 * R) P HP) as Hmod.
    assert (2 ^ Z.of_nat (S t) <= P) as Hle.
    { subst P. change 256 with (2 ^ 8). rewrite <- Z.pow_mul_r by lia.
      apply Z.pow_le_mono_r; lia. }
    assert (V * 2 ^ Z.of_nat (S t)
            = (2 * cells_value base cb + of_bool (get_most_significant_bit rem)) * P
              + (2 * R) mod P) as Hinv'.
    { rewrite Nat2Z.inj_succ, Z.pow_succ_r by lia. rewrite Hmsb. nia. }
    assert (0 < 2 ^ Z.of_nat (S t)) as Hpt by (apply Z.pow_pos_nonneg; lia).
    destruct (double_dabble_step_value cb rem simd Hcb HB HL)
      as (cb' & rem' & -> & Hcb' & Hlcb & Hlrem & Hvcb & Hvrem).
    { assert (2 * cells_value base cb + of_bool (get_most_significant_bit rem) <= V); [|lia].
      nia. }
    cbn [mbind outcome_bind obind].
    destruct (IH cb' rem' (S t)) as (cb'' & rem'' & -> & H1 & H2 & H3);
      [done | lia | lia | | by rewrite Hlcb |].
    + rewrite Hlrem, Hvcb, Hvrem. done.
    + exists cb'', rem''. split; [done|]. split; [done|]. split; [congruence|done].
Qed.
End DoubleDabbleValue.

(** *** The output of the positive projection *)

Lemma take_S_cells cb i :
  (i < bi_length cb)%nat ->
  take (S i) (cells cb)
  = take i (cells cb) ++ [byte.unsigned (get_byte_value_of_big_integer cb i)].
Proof.
  intros Hi. apply take_S_r. unfold cells, get_byte_value_of_big_integer.
  rewrite list_lookup_fmap. destruct (lookup_lt_is_Some_2 (mem cb) i Hi) as [x Hx].
  rewrite Hx. cbn. by rewrite (nth_lookup_Some _ _ _ _ Hx).
Qed.

Lemma start_nonzero_loop_spec n cb :
  (n <= bi_length cb)%nat ->
  (trim (take n (cells cb)) = [] /\ start_nonzero_loop n cb = 0%nat) \/
  (trim (take n (cells cb)) = take (S (start_nonzero_loop n cb)) (cells cb) /\
   (start_nonzero_loop n cb < n)%nat).
Proof.
  induction n as [|n IH]; intros Hn; [by left|].
  cbn [start_nonzero_loop]. rewrite byte_eqb_zero, take_S_cells, trim_snoc by lia.
  destruct (Z.eqb_spec (byte.unsigned (get_byte_value_of_big_integer cb n)) 0) as [H0|H0];
    cbn [negb].
  - destruct IH as [[H1 H2]|[H1 H2]]; [lia| |]; [by left|right]. split; [done|lia].
  - right. rewrite take_S_cells by lia. split; [done|lia].
Qed.

Lemma output_loop_spec n cb alph buffer_length idx written :
  (n <= bi_length cb)%nat -> (idx + n <= buffer_length)%nat ->
  output_loop n cb alph buffer_length idx written
  = (written ++ rev (map (char_of alph) (take n (cells cb))), (idx + n)%nat).
Proof.
  revert idx written. induction n as [|n IH]; intros idx written Hn Hidx.
  - cbn [output_loop take map rev]. by rewrite app_nil_r, Nat.add_0_r.
  - cbn [output_loop]. destruct (Nat.leb_spec buffer_length idx); [lia|].
    rewrite IH by lia. rewrite take_S_cells, map_app, rev_app_distr by lia.
    cbn [map rev app]. rewrite <- app_assoc. cbn [app]. f_equal. lia.
Qed.

Lemma digit_list_cells base cb :
  0 < base -> digits_below base cb -> digit_list base (cells cb).
Proof.
  intros Hb Hcb. unfold digit_list, cells. apply Forall_fmap, Forall_lookup.
  intros i x Hx. cbn. specialize (Hcb i). unfold get_byte_value_of_big_integer in Hcb.
  rewrite (nth_lookup_Some _ _ _ _ Hx) in Hcb. lia.
Qed.

(** The positive projection writes the sign and the digits of the
    magnitude, most significant digit first. *)
Lemma convert_to_positive_base_value value base alph buffer_length simd ds :
  2 <= base <= 128 ->
  digit_list base ds -> digits_value base ds = le_val (mem value) ->
  ((if sign value then 1 else 0) + Nat.max 1 (length (trim ds)) < buffer_length)%nat ->
  convert_to_positive_base value base alph buffer_length simd
  = Done ((if sign value then [char_minus] else []) ++ digits_string alph (trim ds)).
Proof.
  intros Hbase Hds Hv HB. unfold convert_to_positive_base. cbv zeta.
  rewrite clone_big_integer_id.
  assert (0 <= le_val (mem value) < base ^ Z.of_nat buffer_length) as HV.
  { rewrite <- Hv, <- (digits_value_trim base ds).
    pose proof (digits_value_lt base (trim ds) ltac:(lia)
                  (digit_list_trim base ds Hds)) as Hlt.
    assert (base ^ Z.of_nat (length (trim ds)) <= base ^ Z.of_nat buffer_length)
      by (apply Z.pow_le_mono_r; lia). lia. }
  destruct (double_dabble_loop_value base Hbase (bi_length value * 8)
              (create_big_integer buffer_length false) value simd
              (le_val (mem value)) 0)
    as (cb & rem & -> & Hcb & Hlcb & Hvcb).
  { apply digits_below_create. lia. }
  { rewrite bi_length_create. lia. }
  { lia. }
  { unfold cells_value, cells. cbn [create_big_integer mem].
    rewrite digits_value_zeros; [change (2 ^ Z.of_nat 0) with 1; lia|].
    by apply Forall_fmap, Forall_replicate. }
  { by rewrite bi_length_create. }
  cbn [mbind outcome_bind obind].
  rewrite bi_length_create in Hlcb.
  assert (trim (cells cb) = trim ds) as Htrim.
  { apply (digits_value_inj base); [|done|].
    - apply digit_list_cells; [lia|done].
    - fold (cells_value base cb). by rewrite Hvcb, Hv. }
  pose proof (start_nonzero_loop_spec (bi_length cb) cb ltac:(lia)) as Hstart.
  rewrite <- length_cells, firstn_all, Htrim in Hstart. rewrite length_cells in Hstart.
  set (s := start_nonzero_loop (bi_length cb) cb) in *.
  assert (s < bi_length cb)%nat as Hs by (destruct Hstart as [[_ ->]|[_ H]]; lia).
  assert (rev (map (char_of alph) (take (S s) (cells cb))) = digits_string alph (trim ds)
          /\ (S s <= Nat.max 1 (length (trim ds)))%nat) as [Hout Hlen].
  { destruct Hstart as [[Hnil Hs0]|[Htake _]].
    - rewrite Hnil, Hs0. cbn [digits_string length]. split; [|lia].
      assert (take 1 (cells cb) = [0]) as ->; [|done].
      rewrite (take_S_cells cb 0) by lia. rewrite take_0. cbn [app]. f_equal.
      rewrite <- nth_cells.
      pose proof (proj1 (trim_nil_iff (cells cb)) ltac:(by rewrite Htrim)) as Hz.
      apply (proj1 (List.Forall_forall _ _) Hz). apply nth_In. rewrite length_cells. lia.
    - rewrite <- Htake. split.
      + unfold digits_string. destruct (trim ds) eqn:E; [|done].
        symmetry in Htake. rewrite take_S_cells in Htake by lia.
        by destruct (take s (cells cb)).
      + rewrite Htake, length_take, length_cells. lia. }
  rewrite output_loop_spec by lia.
  rewrite Hout. cbn [app].
  destruct (Nat.leb_spec buffer_length ((if sign value then 1 else 0) + S s)%nat) as [Hfull|_];
    [lia|done].
Qed.

(** ** Projection to a negative base *)

Lemma big_integer_is_zero_value v simd :
  big_integer_is_zero v simd = Done (bi_value v =? 0).
Proof.
  rewrite big_integer_is_zero_simd_irrelevant, is_zero_loop_le_val. f_equal.
  unfold bi_value. pose proof (le_val_nonneg (mem v)).
  destruct (sign v), (Z.eqb_spec (le_val (mem v)) 0), (Z.eqb_spec (- le_val (mem v)) 0);
    done || lia.
Qed.

(** One division step of the negative projection: the value is the base
    times the new value plus a digit. *)
Lemma negative_base_step value base temp temp2 simd :
  base < 0 -> 2 <= Z.abs base <= 128 ->
  (bi_length value <= bi_length temp)%nat -> (1 <= bi_length temp2)%nat ->
  bi_value value <> 0 ->
  exists r value' temp' temp2',
    big_integer_division_int9_t value base temp temp2 simd = Done (r, value', temp', temp2') /\
    let rv := if r <? 0 then (r + - base, big_integer_increment value') else (r, value') in
    0 <= rv.1 < Z.abs base /\
    bi_value value = rv.1 + base * bi_value rv.2 /\
    bi_length rv.2 = bi_length value /\
    bi_length temp' = bi_length temp /\ bi_length temp2' = bi_length temp2.
Proof.
  intros Hneg Hb Hlt Hlt2 Hnz.
  destruct (big_integer_division_value value base temp temp2 simd)
    as (q & Q & R & -> & Hlq & Hsq & Hvq & Hr & Hdm & HlQ & HlR); [lia|lia|done| |].
  { assert (256 ^ 1 <= 256 ^ Z.of_nat (bi_length temp2)) by (apply Z.pow_le_mono_r; lia).
    lia. }
  eexists _, q, Q, R. split; [done|].
  pose proof (le_val_nonneg (mem value)) as HV.
  pose proof (le_val_lt_length value) as HVl.
  set (V := le_val (mem value)) in *. set (m := V mod Z.abs base) in *.
  assert (d_lt : (base <? 0) = true) by (apply Z.ltb_lt; lia).
  rewrite d_lt in Hsq.
  unfold bi_value in Hnz |- *. fold V in Hnz |- *.
  destruct (sign value) eqn:Hs; cbn [xorb negb] in Hsq.
  - destruct (Z.ltb_spec (- m) 0) as [Hm|Hm]; cbn [fst snd].
    + destruct (big_integer_increment_nonneg q Hsq) as (Hsi & Hli & Hvi).
      rewrite Hsi, Hvi, Hvq, Hlq.
      assert (V / Z.abs base + 1 < 256 ^ Z.of_nat (bi_length value)) as Hfit.
      { assert (V / Z.abs base < V); [|lia]. apply Z.div_lt; lia. }
      rewrite Z.mod_small by (split; [|done]; pose proof (Z.div_pos V (Z.abs base)); lia).
      repeat split; try lia.
    + rewrite Hsq, Hvq. repeat split; try lia.
  - destruct (Z.ltb_spec m 0) as [Hm|Hm]; [lia|]. cbn [fst snd].
    rewrite Hsq, Hvq. repeat split; try lia.
Qed.

Lemma negative_base_loop_value base alph simd cs :
  base < 0 -> 2 <= Z.abs base <= 128 -> Z.of_nat (length alph) = Z.abs base ->
  digit_list base cs -> trim cs = cs ->
  forall fuel value temp temp2 buffer,
    digits_value base cs = bi_value value ->
    (length cs < fuel)%nat ->
    (bi_length value <= bi_length temp)%nat -> (1 <= bi_length temp2)%nat ->
    negative_base_loop fuel value temp temp2 base alph buffer simd
    = Done (buffer ++ map (char_of alph) cs).
Proof.
  intros Hneg Hb Halph Hcs. 
  induction Hcs as [|d t Hd Ht IH]; intros Htrim fuel value temp temp2 buffer Hv Hfuel Hlt Hlt2.
  - destruct fuel as [|fuel]; [cbn [length] in Hfuel; lia|]. cbn [negative_base_loop].
    rewrite big_integer_is_zero_value, <- Hv. cbn [digits_value mbind outcome_bind obind].
    by rewrite app_nil_r.
  - destruct fuel as [|fuel]; [cbn [length] in Hfuel; lia|]. cbn [negative_base_loop].
    rewrite big_integer_is_zero_value.
    assert (bi_value value <> 0) as Hnz.
    { rewrite <- Hv. apply (trim_fixed_nonzero base); [by constructor|done|done]. }
    destruct (Z.eqb_spec (bi_value value) 0) as [|_]; [done|].
    cbn [mbind outcome_bind obind].
    destruct (negative_base_step value base temp temp2 simd Hneg Hb Hlt Hlt2 Hnz)
      as (r & value' & temp' & temp2' & -> & Hstep).
    cbn [mbind outcome_bind obind].
    assert ((base <? 0) = true) as -> by (apply Z.ltb_lt; lia).
    cbv zeta in Hstep.
    destruct (if r <? 0 then (r + - base, big_integer_increment value') else (r, value'))
      as [r' v'] eqn:Erv.
    cbn [fst snd] in Hstep. destruct Hstep as (Hr' & Hval & Hlv & Hlt' & Hlt2').
    destruct (Z.ltb_spec r' 0) as [|_]; [lia|].
    destruct (Z.leb_spec (Z.of_nat (length alph)) r') as [|_]; [lia|]. cbn [orb].
    rewrite <- Hv in Hval. cbn [digits_value] in Hval.
    destruct (digit_head_unique base d r' _ _ Hd Hr' Hval) as [Hdr HX].
    rewrite (IH (trim_cons_inv d t Htrim) fuel v' temp' temp2') by
      (first [done | cbn [length] in Hfuel; lia | lia]).
    rewrite <- app_assoc. cbn [map app]. by rewrite Hdr.
Qed.

(** The reversal in place reverses the digits between the two indices. *)
Lemma reverse_loop_spec fuel buffer_length (mid : list byte) :
  forall pre post,
    (length mid < fuel)%nat ->
    (length pre + length mid <= buffer_length)%nat ->
    reverse_loop fuel (length pre + length mid - 1) (length pre) buffer_length
      (pre ++ mid ++ post)
    = Done (pre ++ rev mid ++ post).
Proof.
  revert mid. induction fuel as [|fuel IH]; intros mid pre post Hfuel HB; [lia|].
  cbn [reverse_loop].
  destruct mid as [|a m].
  { cbn [length]. destruct (Nat.ltb_spec (length pre) (length pre + 0 - 1)); [lia|done]. }
  destruct m as [|z m _] using rev_ind.
  { cbn [length]. destruct (Nat.ltb_spec (length pre) (length pre + 1 - 1)); [lia|done]. }
  cbn [length] in *. rewrite length_app in *. cbn [length] in *.
  destruct (Nat.ltb_spec (length pre) (length pre + S (length m + 1) - 1)) as [_|]; [|lia].
  destruct (Nat.leb_spec buffer_length (length pre + S (length m + 1) - 1)); [lia|].
  destruct (Nat.leb_spec buffer_length (length pre)); [lia|]. cbn [orb].
  assert (pre ++ (a :: m ++ [z]) ++ post = pre ++ a :: (m ++ z :: post)) as Hshape.
  { cbn [app]. by rewrite <- app_assoc. }
  rewrite Hshape.
  assert (nth (length pre) (pre ++ a :: m ++ z :: post) Byte.x00 = a) as ->.
  { by rewrite app_nth2, Nat.sub_diag by lia. }
  assert (nth (length pre + S (length m + 1) - 1) (pre ++ a :: m ++ z :: post) Byte.x00 = z)
    as ->.
  { rewrite app_nth2 by lia.
    replace (length pre + S (length m + 1) - 1 - length pre)%nat with (S (length m)) by lia.
    cbn [nth]. by rewrite app_nth2, Nat.sub_diag by lia. }
  assert (<[(length pre + S (length m + 1) - 1)%nat := a]>
            (<[length pre := z]> (pre ++ a :: m ++ z :: post))
          = (pre ++ [z]) ++ m ++ (a :: post)) as ->.
  { rewrite insert_app_r_alt, Nat.sub_diag by lia.
    change (<[0%nat := z]> (a :: m ++ z :: post)) with (z :: m ++ z :: post).
    rewrite insert_app_r_alt by lia.
    replace (length pre + S (length m + 1) - 1 - length pre)%nat with (S (length m)) by lia.
    change (<[S (length m) := a]> (z :: m ++ z :: post))
      with (z :: <[length m := a]> (m ++ z :: post)).
    rewrite insert_app_r_alt, Nat.sub_diag by lia.
    change (<[0%nat := a]> (z :: post)) with (a :: post).
    by rewrite <- app_assoc. }
  replace (length pre + S (length m + 1) - 1 - 1)%nat
    with (length (pre ++ [z]) + length m - 1)%nat by (rewrite length_app; cbn [length]; lia).
  replace (length pre + 1)%nat with (length (pre ++ [z]))
    by (rewrite length_app; cbn [length]; lia).
  rewrite IH by (rewrite ?length_app; cbn [length]; lia).
  f_equal. cbn [rev]. rewrite rev_app_distr. cbn [rev app].
  rewrite <- !app_assoc. done.
Qed.

(** The negative projection writes the digits of the value, most
    significant digit first. *)
Lemma convert_to_negative_base_value fuel value base alph buffer_length simd ds :
  base < 0 -> 2 <= Z.abs base <= 128 -> Z.of_nat (length alph) = Z.abs base ->
  digit_list base ds -> digits_value base ds = bi_value value ->
  (length (trim ds) < fuel)%nat -> (length (trim ds) <= buffer_length)%nat ->
  (1 <= bi_length value)%nat ->
  convert_to_negative_base fuel value base alph buffer_length simd
  = Done (digits_string alph (trim ds)).
Proof.
  intros Hneg Hb Halph Hds Hv Hfuel HB Hlen. unfold convert_to_negative_base.
  rewrite big_integer_is_zero_value. cbn [mbind outcome_bind obind].
  destruct (Z.eqb_spec (bi_value value) 0) as [H0|Hnz].
  - assert (trim ds = []) as ->; [|done].
    apply trim_nil_iff, (digits_value_zero base); [done|congruence].
  - rewrite (negative_base_loop_value base alph simd (trim ds)); try done.
    + cbn [mbind outcome_bind obind app]. rewrite length_map.
      pose proof (reverse_loop_spec (S (length (trim ds))) buffer_length
                    (map (char_of alph) (trim ds)) [] []) as Hrev.
      rewrite length_map in Hrev. cbn [length app Nat.add] in Hrev.
      rewrite !app_nil_r in Hrev. rewrite Hrev by lia.
      unfold digits_string. destruct (trim ds) eqn:E; [|done].
      exfalso. apply Hnz. rewrite <- Hv, <- (digits_value_trim base ds), E. done.
    + by apply digit_list_trim.
    + apply trim_idem.
    + by rewrite digits_value_trim.
    + by rewrite bi_length_create.
    + by rewrite bi_length_create.
Qed.

(** The projection writes the digits of the value; a negative value in a
    positive base is preceded by the minus sign. *)
Lemma convert_big_integer_to_any_base_value fuel value base alph buffer_length simd ds :
  2 <= Z.abs base <= 128 -> Z.of_nat (length alph) = Z.abs base ->
  digit_list base ds ->
  digits_value base ds = (if 0 <? base then le_val (mem value) else bi_value value) ->
  (length (trim ds) < fuel)%nat ->
  (if 0 <? base
   then ((if sign value then 1 else 0) + Nat.max 1 (length (trim ds)) < buffer_length)%nat
   else (length (trim ds) <= buffer_length)%nat) ->
  (1 <= bi_length value)%nat ->
  convert_big_integer_to_any_base fuel value base alph buffer_length simd
  = Done ((if sign value && (0 <? base) then [char_minus] else [])
          ++ digits_string alph (trim ds)).
Proof.
  intros Hb Halph Hds Hv Hfuel HB Hlen. unfold convert_big_integer_to_any_base.
  destruct (Z.ltb_spec 0 base) as [Hpos|Hneg].
  - rewrite andb_true_r in *.
    apply convert_to_positive_base_value; try done. lia.
  - rewrite andb_false_r in *. cbn [app].
    apply convert_to_negative_base_value; try done; lia.
Qed.

(** ** The lookup table of an alphabet *)

Lemma get_char_value_insert (lut : list byte) (p c : byte) (v : byte) :
  length lut = 256%nat ->
  get_char_value c (<[Z.to_nat (byte.unsigned p) := v]> lut)
  = if byte_eqb p c then v else get_char_value c lut.
Proof.
  intros Hlen. unfold get_char_value.
  pose proof (byte_range p) as Hp. pose proof (byte_range c) as Hc.
  destruct (byte_eqb p c) eqn:E.
  - apply byte_eqb_eq in E as ->.
    rewrite nth_lookup, list_lookup_insert_eq by lia. done.
  - rewrite !nth_lookup, list_lookup_insert_ne; [done|].
    intros Heq. apply Z2Nat.inj in Heq; [|lia|lia].
    apply byte.unsigned_inj in Heq. subst. by rewrite byte_eqb_refl in E.
Qed.

Lemma generate_lut_loop_length n i lut alph :
  length (generate_lut_loop n i lut alph) = length lut.
Proof.
  revert i lut. induction n as [|n IH]; intros i lut; [done|].
  cbn [generate_lut_loop]. by rewrite IH, length_insert.
Qed.

Lemma generate_lut_loop_other n i lut alph c :
  length lut = 256%nat ->
  (forall k, (i <= k < i + n)%nat -> char_at alph k <> c) ->
  get_char_value c (generate_lut_loop n i lut alph) = get_char_value c lut.
Proof.
  revert i lut. induction n as [|n IH]; intros i lut Hlen Hne; [done|].
  cbn [generate_lut_loop]. rewrite IH.
  - rewrite get_char_value_insert by done.
    destruct (byte_eqb (char_at alph i) c) eqn:E; [|done].
    apply byte_eqb_eq in E. exfalso. apply (Hne i); [lia|done].
  - by rewrite length_insert.
  - intros k Hk. apply Hne. lia.
Qed.

Lemma lookup_char_at (alph : cstring) k :
  (k < length alph)%nat -> alph !! k = Some (char_at alph k).
Proof.
  intros H. destruct (lookup_lt_is_Some_2 alph k H) as [x Hx].
  unfold char_at. by rewrite (nth_lookup_Some _ _ _ _ Hx).
Qed.

Lemma generate_lut_loop_hit n i lut alph k :
  length lut = 256%nat -> NoDup alph -> (i + n <= length alph)%nat ->
  (i <= k < i + n)%nat ->
  get_char_value (char_at alph k) (generate_lut_loop n i lut alph) = byte.of_Z (Z.of_nat k).
Proof.
  revert i lut. induction n as [|n IH]; intros i lut Hlen Hnd Hn Hk; [lia|].
  cbn [generate_lut_loop].
  destruct (Nat.eq_dec k i) as [->|Hki].
  - rewrite generate_lut_loop_other.
    + by rewrite get_char_value_insert, byte_eqb_refl.
    + by rewrite length_insert.
    + intros k Hk' Heq.
      pose proof (proj1 (NoDup_alt alph) Hnd k i (char_at alph i)) as Hinj.
      rewrite <- Heq in Hinj at 1. rewrite !lookup_char_at in Hinj by lia.
      specialize (Hinj eq_refl eq_refl). lia.
  - apply IH; [by rewrite length_insert|done|lia|lia].
Qed.

Lemma generate_lut_loop_bound n i lut alph M c :
  length lut = 256%nat -> (i + n <= M)%nat -> (M <= 256)%nat ->
  (forall c, byte.unsigned (get_char_value c lut) < Z.of_nat M) ->
  byte.unsigned (get_char_value c (generate_lut_loop n i lut alph)) < Z.of_nat M.
Proof.
  revert i lut. induction n as [|n IH]; intros i lut Hlen Hn HM Hlut; [apply Hlut|].
  cbn [generate_lut_loop]. apply IH; [by rewrite length_insert|lia|lia|].
  intros c'. rewrite get_char_value_insert by done.
  destruct (byte_eqb (char_at alph i) c'); [|apply Hlut].
  rewrite unsigned_of_Z_small; lia.
Qed.

Lemma get_char_value_zeros c : get_char_value c (replicate 256 Byte.x00) = Byte.x00.
Proof.
  unfold get_char_value. pose proof (byte_range c).
  rewrite nth_lookup, lookup_replicate_2; [done|lia].
Qed.

Lemma digit_of_outside (alph : cstring) c : ~ In c alph -> digit_of alph c = 0.
Proof.
  intros Hc. unfold digit_of, lookup_of, generate_lut.
  rewrite generate_lut_loop_other; [by rewrite get_char_value_zeros|by rewrite length_replicate|].
  intros k Hk Heq. apply Hc. rewrite <- Heq. apply nth_In. lia.
Qed.

Section Alphabet.
Variables (base : Z) (alph : cstring).
Hypothesis Hbase : 2 <= Z.abs base <= 128.
Hypothesis Hlen : Z.of_nat (length alph) = Z.abs base.
Hypothesis Hnodup : NoDup alph.

Lemma digit_of_range c : 0 <= digit_of alph c < Z.abs base.
Proof.
  unfold digit_of, lookup_of, generate_lut. split; [apply byte_range|].
  rewrite <- Hlen. apply generate_lut_loop_bound; [by rewrite length_replicate|lia|lia|].
  intros c'. rewrite get_char_value_zeros. change (byte.unsigned Byte.x00) with 0. lia.
Qed.

Lemma digit_of_char_at k : (k < length alph)%nat -> digit_of alph (char_at alph k) = Z.of_nat k.
Proof.
  intros Hk. unfold digit_of, lookup_of, generate_lut.
  rewrite generate_lut_loop_hit; [|by rewrite length_replicate|done|lia|lia].
  apply unsigned_of_Z_small. lia.
Qed.

Lemma char_of_digit_of c : In c alph -> char_of alph (digit_of alph c) = c.
Proof.
  intros Hc. apply In_nth with (d := Byte.x00) in Hc as (k & Hk & <-).
  fold (char_at alph k). rewrite digit_of_char_at by done.
  unfold char_of. by rewrite Nat2Z.id.
Qed.

Lemma digit_of_zero_iff c : In c alph -> digit_of alph c = 0 <-> c = char_at alph 0.
Proof.
  intros Hc. split.
  - intros H0. rewrite <- (char_of_digit_of c Hc), H0. done.
  - intros ->. rewrite digit_of_char_at; lia.
Qed.

Lemma digit_list_digits_of z : digit_list base (digits_of alph z).
Proof.
  unfold digit_list, digits_of. rewrite rev_reverse. apply Forall_reverse, Forall_fmap.
  apply Forall_true. intros c. apply digit_of_range.
Qed.

Lemma digits_of_cons c z : digits_of alph (c :: z) = digits_of alph z ++ [digit_of alph c].
Proof. done. Qed.

(** Stripping the leading zeros gives the string of the trimmed digits. *)
Lemma strip_zeroes_digits s :
  s <> [] -> Forall (fun c => In c alph) s ->
  strip_zeroes (char_at alph 0) s = digits_string alph (trim (digits_of alph s)).
Proof.
  intros Hne Hs. induction Hs as [|c t Hc Ht IH]; [done|].
  rewrite digits_of_cons, trim_snoc.
  assert (rev (map (char_of alph) (digits_of alph t)) = t) as Hrev.
  { unfold digits_of. rewrite map_rev, rev_involutive, map_map.
    rewrite <- (map_id t) at 2. apply map_ext_in. intros x Hx.
    apply char_of_digit_of. rewrite Forall_forall in Ht. by apply Ht. }
  destruct t as [|c' t'].
  - cbn [strip_zeroes digits_of map rev trim app].
    destruct (Z.eqb_spec (digit_of alph c) 0) as [H0|H0].
    + apply digit_of_zero_iff in H0; [|done]. by rewrite H0.
    + cbn [digits_string map rev app]. by rewrite char_of_digit_of.
  - cbn [strip_zeroes].
    destruct (Z.eqb_spec (digit_of alph c) 0) as [H0|H0].
    + apply digit_of_zero_iff in H0; [|done]. rewrite H0, byte_eqb_refl. by apply IH.
    + destruct (byte_eqb c (char_at alph 0)) eqn:E.
      { apply byte_eqb_eq in E. by apply digit_of_zero_iff in E. }
      unfold digits_string.
      destruct (digits_of alph (c' :: t') ++ [digit_of alph c]) eqn:E2.
      { by apply app_eq_nil in E2 as [_ ?]. }
      rewrite <- E2, map_app, rev_app_distr, Hrev. cbn [map rev app].
      by rewrite char_of_digit_of.
Qed.
End Alphabet.

(** ** Parsing and projecting back *)

Lemma min_size_fits base (n m : nat) :
  2 <= Z.abs base <= 128 -> (get_big_integer_min_size base n <= m)%nat ->
  (1 <= m)%nat /\ Z.abs base ^ Z.of_nat n <= 256 ^ Z.of_nat m.
Proof.
  intros Hb Hm. unfold get_big_integer_min_size in Hm.
  destruct (min_size_exponentiation_spec base n ltac:(lia)) as [H1 H2].
  split; [lia|].
  assert (256 ^ Z.of_nat (get_big_integer_min_size_exponentiation base (Z.of_nat n))
          <= 256 ^ Z.of_nat m) by (apply Z.pow_le_mono_r; lia). lia.
Qed.

Section Roundtrip.
Variables (base : Z) (alph : cstring).
Hypothesis Hbase : 2 <= Z.abs base <= 128.
Hypothesis Halph : valid_alphabet base alph.

Lemma has_minus_shape z :
  has_minus base z = true -> 0 < base /\ z = char_minus :: digit_chars base z.
Proof.
  unfold digit_chars. intros H. rewrite H. unfold has_minus in H.
  apply andb_prop in H as [Hpos Hc]. apply Z.ltb_lt in Hpos. apply byte_eqb_eq in Hc.
  split; [lia|]. destruct z as [|c t]; [done|]. cbn in Hc. by rewrite Hc.
Qed.

Lemma has_minus_false_negative z : base < 0 -> has_minus base z = false.
Proof. intros Hneg. unfold has_minus. by destruct (Z.ltb_spec 1 base); [lia|]. Qed.

Lemma trim_digits_of_digit_chars z :
  trim (digits_of alph z) = trim (digits_of alph (digit_chars base z)).
Proof.
  destruct Halph as (Hlen & Hnd & Hminus).
  destruct (has_minus base z) eqn:E.
  - destruct (has_minus_shape z E) as [Hpos Hz]. rewrite Hz at 1.
    rewrite digits_of_cons, trim_snoc.
    rewrite (digit_of_outside alph) by auto. done.
  - unfold digit_chars. by rewrite E.
Qed.

Lemma length_digit_chars z :
  length z = ((if has_minus base z then 1 else 0) + length (digit_chars base z))%nat.
Proof.
  destruct (has_minus base z) eqn:E; [|unfold digit_chars; by rewrite E].
  destruct (has_minus_shape z E) as [_ Hz]. rewrite Hz at 1. done.
Qed.

Lemma is_zero_string_digits cs :
  digit_list base cs -> trim cs = cs ->
  is_zero_string (char_at alph 0) (digits_string alph cs)
  = match cs with [] => true | _ => false end.
Proof.
  destruct Halph as (Hlen & Hnd & _).
  intros Hcs Htrim. destruct cs as [|d t]; [apply byte_eqb_refl|].
  unfold digits_string.
  destruct t as [|d' t'].
  - cbn [map rev app is_zero_string].
    destruct (byte_eqb (char_of alph d) (char_at alph 0)) eqn:E; [|done].
    apply byte_eqb_eq in E. exfalso.
    inversion Hcs as [|? ? Hd _]; subst.
    pose proof (proj1 (NoDup_alt alph) Hnd (Z.to_nat d) 0%nat (char_at alph 0)) as Hinj.
    unfold char_of in E. rewrite <- E in Hinj at 1.
    rewrite !lookup_char_at in Hinj by lia. specialize (Hinj eq_refl eq_refl).
    assert (d = 0) as -> by lia. done.
  - cbn [map rev]. 
    destruct (rev (map (char_of alph) t')) as [|x xs] eqn:E; cbn [app is_zero_string]; [done|].
    by destruct xs.
Qed.

(** Projecting the parsed value of a string, the sign of a zero cleared,
    gives the canonical form of the string. *)
Lemma project_parsed z b fuel buffer_length simd :
  valid_number base alph z ->
  bi_value b = number_value base alph z -> (0 < base -> sign b = false) ->
  (1 <= bi_length b)%nat ->
  (length z < fuel)%nat -> (length z < buffer_length)%nat ->
  let s := if has_minus base z then set_sign b true else b in
  exists zero,
    big_integer_is_zero s simd = Done zero /\
    convert_big_integer_to_any_base fuel (if zero then set_sign s false else s)
      base alph buffer_length simd
    = Done (canonicalize base alph z).
Proof.
  intros [Hne Hchars] Hv Hsign Hlen Hfuel HB s.
  destruct Halph as (Hal & Hnd & Hminus).
  exists (bi_value s =? 0). split; [apply big_integer_is_zero_value|].
  set (ds := digits_of alph z).
  set (cs := trim (digits_of alph (digit_chars base z))).
  assert (trim ds = cs) as Htrim by apply trim_digits_of_digit_chars.
  assert (digit_list base ds) as Hds by (by apply digit_list_digits_of).
  assert (digit_list base cs /\ trim cs = cs) as [Hcs Hcs'].
  { split; [rewrite <- Htrim; by apply digit_list_trim | apply trim_idem]. }
  pose proof (length_trim (digits_of alph (digit_chars base z))) as Hlcs.
  rewrite length_digits_of in Hlcs. fold cs in Hlcs.
  pose proof (length_digit_chars z) as Hlz.
  assert (length (digit_chars base z) <> 0%nat) as Hne' by (by destruct (digit_chars base z)).
  assert (le_val (mem b) = 0 <-> cs = []) as Hzero.
  { rewrite <- bi_value_abs, Hv. unfold number_value. fold ds. rewrite <- Htrim. split.
    - intros H0. apply trim_nil_iff, (digits_value_zero base); [done|lia].
    - intros H0. rewrite <- (digits_value_trim base ds), H0. done. }
  assert ((bi_value s =? 0) = match cs with [] => true | _ => false end) as Hz.
  { assert (Z.abs (bi_value s) = le_val (mem b)) as Habs
      by (rewrite bi_value_abs; subst s; by destruct (has_minus base z)).
    destruct (Z.eqb_spec (bi_value s) 0) as [H0|H0].
    - rewrite H0 in Habs. symmetry in Habs. apply Hzero in Habs. by rewrite Habs.
    - destruct cs; [|done]. exfalso. apply H0.
      assert (le_val (mem b) = 0) by (by apply Hzero). lia. }
  unfold canonicalize. rewrite strip_zeroes_digits with (base := base) by done.
  fold cs. rewrite is_zero_string_digits by done.
  rewrite Hz.
  set (v := if match cs with [] => true | _ => false end then set_sign s false else s).
  assert (mem v = mem b /\ bi_length v = bi_length b) as [Hmv Hlv].
  { subst v s. by destruct cs, (has_minus base z). }
  assert (sign v && (0 <? base)
          = has_minus base z && negb match cs with [] => true | _ => false end) as Hsv.
  { subst v s. destruct (has_minus base z) eqn:E.
    - destruct (has_minus_shape z E) as [Hpos _].
      assert ((0 <? base) = true) as -> by (by apply Z.ltb_lt). by destruct cs.
    - destruct (Z.ltb_spec 0 base) as [Hpos|Hneg]; [|by rewrite andb_false_r].
      rewrite andb_true_r. cbn [andb]. destruct cs; cbn [sign set_sign]; by auto. }
  rewrite (convert_big_integer_to_any_base_value fuel v base alph buffer_length simd ds);
    try done.
  - rewrite Hsv, Htrim.
    generalize (has_minus base z && negb match cs with [] => true | _ => false end).
    by intros [|].
  - destruct (Z.ltb_spec 0 base) as [Hpos|Hneg].
    + rewrite Hmv, <- (bi_value_nonneg b) by auto. done.
    + assert (bi_value v = bi_value b) as ->; [|done].
      subst v s. rewrite has_minus_false_negative by lia.
      destruct cs eqn:E; [|done]. unfold bi_value. cbn [sign set_sign mem].
      assert (le_val (mem b) = 0) as -> by (by apply Hzero). by destruct (sign b).
  - rewrite Htrim. lia.
  - rewrite Htrim. destruct (Z.ltb_spec 0 base) as [Hpos|Hneg]; [|lia].
    rewrite andb_true_r in Hsv. rewrite Hsv.
    destruct (has_minus base z), cs; cbn [andb negb length] in *; lia.
  - by rewrite Hlv.
Qed.
End Roundtrip.




(** ** Values of the signed subtraction and of the multiplication *)

Lemma subtraction_nonneg_value fuel a b simd :
  sign a = false -> sign b = false ->
  Z.abs (le_val (mem a) - le_val (mem b)) < 256 ^ Z.of_nat (bi_length a) ->
  exists a', subtraction_fuel (S (S fuel)) a b simd = Done (a', b) /\
    bi_length a' = bi_length a /\
    bi_value a' = le_val (mem a) - le_val (mem b).
Proof.
  intros Ha Hb Hfit. rewrite subtraction_fuel_nonneg by done.
  pose proof (le_val_nonneg (mem a)) as HA. pose proof (le_val_nonneg (mem b)) as HB.
  pose proof (le_val_lt_length a) as HAl. pose proof (le_val_lt_length b) as HBl.
  destruct (Z.ltb_spec (le_val (mem a)) (le_val (mem b))) as [Hlt|Hge].
  - eexists. split; [done|]. split; [by rewrite bi_length_copy_big_integer|].
    unfold bi_value. rewrite sign_copy_big_integer. cbn [negate_big_integer set_sign sign].
    rewrite sign_subtraction_sisd, Hb. cbn [negb].
    rewrite le_val_copy_big_integer. cbn [negate_big_integer mem set_sign].
    rewrite le_val_subtraction_sisd.
    rewrite (Z.mod_small (_ - _)) by lia. rewrite Z.mod_small by lia. lia.
  - eexists. split; [done|]. split; [by rewrite bi_length_subtraction_sisd|].
    unfold bi_value. rewrite sign_subtraction_sisd, Ha, le_val_subtraction_sisd.
    rewrite Z.mod_small by lia. done.
Qed.

Lemma clone_big_integer_add_size_pad b (la : nat) :
  (bi_length b <= la)%nat -> Z.of_nat la < 2 ^ 64 ->
  clone_big_integer_add_size b
    (size_max 0 (uint64 (Z.of_nat la - Z.of_nat (bi_length b))))
  = {| sign := sign b; mem := mem b ++ replicate (la - bi_length b) Byte.x00 |}.
Proof.
  intros Hle Hla. unfold clone_big_integer_add_size, uint64, size_max.
  change (2 ^ 64) with 18446744073709551616 in *.
  rewrite (Z.mod_small (Z.of_nat la - _)) by lia.
  destruct (Z.ltb_spec (Z.of_nat la - Z.of_nat (bi_length b)) 0) as [|_]; [lia|].
  replace (Z.of_nat (bi_length b) + (Z.of_nat la - Z.of_nat (bi_length b)))
    with (Z.of_nat la) by lia.
  rewrite Z.mod_small, Nat2Z.id by lia. f_equal.
  apply take_ge. rewrite length_app, length_replicate. unfold bi_length in *. lia.
Qed.

(** The signed subtraction subtracts the values when the difference fits
    the first operand; for two negative operands the second must not be
    longer than the first. *)
Lemma big_integer_subtraction_value a b simd :
  Z.abs (bi_value a - bi_value b) < 256 ^ Z.of_nat (bi_length a) ->
  (sign a = true -> sign b = true ->
   (bi_length b <= bi_length a)%nat /\ Z.of_nat (bi_length a) < 2 ^ 64) ->
  exists a', big_integer_subtraction a b simd = Done (a', b) /\
    bi_length a' = bi_length a /\
    bi_value a' = bi_value a - bi_value b.
Proof.
  intros Hfit Hneg. unfold big_integer_subtraction, call_depth.
  pose proof (le_val_nonneg (mem a)) as HA. pose proof (le_val_nonneg (mem b)) as HB.
  pose proof (le_val_lt_length a) as HAl.
  set (P := 256 ^ Z.of_nat (bi_length a)) in *.
  destruct (sign a) eqn:Ha, (sign b) eqn:Hb; unfold bi_value in Hfit |- *;
    rewrite ?Ha, ?Hb in Hfit |- *; [rewrite subtraction_fuel_S, ?Ha, ?Hb; cbn [andb negb]..|].
  - destruct (Hneg eq_refl eq_refl) as [Hle Hla]. cbv zeta.
    change (bi_length (set_sign a false)) with (bi_length a).
    rewrite clone_big_integer_add_size_pad by done.
    set (bc := set_sign _ false).
    assert (le_val (mem bc) = le_val (mem b)) as Hbc.
    { subst bc. cbn [mem set_sign]. rewrite le_val_app, le_val_replicate_zero. lia. }
    assert (bi_length bc = bi_length a) as Hlbc.
    { subst bc. unfold bi_length. cbn [mem set_sign].
      rewrite length_app, length_replicate. unfold bi_length in Hle. lia. }
    destruct (subtraction_nonneg_value 1 bc (set_sign a false) simd) as (r & -> & Hlr & Hvr);
      [done|done| |].
    { rewrite Hbc, Hlbc. cbn [mem set_sign]. fold P. lia. }
    cbn [mbind outcome_bind obind]. eexists. split; [done|].
    split; [by rewrite bi_length_copy_big_integer|].
    rewrite sign_copy_big_integer, le_val_copy_big_integer.
    change (bi_length (set_sign a false)) with (bi_length a). fold P.
    rewrite Hbc in Hvr. cbn [mem set_sign] in Hvr.
    pose proof (le_val_nonneg (mem r)). unfold bi_value in Hvr.
    rewrite Z.mod_small by (destruct (sign r); lia).
    destruct (sign r); lia.
  - rewrite addition_fuel_same_sign by done. cbn [mbind outcome_bind obind].
    eexists. split; [done|]. split; [by rewrite bi_length_negate, bi_length_addition_sisd|].
    cbn [negate_big_integer sign set_sign mem].
    rewrite sign_addition_sisd, le_val_addition_sisd. cbn [sign set_sign negb mem].
    change (bi_length (set_sign a false)) with (bi_length a). fold P.
    rewrite Z.mod_small by lia. lia.
  - rewrite addition_fuel_same_sign by done. cbn [mbind outcome_bind obind].
    rewrite set_sign_set_sign, (set_sign_idem b true Hb).
    eexists. split; [done|]. split; [by rewrite bi_length_addition_sisd|].
    rewrite sign_addition_sisd, Ha, le_val_addition_sisd. cbn [mem set_sign]. fold P.
    rewrite Z.mod_small by lia. lia.
  - destruct (subtraction_nonneg_value 2 a b simd) as (r & -> & Hlr & Hvr); [done|done|done|].
    exists r. unfold bi_value in Hvr. done.
Qed.

(** *** The shift by whole bytes *)

Lemma mem_shl_byte_wise_move n v count :
  (n + count <= bi_length v)%nat ->
  mem (shl_byte_wise_move n v count)
  = take count (mem v) ++ take n (mem v) ++ drop (n + count) (mem v).
Proof.
  revert v. induction n as [|i IH]; intros v Hn.
  - cbn [shl_byte_wise_move]. rewrite take_0. cbn [app]. by rewrite take_drop.
  - cbn [shl_byte_wise_move]. rewrite IH by (rewrite bi_length_set_byte; lia).
    rewrite mem_set_byte. unfold bi_length in Hn.
    rewrite !take_insert_ge by lia.
    rewrite insert_take_drop_get, drop_app_ge by (rewrite ?length_take; lia).
    rewrite length_take, Nat.min_l, Nat.sub_diag, drop_0 by lia.
    f_equal. rewrite (take_S_r (mem v) i (get_byte_value_of_big_integer v i)).
    + rewrite <- app_assoc. cbn [app]. by replace (S (i + count)) with (S i + count)%nat by lia.
    + unfold get_byte_value_of_big_integer.
      destruct (lookup_lt_is_Some_2 (mem v) i ltac:(lia)) as [x Hx].
      by rewrite (nth_lookup_Some _ _ _ _ Hx).
Qed.

Lemma bi_length_shl_byte_wise_move n v count :
  bi_length (shl_byte_wise_move n v count) = bi_length v.
Proof.
  revert v. induction n as [|i IH]; intros v; [done|].
  cbn [shl_byte_wise_move]. by rewrite IH, bi_length_set_byte.
Qed.

Lemma sign_shl_byte_wise_move n v count : sign (shl_byte_wise_move n v count) = sign v.
Proof. revert v. induction n as [|i IH]; intros v; [done|]. cbn. by rewrite IH. Qed.

Lemma bi_length_set_zero_loop n i v : bi_length (set_zero_loop n i v) = bi_length v.
Proof.
  revert i v. induction n as [|n IH]; intros i v; [done|].
  cbn [set_zero_loop]. by rewrite IH, bi_length_set_byte.
Qed.

Lemma big_integer_shl_byte_wise_value v count :
  le_val (mem v) * 256 ^ Z.of_nat count < 256 ^ Z.of_nat (bi_length v) ->
  (count <= bi_length v)%nat ->
  bi_length (big_integer_shl_byte_wise v count) = bi_length v /\
  sign (big_integer_shl_byte_wise v count) = sign v /\
  le_val (mem (big_integer_shl_byte_wise v count)) = le_val (mem v) * 256 ^ Z.of_nat count.
Proof.
  intros Hfit Hc. unfold big_integer_shl_byte_wise.
  split; [by rewrite bi_length_set_zero_loop, bi_length_shl_byte_wise_move|].
  split; [by rewrite sign_set_zero_loop, sign_shl_byte_wise_move|].
  rewrite mem_set_zero_loop by (rewrite bi_length_shl_byte_wise_move; lia).
  rewrite mem_shl_byte_wise_move by lia. rewrite take_0. cbn [app Nat.add].
  rewrite drop_app_length'
    by (rewrite length_take; unfold bi_length in Hc; lia).
  replace (bi_length v - count + count)%nat with (bi_length v) by lia.
  rewrite (drop_ge (mem v)) by done. rewrite app_nil_r.
  rewrite le_val_app, le_val_replicate_zero, length_replicate, le_val_take.
  pose proof (le_val_nonneg (mem v)) as HV.
  assert (0 < 256 ^ Z.of_nat count) as Hp by (apply Z.pow_pos_nonneg; lia).
  replace (Z.of_nat (bi_length v)) with (Z.of_nat (bi_length v - count) + Z.of_nat count)
    in Hfit by lia.
  rewrite Z.pow_add_r in Hfit by lia.
  rewrite Z.mod_small by nia. lia.
Qed.

(** *** Multiplication *)

Lemma le_val_byte_split (l : list byte) (i : nat) :
  le_val l mod 256 ^ Z.of_nat (S i)
  = le_val l mod 256 ^ Z.of_nat i + 256 ^ Z.of_nat i * byte.unsigned (nth i l Byte.x00).
Proof.
  rewrite le_val_nth, Nat2Z.inj_succ, Z.pow_succ_r, (Z.mul_comm 256) by lia.
  apply Z.rem_mul_r; [apply Z.pow_nonzero; lia | lia].
Qed.

Lemma multiplication_loop_value n i a b res pp temp simd :
  (i + n = bi_length b)%nat -> bi_length pp = bi_length res ->
  bi_length temp = S (bi_length a) ->
  (bi_length a + bi_length b <= bi_length res)%nat ->
  bi_value res = bi_value a * (le_val (mem b) mod 256 ^ Z.of_nat i) ->
  exists res' pp' temp',
    multiplication_loop n i a b res pp temp simd = Done (res', pp', temp') /\
    bi_length res' = bi_length res /\
    bi_value res' = bi_value a * le_val (mem b).
Proof.
  revert i res pp temp. induction n as [|n IH]; intros i res pp temp Hn Hlpp Hlt Hlen Hv.
  - exists res, pp, temp. split; [done|]. split; [done|].
    rewrite Hv. f_equal. apply Z.mod_small. replace i with (bi_length b) by lia.
    split; [apply le_val_nonneg | apply le_val_lt_length].
  - cbn [multiplication_loop].
    pose proof (le_val_byte_split (mem b) i) as Hsplit.
    fold (get_byte_value_of_big_integer b i) in Hsplit.
    pose proof (byte_range (get_byte_value_of_big_integer b i)) as Hbi.
    rewrite byte_eqb_zero.
    destruct (Z.eqb_spec (byte.unsigned (get_byte_value_of_big_integer b i)) 0) as [H0|H0].
    + apply IH; first [done | lia | (rewrite Hsplit, H0, Z.mul_0_r, Z.add_0_r; done)].
    + set (bi := get_byte_value_of_big_integer b i) in *.
      pose proof (le_val_lt_length a) as HA. pose proof (le_val_nonneg (mem a)) as HA0.
      assert (0 < 256 ^ Z.of_nat i) as Hpi by (apply Z.pow_pos_nonneg; lia).
      assert (256 ^ Z.of_nat (S (bi_length a)) * 256 ^ Z.of_nat i
              <= 256 ^ Z.of_nat (bi_length res)) as Hcap.
      { rewrite <- Z.pow_add_r by lia. apply Z.pow_le_mono_r; lia. }
      assert (256 ^ Z.of_nat (S (bi_length a)) <= 256 ^ Z.of_nat (bi_length res)) as Hcap0
        by (apply Z.pow_le_mono_r; lia).
      rewrite Nat2Z.inj_succ, Z.pow_succ_r in Hcap, Hcap0 by lia.
      destruct (big_integer_multiply_uint8_value a bi pp temp simd)
        as (pp1 & temp1 & -> & Hlpp1 & Hlt1 & Hvpp1 & _).
      { rewrite bi_value_abs, Hlpp. nia. }
      { rewrite bi_value_abs, Hlt, Nat2Z.inj_succ, Z.pow_succ_r by lia. nia. }
      { rewrite Hlt, Nat2Z.inj_succ, Z.pow_succ_r by lia. lia. }
      cbn [mbind outcome_bind obind].
      destruct (big_integer_shl_byte_wise_value pp1 i) as (Hl2 & Hs2 & Hv2).
      { rewrite <- bi_value_abs, Hvpp1, Z.abs_mul, bi_value_abs, Hlpp1, Hlpp.
        rewrite (Z.abs_eq (byte.unsigned bi)) by lia.
        assert (le_val (mem a) * byte.unsigned bi < 256 * 256 ^ Z.of_nat (bi_length a))
          as Hab by nia.
        apply Z.lt_le_trans with (256 * 256 ^ Z.of_nat (bi_length a) * 256 ^ Z.of_nat i);
          [|done].
        by apply Z.mul_lt_mono_pos_r. }
      { lia. }
      set (pp2 := big_integer_shl_byte_wise pp1 i) in *.
      assert (bi_value pp2 = bi_value a * (256 ^ Z.of_nat i * byte.unsigned bi)) as Hvpp2.
      { unfold bi_value at 1. rewrite Hs2, Hv2.
        assert (le_val (mem pp1) = le_val (mem a) * byte.unsigned bi) as Hm.
        { rewrite <- !bi_value_abs, Hvpp1, Z.abs_mul. rewrite (Z.abs_eq (byte.unsigned bi)); lia. }
        assert (bi_value pp1 = (if sign pp1 then - le_val (mem pp1) else le_val (mem pp1)))
          as Hd by done.
        rewrite Hvpp1 in Hd. destruct (sign pp1); nia. }
      pose proof (Z.mod_pos_bound (le_val (mem b)) (256 ^ Z.of_nat (S i))
                    ltac:(apply Z.pow_pos_nonneg; lia)) as Hmod.
      destruct (big_integer_addition_value res pp2 simd) as (res1 & -> & Hlr1 & Hvr1 & _).
      { rewrite Hv, Hvpp2, <- Z.mul_add_distr_l, <- Hsplit, Z.abs_mul, bi_value_abs.
        rewrite (Z.abs_eq (_ mod _)) by lia.
        rewrite Nat2Z.inj_succ, Z.pow_succ_r in Hmod by lia.
        rewrite Nat2Z.inj_succ, Z.pow_succ_r by lia.
        apply Z.lt_le_trans
          with (256 ^ Z.of_nat (bi_length a) * (256 * 256 ^ Z.of_nat i)); [|lia].
        apply Z.mul_lt_mono_nonneg; lia. }
      cbn [mbind outcome_bind obind].
      rewrite <- Hlr1.
      apply (IH (S i) res1 pp2 temp1);
        first [lia | (rewrite Hl2; lia)
              | (rewrite Hvr1, Hv, Hvpp2, <- Z.mul_add_distr_l, <- Hsplit; done)].
Qed.

(** The multiplication stores the product of the magnitudes, with the sign
    of the product. *)
Lemma big_integer_multiplication_value a b res simd :
  bi_value res = 0 -> (bi_length a + bi_length b <= bi_length res)%nat ->
  exists res',
    big_integer_multiplication a b res simd = Done res' /\
    bi_length res' = bi_length res /\
    le_val (mem res') = le_val (mem a) * le_val (mem b) /\
    sign res' = xorb (sign a) (sign b).
Proof.
  intros Hres Hlen. unfold big_integer_multiplication. cbv zeta.
  destruct (multiplication_loop_value (bi_length b) 0 a b res
              (create_big_integer (bi_length res) false)
              (create_big_integer (bi_length a + 1) false) simd)
    as (res' & pp' & temp' & -> & Hl & Hv); rewrite ?bi_length_create; try done; try lia.
  { change (256 ^ Z.of_nat 0) with 1. rewrite Z.mod_1_r. lia. }
  cbn [mbind outcome_bind obind]. eexists. split; [done|].
  split; [by rewrite bi_length_set_sign|]. split.
  - cbn [mem set_sign]. rewrite <- (bi_value_abs res'), Hv, Z.abs_mul, bi_value_abs.
    rewrite Z.abs_eq by apply le_val_nonneg. done.
  - cbn [sign set_sign]. by destruct (sign a), (sign b).
Qed.

(** ** The digit-wise core *)

Lemma digits_value_drop base (l : list Z) k :
  digits_value base (drop k l) = nth k l 0 + base * digits_value base (drop (S k) l).
Proof.
  revert k. induction l as [|d t IH]; intros k.
  - rewrite !drop_nil. destruct k; cbn [nth digits_value]; lia.
  - destruct k as [|k]; [done|]. cbn [drop nth]. apply IH.
Qed.

Lemma digit_list_nth base (l : list Z) k :
  1 <= Z.abs base -> digit_list base l -> 0 <= nth k l 0 < Z.abs base.
Proof.
  intros Hb Hl. destruct (nth_in_or_default k l 0) as [Hin | ->]; [|lia].
  by apply (proj1 (List.Forall_forall _ _) Hl).
Qed.

Lemma steps_left_pred m c c' : m <> 0%nat -> (steps_left (m - 1) c' < steps_left m c)%nat.
Proof.
  intros Hm. destruct m as [|m]; [done|]. replace (S m - 1)%nat with m by lia.
  cbn [steps_left]. destruct m as [|m]; cbn [steps_left]; [|lia].
  destruct (c' =? 0); [lia|]. destruct (0 <? c'); lia.
Qed.

Lemma steps_left_zero c c' :
  c <> 0 -> (0 < c -> c' = 0) -> (c < 0 -> 0 <= c') ->
  (steps_left 0 c' < steps_left 0 c)%nat.
Proof.
  intros Hc0 H1 H2. cbn [steps_left].
  destruct (Z.eqb_spec c 0); [done|]. destruct (Z.ltb_spec 0 c) as [E|E].
  - rewrite (H1 E). cbn. lia.
  - specialize (H2 ltac:(lia)). destruct (Z.eqb_spec c' 0); [lia|].
    destruct (Z.ltb_spec 0 c'); lia.
Qed.

Section NaiveCore.
Variables (base : Z) (alph : cstring) (lut0 : list byte).
Hypothesis Hbase : 2 <= Z.abs base <= 128.
Hypothesis Hlen : Z.of_nat (length alph) = Z.abs base.
Hypothesis Hnodup : NoDup alph.
Hypothesis Hlut0 : length lut0 = 256%nat.

Let lut := generate_lut lut0 (Z.to_nat (Z.abs base)) alph.

Lemma naive_lut_digit c :
  In c alph -> byte.unsigned (get_char_value c lut) = digit_of alph c.
Proof.
  intros Hc. apply In_nth with (d := Byte.x00) in Hc as (k & Hk & <-).
  fold (char_at alph k). rewrite (digit_of_char_at base alph) by done.
  subst lut. unfold generate_lut. replace (Z.to_nat (Z.abs base)) with (length alph) by lia.
  rewrite generate_lut_loop_hit by (done || lia). apply unsigned_of_Z_small. lia.
Qed.

Lemma zero_char_in_alph : In (char_at alph 0) alph.
Proof using Hbase Hlen Hnodup. clear Hlut0. apply nth_In. lia. Qed.

Lemma digit_of_zero_char : digit_of alph (char_at alph 0) = 0.
Proof using Hbase Hlen Hnodup. clear Hlut0. rewrite (digit_of_char_at base alph) by (done || lia). done. Qed.

(** The digit that the loops read at step [k]: the digit of weight [k], or
    zero beyond the most significant digit. *)
Lemma naive_digit z k :
  Forall (fun c => In c alph) z ->
  byte.unsigned
    (get_char_value (if (k <? length z)%nat then char_at z (length z - 1 - k)
                     else char_at alph 0) lut)
  = nth k (digits_of alph z) 0.
Proof.
  intros Hz. destruct (Nat.ltb_spec k (length z)) as [Hk|Hk].
  - rewrite naive_lut_digit.
    + pose proof (digits_of_lookup alph z k Hk) as Hd.
      by rewrite (nth_lookup_Some _ _ _ _ Hd).
    + apply (proj1 (List.Forall_forall _ _) Hz). apply nth_In. lia.
  - rewrite naive_lut_digit by apply zero_char_in_alph.
    rewrite digit_of_zero_char, nth_overflow by (rewrite length_digits_of; lia). done.
Qed.

Lemma carry_offset_base (co : Z) :
  co = (if base <? 0 then -1 else 1) ->
  base * co = Z.abs base /\ (co = 1 \/ co = -1) /\ (co = -1 <-> base < 0).
Proof using Type. clear Hbase Hlen Hnodup Hlut0. intros ->. destruct (Z.ltb_spec base 0); lia. Qed.

Lemma add_sub_unsigned_loop_spec (add : bool) (co : Z) z1 z2 :
  co = (if base <? 0 then -1 else 1) ->
  Forall (fun c => In c alph) z1 -> Forall (fun c => In c alph) z2 ->
  forall fuel k carry result,
    (steps_left (Nat.max (length z1 - k) (length z2 - k)) carry < fuel)%nat ->
    -1 <= carry <= 1 ->
    (0 < base ->
     0 <= digits_value base (drop k (digits_of alph z1))
          + (if add then 1 else -1) * digits_value base (drop k (digits_of alph z2))
          + carry) ->
    exists W,
      digit_list base W /\
      digits_value base W
      = digits_value base (drop k (digits_of alph z1))
        + (if add then 1 else -1) * digits_value base (drop k (digits_of alph z2))
        + carry /\
      (length W <= steps_left (Nat.max (length z1 - k) (length z2 - k)) carry)%nat /\
      (Nat.max (length z1 - k) (length z2 - k) <> 0%nat -> W <> []) /\
      Naive.add_sub_unsigned_loop fuel add (Z.abs base) co alph lut z1 z2 k carry result
      = Done (result ++ map (char_of alph) W).
Proof.
  intros Hcodef Hz1 Hz2. destruct (carry_offset_base co Hcodef) as (Hco & Hco1 & Hco2).
  clear Hcodef.
  induction fuel as [|fuel IH]; intros k carry result Hfuel Hc HR; [lia|].
  cbn [Naive.add_sub_unsigned_loop]. cbv zeta.
  rewrite (naive_digit z1 k Hz1), (naive_digit z2 k Hz2).
  pose proof (digit_list_nth base (digits_of alph z1) k ltac:(lia)
                (digit_list_digits_of base alph Hbase Hlen z1)) as Ha.
  pose proof (digit_list_nth base (digits_of alph z2) k ltac:(lia)
                (digit_list_digits_of base alph Hbase Hlen z2)) as Hb.
  pose proof (digits_value_drop base (digits_of alph z1) k) as HdA.
  pose proof (digits_value_drop base (digits_of alph z2) k) as HdB.
  assert (Nat.max (length z1 - k) (length z2 - k) = 0%nat ->
          nth k (digits_of alph z1) 0 = 0 /\ nth k (digits_of alph z2) 0 = 0
          /\ digits_value base (drop k (digits_of alph z1)) = 0
          /\ digits_value base (drop k (digits_of alph z2)) = 0) as Hm0.
  { intros H0. rewrite !nth_overflow, !drop_ge by (rewrite length_digits_of; lia). done. }
  assert (Nat.max (length z1 - S k) (length z2 - S k)
          = (Nat.max (length z1 - k) (length z2 - k) - 1)%nat) as Hm' by (clear; lia).
  assert (((k <? length z1)%nat || (k <? length z2)%nat)
          = negb (Nat.max (length z1 - k) (length z2 - k) =? 0)%nat) as Hcond.
  { clear. destruct (Nat.ltb_spec k (length z1)), (Nat.ltb_spec k (length z2)),
      (Nat.eqb_spec (Nat.max (length z1 - k) (length z2 - k)) 0); cbn; lia. }
  rewrite Hcond. clear Hcond.
  specialize (IH (S k)). rewrite Hm' in IH. clear Hm'.
  set (m := Nat.max (length z1 - k) (length z2 - k)) in *.
  set (A' := digits_value base (drop (S k) (digits_of alph z1))) in *.
  set (B' := digits_value base (drop (S k) (digits_of alph z2))) in *.
  set (A := digits_value base (drop k (digits_of alph z1))) in *.
  set (B := digits_value base (drop k (digits_of alph z2))) in *.
  set (a := nth k (digits_of alph z1) 0) in *.
  set (b := nth k (digits_of alph z2) 0) in *.
  clearbody m A' B' A B a b.
  remember ((if add then a + b else a - b) + carry) as s eqn:Hs.
  assert (-Z.abs base <= s <= 2 * Z.abs base - 1) as Hsr by (subst s; destruct add; lia).
  assert (A + (if add then 1 else -1) * B + carry
          = s + base * (A' + (if add then 1 else -1) * B')) as HAB
    by (subst s; rewrite HdA, HdB; destruct add; lia).
  assert (m = 0%nat -> s = carry) as Hs0.
  { intros H0. destruct (Hm0 H0) as (-> & -> & _). subst s. destruct add; lia. }
  assert (m = 0%nat -> A = 0 /\ B = 0) as HAB0.
  { intros H0. by destruct (Hm0 H0) as (_ & _ & -> & ->). }
  assert (m = 0%nat -> carry = -1 -> base < 0) as Hm0neg.
  { intros H0 Hcm. destruct (Z.lt_ge_cases base 0) as [|Hpos]; [done|].
    exfalso. destruct (Hm0 H0) as (_ & _ & HA0 & HB0). rewrite HA0, HB0 in HR.
    assert (0 < base) as Hp by lia. specialize (HR Hp). lia. }
  assert (forall d c', 0 <= d < Z.abs base -> -1 <= c' <= 1 -> s = d + base * c' ->
            (steps_left (m - 1) c' < steps_left m carry)%nat ->
            exists W, digit_list base W /\
              digits_value base W = A + (if add then 1 else -1) * B + carry /\
              (length W <= steps_left m carry)%nat /\ (m <> 0%nat -> W <> []) /\
              Naive.add_sub_unsigned_loop fuel add (Z.abs base) co alph lut z1 z2 (S k) c'
                (result ++ [char_at alph (Z.to_nat d)])
              = Done (result ++ map (char_of alph) W)) as Hstep.
  { intros d c' Hd Hc' Hsd Hsteps.
    destruct (IH c' (result ++ [char_at alph (Z.to_nat d)]))
      as (W & HW & HvW & HlW & _ & Hloop).
    - lia.
    - done.
    - intros Hpos. specialize (HR Hpos).
      set (R' := A' + (if add then 1 else -1) * B' + c') in *.
      assert (A + (if add then 1 else -1) * B + carry = d + base * R') as HRR'
        by (subst R'; lia).
      destruct (Z.lt_ge_cases R' 0) as [Hneg|]; [|done].
      assert (base * R' <= base * (-1)) by (apply Z.mul_le_mono_nonneg_l; lia). lia.
    - exists (d :: W). split; [by constructor|]. split.
      + cbn [digits_value]. rewrite HvW. lia.
      + split; [cbn [length]; lia|]. split; [done|].
        rewrite Hloop, <- app_assoc. done. }
  clear IH HdA HdB HAB Hm0 HR.
  destruct (Nat.eqb_spec m 0) as [Hmz|Hmnz]; cbn [negb orb].
  - specialize (Hs0 Hmz). specialize (Hm0neg Hmz). rewrite Hmz in *.
    destruct (Z.eqb_spec carry 0) as [Hc0|Hc0]; cbn [negb].
    + exists []. split; [constructor|].
      split; [|split; [cbn; lia|split; [done|by rewrite app_nil_r]]].
      cbn [digits_value]. destruct (HAB0 eq_refl) as [-> ->]. destruct add; lia.
    + destruct (Z.leb_spec (Z.abs base) s) as [Hge|Hlt]; [lia|].
      destruct (Z.ltb_spec s 0) as [Hneg|Hnn].
      * assert (co = -1) as Hcn by (apply Hco2, Hm0neg; lia).
        apply (Hstep (s + Z.abs base) (- co)); [lia|lia|lia|].
        change (0 - 1)%nat with 0%nat. apply steps_left_zero; lia.
      * apply (Hstep s 0); [lia|lia|lia|].
        change (0 - 1)%nat with 0%nat. apply steps_left_zero; lia.
  - destruct (Z.leb_spec (Z.abs base) s) as [Hge|Hlt].
    + apply (Hstep (s - Z.abs base) co); [lia|lia|lia|].
      by apply steps_left_pred.
    + destruct (Z.ltb_spec s 0) as [Hneg|Hnn].
      * apply (Hstep (s + Z.abs base) (- co)); [lia|lia|lia|].
        by apply steps_left_pred.
      * apply (Hstep s 0); [lia|lia|lia|]. by apply steps_left_pred.
Qed.

Lemma char_of_zero_iff d :
  0 <= d < Z.abs base -> char_of alph d = char_at alph 0 <-> d = 0.
Proof using Hbase Hlen Hnodup. clear Hlut0.
  intros Hd. split; [|by intros ->].
  intros E. unfold char_of in E.
  pose proof (proj1 (NoDup_alt alph) Hnodup (Z.to_nat d) 0%nat (char_at alph 0)) as Hinj.
  rewrite <- E in Hinj at 1. rewrite !lookup_char_at in Hinj by lia.
  specialize (Hinj eq_refl eq_refl). lia.
Qed.

Lemma trim_last_nonzero (l : list Z) d : trim (l ++ [d]) = l ++ [d] -> d <> 0.
Proof using Type. clear Hbase Hlen Hnodup Hlut0.
  intros Ht ->. rewrite trim_snoc in Ht. cbn in Ht.
  pose proof (length_trim l) as Hl. rewrite Ht, length_app in Hl. cbn in Hl. lia.
Qed.

Lemma strip_leading_zeros_loop_spec (W : list Z) n e :
  digit_list base W -> (e <= length W)%nat -> (e <= n)%nat -> (1 <= e)%nat ->
  let e' := Naive.strip_leading_zeros_loop n (map (char_of alph) W) (char_at alph 0) e in
  (1 <= e' <= e)%nat /\
  ((trim (take e W) = take e' W /\ nth (e' - 1) W 0 <> 0) \/
   (trim (take e W) = [] /\ e' = 1%nat /\ nth 0 W 0 = 0)).
Proof.
  intros HW. revert e. induction n as [|n IH]; intros e He Hn H1; [lia|].
  cbn [Naive.strip_leading_zeros_loop].
  destruct (lookup_lt_is_Some_2 W (e - 1) ltac:(lia)) as [d Hd].
  assert (take e W = take (e - 1) W ++ [d]) as Htake.
  { replace e with (S (e - 1)) at 1 by lia. by apply take_S_r. }
  assert (nth (e - 1) W 0 = d) as Hnth by (by apply nth_lookup_Some).
  assert (0 <= d < Z.abs base) as Hdr.
  { unfold digit_list in HW. rewrite Forall_lookup in HW. by apply (HW (e - 1)%nat). }
  assert (char_at (map (char_of alph) W) (e - 1) = char_of alph d) as Hchar.
  { unfold char_at. apply nth_lookup_Some. by rewrite list_lookup_fmap, Hd. }
  rewrite Hchar.
  destruct (byte_eqb (char_of alph d) (char_at alph 0)) eqn:E.
  - apply byte_eqb_eq, char_of_zero_iff in E; [|done]. rewrite E in Htake, Hnth. clear E.
    destruct (Nat.ltb_spec 1 e) as [Hgt|Hle]; cbn [andb].
    + destruct (IH (e - 1)%nat ltac:(lia) ltac:(lia) ltac:(lia)) as [Hr Hcases].
      cbv zeta in Hr, Hcases |- *.
      split; [lia|]. rewrite Htake, trim_snoc, Z.eqb_refl. exact Hcases.
    + assert (e = 1%nat) as -> by lia. cbv zeta. split; [lia|]. right.
      rewrite Htake, trim_snoc, Z.eqb_refl. cbn [Nat.sub] in *. rewrite take_0.
      done.
  - rewrite andb_false_r. cbv zeta. split; [lia|]. left.
    assert (d <> 0) as Hd0.
    { intros ->. by rewrite byte_eqb_refl in E. }
    rewrite Htake, trim_snoc. destruct (Z.eqb_spec d 0); [done|]. by rewrite Hnth.
Qed.

Lemma reverse_string_loop_spec n (mid : list byte) :
  forall pre post,
    (length mid <= 2 * n + 1)%nat ->
    Naive.reverse_string_loop n (length pre) (length pre + length mid - 1) (pre ++ mid ++ post)
    = pre ++ rev mid ++ post.
Proof using Type. clear Hbase Hlen Hnodup Hlut0.
  revert mid. induction n as [|n IH]; intros mid pre post Hn.
  - cbn [Naive.reverse_string_loop]. destruct mid as [|a [|b m]]; cbn in Hn |- *; done || lia.
  - cbn [Naive.reverse_string_loop].
    destruct mid as [|a m].
    { cbn [length]. destruct (Nat.ltb_spec (length pre) (length pre + 0 - 1)); [lia|done]. }
    destruct m as [|z m _] using rev_ind.
    { cbn [length]. destruct (Nat.ltb_spec (length pre) (length pre + 1 - 1)); [lia|done]. }
    cbn [length] in *. rewrite length_app in *. cbn [length] in *.
    destruct (Nat.ltb_spec (length pre) (length pre + S (length m + 1) - 1)) as [_|]; [|lia].
    assert (pre ++ (a :: m ++ [z]) ++ post = pre ++ a :: (m ++ z :: post)) as Hshape.
    { cbn [app]. by rewrite <- app_assoc. }
    rewrite Hshape. unfold char_at.
    assert (nth (length pre) (pre ++ a :: m ++ z :: post) Byte.x00 = a) as ->.
    { by rewrite app_nth2, Nat.sub_diag by lia. }
    assert (nth (length pre + S (length m + 1) - 1) (pre ++ a :: m ++ z :: post) Byte.x00 = z)
      as ->.
    { rewrite app_nth2 by lia.
      replace (length pre + S (length m + 1) - 1 - length pre)%nat with (S (length m)) by lia.
      cbn [nth]. by rewrite app_nth2, Nat.sub_diag by lia. }
    assert (<[(length pre + S (length m + 1) - 1)%nat := a]>
              (<[length pre := z]> (pre ++ a :: m ++ z :: post))
            = (pre ++ [z]) ++ m ++ (a :: post)) as ->.
    { rewrite insert_app_r_alt, Nat.sub_diag by lia.
      change (<[0%nat := z]> (a :: m ++ z :: post)) with (z :: m ++ z :: post).
      rewrite insert_app_r_alt by lia.
      replace (length pre + S (length m + 1) - 1 - length pre)%nat with (S (length m)) by lia.
      change (<[S (length m) := a]> (z :: m ++ z :: post))
        with (z :: <[length m := a]> (m ++ z :: post)).
      rewrite insert_app_r_alt, Nat.sub_diag by lia.
      change (<[0%nat := a]> (z :: post)) with (a :: post).
      by rewrite <- app_assoc. }
    replace (length pre + S (length m + 1) - 1 - 1)%nat
      with (length (pre ++ [z]) + length m - 1)%nat by (rewrite length_app; cbn [length]; lia).
    replace (S (length pre)) with (length (pre ++ [z]))
      by (rewrite length_app; cbn [length]; lia).
    rewrite IH by lia.
    cbn [rev]. rewrite rev_app_distr. cbn [rev app].
    rewrite <- !app_assoc. done.
Qed.

Lemma reverse_string_rev s : Naive.reverse_string s = rev s.
Proof using Type. clear Hbase Hlen Hnodup Hlut0.
  unfold Naive.reverse_string.
  pose proof (reverse_string_loop_spec (length s) s [] []) as H.
  cbn [length app Nat.add] in H. rewrite !app_nil_r in H. apply H. lia.
Qed.

(** The result of [Naive.add_sub_unsigned]: the digits of the sum or of the
    difference, preceded by the minus sign when it is asked for and the
    result is not zero. *)
Lemma add_sub_unsigned_spec (add negate : bool) z1 z2 fuel :
  Forall (fun c => In c alph) z1 -> Forall (fun c => In c alph) z2 ->
  z1 <> [] -> (Nat.max (length z1) (length z2) + 2 < fuel)%nat ->
  (0 < base ->
   0 <= number_value base alph z1 + (if add then 1 else -1) * number_value base alph z2) ->
  exists W,
    digit_list base W /\
    digits_value base W
    = number_value base alph z1 + (if add then 1 else -1) * number_value base alph z2 /\
    (length W <= Nat.max (length z1) (length z2) + 2)%nat /\
    Naive.add_sub_unsigned fuel lut0 add negate base alph z1 z2
    = Done ((if negate && negb (digits_value base W =? 0) then [char_minus] else [])
            ++ digits_string alph (trim W)).
Proof.
  intros Hz1 Hz2 Hne Hfuel Hpos. unfold Naive.add_sub_unsigned. cbv zeta. fold lut.
  assert (Nat.max (length z1) (length z2) <> 0%nat) as Hm by (destruct z1; cbn; [done|lia]).
  destruct (add_sub_unsigned_loop_spec add (if base <? 0 then -1 else 1) z1 z2 eq_refl
              Hz1 Hz2 fuel 0 0 [])
    as (W & HW & HvW & HlW & HWne & ->).
  { rewrite !Nat.sub_0_r. destruct (Nat.max _ _); cbn [steps_left]; lia. }
  { lia. }
  { rewrite !drop_0, Z.add_0_r. exact Hpos. }
  rewrite !drop_0, Z.add_0_r in HvW. rewrite !Nat.sub_0_r in HlW, HWne.
  specialize (HWne Hm).
  assert (length W <= Nat.max (length z1) (length z2) + 2)%nat as HlW'.
  { destruct (Nat.max _ _); cbn [steps_left] in HlW; [done|lia]. }
  exists W. split; [done|]. split; [done|]. split; [done|].
  cbn [mbind outcome_bind obind app]. rewrite length_map.
  assert (1 <= length W)%nat as HW1 by (destruct W; cbn; [done|lia]).
  destruct (strip_leading_zeros_loop_spec W (length W) (length W) HW ltac:(lia) ltac:(lia) HW1)
    as [He Hcases].
  set (e := Naive.strip_leading_zeros_loop _ _ _ _) in *. clearbody e.
  rewrite firstn_all in Hcases.
  rewrite <- fmap_take.
  assert (char_at (char_of alph <$> take e W) (e - 1) = char_of alph (nth (e - 1) W 0))
    as Hms.
  { unfold char_at. apply nth_lookup_Some.
    rewrite list_lookup_fmap, lookup_take_lt by lia.
    destruct (lookup_lt_is_Some_2 W (e - 1) ltac:(lia)) as [d Hd].
    rewrite Hd. cbn. by rewrite (nth_lookup_Some _ _ _ _ Hd). }
  rewrite Hms. rewrite reverse_string_rev.
  pose proof (digit_list_nth base W (e - 1) ltac:(lia) HW) as Hdr.
  destruct Hcases as [[Htrim Hnz]|(Hnil & He1 & H0)].
  - assert (byte_eqb (char_of alph (nth (e - 1) W 0)) (char_at alph 0) = false) as ->.
    { destruct (byte_eqb _ _) eqn:E; [|done].
      apply byte_eqb_eq, char_of_zero_iff in E; done. }
    assert (trim W <> []) as Htne.
    { rewrite Htrim. destruct W; [done|]. destruct e; [lia|done]. }
    assert (digits_value base W <> 0) as Hv0.
    { rewrite <- (digits_value_trim base W).
      apply trim_fixed_nonzero; [by apply digit_list_trim | apply trim_idem | done]. }
    destruct (Z.eqb_spec (digits_value base W) 0) as [|_]; [done|].
    rewrite <- Htrim. unfold digits_string. destruct (trim W) eqn:Et; [done|].
    destruct negate; cbn [andb negb app]; [|done].
    rewrite rev_app_distr. done.
  - subst e. cbn [Nat.sub] in *. rewrite H0.
    change (char_of alph 0) with (char_at alph 0).
    rewrite byte_eqb_refl, andb_false_r.
    assert (digits_value base W = 0) as -> by (by rewrite <- (digits_value_trim base W), Hnil).
    cbn [Z.eqb negb andb app]. rewrite andb_false_r. rewrite Hnil.
    cbn [app digits_string].
    assert (take 1 W = [0]) as ->.
    { destruct W as [|d W']; [done|]. cbn in H0. by rewrite H0. }
    done.
Qed.

(** *** Multiplication by a digit *)

Lemma carry_add_loop_spec fuel prod carry B co :
  0 < B -> 0 <= prod -> prod / B < Z.of_nat fuel ->
  Naive.carry_add_loop fuel prod carry B co = Done (prod mod B, carry + co * (prod / B)).
Proof.
  intros HB. revert prod carry. induction fuel as [|fuel IH]; intros prod carry Hp Hf.
  - pose proof (Z.div_pos prod B). lia.
  - cbn [Naive.carry_add_loop]. destruct (Z.leb_spec B prod) as [Hge|Hlt].
    + assert ((prod - B) / B = prod / B - 1) as Hq.
      { replace (prod - B) with (prod + (-1) * B) by lia. rewrite Z.div_add by lia. lia. }
      assert ((prod - B) mod B = prod mod B) as Hm.
      { replace (prod - B) with (prod + (-1) * B) by lia. apply Z.mod_add. lia. }
      rewrite IH by lia. rewrite Hq, Hm. f_equal. f_equal. lia.
    + rewrite Z.mod_small, Z.div_small by lia. f_equal. f_equal. lia.
Qed.

Lemma carry_sub_loop_spec fuel prod carry B co :
  0 < B -> prod < B -> - (prod / B) < Z.of_nat fuel ->
  Naive.carry_sub_loop fuel prod carry B co = Done (prod mod B, carry + co * (prod / B)).
Proof.
  intros HB. revert prod carry. induction fuel as [|fuel IH]; intros prod carry Hp Hf.
  - assert (prod / B < 1) by (apply Z.div_lt_upper_bound; lia). lia.
  - cbn [Naive.carry_sub_loop]. destruct (Z.ltb_spec prod 0) as [Hneg|Hnn].
    + assert ((prod + B) / B = prod / B + 1) as Hq.
      { replace (prod + B) with (prod + 1 * B) by lia. rewrite Z.div_add by lia. lia. }
      assert ((prod + B) mod B = prod mod B) as Hm.
      { replace (prod + B) with (prod + 1 * B) by lia. apply Z.mod_add. lia. }
      rewrite IH by lia. rewrite Hq, Hm. f_equal. f_equal. lia.
    + rewrite Z.mod_small, Z.div_small by lia. f_equal. f_equal. lia.
Qed.

Lemma mul_unsigned_loop_spec (co : Z) z1 bd :
  co = (if base <? 0 then -1 else 1) ->
  Forall (fun c => In c alph) z1 -> 0 <= bd < Z.abs base ->
  forall fuel k carry result,
    (steps_left (length z1 - k) carry + Z.to_nat (Z.abs base) < fuel)%nat ->
    - Z.abs base < carry < Z.abs base -> (0 < base -> 0 <= carry) ->
    exists W,
      digit_list base W /\
      digits_value base W = digits_value base (drop k (digits_of alph z1)) * bd + carry /\
      (length W <= steps_left (length z1 - k) carry)%nat /\
      ((length z1 - k)%nat <> 0%nat -> W <> []) /\
      Naive.mul_unsigned_loop fuel (Z.abs base) co alph lut z1 bd k carry result
      = Done (result ++ map (char_of alph) W).
Proof.
  intros Hcodef Hz1 Hbd. destruct (carry_offset_base co Hcodef) as (Hco & Hco1 & Hco2).
  clear Hcodef.
  induction fuel as [|fuel IH]; intros k carry result Hfuel Hc Hcpos; [lia|].
  cbn [Naive.mul_unsigned_loop]. cbv zeta.
  rewrite (naive_digit z1 k Hz1).
  pose proof (digit_list_nth base (digits_of alph z1) k ltac:(lia)
                (digit_list_digits_of base alph Hbase Hlen z1)) as Ha.
  pose proof (digits_value_drop base (digits_of alph z1) k) as HdA.
  assert ((length z1 - k)%nat = 0%nat ->
          nth k (digits_of alph z1) 0 = 0
          /\ digits_value base (drop k (digits_of alph z1)) = 0) as Hm0.
  { intros H0. rewrite !nth_overflow, !drop_ge by (rewrite length_digits_of; lia). done. }
  assert ((length z1 - S k)%nat = (length z1 - k - 1)%nat) as Hm' by lia.
  assert ((k <? length z1)%nat = negb (length z1 - k =? 0)%nat) as Hcond.
  { destruct (Nat.ltb_spec k (length z1)), (Nat.eqb_spec (length z1 - k) 0); cbn; lia. }
  rewrite Hcond. clear Hcond.
  specialize (IH (S k)). rewrite Hm' in IH. clear Hm'.
  set (m := (length z1 - k)%nat) in *.
  set (A' := digits_value base (drop (S k) (digits_of alph z1))) in *.
  set (A := digits_value base (drop k (digits_of alph z1))) in *.
  set (a := nth k (digits_of alph z1) 0) in *.
  set (B := Z.abs base) in *.
  assert (Z.to_nat B = Z.to_nat B) as _ by done.
  clearbody m A' A a.
  remember (a * bd + carry) as prod eqn:Hprod.
  assert (- B < prod <= B * (B - 1)) as Hpr.
  { subst prod. split; [nia|]. 
    assert (a * bd <= (B - 1) * (B - 1)) by (apply Z.mul_le_mono_nonneg; lia). nia. }
  assert (0 < base -> 0 <= prod) as Hprpos by (intros Hp; specialize (Hcpos Hp); nia).
  assert (-1 <= prod / B <= B - 1) as Hq.
  { split; [apply Z.div_le_lower_bound; lia|].
    apply Z.div_le_upper_bound; lia. }
  pose proof (Z.mod_pos_bound prod B ltac:(lia)) as Hd.
  pose proof (Z.div_mod prod B ltac:(lia)) as Hdm.
  assert ((if B <=? prod then Naive.carry_add_loop fuel prod 0 B co
           else if prod <? 0 then Naive.carry_sub_loop fuel prod 0 B co else Done (prod, 0))
          = Done (prod mod B, co * (prod / B))) as Hcarry.
  { destruct (Z.leb_spec B prod) as [Hge|Hlt].
    - rewrite carry_add_loop_spec by lia. done.
    - destruct (Z.ltb_spec prod 0) as [Hneg|Hnn].
      + rewrite carry_sub_loop_spec by lia. done.
      + rewrite Z.mod_small, Z.div_small by lia. f_equal. f_equal. lia. }
  assert (A * bd + carry = prod mod B + base * (A' * bd + co * (prod / B))) as HAB.
  { rewrite HdA. subst prod. 
    replace (base * (A' * bd + co * ((a * bd + carry) / B)))
      with (base * A' * bd + (base * co) * ((a * bd + carry) / B)) by ring.
    rewrite Hco. lia. }
  assert (m = 0%nat -> prod = carry /\ A = 0) as Hs0.
  { intros H0. destruct (Hm0 H0) as (Ha0 & HA0). subst prod. rewrite Ha0. lia. }
  assert (m <> 0%nat \/ carry <> 0 ->
          exists W, digit_list base W /\
            digits_value base W = A * bd + carry /\
            (length W <= steps_left m carry)%nat /\ (m <> 0%nat -> W <> []) /\
            Naive.mul_unsigned_loop fuel B co alph lut z1 bd (S k) (co * (prod / B))
              (result ++ [char_at alph (Z.to_nat (prod mod B))])
            = Done (result ++ map (char_of alph) W)) as Hstep.
  { intros Hcont.
    assert (steps_left (m - 1) (co * (prod / B)) < steps_left m carry)%nat as Hsteps.
    { destruct (Nat.eq_dec m 0%nat) as [Hmz|Hmnz]; [|by apply steps_left_pred].
      destruct (Hs0 Hmz) as [Hpc _]. rewrite Hmz. change (0 - 1)%nat with 0%nat.
      destruct Hcont as [|Hc0]; [done|].
      apply steps_left_zero; [done| |].
        + intros Hcp. rewrite Hpc, Z.div_small by lia. lia.
        + intros Hcn. assert (prod / B = -1) as ->.
          { rewrite Hpc. symmetry. apply (Z.div_unique carry B (-1) (carry + B)); lia. }
          assert (base < 0) as Hbn.
          { destruct (Z.lt_ge_cases base 0) as [|Hp]; [done|].
            assert (0 < base) as Hp' by lia. specialize (Hcpos Hp'). lia. }
          apply Hco2 in Hbn. lia. }
    destruct (IH (co * (prod / B)) (result ++ [char_at alph (Z.to_nat (prod mod B))]))
      as (W & HW & HvW & HlW & _ & Hloop).
    - lia.
    - destruct Hco1 as [-> | ->]; lia.
    - intros Hp. specialize (Hprpos Hp).
      assert (co = 1) as -> by (destruct Hco1 as [|Hn]; [done|]; apply Hco2 in Hn; lia).
      pose proof (Z.div_pos prod B). lia.
    - exists (prod mod B :: W). split; [by constructor|]. split.
      + cbn [digits_value]. rewrite HvW. lia.
      + split; [cbn [length]; lia|]. split; [done|].
        rewrite Hloop, <- app_assoc. done. }
  destruct (Nat.eqb_spec m 0) as [Hmz|Hmnz]; cbn [negb orb].
  - destruct (Hs0 Hmz) as [Hpc HA0].
    destruct (Z.eqb_spec carry 0) as [Hc0|Hc0]; cbn [negb].
    + exists []. split; [constructor|].
      split; [|split; [cbn; lia|split; [done|by rewrite app_nil_r]]].
      cbn [digits_value]. rewrite HA0. lia.
    + rewrite Hcarry. cbn [mbind outcome_bind obind]. apply Hstep. by right.
  - rewrite Hcarry. cbn [mbind outcome_bind obind]. apply Hstep. by left.
Qed.

(** *** The strings that the functions write *)

Lemma digit_of_char_of d : 0 <= d < Z.abs base -> digit_of alph (char_of alph d) = d.
Proof using Hbase Hlen Hnodup. clear Hlut0.
  intros Hd. unfold char_of. rewrite (digit_of_char_at base alph) by (done || lia). lia.
Qed.

Lemma char_of_in_alph d : 0 <= d < Z.abs base -> In (char_of alph d) alph.
Proof using Hbase Hlen Hnodup. clear Hlut0. intros Hd. apply nth_In. lia. Qed.

Lemma digits_string_chars cs :
  digit_list base cs -> Forall (fun c => In c alph) (digits_string alph cs).
Proof using Hbase Hlen Hnodup. clear Hlut0.
  intros Hcs. unfold digits_string. destruct cs as [|d t] eqn:E.
  - apply Forall_cons; [apply zero_char_in_alph | apply Forall_nil].
  - rewrite <- E in *. clear E. rewrite rev_reverse. apply Forall_reverse, Forall_fmap.
    eapply Forall_impl; [|exact Hcs]. intros x Hx. by apply char_of_in_alph.
Qed.

Lemma digits_string_nonempty cs : digits_string alph cs <> [].
Proof using Type. clear Hbase Hlen Hnodup Hlut0.
  unfold digits_string. destruct cs as [|d t]; [done|].
  cbn [map rev]. by destruct (rev (map (char_of alph) t)).
Qed.

Lemma length_digits_string cs : length (digits_string alph cs) = Nat.max 1 (length cs).
Proof using Type. clear Hbase Hlen Hnodup Hlut0.
  unfold digits_string. destruct cs as [|d t] eqn:E; [done|].
  rewrite <- E. rewrite length_rev, length_map. rewrite E. cbn [length]. lia.
Qed.

Lemma digits_of_digits_string cs :
  digit_list base cs -> cs <> [] -> digits_of alph (digits_string alph cs) = cs.
Proof using Hbase Hlen Hnodup. clear Hlut0.
  intros Hcs Hne. unfold digits_string, digits_of. destruct cs as [|d t] eqn:E; [done|].
  rewrite <- E in *. clear E Hne. rewrite map_rev, rev_involutive, map_map.
  rewrite <- (map_id cs) at 2. apply map_ext_in. intros x Hx.
  apply digit_of_char_of. by apply (proj1 (List.Forall_forall _ _) Hcs).
Qed.

Lemma number_value_digits_string cs :
  digit_list base cs -> number_value base alph (digits_string alph cs) = digits_value base cs.
Proof using Hbase Hlen Hnodup. clear Hlut0.
  intros Hcs. unfold number_value. destruct cs as [|d t] eqn:E.
  - cbn. rewrite digit_of_zero_char. lia.
  - rewrite <- E in *. by rewrite digits_of_digits_string by (done || by rewrite E).
Qed.

Lemma digits_of_app s1 s2 : digits_of alph (s1 ++ s2) = digits_of alph s2 ++ digits_of alph s1.
Proof using Type. clear Hbase Hlen Hnodup Hlut0. unfold digits_of. by rewrite map_app, rev_app_distr. Qed.

Lemma number_value_shift s shift :
  number_value base alph (s ++ replicate shift (char_at alph 0))
  = base ^ Z.of_nat shift * number_value base alph s.
Proof using Hbase Hlen Hnodup. clear Hlut0.
  unfold number_value. rewrite digits_of_app, digits_value_app, length_digits_of,
    length_replicate.
  rewrite (digits_value_zeros base (digits_of alph (replicate shift (char_at alph 0)))); [lia|].
  unfold digits_of. rewrite rev_reverse. apply Forall_reverse, Forall_fmap, Forall_replicate.
  apply digit_of_zero_char.
Qed.

Lemma strip_reverse_digits (W : list Z) :
  digit_list base W -> W <> [] ->
  Naive.reverse_string
    (take (Naive.strip_leading_zeros_loop (length (map (char_of alph) W)) (map (char_of alph) W)
             (char_at alph 0) (length (map (char_of alph) W)))
       (map (char_of alph) W))
  = digits_string alph (trim W).
Proof.
  intros HW Hne. rewrite length_map.
  assert (1 <= length W)%nat as HW1 by (destruct W; cbn; [done|lia]).
  destruct (strip_leading_zeros_loop_spec W (length W) (length W) HW ltac:(lia) ltac:(lia) HW1)
    as [He Hcases].
  set (e := Naive.strip_leading_zeros_loop _ _ _ _) in *. clearbody e.
  rewrite firstn_all in Hcases. rewrite <- fmap_take, reverse_string_rev.
  destruct Hcases as [[Htrim Hnz]|(Hnil & He1 & H0)].
  - rewrite <- Htrim. unfold digits_string. destruct (trim W) eqn:Et; [|done].
    exfalso. destruct W; [done|]. destruct e; [lia|]. done.
  - subst e. rewrite Hnil. destruct W as [|d W']; [done|]. cbn in H0. rewrite H0. done.
Qed.

(** The result of [Naive.mul_unsigned_and_shift_left]. *)
Lemma mul_unsigned_and_shift_left_spec fuel shift z1 (z2 : byte) :
  Forall (fun c => In c alph) z1 -> In z2 alph -> z1 <> [] ->
  (length z1 + 2 + Z.to_nat (Z.abs base) < fuel)%nat ->
  exists W,
    digit_list base W /\
    digits_value base W = number_value base alph z1 * digit_of alph z2 /\
    (length W <= length z1 + 2)%nat /\
    Naive.mul_unsigned_and_shift_left fuel lut0 shift base alph z1 z2
    = Done (digits_string alph (trim W) ++ replicate shift (char_at alph 0)).
Proof.
  intros Hz1 Hz2 Hne Hfuel. unfold Naive.mul_unsigned_and_shift_left. cbv zeta. fold lut.
  rewrite (naive_lut_digit z2 Hz2).
  assert (length z1 <> 0%nat) as Hl by (by destruct z1).
  destruct (mul_unsigned_loop_spec (if base <? 0 then -1 else 1) z1 (digit_of alph z2) eq_refl
              Hz1 (digit_of_range base alph Hbase Hlen z2) fuel 0 0 [])
    as (W & HW & HvW & HlW & HWne & ->).
  { rewrite Nat.sub_0_r. destruct (length z1); cbn [steps_left]; lia. }
  { lia. }
  { lia. }
  rewrite drop_0, Z.add_0_r in HvW. rewrite Nat.sub_0_r in HlW, HWne.
  specialize (HWne Hl).
  exists W. split; [done|]. split; [done|]. split.
  { destruct (length z1); cbn [steps_left] in HlW; [done|lia]. }
  cbn [mbind outcome_bind obind app]. by rewrite strip_reverse_digits.
Qed.

(** *** Multiplication *)

Lemma number_value_nonneg z : 0 < base -> 0 <= number_value base alph z.
Proof using Hbase Hlen Hnodup. clear Hlut0.
  intros Hp. unfold number_value.
  apply (digits_value_lt base _ Hp (digit_list_digits_of base alph Hbase Hlen z)).
Qed.

Lemma multiplier_digit b i :
  (i < length b)%nat ->
  digit_of alph (char_at b (length b - 1 - i)) = nth i (digits_of alph b) 0.
Proof using Hbase Hlen Hnodup. clear Hlut0.
  intros Hi. pose proof (digits_of_lookup alph b i Hi) as Hd.
  by rewrite (nth_lookup_Some _ _ _ _ Hd).
Qed.

Lemma digits_value_take_S base' (l : list Z) i :
  (i < length l)%nat ->
  digits_value base' (take (S i) l)
  = digits_value base' (take i l) + base' ^ Z.of_nat i * nth i l 0.
Proof using Type. clear Hbase Hlen Hnodup Hlut0.
  intros Hi. destruct (lookup_lt_is_Some_2 l i Hi) as [d Hd].
  rewrite (take_S_r l i d Hd), digits_value_app, length_take, Nat.min_l by lia.
  rewrite (nth_lookup_Some _ _ _ _ Hd). cbn [digits_value]. lia.
Qed.

Lemma mul_unsigned_sum_loop_spec a b fuel :
  Forall (fun c => In c alph) a -> Forall (fun c => In c alph) b -> a <> [] ->
  (length a + 3 * length b + 5 + Z.to_nat (Z.abs base) < fuel)%nat ->
  forall n i tmp1,
    (i + n = length b - 1)%nat -> (1 <= length b)%nat ->
    Forall (fun c => In c alph) tmp1 -> tmp1 <> [] ->
    number_value base alph tmp1
    = number_value base alph a * digits_value base (take i (digits_of alph b)) ->
    (length tmp1 <= length a + 3 * i + 1)%nat ->
    exists tmp1',
      Forall (fun c => In c alph) tmp1' /\ tmp1' <> [] /\
      number_value base alph tmp1'
      = number_value base alph a * digits_value base (take (i + n) (digits_of alph b)) /\
      (length tmp1' <= length a + 3 * (i + n) + 1)%nat /\
      Naive.mul_unsigned_sum_loop n fuel lut0 i base alph a b (length b - 1) tmp1 = Done tmp1'.
Proof.
  intros Ha Hb Hane Hfuel.
  induction n as [|n IH]; intros i tmp1 Hn Hlb Ht1 Ht1ne Hv Hl.
  - exists tmp1. rewrite Nat.add_0_r. done.
  - cbn [Naive.mul_unsigned_sum_loop].
    assert (In (char_at b (length b - 1 - i)) alph) as Hbi.
    { apply (proj1 (List.Forall_forall _ _) Hb). apply nth_In. lia. }
    destruct (mul_unsigned_and_shift_left_spec fuel i a (char_at b (length b - 1 - i))
                Ha Hbi Hane ltac:(lia)) as (W2 & HW2 & HvW2 & HlW2 & ->).
    cbn [mbind outcome_bind obind].
    set (tmp2 := digits_string alph (trim W2) ++ replicate i (char_at alph 0)).
    assert (Forall (fun c => In c alph) tmp2) as Ht2.
    { apply Forall_app. split; [by apply digits_string_chars, digit_list_trim|].
      apply Forall_replicate, zero_char_in_alph. }
    assert (number_value base alph tmp2
            = base ^ Z.of_nat i * (number_value base alph a * nth i (digits_of alph b) 0))
      as Hv2.
    { subst tmp2. rewrite number_value_shift, number_value_digits_string
        by (by apply digit_list_trim).
      rewrite digits_value_trim, HvW2, multiplier_digit by lia. done. }
    assert (length tmp2 <= length a + 2 + i)%nat as Hl2.
    { subst tmp2. rewrite length_app, length_replicate, length_digits_string.
      pose proof (length_trim W2). lia. }
    destruct (add_sub_unsigned_spec true false tmp1 tmp2 fuel Ht1 Ht2 Ht1ne ltac:(lia))
      as (W3 & HW3 & HvW3 & HlW3 & ->).
    { intros Hp. pose proof (number_value_nonneg tmp1 Hp).
      pose proof (number_value_nonneg tmp2 Hp). lia. }
    cbn [andb app]. cbn [mbind outcome_bind obind].
    destruct (IH (S i) (digits_string alph (trim W3))) as (t' & H1 & H2 & H3 & H4 & H5).
    + lia.
    + done.
    + by apply digits_string_chars, digit_list_trim.
    + apply digits_string_nonempty.
    + rewrite number_value_digits_string by (by apply digit_list_trim).
      rewrite digits_value_trim, HvW3, Hv, Hv2.
      rewrite digits_value_take_S by (rewrite length_digits_of; lia). ring.
    + rewrite length_digits_string. pose proof (length_trim W3). lia.
    + exists t'. replace (i + S n)%nat with (S i + n)%nat by lia. done.
Qed.

Lemma mul_unsigned_ordered negate a b fuel :
  Forall (fun c => In c alph) a -> Forall (fun c => In c alph) b -> a <> [] -> b <> [] ->
  (length a + 3 * length b + 5 + Z.to_nat (Z.abs base) < fuel)%nat ->
  exists W,
    digit_list base W /\
    digits_value base W = number_value base alph a * number_value base alph b /\
    (tmp_result_1 ←
       Naive.mul_unsigned_sum_loop (length b - 1) fuel lut0 0 base alph a b (length b - 1)
         [char_at alph 0];
     tmp_result_2 ←
       Naive.mul_unsigned_and_shift_left fuel lut0 (length b - 1) base alph a
         (char_at b (length b - 1 - (length b - 1)));
     Naive.add_sub_unsigned fuel lut0 true negate base alph tmp_result_1 tmp_result_2)
    = Done ((if negate && negb (digits_value base W =? 0) then [char_minus] else [])
            ++ digits_string alph (trim W)).
Proof.
  intros Ha Hb Hane Hbne Hfuel.
  assert (1 <= length b)%nat as Hlb by (destruct b; cbn; [done|lia]).
  destruct (mul_unsigned_sum_loop_spec a b fuel Ha Hb Hane Hfuel (length b - 1) 0
              [char_at alph 0]) as (tmp1 & Ht1 & Ht1ne & Hv1 & Hl1 & ->); try done; try lia.
  { apply Forall_cons; [apply zero_char_in_alph | apply Forall_nil]. }
  { rewrite take_0. cbn [digits_value]. rewrite Z.mul_0_r.
    unfold number_value, digits_of. cbn. rewrite digit_of_zero_char. lia. }
  { cbn [length]. lia. }
  cbn [mbind outcome_bind obind]. cbn [Nat.add] in Hv1, Hl1.
  assert (In (char_at b (length b - 1 - (length b - 1))) alph) as Hbi.
  { apply (proj1 (List.Forall_forall _ _) Hb). apply nth_In. lia. }
  destruct (mul_unsigned_and_shift_left_spec fuel (length b - 1) a
              (char_at b (length b - 1 - (length b - 1))) Ha Hbi Hane ltac:(lia))
    as (W2 & HW2 & HvW2 & HlW2 & ->).
  cbn [mbind outcome_bind obind].
  set (tmp2 := digits_string alph (trim W2) ++ replicate (length b - 1) (char_at alph 0)).
  assert (Forall (fun c => In c alph) tmp2) as Ht2.
  { apply Forall_app. split; [by apply digits_string_chars, digit_list_trim|].
    apply Forall_replicate, zero_char_in_alph. }
  assert (number_value base alph tmp2
          = base ^ Z.of_nat (length b - 1)
            * (number_value base alph a * nth (length b - 1) (digits_of alph b) 0)) as Hv2.
  { subst tmp2. rewrite number_value_shift, number_value_digits_string
      by (by apply digit_list_trim).
    rewrite digits_value_trim, HvW2, multiplier_digit by lia. done. }
  assert (length tmp2 <= length a + 2 + (length b - 1))%nat as Hl2.
  { subst tmp2. rewrite length_app, length_replicate, length_digits_string.
    pose proof (length_trim W2). lia. }
  destruct (add_sub_unsigned_spec true negate tmp1 tmp2 fuel Ht1 Ht2 Ht1ne ltac:(lia))
    as (W3 & HW3 & HvW3 & HlW3 & ->).
  { intros Hp. pose proof (number_value_nonneg tmp1 Hp).
    pose proof (number_value_nonneg tmp2 Hp). lia. }
  exists W3. split; [done|]. split; [|done].
  assert (number_value base alph b
          = digits_value base (take (length b - 1) (digits_of alph b))
            + base ^ Z.of_nat (length b - 1) * nth (length b - 1) (digits_of alph b) 0) as Hb'.
  { rewrite <- digits_value_take_S by (rewrite length_digits_of; lia).
    rewrite take_ge by (rewrite length_digits_of; lia). done. }
  rewrite HvW3, Hv1, Hv2, Hb'. ring.
Qed.

(** The result of [Naive.mul_unsigned]. *)
Lemma mul_unsigned_spec negate z1 z2 fuel :
  Forall (fun c => In c alph) z1 -> Forall (fun c => In c alph) z2 ->
  z1 <> [] -> z2 <> [] ->
  (3 * (length z1 + length z2) + 5 + Z.to_nat (Z.abs base) < fuel)%nat ->
  exists W,
    digit_list base W /\
    digits_value base W = number_value base alph z1 * number_value base alph z2 /\
    Naive.mul_unsigned fuel lut0 negate base alph z1 z2
    = Done ((if negate && negb (digits_value base W =? 0) then [char_minus] else [])
            ++ digits_string alph (trim W)).
Proof.
  intros Hz1 Hz2 Hne1 Hne2 Hfuel. unfold Naive.mul_unsigned. cbv zeta.
  destruct (Nat.leb_spec (length z2) (length z1)) as [Hle|Hgt].
  - destruct (mul_unsigned_ordered negate z1 z2 fuel Hz1 Hz2 Hne1 Hne2 ltac:(lia))
      as (W & HW & HvW & Hrun).
    exists W. split; [done|]. split; [done|]. exact Hrun.
  - destruct (mul_unsigned_ordered negate z2 z1 fuel Hz2 Hz1 Hne2 Hne1 ltac:(lia))
      as (W & HW & HvW & Hrun).
    exists W. split; [done|]. split; [lia|]. exact Hrun.
Qed.
(** *** Comparison and signed subtraction *)

Lemma naive_strip_zeroes z zero :
  ~ In Byte.x00 z -> Naive.strip_zeroes z zero = strip_zeroes zero z.
Proof using Type. clear Hbase Hlen Hnodup Hlut0.
  induction z as [|c t IH]; intros Hz; [done|].
  cbn [Naive.strip_zeroes strip_zeroes]. destruct t as [|c' t'].
  - cbn. by rewrite andb_false_r.
  - assert (byte_eqb (char_at (c' :: t') 0) Byte.x00 = false) as ->.
    { cbn. destruct (byte_eqb c' Byte.x00) eqn:E; [|done].
      apply byte_eqb_eq in E. subst c'. exfalso. apply Hz. right. by left. }
    cbn [negb]. rewrite andb_true_r. destruct (byte_eqb c zero); [|done].
    apply IH. intros Hin. apply Hz. by right.
Qed.

Lemma number_value_cons c t :
  number_value base alph (c :: t)
  = number_value base alph t + base ^ Z.of_nat (length t) * digit_of alph c.
Proof using Hbase Hlen Hnodup. clear Hlut0.
  unfold number_value. rewrite digits_of_cons, digits_value_app, length_digits_of.
  cbn [digits_value]. lia.
Qed.

Lemma number_value_range z :
  0 < base -> 0 <= number_value base alph z < base ^ Z.of_nat (length z).
Proof using Hbase Hlen Hnodup. clear Hlut0.
  intros Hp. unfold number_value. rewrite <- (length_digits_of alph z).
  apply digits_value_lt; [done|]. by apply digit_list_digits_of.
Qed.

Lemma drop_char_at (s : cstring) i :
  (i < length s)%nat -> drop i s = char_at s i :: drop (S i) s.
Proof using Type. clear Hbase Hlen Hnodup Hlut0.
  intros Hi. unfold char_at. revert i Hi. induction s as [|c t IH]; intros i Hi.
  - cbn in Hi. lia.
  - destruct i as [|i]; [done|]. cbn [drop nth]. apply IH. cbn in Hi. lia.
Qed.

Lemma cmp_unsigned_loop_spec z1 z2 :
  0 < base -> ~ In Byte.x00 alph ->
  Forall (fun c => In c alph) z1 -> Forall (fun c => In c alph) z2 ->
  length z1 = length z2 ->
  forall n i,
    (i < length z1)%nat -> (length z1 <= i + n)%nat ->
    Naive.cmp_unsigned_loop n lut z1 z2 i
    = Z.sgn (number_value base alph (drop i z1) - number_value base alph (drop i z2)).
Proof.
  intros Hp Hnul Hz1 Hz2 Hl. induction n as [|n IH]; intros i Hi Hn; [lia|].
  cbn [Naive.cmp_unsigned_loop]. cbv zeta.
  assert (In (char_at z1 i) alph) as H1.
  { apply (proj1 (List.Forall_forall _ _) Hz1). apply nth_In. lia. }
  assert (In (char_at z2 i) alph) as H2.
  { apply (proj1 (List.Forall_forall _ _) Hz2). apply nth_In. lia. }
  rewrite !naive_lut_digit by done.
  rewrite (drop_char_at z1 i), (drop_char_at z2 i), !number_value_cons by lia.
  rewrite !length_drop. rewrite <- Hl.
  pose proof (number_value_range (drop (S i) z1) Hp) as R1.
  pose proof (number_value_range (drop (S i) z2) Hp) as R2.
  rewrite !length_drop in R1, R2. rewrite <- Hl in R2.
  pose proof (digit_of_range base alph Hbase Hlen (char_at z1 i)) as D1.
  pose proof (digit_of_range base alph Hbase Hlen (char_at z2 i)) as D2.
  set (d1 := digit_of alph (char_at z1 i)) in *.
  set (d2 := digit_of alph (char_at z2 i)) in *.
  set (P := base ^ Z.of_nat (length z1 - S i)) in *.
  remember (number_value base alph (drop (S i) z1)) as v1 eqn:Ev1.
  remember (number_value base alph (drop (S i) z2)) as v2 eqn:Ev2.
  clearbody d1 d2 P.
  destruct (Z.ltb_spec d1 d2) as [Hlt|Hge].
  { symmetry. apply Z.sgn_neg. nia. }
  destruct (Z.ltb_spec d2 d1) as [Hgt|Hle].
  { symmetry. apply Z.sgn_pos. nia. }
  assert (d1 = d2) as -> by lia.
  destruct (Nat.ltb_spec (S i) (length z1)) as [Hin|Hout].
  - assert (byte_eqb (char_at z1 (S i)) Byte.x00 = false) as ->.
    { destruct (byte_eqb (char_at z1 (S i)) Byte.x00) eqn:E; [|done].
      apply byte_eqb_eq in E. exfalso. apply Hnul. rewrite <- E.
      apply (proj1 (List.Forall_forall _ _) Hz1). apply nth_In. lia. }
    cbn [negb]. rewrite IH by lia. rewrite <- Ev1, <- Ev2. f_equal. lia.
  - assert (char_at z1 (S i) = Byte.x00) as ->.
    { unfold char_at. apply nth_overflow. lia. }
    rewrite byte_eqb_refl. cbn [negb].
    rewrite drop_ge in Ev1, Ev2 by lia. cbn in Ev1, Ev2. subst v1 v2.
    replace (_ - _) with 0 by lia. done.
Qed.

(** A digit list without leading zeros is at least the weight of its most
    significant digit. *)
Lemma trimmed_lower_bound W :
  0 < base -> digit_list base W -> trim W = W -> W <> [] ->
  base ^ Z.of_nat (length W - 1) <= digits_value base W.
Proof using Hbase Hlen Hnodup. clear Hlut0.
  intros Hp HW Ht Hne. destruct (exists_last Hne) as (l & d & ->).
  pose proof (trim_last_nonzero l d Ht) as Hd.
  apply Forall_app in HW as [Hl Hd'].
  apply Forall_inv in Hd'.
  rewrite digits_value_app, length_app. cbn [length digits_value].
  replace (length l + 1 - 1)%nat with (length l) by lia.
  pose proof (digits_value_lt base l Hp Hl) as Hr.
  assert (0 < base ^ Z.of_nat (length l)) by (apply Z.pow_pos_nonneg; lia).
  nia.
Qed.

Lemma cmp_unsigned_pos_base_spec W1 W2 :
  0 < base -> ~ In Byte.x00 alph ->
  digit_list base W1 -> digit_list base W2 -> trim W1 = W1 -> trim W2 = W2 ->
  Naive.cmp_unsigned_pos_base lut0 base alph (digits_string alph W1) (digits_string alph W2)
  = Z.sgn (digits_value base W1 - digits_value base W2).
Proof.
  intros Hp Hnul H1 H2 Ht1 Ht2. unfold Naive.cmp_unsigned_pos_base. cbv zeta.
  rewrite !length_digits_string.
  pose proof (digits_value_lt base W1 Hp H1) as R1.
  pose proof (digits_value_lt base W2 Hp H2) as R2.
  destruct (Nat.ltb_spec (Nat.max 1 (length W1)) (Nat.max 1 (length W2))) as [Hlt|Hge].
  { symmetry. apply Z.sgn_neg.
    assert (W2 <> []) as Hne by (intros ->; cbn in Hlt; lia).
    pose proof (trimmed_lower_bound W2 Hp H2 Ht2 Hne).
    assert (base ^ Z.of_nat (length W1) <= base ^ Z.of_nat (length W2 - 1)).
    { apply Z.pow_le_mono_r; lia. }
    lia. }
  destruct (Nat.ltb_spec (Nat.max 1 (length W2)) (Nat.max 1 (length W1))) as [Hgt|Hle].
  { symmetry. apply Z.sgn_pos.
    assert (W1 <> []) as Hne by (intros ->; cbn in Hgt; lia).
    pose proof (trimmed_lower_bound W1 Hp H1 Ht1 Hne).
    assert (base ^ Z.of_nat (length W2) <= base ^ Z.of_nat (length W1 - 1)).
    { apply Z.pow_le_mono_r; lia. }
    lia. }
  replace (Z.to_nat base) with (Z.to_nat (Z.abs base)) by lia. fold lut.
  rewrite (cmp_unsigned_loop_spec (digits_string alph W1) (digits_string alph W2)).
  - rewrite !drop_0, !number_value_digits_string by done. done.
  - done.
  - done.
  - by apply digits_string_chars.
  - by apply digits_string_chars.
  - rewrite !length_digits_string. lia.
  - rewrite length_digits_string. lia.
  - rewrite length_digits_string. lia.
Qed.

Lemma sub_unsigned_to_signed_spec W1 W2 fuel :
  0 < base -> ~ In Byte.x00 alph ->
  digit_list base W1 -> digit_list base W2 -> trim W1 = W1 -> trim W2 = W2 ->
  (Nat.max (length W1) (length W2) + 3 < fuel)%nat ->
  exists W,
    digit_list base W /\
    digits_value base W = Z.abs (digits_value base W1 - digits_value base W2) /\
    Naive.sub_unsigned_to_signed fuel lut0 base alph (digits_string alph W1)
      (digits_string alph W2)
    = Done ((if (digits_value base W1 - digits_value base W2 <? 0) then [char_minus] else [])
            ++ digits_string alph (trim W)).
Proof.
  intros Hp Hnul H1 H2 Ht1 Ht2 Hfuel. unfold Naive.sub_unsigned_to_signed.
  rewrite cmp_unsigned_pos_base_spec by done.
  pose proof (digits_string_chars W1 H1) as Hc1.
  pose proof (digits_string_chars W2 H2) as Hc2.
  pose proof (digits_string_nonempty W1) as Hn1.
  pose proof (digits_string_nonempty W2) as Hn2.
  pose proof (number_value_digits_string W1 H1) as Hv1.
  pose proof (number_value_digits_string W2 H2) as Hv2.
  pose proof (length_digits_string W1) as Hl1.
  pose proof (length_digits_string W2) as Hl2.
  destruct (Z.ltb_spec (digits_value base W1 - digits_value base W2) 0) as [Hneg|Hnn].
  - rewrite Z.sgn_neg by done. change (-1 <? 0) with true. cbv iota.
    destruct (add_sub_unsigned_spec false true (digits_string alph W2) (digits_string alph W1)
                fuel Hc2 Hc1 Hn2 ltac:(lia)) as (W & HW & HvW & HlW & ->).
    { intros _. lia. }
    exists W. split; [done|]. split; [lia|].
    replace (digits_value base W =? 0) with false by (symmetry; apply Z.eqb_neq; lia). done.
  - assert ((Z.sgn (digits_value base W1 - digits_value base W2) <? 0) = false) as ->.
    { apply Z.ltb_ge. by apply Z.sgn_nonneg. }
    destruct (add_sub_unsigned_spec false false (digits_string alph W1) (digits_string alph W2)
                fuel Hc1 Hc2 Hn1 ltac:(lia)) as (W & HW & HvW & HlW & ->).
    { intros _. lia. }
    exists W. split; [done|]. split; [lia|]. done.
Qed.
(** *** The entry point of the digit-wise core *)

Lemma stripped_digits s :
  ~ In Byte.x00 alph -> s <> [] -> Forall (fun c => In c alph) s ->
  exists T,
    digit_list base T /\ trim T = T /\
    digits_value base T = number_value base alph s /\
    (length T <= length s)%nat /\
    Naive.strip_zeroes s (char_at alph 0) = digits_string alph T.
Proof using Hbase Hlen Hnodup. clear Hlut0.
  intros Hnul Hne Hs. exists (trim (digits_of alph s)).
  split; [apply digit_list_trim, (digit_list_digits_of base alph Hbase Hlen)|].
  split; [apply trim_idem|]. split; [apply digits_value_trim|].
  split; [rewrite <- (length_digits_of alph s); apply length_trim|].
  rewrite naive_strip_zeroes.
  - by apply (strip_zeroes_digits base alph).
  - intros Hin. apply Hnul. by apply (proj1 (List.Forall_forall _ _) Hs).
Qed.

Lemma strip_sign_digit_chars z :
  0 < base -> Naive.strip_sign z = (digit_chars base z, negb (has_minus base z)).
Proof using Hbase. clear Hlen Hnodup Hlut0.
  intros Hp. unfold Naive.strip_sign, digit_chars, has_minus.
  replace (1 <? base) with true by (symmetry; apply Z.ltb_lt; lia).
  cbn [andb]. by destruct (byte_eqb (char_at z 0) char_minus).
Qed.

Lemma digits_value_nonneg W : 0 < base -> digit_list base W -> 0 <= digits_value base W.
Proof using Type. clear Hbase Hlen Hnodup Hlut0.
  intros Hp HW. pose proof (digits_value_lt base W Hp HW). lia.
Qed.

(** The result of the unsigned operations as a numeral. *)
Lemma add_sub_unsigned_numeral (add negate : bool) W1 W2 v fuel :
  digit_list base W1 -> digit_list base W2 ->
  (Nat.max (length W1) (length W2) + 3 < fuel)%nat ->
  (0 < base ->
   0 <= digits_value base W1 + (if add then 1 else -1) * digits_value base W2) ->
  v = (if negate then -1 else 1)
      * (digits_value base W1 + (if add then 1 else -1) * digits_value base W2) ->
  (base < 0 -> negate = false) ->
  exists s,
    Naive.add_sub_unsigned fuel lut0 add negate base alph (digits_string alph W1)
      (digits_string alph W2) = Done s /\
    numeral_of base alph v s.
Proof.
  intros H1 H2 Hfuel Hpos Hv Hneg.
  pose proof (length_digits_string W1) as Hl1.
  pose proof (length_digits_string W2) as Hl2.
  destruct (add_sub_unsigned_spec add negate (digits_string alph W1) (digits_string alph W2)
              fuel (digits_string_chars W1 H1) (digits_string_chars W2 H2)
              (digits_string_nonempty W1) ltac:(lia)) as (W & HW & HvW & _ & ->).
  { rewrite !number_value_digits_string by done. exact Hpos. }
  rewrite !number_value_digits_string in HvW by done.
  eexists. split; [reflexivity|]. exists W. split; [done|].
  destruct (Z.ltb_spec 0 base) as [Hp|Hn].
  - specialize (Hpos Hp). cbn [andb]. split.
    + destruct negate; lia.
    + f_equal. destruct negate; cbn [andb].
      * destruct (Z.eqb_spec (digits_value base W) 0), (Z.ltb_spec v 0); done || lia.
      * destruct (Z.ltb_spec v 0); done || lia.
  - rewrite Hneg in * by lia. cbn [andb]. split; [lia|done].
Qed.

Lemma sub_unsigned_to_signed_numeral W1 W2 v fuel :
  0 < base -> ~ In Byte.x00 alph ->
  digit_list base W1 -> digit_list base W2 -> trim W1 = W1 -> trim W2 = W2 ->
  (Nat.max (length W1) (length W2) + 3 < fuel)%nat ->
  v = digits_value base W1 - digits_value base W2 ->
  exists s,
    Naive.sub_unsigned_to_signed fuel lut0 base alph (digits_string alph W1)
      (digits_string alph W2) = Done s /\
    numeral_of base alph v s.
Proof.
  intros Hp Hnul H1 H2 Ht1 Ht2 Hfuel ->.
  destruct (sub_unsigned_to_signed_spec W1 W2 fuel Hp Hnul H1 H2 Ht1 Ht2 Hfuel)
    as (W & HW & HvW & ->).
  eexists. split; [reflexivity|]. exists W. split; [done|].
  replace (0 <? base) with true by (symmetry; apply Z.ltb_lt; lia). cbn [andb].
  split; done.
Qed.

Lemma mul_unsigned_numeral (negate : bool) W1 W2 v fuel :
  digit_list base W1 -> digit_list base W2 ->
  (3 * (Nat.max 1 (length W1) + Nat.max 1 (length W2)) + 5 + Z.to_nat (Z.abs base)
   < fuel)%nat ->
  v = (if negate then -1 else 1) * (digits_value base W1 * digits_value base W2) ->
  (base < 0 -> negate = false) ->
  exists s,
    Naive.mul_unsigned fuel lut0 negate base alph (digits_string alph W1)
      (digits_string alph W2) = Done s /\
    numeral_of base alph v s.
Proof.
  intros H1 H2 Hfuel Hv Hneg.
  pose proof (length_digits_string W1) as Hl1.
  pose proof (length_digits_string W2) as Hl2.
  destruct (mul_unsigned_spec negate (digits_string alph W1) (digits_string alph W2)
              fuel (digits_string_chars W1 H1) (digits_string_chars W2 H2)
              (digits_string_nonempty W1) (digits_string_nonempty W2) ltac:(lia))
    as (W & HW & HvW & ->).
  rewrite !number_value_digits_string in HvW by done.
  eexists. split; [reflexivity|]. exists W. split; [done|].
  destruct (Z.ltb_spec 0 base) as [Hp|Hn].
  - pose proof (digits_value_nonneg W1 Hp H1). pose proof (digits_value_nonneg W2 Hp H2).
    assert (0 <= digits_value base W1 * digits_value base W2) by nia.
    cbn [andb]. split.
    + destruct negate; lia.
    + f_equal. destruct negate; cbn [andb].
      * destruct (Z.eqb_spec (digits_value base W) 0), (Z.ltb_spec v 0); done || lia.
      * destruct (Z.ltb_spec v 0); done || lia.
  - rewrite Hneg in * by lia. cbn [andb]. split; [lia|done].
Qed.

(** The digit-wise core computes the numeral of the result. *)
Lemma impl_naive_spec z1 z2 op result fuel :
  ~ In Byte.x00 alph ->
  valid_number base alph z1 -> valid_number base alph z2 ->
  op = char_plus \/ op = char_minus \/ op = char_star ->
  (3 * (length z1 + length z2) + 5 + Z.to_nat (Z.abs base) < fuel)%nat ->
  exists s,
    Naive.impl_naive fuel lut0 base alph z1 z2 op result = Done s /\
    numeral_of base alph
      (arith op (signed_value base alph z1) (signed_value base alph z2)) s.
Proof.
  intros Hnul [Hne1 Hc1] [Hne2 Hc2] Hop Hfuel.
  destruct (stripped_digits _ Hnul Hne1 Hc1) as (T1 & HT1 & Ht1 & Hv1 & Hl1 & Hs1).
  destruct (stripped_digits _ Hnul Hne2 Hc2) as (T2 & HT2 & Ht2 & Hv2 & Hl2 & Hs2).
  pose proof (length_digit_chars base z1) as Hd1.
  pose proof (length_digit_chars base z2) as Hd2.
  assert (1 <= length (digit_chars base z1))%nat as Hp1.
  { destruct (digit_chars base z1); [done|cbn; lia]. }
  assert (1 <= length (digit_chars base z2))%nat as Hp2.
  { destruct (digit_chars base z2); [done|cbn; lia]. }
  unfold Naive.impl_naive, signed_value. rewrite <- Hv1, <- Hv2.
  destruct (Z.ltb_spec base 0) as [Hn|Hp].
  - rewrite (has_minus_false_negative base z1 Hn) in *.
    rewrite (has_minus_false_negative base z2 Hn) in *.
    unfold digit_chars in Hs1, Hs2.
    rewrite (has_minus_false_negative base z1 Hn) in Hs1.
    rewrite (has_minus_false_negative base z2 Hn) in Hs2.
    cbv zeta. rewrite Hs1, Hs2. unfold arith.
    destruct Hop as [-> | [-> | ->]].
    + change (byte_eqb char_plus char_plus) with true. cbv iota.
      apply add_sub_unsigned_numeral; [done | done | lia | lia | lia | done].
    + change (byte_eqb char_minus char_plus) with false.
      change (byte_eqb char_minus char_minus) with true. cbv iota.
      apply add_sub_unsigned_numeral; [done | done | lia | lia | lia | done].
    + change (byte_eqb char_star char_plus) with false.
      change (byte_eqb char_star char_minus) with false.
      change (byte_eqb char_star char_star) with true. cbv iota.
      apply mul_unsigned_numeral; [done | done | lia | lia | done].
  - assert (0 < base) as Hpos by lia.
    pose proof (digits_value_nonneg T1 Hpos HT1) as Hnn1.
    pose proof (digits_value_nonneg T2 Hpos HT2) as Hnn2.
    rewrite !strip_sign_digit_chars by done. cbv zeta. cbn iota beta.
    rewrite Hs1, Hs2. unfold arith.
    destruct Hop as [-> | [-> | ->]].
    + change (byte_eqb char_plus char_plus) with true. cbv iota.
      destruct (has_minus base z1), (has_minus base z2); cbn [negb andb].
      * apply add_sub_unsigned_numeral; [done | done | lia | lia | lia | lia].
      * apply sub_unsigned_to_signed_numeral; [done..| lia | lia].
      * apply sub_unsigned_to_signed_numeral; [done..| lia | lia].
      * apply add_sub_unsigned_numeral; [done | done | lia | lia | lia | lia].
    + change (byte_eqb char_minus char_plus) with false.
      change (byte_eqb char_minus char_minus) with true. cbv iota.
      destruct (has_minus base z1), (has_minus base z2); cbn [negb andb].
      * apply sub_unsigned_to_signed_numeral; [done..| lia | lia].
      * apply add_sub_unsigned_numeral; [done | done | lia | lia | lia | lia].
      * apply add_sub_unsigned_numeral; [done | done | lia | lia | lia | lia].
      * apply sub_unsigned_to_signed_numeral; [done..| lia | lia].
    + change (byte_eqb char_star char_plus) with false.
      change (byte_eqb char_star char_minus) with false.
      change (byte_eqb char_star char_star) with true. cbv iota.
      destruct (has_minus base z1), (has_minus base z2); cbn [negb andb Bool.eqb].
      * apply mul_unsigned_numeral; [done | done | lia | lia | lia].
      * apply mul_unsigned_numeral; [done | done | lia | lia | lia].
      * apply mul_unsigned_numeral; [done | done | lia | lia | lia].
      * apply mul_unsigned_numeral; [done | done | lia | lia | lia].
Qed.
End NaiveCore.

(** ** The numbers that a given number of digits can write *)

Lemma digit_range_S base k :
  digit_range base (S k)
  = if 0 <? base
    then (base * fst (digit_range base k), Z.abs base - 1 + base * snd (digit_range base k))
    else (base * snd (digit_range base k), Z.abs base - 1 + base * fst (digit_range base k)).
Proof. cbn [digit_range]. by destruct (digit_range base k). Qed.

Lemma digit_range_sign base k :
  2 <= Z.abs base -> fst (digit_range base k) <= 0 <= snd (digit_range base k).
Proof.
  intros Hb. induction k as [|k IH]; [done|]. rewrite digit_range_S.
  destruct (Z.ltb_spec 0 base); cbn [fst snd]; nia.
Qed.

Lemma digit_range_mono_S base k :
  2 <= Z.abs base ->
  fst (digit_range base (S k)) <= fst (digit_range base k) /\
  snd (digit_range base k) <= snd (digit_range base (S k)).
Proof.
  intros Hb. induction k as [|k IH].
  - rewrite digit_range_S. destruct (Z.ltb_spec 0 base); cbn; lia.
  - rewrite (digit_range_S base (S k)). rewrite (digit_range_S base k) in IH |- *.
    pose proof (digit_range_sign base k Hb).
    destruct (Z.ltb_spec 0 base); cbn [fst snd] in *; nia.
Qed.

Lemma digit_range_mono base k k' :
  2 <= Z.abs base -> (k <= k')%nat ->
  fst (digit_range base k') <= fst (digit_range base k) /\
  snd (digit_range base k) <= snd (digit_range base k').
Proof.
  intros Hb Hk. induction Hk as [|k' Hk IH]; [lia|].
  pose proof (digit_range_mono_S base k' Hb). lia.
Qed.

(** Every digit list of length [k] is in the range, and every number of the
    range has a digit list of length [k]. *)
Lemma digits_value_in_range base ds :
  2 <= Z.abs base -> digit_list base ds ->
  fst (digit_range base (length ds)) <= digits_value base ds
  <= snd (digit_range base (length ds)).
Proof.
  intros Hb. induction ds as [|d t IH]; intros Hds; [done|].
  inversion Hds as [|? ? Hd Ht]; subst. specialize (IH Ht).
  cbn [length digits_value]. rewrite digit_range_S.
  destruct (Z.ltb_spec 0 base); cbn [fst snd]; nia.
Qed.

Lemma digits_exist base k v :
  2 <= Z.abs base ->
  fst (digit_range base k) <= v <= snd (digit_range base k) ->
  exists ds, length ds = k /\ digit_list base ds /\ digits_value base ds = v.
Proof.
  intros Hb. revert v. induction k as [|k IH]; intros v Hv.
  - exists []. cbn in Hv. split; [done|]. split; [constructor|]. cbn. lia.
  - rewrite digit_range_S in Hv.
    pose proof (Z.mod_pos_bound v (Z.abs base) ltac:(lia)) as Hd.
    pose proof (Z.div_mod v (Z.abs base) ltac:(lia)) as Hdm.
    set (d := v mod Z.abs base) in *. set (t := v / Z.abs base) in *.
    clearbody d t.
    destruct (Z.ltb_spec 0 base) as [Hp|Hn]; cbn [fst snd] in Hv.
    + destruct (IH t) as (ds & Hl & Hds & Hval); [nia|].
      exists (d :: ds). split; [by cbn; rewrite Hl|]. split; [by constructor|].
      cbn [digits_value]. rewrite Hval. lia.
    + destruct (IH (- t)) as (ds & Hl & Hds & Hval); [nia|].
      exists (d :: ds). split; [by cbn; rewrite Hl|]. split; [by constructor|].
      cbn [digits_value]. rewrite Hval. lia.
Qed.

Lemma digit_range_positive base k :
  2 <= base -> digit_range base k = (0, base ^ Z.of_nat k - 1).
Proof.
  intros Hb. induction k as [|k IH]; [done|].
  rewrite digit_range_S, IH. replace (0 <? base) with true by (symmetry; apply Z.ltb_lt; lia).
  cbn [fst snd]. rewrite Nat2Z.inj_succ, Z.pow_succ_r by lia. f_equal; lia.
Qed.

Lemma digit_range_SS base k :
  base < 0 ->
  fst (digit_range base (S (S k)))
  = base * base * fst (digit_range base k) + base * (Z.abs base - 1) /\
  snd (digit_range base (S (S k)))
  = base * base * snd (digit_range base k) + (Z.abs base - 1).
Proof.
  intros Hn. rewrite (digit_range_S base (S k)), (digit_range_S base k).
  replace (0 <? base) with false by (symmetry; apply Z.ltb_ge; lia).
  cbn [fst snd]. lia.
Qed.

Lemma digit_range_width base k :
  base < 0 ->
  snd (digit_range base k) - fst (digit_range base k) = Z.abs base ^ Z.of_nat k - 1.
Proof.
  intros Hn. induction k as [|k IH]; [done|].
  rewrite digit_range_S. replace (0 <? base) with false by (symmetry; apply Z.ltb_ge; lia).
  cbn [fst snd]. rewrite Nat2Z.inj_succ, Z.pow_succ_r by lia. nia.
Qed.

(** The two ends of the range are within a factor [|base|] of each other. *)
Lemma digit_range_ratio base k :
  base <= -2 ->
  - fst (digit_range base k) <= Z.abs base * snd (digit_range base k) /\
  snd (digit_range base k) <= Z.abs base * - fst (digit_range base k) + (Z.abs base - 1).
Proof.
  intros Hn. destruct k as [|k]; [cbn; lia|].
  pose proof (digit_range_mono_S base k ltac:(lia)) as [Hlo Hhi].
  rewrite digit_range_S in *.
  replace (0 <? base) with false in * by (symmetry; apply Z.ltb_ge; lia).
  cbn [fst snd] in *. nia.
Qed.

(** Sums and differences of two [k]-digit numbers have [k + 2] digits in a
    negative base. *)
Lemma digit_range_add base k x y :
  base <= -2 ->
  fst (digit_range base k) <= x <= snd (digit_range base k) ->
  fst (digit_range base k) <= y <= snd (digit_range base k) ->
  fst (digit_range base (S (S k))) <= x + y <= snd (digit_range base (S (S k))).
Proof.
  intros Hn Hx Hy. destruct (digit_range_SS base k ltac:(lia)) as [-> ->].
  pose proof (digit_range_sign base k ltac:(lia)) as Hs.
  set (lo := fst (digit_range base k)) in *. set (hi := snd (digit_range base k)) in *.
  clearbody lo hi. rewrite Z.abs_neq by lia.
  assert (4 <= base * base) as Hsq by nia.
  assert (base * base * lo <= 4 * lo) by nia.
  assert (4 * hi <= base * base * hi) by nia.
  assert (base * (- base - 1) <= 0) by nia. lia.
Qed.

Lemma digit_range_sub base k x y :
  base <= -2 ->
  fst (digit_range base k) <= x <= snd (digit_range base k) ->
  fst (digit_range base k) <= y <= snd (digit_range base k) ->
  fst (digit_range base (S (S k))) <= x - y <= snd (digit_range base (S (S k))).
Proof.
  intros Hn Hx Hy. destruct (digit_range_SS base k ltac:(lia)) as [-> ->].
  pose proof (digit_range_sign base k ltac:(lia)) as Hs.
  pose proof (digit_range_ratio base k Hn) as Hr.
  set (lo := fst (digit_range base k)) in *. set (hi := snd (digit_range base k)) in *.
  clearbody lo hi. rewrite Z.abs_neq in * by lia.
  assert (4 <= base * base) as Hsq by nia.
  assert (- base * hi <= (base * base - 1) * hi) by nia.
  assert (- base * - lo <= (base * base - 1) * - lo) by nia.
  assert (- base - 1 <= - base * (- base - 1)) by nia. lia.
Qed.

Lemma digit_range_odd base j :
  base <= -2 ->
  Z.abs base ^ Z.of_nat (2 * j) <= snd (digit_range base (S (2 * j))) /\
  (Z.abs base - 1) * Z.abs base ^ Z.of_nat (2 * j + 1)
  <= - fst (digit_range base (S (S (S (2 * j))))).
Proof.
  intros Hn. induction j as [|j [IH1 IH2]].
  - cbn [Nat.mul Nat.add]. rewrite !digit_range_S.
    replace (0 <? base) with false by (symmetry; apply Z.ltb_ge; lia).
    cbn [digit_range fst snd]. rewrite Z.abs_neq by lia.
    change (Z.of_nat 0) with 0. change (Z.of_nat 1) with 1. rewrite Z.pow_0_r, Z.pow_1_r. nia.
  - replace (2 * S j)%nat with (S (S (2 * j))) by lia.
    destruct (digit_range_SS base (S (2 * j)) ltac:(lia)) as [_ ->].
    destruct (digit_range_SS base (S (S (S (2 * j)))) ltac:(lia)) as [-> _].
    replace (Z.of_nat (S (S (2 * j)))) with (Z.of_nat (2 * j) + 2) by lia.
    replace (Z.of_nat (S (S (2 * j)) + 1)) with (Z.of_nat (2 * j + 1) + 2) by lia.
    rewrite !Z.pow_add_r by lia.
    rewrite !Z.pow_2_r.
    rewrite Z.abs_neq in * by lia.
    set (P := (- base) ^ Z.of_nat (2 * j)) in *.
    set (Q := (- base) ^ Z.of_nat (2 * j + 1)) in *.
    assert (0 <= P) by (apply Z.pow_nonneg; lia).
    assert (0 <= Q) by (apply Z.pow_nonneg; lia).
    set (h := snd (digit_range base (S (2 * j)))) in *.
    set (l := fst (digit_range base (S (S (S (2 * j)))))) in *.
    clearbody P Q h l. split; nia.
Qed.

Lemma box_product (L H x y : Z) :
  0 <= L -> 0 <= H -> - L <= x <= H -> - L <= y <= H ->
  - (H * L) <= x * y <= (H + L) * (H + L).
Proof.
  intros HL HH Hx Hy.
  assert (0 <= H * L) by nia.
  destruct (Z.le_gt_cases 0 x), (Z.le_gt_cases 0 y); split.
  - nia.
  - assert (x * y <= H * H) by nia. nia.
  - assert (x * - y <= H * L) by nia. lia.
  - nia.
  - assert (- x * y <= L * H) by nia. lia.
  - nia.
  - nia.
  - assert (- x * - y <= L * L) by nia. nia.
Qed.

(** The product of two [k]-digit numbers has [2 k + 1] digits in a negative
    base. *)
Lemma digit_range_mul base k x y :
  base <= -2 -> (1 <= k)%nat ->
  fst (digit_range base k) <= x <= snd (digit_range base k) ->
  fst (digit_range base k) <= y <= snd (digit_range base k) ->
  fst (digit_range base (S (2 * k))) <= x * y <= snd (digit_range base (S (2 * k))).
Proof.
  intros Hn Hk Hx Hy.
  pose proof (digit_range_sign base k ltac:(lia)) as Hs.
  pose proof (digit_range_width base k ltac:(lia)) as Hw.
  destruct (digit_range_odd base k Hn) as [Hhi _].
  destruct (digit_range_odd base (k - 1) Hn) as [_ Hlo].
  replace (S (S (S (2 * (k - 1))))) with (S (2 * k)) in Hlo by lia.
  replace (2 * (k - 1) + 1)%nat with (2 * k - 1)%nat in Hlo by lia.
  assert (Z.abs base ^ Z.of_nat (2 * k)
          = Z.abs base ^ Z.of_nat k * Z.abs base ^ Z.of_nat k) as Hsq.
  { rewrite <- Z.pow_add_r by lia. f_equal. lia. }
  assert (Z.abs base ^ Z.of_nat (2 * k)
          = Z.abs base * Z.abs base ^ Z.of_nat (2 * k - 1)) as Hpred.
  { rewrite <- Z.pow_succ_r by lia. f_equal. lia. }
  assert (0 < Z.abs base ^ Z.of_nat k) as HWpos by (apply Z.pow_pos_nonneg; lia).
  assert (0 < Z.abs base ^ Z.of_nat (2 * k - 1)) as HPpos by (apply Z.pow_pos_nonneg; lia).
  pose proof (box_product (- fst (digit_range base k)) (snd (digit_range base k)) x y
                ltac:(lia) ltac:(lia) ltac:(lia) ltac:(lia)) as Hbox.
  set (lo := fst (digit_range base k)) in *. set (hi := snd (digit_range base k)) in *.
  set (W := Z.abs base ^ Z.of_nat k) in *.
  set (P := Z.abs base ^ Z.of_nat (2 * k - 1)) in *.
  set (W2 := Z.abs base ^ Z.of_nat (2 * k)) in *.
  set (lo' := fst (digit_range base (S (2 * k)))) in *.
  set (hi' := snd (digit_range base (S (2 * k)))) in *.
  assert (2 <= Z.abs base) as HB by lia.
  set (B := Z.abs base) in *.
  clearbody lo hi W P W2 lo' hi' B.
  assert (hi + - lo = W - 1) as Hsum by lia.
  rewrite Hsum in Hbox.
  assert ((W - 1) * (W - 1) <= W2) by nia.
  assert (4 * (hi * - lo) <= (W - 1) * (W - 1)).
  { replace ((W - 1) * (W - 1)) with ((hi + lo) * (hi + lo) + 4 * (hi * - lo))
      by (rewrite <- Hsum; ring).
    pose proof (Z.square_nonneg (hi + lo)). lia. }
  assert (W2 <= 4 * ((B - 1) * P)) by nia.
  lia.
Qed.

(** ** The binary-conversion core computes the numeral of the result *)

Lemma min_size_le base (n : nat) :
  2 <= Z.abs base <= 128 -> (get_big_integer_min_size base n <= n + 1)%nat.
Proof.
  intros Hb. unfold get_big_integer_min_size, get_big_integer_min_size_exponentiation.
  destruct (binary_logarithm_spec base ltac:(lia)) as [Hl _].
  set (l := binary_logarithm_8bit_abs_ceil base) in *. clearbody l.
  assert (l * Z.of_nat n ÷ 8 <= Z.of_nat n).
  { rewrite Z.quot_div_nonneg by nia. apply Z.div_le_upper_bound; nia. }
  assert (0 <= l * Z.of_nat n ÷ 8) by (apply Z.quot_pos; nia). lia.
Qed.

Lemma bi_value_product a b r :
  le_val (mem r) = le_val (mem a) * le_val (mem b) -> sign r = xorb (sign a) (sign b) ->
  bi_value r = bi_value a * bi_value b.
Proof. unfold bi_value. intros -> ->. destruct (sign a), (sign b); cbn [xorb]; lia. Qed.

Lemma size_of_sum (v1 v2 : Z) (m1 m2 : nat) :
  Z.abs v1 < 256 ^ Z.of_nat m1 -> Z.abs v2 < 256 ^ Z.of_nat m2 ->
  Z.abs (v1 + v2) < 256 ^ Z.of_nat (Nat.max m1 m2 + 1) /\
  Z.abs (v1 - v2) < 256 ^ Z.of_nat (Nat.max m1 m2 + 1).
Proof.
  intros H1 H2.
  assert (256 ^ Z.of_nat m1 <= 256 ^ Z.of_nat (Nat.max m1 m2)) as Hmx1
    by (apply Z.pow_le_mono_r; lia).
  assert (256 ^ Z.of_nat m2 <= 256 ^ Z.of_nat (Nat.max m1 m2)) as Hmx2
    by (apply Z.pow_le_mono_r; lia).
  assert (256 ^ Z.of_nat (Nat.max m1 m2 + 1) = 256 * 256 ^ Z.of_nat (Nat.max m1 m2)) as ->.
  { rewrite <- Z.pow_succ_r by lia. f_equal. lia. }
  set (P := 256 ^ Z.of_nat (Nat.max m1 m2)) in *.
  set (P1 := 256 ^ Z.of_nat m1) in *. set (P2 := 256 ^ Z.of_nat m2) in *.
  clearbody P P1 P2. lia.
Qed.

Section BinaryCore.
Variables (base : Z) (alph : cstring).
Hypothesis Hbase : 2 <= Z.abs base <= 128.
Hypothesis Halph : valid_alphabet base alph.

Lemma number_value_digit_chars z :
  number_value base alph z = number_value base alph (digit_chars base z).
Proof.
  unfold number_value.
  rewrite <- (digits_value_trim base (digits_of alph z)).
  rewrite (trim_digits_of_digit_chars base alph Halph z). apply digits_value_trim.
Qed.

(** The value of a parsed operand, with the sign that the entry point sets. *)
Lemma operand_value z b :
  bi_value b = number_value base alph z -> (0 < base -> sign b = false) ->
  bi_value (if has_minus base z then set_sign b true else b) = signed_value base alph z.
Proof.
  intros Hv Hs. unfold signed_value. rewrite <- number_value_digit_chars, <- Hv.
  destruct (has_minus base z) eqn:E; [|done].
  destruct (has_minus_shape base z E) as [Hp _].
  rewrite bi_value_set_sign, (bi_value_nonneg b) by auto. done.
Qed.

Lemma signed_value_range z :
  fst (digit_range base (length (digit_chars base z))) <= number_value base alph (digit_chars base z)
  <= snd (digit_range base (length (digit_chars base z))).
Proof.
  destruct Halph as (Hlen & _). unfold number_value.
  rewrite <- (length_digits_of alph (digit_chars base z)).
  apply digits_value_in_range; [lia|]. by apply digit_list_digits_of.
Qed.

(** The zero test and the projection of a value. *)
Lemma project_value res v fuel buffer_length simd ds :
  bi_value res = v -> (1 <= bi_length res)%nat ->
  digit_list base ds ->
  digits_value base ds = (if 0 <? base then Z.abs v else v) ->
  (length ds < fuel)%nat ->
  (if 0 <? base
   then ((if (v <? 0)%Z then 1 else 0) + Nat.max 1 (length ds) < buffer_length)%nat
   else (length ds <= buffer_length)%nat) ->
  exists s,
    (z ← big_integer_is_zero res simd;
     convert_big_integer_to_any_base fuel (if (z : bool) then set_sign res false else res)
       base alph buffer_length simd) = Done s /\
    numeral_of base alph v s.
Proof.
  intros Hv Hl Hds Hval Hfuel Hbuf. destruct Halph as (Hlen & _).
  rewrite big_integer_is_zero_value, Hv. cbn [mbind outcome_bind obind].
  set (r := if v =? 0 then set_sign res false else res).
  assert (bi_value r = v) as Hr.
  { subst r. destruct (Z.eqb_spec v 0) as [E|E]; [|done].
    rewrite bi_value_set_sign. pose proof (bi_value_abs res). lia. }
  assert (sign r = (v <? 0)) as Hsr.
  { subst r. destruct (Z.eqb_spec v 0) as [E|E].
    - subst v. by rewrite E.
    - unfold bi_value in Hv. pose proof (le_val_nonneg (mem res)).
      destruct (sign res); symmetry; [apply Z.ltb_lt | apply Z.ltb_ge]; lia. }
  assert (bi_length r = bi_length res) as Hlr by (subst r; by destruct (v =? 0)).
  pose proof (length_trim ds) as Hlt.
  rewrite (convert_big_integer_to_any_base_value fuel r base alph buffer_length simd ds).
  - eexists. split; [reflexivity|]. exists ds. split; [done|]. split; [done|].
    rewrite Hsr, andb_comm. done.
  - done.
  - done.
  - done.
  - rewrite Hval. destruct (0 <? base); [|done]. by rewrite <- bi_value_abs, Hr.
  - lia.
  - rewrite Hsr. destruct (0 <? base); [|lia]. destruct (v <? 0); lia.
  - lia.
Qed.

(** A digit list of a given length for a value within the bound. *)
Lemma digits_for v (kneg kpos kn : nat) :
  (0 < base ->
   (v < 0 -> Z.abs v < base ^ Z.of_nat kneg) /\ (0 <= v -> v < base ^ Z.of_nat kpos)) ->
  (base < 0 -> fst (digit_range base kn) <= v <= snd (digit_range base kn)) ->
  exists ds,
    digit_list base ds /\
    digits_value base ds = (if 0 <? base then Z.abs v else v) /\
    length ds = if 0 <? base then (if v <? 0 then kneg else kpos) else kn.
Proof.
  intros Hpos Hneg. destruct (Z.ltb_spec 0 base) as [Hp|Hn].
  - destruct (Hpos Hp) as [H1 H2].
    destruct (Z.ltb_spec v 0) as [Hv|Hv].
    + destruct (digits_exist base kneg (Z.abs v) ltac:(lia)) as (ds & Hl & Hds & Hval).
      { rewrite digit_range_positive by lia. cbn [fst snd]. specialize (H1 Hv). lia. }
      by exists ds.
    + destruct (digits_exist base kpos (Z.abs v) ltac:(lia)) as (ds & Hl & Hds & Hval).
      { rewrite digit_range_positive by lia. cbn [fst snd]. specialize (H2 Hv). lia. }
      by exists ds.
  - destruct (digits_exist base kn v ltac:(lia)) as (ds & Hl & Hds & Hval);
      [apply Hneg; lia|]. by exists ds.
Qed.

(** The bound on an operand that the length of its string gives. *)
Lemma operand_bound z (M : nat) :
  valid_number base alph z -> (length z <= M)%nat ->
  (0 < base ->
   0 <= number_value base alph (digit_chars base z)
   < base ^ Z.of_nat (M - if has_minus base z then 1 else 0) /\
   (1 <= M - if has_minus base z then 1 else 0)%nat) /\
  (base < 0 ->
   has_minus base z = false /\
   fst (digit_range base M) <= number_value base alph (digit_chars base z)
   <= snd (digit_range base M)).
Proof.
  intros [Hne Hc] HM. destruct Halph as (Hlen & _).
  pose proof (length_digit_chars base z) as Hl.
  assert (1 <= length (digit_chars base z))%nat as HN.
  { destruct (digit_chars base z); [done|cbn; lia]. }
  split.
  - intros Hp.
    pose proof (digits_value_lt base (digits_of alph (digit_chars base z)) Hp
                  (digit_list_digits_of base alph Hbase Hlen _)) as Hr.
    rewrite length_digits_of in Hr. fold (number_value base alph (digit_chars base z)) in Hr.
    assert (base ^ Z.of_nat (length (digit_chars base z))
            <= base ^ Z.of_nat (M - if has_minus base z then 1 else 0)).
    { apply Z.pow_le_mono_r; [lia|]. destruct (has_minus base z); lia. }
    split; [lia|]. destruct (has_minus base z); lia.
  - intros Hn. split; [by apply has_minus_false_negative|].
    pose proof (signed_value_range z) as Hr.
    destruct (digit_range_mono base (length (digit_chars base z)) M ltac:(lia)) as [H1 H2].
    { rewrite has_minus_false_negative in Hl by done. lia. }
    lia.
Qed.

Lemma add_bounds z1 z2 :
  valid_number base alph z1 -> valid_number base alph z2 ->
  let M := Nat.max (length z1) (length z2) in
  let v := signed_value base alph z1 + signed_value base alph z2 in
  (0 < base ->
   (v < 0 -> Z.abs v < base ^ Z.of_nat M) /\ (0 <= v -> v < base ^ Z.of_nat (M + 1))) /\
  (base < 0 -> fst (digit_range base (M + 2)) <= v <= snd (digit_range base (M + 2))).
Proof.
  intros Hz1 Hz2 M v.
  destruct (operand_bound z1 M Hz1 ltac:(lia)) as [Hp1 Hn1].
  destruct (operand_bound z2 M Hz2 ltac:(lia)) as [Hp2 Hn2].
  subst v. unfold signed_value. split.
  - intros Hp. destruct (Hp1 Hp) as [R1 L1]. destruct (Hp2 Hp) as [R2 L2].
    assert (base ^ Z.of_nat (M + 1) = base * base ^ Z.of_nat M) as E1.
    { rewrite <- Z.pow_succ_r by lia. f_equal. lia. }
    assert (base ^ Z.of_nat M = base * base ^ Z.of_nat (M - 1)) as E2.
    { rewrite <- Z.pow_succ_r by lia. f_equal. destruct (has_minus base z1); lia. }
    assert (0 < base ^ Z.of_nat (M - 1)) by (apply Z.pow_pos_nonneg; lia).
    assert (2 <= base) as Hb2 by lia.
    destruct (has_minus base z1), (has_minus base z2);
      replace (M - 0)%nat with M in * by lia;
      set (n1 := number_value base alph (digit_chars base z1)) in *;
      set (n2 := number_value base alph (digit_chars base z2)) in *;
      set (P := base ^ Z.of_nat (M - 1)) in *; set (Q := base ^ Z.of_nat M) in *;
      set (R := base ^ Z.of_nat (M + 1)) in *; clearbody n1 n2 P Q R;
      (split; intros; nia).
  - intros Hn. destruct (Hn1 Hn) as [-> R1]. destruct (Hn2 Hn) as [-> R2].
    replace (M + 2)%nat with (S (S M)) by lia. apply digit_range_add; lia || done.
Qed.

Lemma sub_bounds z1 z2 :
  valid_number base alph z1 -> valid_number base alph z2 ->
  let M := Nat.max (length z1) (length z2) in
  let v := signed_value base alph z1 - signed_value base alph z2 in
  (0 < base -> Z.abs v < base ^ Z.of_nat (M + 1)) /\
  (base < 0 -> fst (digit_range base (M + 2)) <= v <= snd (digit_range base (M + 2))).
Proof.
  intros Hz1 Hz2 M v.
  destruct (operand_bound z1 M Hz1 ltac:(lia)) as [Hp1 Hn1].
  destruct (operand_bound z2 M Hz2 ltac:(lia)) as [Hp2 Hn2].
  subst v. unfold signed_value. split.
  - intros Hp. destruct (Hp1 Hp) as [R1 L1]. destruct (Hp2 Hp) as [R2 L2].
    assert (base ^ Z.of_nat (M + 1) = base * base ^ Z.of_nat M) as E1.
    { rewrite <- Z.pow_succ_r by lia. f_equal. lia. }
    assert (base ^ Z.of_nat M = base * base ^ Z.of_nat (M - 1)) as E2.
    { rewrite <- Z.pow_succ_r by lia. f_equal. destruct (has_minus base z1); lia. }
    assert (0 < base ^ Z.of_nat (M - 1)) by (apply Z.pow_pos_nonneg; lia).
    assert (2 <= base) as Hb2 by lia.
    destruct (has_minus base z1), (has_minus base z2);
      replace (M - 0)%nat with M in * by lia;
      set (n1 := number_value base alph (digit_chars base z1)) in *;
      set (n2 := number_value base alph (digit_chars base z2)) in *;
      set (P := base ^ Z.of_nat (M - 1)) in *; set (Q := base ^ Z.of_nat M) in *;
      set (R := base ^ Z.of_nat (M + 1)) in *; clearbody n1 n2 P Q R; nia.
  - intros Hn. destruct (Hn1 Hn) as [-> R1]. destruct (Hn2 Hn) as [-> R2].
    replace (M + 2)%nat with (S (S M)) by lia. apply digit_range_sub; lia || done.
Qed.

Lemma mul_bounds z1 z2 :
  valid_number base alph z1 -> valid_number base alph z2 ->
  let M := Nat.max (length z1) (length z2) in
  let v := signed_value base alph z1 * signed_value base alph z2 in
  (0 < base ->
   (v < 0 -> Z.abs v < base ^ Z.of_nat (2 * M - 1)) /\
   (0 <= v -> v < base ^ Z.of_nat (2 * M))) /\
  (base < 0 -> fst (digit_range base (2 * M + 1)) <= v <= snd (digit_range base (2 * M + 1))).
Proof.
  intros Hz1 Hz2 M v.
  destruct (operand_bound z1 M Hz1 ltac:(lia)) as [Hp1 Hn1].
  destruct (operand_bound z2 M Hz2 ltac:(lia)) as [Hp2 Hn2].
  assert (1 <= M)%nat as HM.
  { destruct Hz1 as [Hne _]. pose proof (length_digit_chars base z1).
    destruct (digit_chars base z1); [done|]. cbn in *. lia. }
  subst v. unfold signed_value. split.
  - intros Hp. destruct (Hp1 Hp) as [R1 L1]. destruct (Hp2 Hp) as [R2 L2].
    assert (base ^ Z.of_nat (2 * M) = base ^ Z.of_nat M * base ^ Z.of_nat M) as E1.
    { rewrite <- Z.pow_add_r by lia. f_equal. lia. }
    assert (base ^ Z.of_nat (2 * M - 1) = base ^ Z.of_nat M * base ^ Z.of_nat (M - 1)) as E2.
    { rewrite <- Z.pow_add_r by lia. f_equal. lia. }
    assert (base ^ Z.of_nat M = base * base ^ Z.of_nat (M - 1)) as E3.
    { rewrite <- Z.pow_succ_r by lia. f_equal. lia. }
    assert (0 < base ^ Z.of_nat (M - 1)) by (apply Z.pow_pos_nonneg; lia).
    assert (2 <= base) as Hb2 by lia.
    destruct (has_minus base z1), (has_minus base z2);
      replace (M - 0)%nat with M in * by lia;
      set (n1 := number_value base alph (digit_chars base z1)) in *;
      set (n2 := number_value base alph (digit_chars base z2)) in *;
      set (P := base ^ Z.of_nat (M - 1)) in *; set (Q := base ^ Z.of_nat M) in *;
      set (R := base ^ Z.of_nat (2 * M)) in *; set (S' := base ^ Z.of_nat (2 * M - 1)) in *;
      clearbody n1 n2 P Q R S';
      assert (P <= Q) as HPQ by nia;
      assert (0 <= n1 * n2) as Hnn by nia;
      [ assert (n1 * n2 < P * P) by nia; assert (P * P <= Q * Q) by nia
      | assert (n1 * n2 < P * Q) by nia; assert (P * Q <= Q * Q) by nia
      | assert (n1 * n2 < Q * P) by nia; assert (Q * P <= Q * Q) by nia
      | assert (n1 * n2 < Q * Q) by nia ];
      (split; intros; lia).
  - intros Hn. destruct (Hn1 Hn) as [-> R1]. destruct (Hn2 Hn) as [-> R2].
    replace (2 * M + 1)%nat with (S (2 * M)) by lia. apply digit_range_mul; lia || done.
Qed.

Lemma signed_value_fits z (m : nat) :
  (get_big_integer_min_size base (length z) <= m)%nat ->
  Z.abs (signed_value base alph z) < 256 ^ Z.of_nat m.
Proof.
  intros Hm. destruct Halph as (Hlen & _).
  destruct (min_size_exponentiation_spec base (length z) ltac:(lia)) as [_ Hf].
  fold (get_big_integer_min_size base (length z)) in Hf.
  assert (256 ^ Z.of_nat (get_big_integer_min_size base (length z)) <= 256 ^ Z.of_nat m)
    by (apply Z.pow_le_mono_r; lia).
  pose proof (digits_value_bound base (digits_of alph z) ltac:(lia)
                (digit_list_digits_of base alph Hbase Hlen z)) as Hb.
  rewrite length_digits_of in Hb. fold (number_value base alph z) in Hb.
  unfold signed_value. rewrite <- number_value_digit_chars.
  destruct (has_minus base z); lia.
Qed.

Lemma binary_conversion_spec z1 z2 op fuel simd :
  valid_number base alph z1 -> valid_number base alph z2 ->
  op = char_plus \/ op = char_minus \/ op = char_star ->
  8 * Z.of_nat (Nat.max (length z1) (length z2)) < 2 ^ 31 ->
  (2 * Nat.max (length z1) (length z2) + 3 < fuel)%nat ->
  exists s,
    arith_op_any_base__binary_conversion fuel base alph z1 z2 op simd = Done s /\
    numeral_of base alph
      (arith op (signed_value base alph z1) (signed_value base alph z2)) s.
Proof.
  intros Hz1 Hz2 Hop Hint Hfuel. pose proof Halph as (Hlen & _).
  unfold arith_op_any_base__binary_conversion. cbv zeta.
  fold (has_minus base z1). fold (has_minus base z2).
  pose proof (min_size_le base (length z1) Hbase) as Hm1.
  pose proof (min_size_le base (length z2) Hbase) as Hm2.
  destruct (min_size_fits base (length z1) _ Hbase (Nat.le_refl _)) as [Hp1 Hf1].
  destruct (min_size_fits base (length z2) _ Hbase (Nat.le_refl _)) as [Hp2 Hf2].
  pose proof (signed_value_fits z1 _ (Nat.le_refl _)) as Hs1.
  pose proof (signed_value_fits z2 _ (Nat.le_refl _)) as Hs2.
  assert (1 <= Nat.max (length z1) (length z2))%nat as HM.
  { destruct Hz1 as [Hne _]. pose proof (length_digit_chars base z1).
    destruct (digit_chars base z1); [done|]. cbn in *. lia. }
  assert (2 <= Z.abs base <= 255) as Hb255 by lia.
  destruct (add_bounds z1 z2 Hz1 Hz2) as [Bap Ban].
  destruct (sub_bounds z1 z2 Hz1 Hz2) as [Bsp Bsn].
  destruct (mul_bounds z1 z2 Hz1 Hz2) as [Bmp Bmn].
  assert (Z.of_nat (Nat.max (get_big_integer_min_size base (length z1))
                      (get_big_integer_min_size base (length z2)) + 1) < 2 ^ 64) as H64.
  { change (2 ^ 64) with 18446744073709551616. change (2 ^ 31) with 2147483648 in Hint.
    clear - Hm1 Hm2 Hint. lia. }
  set (m1 := get_big_integer_min_size base (length z1)) in *.
  set (m2 := get_big_integer_min_size base (length z2)) in *.
  set (M := Nat.max (length z1) (length z2)) in *.
  set (V1 := signed_value base alph z1) in *. set (V2 := signed_value base alph z2) in *.
  clearbody m1 m2 M. clear Hm1 Hm2 Hint.
  destruct (size_of_sum V1 V2 m1 m2 Hs1 Hs2) as [Hsum Hdiff].
  assert (Z.abs base ^ Z.of_nat (length z1) <= 256 ^ Z.of_nat (Nat.max m1 m2 + 1)) as Hf1'.
  { pose proof (Z.pow_le_mono_r 256 (Z.of_nat m1) (Z.of_nat (Nat.max m1 m2 + 1))
                  ltac:(clear; lia) ltac:(clear; lia)) as Hle.
    clear - Hf1 Hle. lia. }
  destruct Hop as [-> | [-> | ->]].
  - change (byte_eqb char_plus char_plus) with true. cbn [orb]. cbv iota.
    destruct (convert_numbers_value base alph z1 z2 (Nat.max m1 m2 + 1) m2 simd)
      as (b1 & b2 & -> & Hl1 & Hl2 & Hv1 & Hv2 & Hs);
      [done | by apply digit_list_digits_of | by apply digit_list_digits_of | done | done |].
    cbn [mbind outcome_bind obind].
    pose proof (operand_value z1 b1 Hv1 ltac:(intros; by apply Hs)) as HV1.
    pose proof (operand_value z2 b2 Hv2 ltac:(intros; by apply Hs)) as HV2.
    fold V1 in HV1. fold V2 in HV2.
    set (s1 := if has_minus base z1 then set_sign b1 true else b1) in *.
    set (s2 := if has_minus base z2 then set_sign b2 true else b2) in *.
    assert (bi_length s1 = (Nat.max m1 m2 + 1)%nat) as Hls1
      by (subst s1; by destruct (has_minus base z1)).
    destruct (big_integer_addition_value s1 s2 simd) as (a' & -> & Hla & Hva & _).
    { by rewrite HV1, HV2, Hls1. }
    cbn [mbind outcome_bind obind]. unfold arith.
    change (byte_eqb char_plus char_plus) with true. cbv iota.
    destruct (digits_for (V1 + V2) M (M + 1) (M + 2) Bap Ban) as (ds & Hds & Hval & Hlds).
    apply (project_value a' _ fuel _ simd ds);
      [by rewrite Hva, HV1, HV2 | rewrite Hla, Hls1; clear; lia | done | done | |].
    + rewrite Hlds. clear - Hfuel. destruct (0 <? base); [destruct (_ <? 0)|]; lia.
    + rewrite Hlds. clear - HM Hbase. destruct (Z.ltb_spec 0 base) as [Hp|Hn].
      * replace (base <? 0) with false by (symmetry; apply Z.ltb_ge; lia).
        destruct (_ <? 0); lia.
      * replace (base <? 0) with true by (symmetry; apply Z.ltb_lt; lia). lia.
  - change (byte_eqb char_minus char_plus) with false.
    change (byte_eqb char_minus char_minus) with true. cbn [orb]. cbv iota.
    destruct (convert_numbers_value base alph z1 z2 (Nat.max m1 m2 + 1) m2 simd)
      as (b1 & b2 & -> & Hl1 & Hl2 & Hv1 & Hv2 & Hs);
      [done | by apply digit_list_digits_of | by apply digit_list_digits_of | done | done |].
    cbn [mbind outcome_bind obind].
    pose proof (operand_value z1 b1 Hv1 ltac:(intros; by apply Hs)) as HV1.
    pose proof (operand_value z2 b2 Hv2 ltac:(intros; by apply Hs)) as HV2.
    fold V1 in HV1. fold V2 in HV2.
    set (s1 := if has_minus base z1 then set_sign b1 true else b1) in *.
    set (s2 := if has_minus base z2 then set_sign b2 true else b2) in *.
    assert (bi_length s1 = (Nat.max m1 m2 + 1)%nat) as Hls1
      by (subst s1; by destruct (has_minus base z1)).
    assert (bi_length s2 = m2) as Hls2 by (subst s2; by destruct (has_minus base z2)).
    destruct (big_integer_subtraction_value s1 s2 simd) as (a' & -> & Hla & Hva).
    { by rewrite HV1, HV2, Hls1. }
    { intros _ _. rewrite Hls1, Hls2. split; [clear; lia | exact H64]. }
    cbn [mbind outcome_bind obind]. unfold arith.
    change (byte_eqb char_minus char_plus) with false.
    change (byte_eqb char_minus char_minus) with true. cbv iota.
    destruct (digits_for (V1 - V2) (M + 1) (M + 1) (M + 2)) as (ds & Hds & Hval & Hlds);
      [intros Hp; specialize (Bsp Hp); clear - Bsp; lia | done |].
    apply (project_value a' _ fuel _ simd ds);
      [by rewrite Hva, HV1, HV2 | rewrite Hla, Hls1; clear; lia | done | done | |].
    + rewrite Hlds. clear - Hfuel. destruct (0 <? base); [destruct (_ <? 0)|]; lia.
    + rewrite Hlds. clear - HM. destruct (0 <? base); [destruct (_ <? 0)|]; lia.
  - change (byte_eqb char_star char_plus) with false.
    change (byte_eqb char_star char_minus) with false.
    change (byte_eqb char_star char_star) with true. cbn [orb]. cbv iota.
    destruct (convert_numbers_value base alph z1 z2 m1 m2 simd)
      as (b1 & b2 & -> & Hl1 & Hl2 & Hv1 & Hv2 & Hs);
      [done | by apply digit_list_digits_of | by apply digit_list_digits_of | done | done |].
    cbn [mbind outcome_bind obind].
    pose proof (operand_value z1 b1 Hv1 ltac:(intros; by apply Hs)) as HV1.
    pose proof (operand_value z2 b2 Hv2 ltac:(intros; by apply Hs)) as HV2.
    fold V1 in HV1. fold V2 in HV2.
    set (s1 := if has_minus base z1 then set_sign b1 true else b1) in *.
    set (s2 := if has_minus base z2 then set_sign b2 true else b2) in *.
    assert (bi_length s1 = m1) as Hls1 by (subst s1; by destruct (has_minus base z1)).
    assert (bi_length s2 = m2) as Hls2 by (subst s2; by destruct (has_minus base z2)).
    destruct (big_integer_multiplication_value s1 s2
                (create_big_integer (bi_length s1 + bi_length s2) false) simd)
      as (r & -> & Hlr & Hvr & Hsr).
    { apply bi_value_create. }
    { by rewrite bi_length_create. }
    cbn [mbind outcome_bind obind]. unfold arith.
    change (byte_eqb char_star char_plus) with false.
    change (byte_eqb char_star char_minus) with false. cbv iota.
    rewrite bi_length_create in Hlr.
    destruct (digits_for (V1 * V2) (2 * M - 1) (2 * M) (2 * M + 1) Bmp Bmn)
      as (ds & Hds & Hval & Hlds).
    apply (project_value r _ fuel _ simd ds);
      [by rewrite (bi_value_product s1 s2 r Hvr Hsr), HV1, HV2
      | rewrite Hlr, Hls1; clear - Hp1; lia | done | done | |].
    + rewrite Hlds. clear - Hfuel. destruct (0 <? base); [destruct (_ <? 0)|]; lia.
    + rewrite Hlds. clear - HM. destruct (0 <? base); [destruct (_ <? 0)|]; lia.
Qed.
End BinaryCore.

(** ** Numerals *)

Lemma numeral_of_unique base alph v s s' :
  numeral_of base alph v s -> numeral_of base alph v s' -> s = s'.
Proof.
  intros (W & HW & Hv & ->) (W' & HW' & Hv' & ->).
  by rewrite (digits_value_inj base W W' HW HW') by congruence.
Qed.

Lemma digits_string_trim_fixed base alph W :
  2 <= Z.abs base <= 128 -> Z.of_nat (length alph) = Z.abs base -> NoDup alph ->
  digit_list base W ->
  digits_of alph (digits_string alph (trim W)) = match trim W with [] => [0] | T => T end.
Proof.
  intros Hb Hlen Hnd HW. destruct (trim W) as [|d T] eqn:E.
  - cbn. unfold digits_of. cbn. f_equal.
    rewrite (digit_of_char_at base alph) by (done || lia). done.
  - rewrite <- E. apply (digits_of_digits_string base alph); try done.
    + by apply digit_list_trim.
    + by rewrite E.
Qed.

(** A numeral is a well-formed number in canonical form, and it stands for
    the number it is the numeral of. *)
Lemma numeral_of_sound base alph v s :
  2 <= Z.abs base <= 128 -> valid_alphabet base alph ->
  numeral_of base alph v s ->
  valid_number base alph s /\ signed_value base alph s = v /\ canonicalize base alph s = s.
Proof.
  intros Hb Halph (W & HW & Hv & ->). pose proof Halph as (Hlen & Hnd & Hminus).
  set (D := digits_string alph (trim W)).
  assert (Forall (fun c => In c alph) D) as HD
    by (apply (digits_string_chars base alph); [done..|by apply digit_list_trim]).
  assert (D <> []) as HDne by apply digits_string_nonempty.
  assert (number_value base alph D = digits_value base W) as HvD.
  { subst D. rewrite (number_value_digits_string base alph) by (done || by apply digit_list_trim).
    apply digits_value_trim. }
  assert (strip_zeroes (char_at alph 0) D = D) as Hstrip.
  { rewrite (strip_zeroes_digits base alph) by done. subst D.
    rewrite (digits_string_trim_fixed base alph) by done.
    destruct (trim W) as [|d T] eqn:E; [done|]. rewrite <- E, trim_idem. done. }
  assert (0 < base -> has_minus base D = false) as HmD.
  { intros Hp. unfold has_minus. destruct D as [|c t] eqn:ED; [done|].
    cbn. destruct (byte_eqb c char_minus) eqn:Ec; [|by rewrite andb_false_r].
    apply byte_eqb_eq in Ec. subst c. exfalso. apply (Hminus Hp).
    by apply Forall_inv in HD. }
  destruct ((0 <? base) && (v <? 0)) eqn:Es.
  - apply andb_prop in Es as [Hp Hneg]. apply Z.ltb_lt in Hp, Hneg.
    replace (0 <? base) with true in Hv by (symmetry; by apply Z.ltb_lt).
    assert (has_minus base ([char_minus] ++ D) = true) as Hm.
    { unfold has_minus, char_at. cbn [app nth]. rewrite byte_eqb_refl, andb_true_r.
      apply Z.ltb_lt. lia. }
    assert (digit_chars base ([char_minus] ++ D) = D) as Hdc
      by (unfold digit_chars; by rewrite Hm).
    split; [split; by rewrite Hdc|]. split.
    + unfold signed_value. rewrite Hm, Hdc, HvD. lia.
    + unfold canonicalize. rewrite Hm, Hdc, Hstrip. subst D.
      rewrite (is_zero_string_digits base alph) by (done || by apply digit_list_trim || apply trim_idem).
      destruct (trim W) eqn:E; [|done]. exfalso.
      assert (digits_value base W = 0); [|lia].
      rewrite <- (digits_value_trim base W), E. done.
  - cbn [app].
    assert (has_minus base D = false) as Hm.
    { destruct (Z.ltb_spec 0 base) as [Hp|Hn]; [by apply HmD|].
      apply has_minus_false_negative. lia. }
    assert (digit_chars base D = D) as Hdc by (unfold digit_chars; by rewrite Hm).
    split; [split; by rewrite Hdc|]. split.
    + unfold signed_value. rewrite Hm, Hdc, HvD, Hv.
      destruct (Z.ltb_spec 0 base) as [Hp|Hn]; [|done].
      cbn [andb] in Es. apply Z.ltb_ge in Es. lia.
    + unfold canonicalize. rewrite Hm, Hdc, Hstrip. done.
Qed.

(** The length of the numeral of a number that [k] digits can write. *)
Lemma numeral_of_length base alph v s k :
  2 <= Z.abs base ->
  fst (digit_range base k) <= (if 0 <? base then Z.abs v else v) <= snd (digit_range base k) ->
  numeral_of base alph v s ->
  (length s <= (if ((0 <? base) && (v <? 0))%Z then 1 else 0) + Nat.max 1 k)%nat.
Proof.
  intros Hb Hr (W & HW & Hv & ->).
  destruct (digits_exist base k _ Hb Hr) as (ds & Hl & Hds & Hval).
  assert (trim W = trim ds) as E by (apply (digits_value_inj base); congruence).
  pose proof (length_trim ds) as Hlt.
  rewrite length_app, E.
  assert (length (digits_string alph (trim ds)) <= Nat.max 1 k)%nat.
  { unfold digits_string. destruct (trim ds) eqn:E'; [cbn; lia|].
    rewrite length_rev, length_map. lia. }
  destruct ((0 <? base) && (v <? 0)); cbn [length]; lia.
Qed.

(** ** The checks of the input *)

Lemma check_alphabet_inner_spec n (alph : cstring) i j :
  check_alphabet_inner n alph i j = Done tt <->
  (forall j', (j <= j' < j + n)%nat -> char_at alph i <> char_at alph j').
Proof.
  revert j. induction n as [|n IH]; intros j; cbn [check_alphabet_inner].
  - split; [intros _ j' Hj'; lia | done].
  - destruct (byte_eqb (char_at alph i) (char_at alph j)) eqn:E.
    + apply byte_eqb_eq in E. split; [done|]. intros H. exfalso. apply (H j); [lia|done].
    + rewrite IH. split.
      * intros H j' Hj'. destruct (Nat.eq_dec j' j) as [->|Hne]; [|apply H; lia].
        intros Heq. apply byte_eqb_eq in Heq. congruence.
      * intros H j' Hj'. apply H. lia.
Qed.

Lemma check_alphabet_loop_spec n (alph : cstring) base i :
  check_alphabet_loop n alph base i = Done tt <->
  (forall i', (i <= i' < i + n)%nat ->
     (0 < base -> char_at alph i' <> char_minus) /\
     isprint (char_at alph i') = true /\
     (forall j', (i' < j' < length alph)%nat -> char_at alph i' <> char_at alph j')).
Proof.
  revert i. induction n as [|n IH]; intros i; cbn [check_alphabet_loop].
  - split; [intros _ i' Hi'; lia | done].
  - destruct ((0 <? base) && byte_eqb (char_at alph i) char_minus) eqn:Em.
    { apply andb_prop in Em as [Hp Hc]. apply Z.ltb_lt in Hp. apply byte_eqb_eq in Hc.
      split; [done|]. intros H. exfalso. destruct (H i ltac:(lia)) as [Hm _]. by apply Hm. }
    destruct (isprint (char_at alph i)) eqn:Ep; cbn [negb].
    2:{ split; [done|]. intros H. destruct (H i ltac:(lia)) as (_ & Hpr & _). congruence. }
    destruct (check_alphabet_inner (length alph - (i + 1)) alph i (i + 1)) as [[]| |] eqn:Ei;
      cbn [mbind outcome_bind obind].
    + pose proof (proj1 (check_alphabet_inner_spec _ _ _ _) Ei) as Ei'. rewrite IH. split.
      * intros H i' Hi'. destruct (Nat.eq_dec i' i) as [->|Hne]; [|apply H; lia].
        split; [|split; [done|]].
        -- intros Hp Hc. apply andb_false_iff in Em as [Em|Em].
           ++ apply Z.ltb_ge in Em. lia.
           ++ rewrite Hc, byte_eqb_refl in Em. done.
        -- intros j' Hj'. apply Ei'. lia.
      * intros H i' Hi'. apply H. lia.
    + split; [done|]. intros H. exfalso. destruct (H i ltac:(lia)) as (_ & _ & Hd).
      assert (check_alphabet_inner (length alph - (i + 1)) alph i (i + 1) = Done tt) as E'.
      { apply (proj2 (check_alphabet_inner_spec _ _ _ _)). intros j' Hj'. apply Hd. lia. }
      congruence.
    + split; [done|]. intros H. exfalso. destruct (H i ltac:(lia)) as (_ & _ & Hd).
      assert (check_alphabet_inner (length alph - (i + 1)) alph i (i + 1) = Done tt) as E'.
      { apply (proj2 (check_alphabet_inner_spec _ _ _ _)). intros j' Hj'. apply Hd. lia. }
      congruence.
Qed.

Lemma NoDup_char_at (alph : cstring) :
  NoDup alph <->
  (forall i j, (i < j < length alph)%nat -> char_at alph i <> char_at alph j).
Proof.
  rewrite NoDup_ListNoDup, (List.NoDup_nth alph Byte.x00). unfold char_at. split.
  - intros H i j Hij Heq. specialize (H i j ltac:(lia) ltac:(lia) Heq). lia.
  - intros H i j Hi Hj Heq.
    destruct (Nat.lt_trichotomy i j) as [Hlt|[->|Hgt]]; [|done|].
    + exfalso. by apply (H i j ltac:(lia)).
    + exfalso. by apply (H j i ltac:(lia)).
Qed.

Lemma check_alphabet_spec (alph : cstring) base :
  check_alphabet alph base = Done tt <->
  valid_alphabet base alph /\ Forall (fun c => isprint c = true) alph.
Proof.
  unfold check_alphabet, valid_alphabet. cbv zeta. rewrite NoDup_char_at. split.
  - destruct (check_alphabet_loop (length alph) alph base 0) as [[]| |] eqn:E;
      cbn [mbind outcome_bind obind]; [|done..].
    destruct (Z.eqb_spec (Z.of_nat (length alph)) (Z.abs base)) as [Hl|Hl]; [|done].
    intros _. pose proof (proj1 (check_alphabet_loop_spec _ _ _ _) E) as H.
    split; [split; [done|split]|].
    + intros i j Hij. destruct (H i ltac:(lia)) as (_ & _ & Hd). apply Hd. lia.
    + intros Hp Hin. apply In_nth with (d := Byte.x00) in Hin as (i & Hi & Hc).
      destruct (H i ltac:(lia)) as (Hm & _). by apply (Hm Hp).
    + apply List.Forall_forall. intros c Hin.
      apply In_nth with (d := Byte.x00) in Hin as (i & Hi & <-).
      destruct (H i ltac:(lia)) as (_ & Hpr & _). exact Hpr.
  - intros [(Hl & Hnd & Hm) Hpr].
    assert (check_alphabet_loop (length alph) alph base 0 = Done tt) as ->.
    { apply (proj2 (check_alphabet_loop_spec _ _ _ _)). intros i Hi. split; [|split].
      - intros Hp Hc. apply (Hm Hp). rewrite <- Hc. apply nth_In. lia.
      - apply (proj1 (List.Forall_forall _ _) Hpr). apply nth_In. lia.
      - intros j Hj. apply Hnd. lia. }
    cbn [mbind outcome_bind obind]. by rewrite (proj2 (Z.eqb_eq _ _) Hl).
Qed.

Lemma strchr_spec (s : cstring) c :
  strchr s c = None <-> ~ In c s /\ c <> Byte.x00.
Proof.
  induction s as [|a t IH]; cbn [strchr].
  - destruct (byte_eqb c Byte.x00) eqn:E.
    + apply byte_eqb_eq in E. split; [done|]. intros [_ H]. done.
    + split; [|done]. intros _. split; [by intros []|].
      intros ->. by rewrite byte_eqb_refl in E.
  - destruct (byte_eqb a c) eqn:E.
    + apply byte_eqb_eq in E. split; [done|]. intros [H _]. exfalso. apply H. by left.
    + destruct (strchr t c) eqn:Et; cbn [option_map].
      * split; [done|]. intros [H Hc]. exfalso.
        assert (Some n = None) as Habs; [|done]. apply (proj2 IH). split; [|done].
        intros Hin. apply H. by right.
      * destruct (proj1 IH eq_refl) as [H Hc]. split; [|done]. intros _. split; [|done].
        intros [->|Hin]; [|done]. by rewrite byte_eqb_refl in E.
Qed.

Lemma check_numbers_loop_spec n (z alph : cstring) i :
  ~ In Byte.x00 z -> (i + n <= length z)%nat ->
  check_numbers_loop n z alph i = Done tt <->
  (forall i', (i <= i' < i + n)%nat -> In (char_at z i') alph).
Proof.
  intros Hnul. revert i. induction n as [|n IH]; intros i Hn; cbn [check_numbers_loop].
  - split; [intros _ i' Hi'; lia | done].
  - assert (char_at z i <> Byte.x00) as Hc.
    { intros Heq. apply Hnul. rewrite <- Heq. apply nth_In. lia. }
    destruct (strchr alph (char_at z i)) eqn:E.
    + assert (In (char_at z i) alph) as Hin.
      { destruct (in_dec Byte.byte_eq_dec (char_at z i) alph) as [H|H]; [done|].
        assert (strchr alph (char_at z i) = None) by (by apply (proj2 (strchr_spec _ _))).
        congruence. }
      rewrite IH by lia. split.
      * intros H i' Hi'. destruct (Nat.eq_dec i' i) as [->|Hne]; [done|apply H; lia].
      * intros H i' Hi'. apply H. lia.
    + destruct (proj1 (strchr_spec _ _) E) as [E' _]. split; [done|]. intros H. exfalso. apply E', H. lia.
Qed.

Lemma check_numbers_spec (z1 z2 alph : cstring) base :
  2 <= Z.abs base -> ~ In Byte.x00 z1 -> ~ In Byte.x00 z2 ->
  check_numbers z1 z2 alph base = Done tt <->
  valid_number base alph z1 /\ valid_number base alph z2.
Proof.
  intros Hb Hn1 Hn2.
  assert ((0 <? base) = (1 <? base)) as H01.
  { destruct (Z.ltb_spec 0 base), (Z.ltb_spec 1 base); lia || done. }
  assert (check_numbers z1 z2 alph base
          = if (length (digit_chars base z1) <? 1)%nat then Abort
            else if (length (digit_chars base z2) <? 1)%nat then Abort
            else (_ ← check_numbers_loop (length (digit_chars base z1))
                        (digit_chars base z1) alph 0;
                  check_numbers_loop (length (digit_chars base z2))
                    (digit_chars base z2) alph 0)) as ->.
  { unfold check_numbers, digit_chars, has_minus. by rewrite H01. }
  unfold valid_number.
  assert (~ In Byte.x00 (digit_chars base z1)) as Hd1.
  { unfold digit_chars. destruct (has_minus base z1); [|exact Hn1]. intros H. apply Hn1.
    destruct z1 as [|c t]; [destruct H | right; exact H]. }
  assert (~ In Byte.x00 (digit_chars base z2)) as Hd2.
  { unfold digit_chars. destruct (has_minus base z2); [|exact Hn2]. intros H. apply Hn2.
    destruct z2 as [|c t]; [destruct H | right; exact H]. }
  set (d1 := digit_chars base z1) in *. set (d2 := digit_chars base z2) in *.
  clearbody d1 d2.
  assert (forall d : cstring, ~ In Byte.x00 d ->
            check_numbers_loop (length d) d alph 0 = Done tt
            <-> Forall (fun c => In c alph) d) as Hloop.
  { intros d Hd. rewrite check_numbers_loop_spec by (done || lia).
    rewrite List.Forall_forall. split.
    - intros H c Hin. apply In_nth with (d := Byte.x00) in Hin as (i & Hi & <-).
      apply H. lia.
    - intros H i Hi. apply H, nth_In. lia. }
  destruct (Nat.ltb_spec (length d1) 1) as [H1|H1].
  { split; [done|]. intros [[Hne _] _]. destruct d1; [congruence|]. cbn in H1. lia. }
  destruct (Nat.ltb_spec (length d2) 1) as [H2|H2].
  { split; [done|]. intros [_ [Hne _]]. destruct d2; [congruence|]. cbn in H2. lia. }
  assert (d1 <> []) as Hne1 by (intros E; rewrite E in H1; cbn in H1; lia).
  assert (d2 <> []) as Hne2 by (intros E; rewrite E in H2; cbn in H2; lia).
  destruct (check_numbers_loop (length d1) d1 alph 0) as [[]| |] eqn:E1;
    cbn [mbind outcome_bind obind].
  - pose proof (proj1 (Hloop _ Hd1) E1). rewrite (Hloop _ Hd2). tauto.
  - split; [done|]. intros [[_ Hc] _]. pose proof (proj2 (Hloop _ Hd1) Hc). congruence.
  - split; [done|]. intros [[_ Hc] _]. pose proof (proj2 (Hloop _ Hd1) Hc). congruence.
Qed.

(** ** The size of the result buffer *)

Lemma max_chars_spec (a b : cstring) :
  max_chars a b = Z.of_nat (Nat.max (length a) (length b)).
Proof. unfold max_chars. cbv zeta. destruct (Z.ltb_spec (Z.of_nat (length b)) (Z.of_nat (length a))); lia. Qed.

(** The numeral of the result has at most as many characters as the two
    functions of [util.c] compute. *)
Lemma numeral_fits base alph z1 z2 op s :
  2 <= Z.abs base <= 128 -> valid_alphabet base alph ->
  valid_number base alph z1 -> valid_number base alph z2 ->
  numeral_of base alph (arith op (signed_value base alph z1) (signed_value base alph z2)) s ->
  op = char_plus \/ op = char_minus \/ op = char_star ->
  let M := Nat.max (length z1) (length z2) in
  (length s <= if byte_eqb op char_star then 2 * M + 1 else M + 2)%nat.
Proof.
  intros Hb Halph Hz1 Hz2 Hs Hop M.
  assert (1 <= M)%nat as HM.
  { destruct Hz1 as [Hne _]. pose proof (length_digit_chars base z1).
    destruct (digit_chars base z1); [done|]. cbn in *. lia. }
  assert (forall v kneg kpos kn,
            numeral_of base alph v s ->
            (0 < base ->
             (v < 0 -> Z.abs v < base ^ Z.of_nat kneg) /\
             (0 <= v -> v < base ^ Z.of_nat kpos)) ->
            (base < 0 -> fst (digit_range base kn) <= v <= snd (digit_range base kn)) ->
            (length s <= if (0 <? base)%Z
                         then (if (v <? 0)%Z then 1 + Nat.max 1 kneg else Nat.max 1 kpos)
                         else Nat.max 1 kn)%nat) as Hlen.
  { intros v kneg kpos kn Hnum Hp Hn. destruct (Z.ltb_spec 0 base) as [Hpos|Hneg].
    - destruct (Hp Hpos) as [H1 H2]. destruct (Z.ltb_spec v 0) as [Hv|Hv].
      + pose proof (numeral_of_length base alph v s kneg ltac:(lia)) as H.
        replace (0 <? base) with true in H by (symmetry; apply Z.ltb_lt; lia).
        replace (v <? 0) with true in H by (symmetry; apply Z.ltb_lt; lia).
        apply H; [|done]. rewrite digit_range_positive by lia. cbn [fst snd].
        specialize (H1 Hv). lia.
      + pose proof (numeral_of_length base alph v s kpos ltac:(lia)) as H.
        replace (0 <? base) with true in H by (symmetry; apply Z.ltb_lt; lia).
        replace (v <? 0) with false in H by (symmetry; apply Z.ltb_ge; lia).
        apply H; [|done]. rewrite digit_range_positive by lia. cbn [fst snd].
        specialize (H2 Hv). lia.
    - pose proof (numeral_of_length base alph v s kn ltac:(lia)) as H.
      replace (0 <? base) with false in H by (symmetry; apply Z.ltb_ge; lia).
      apply H; [|done]. apply Hn. lia. }
  unfold arith in Hs. destruct Hop as [-> | [-> | ->]].
  - change (byte_eqb char_plus char_star) with false.
    change (byte_eqb char_plus char_plus) with true in Hs. cbv iota in Hs.
    destruct (add_bounds base alph Hb Halph z1 z2 Hz1 Hz2) as [Bp Bn]. fold M in Bp, Bn.
    pose proof (Hlen _ M (M + 1)%nat (M + 2)%nat Hs Bp Bn) as H.
    clear - H HM. destruct (0 <? base); [destruct (_ <? 0)|]; lia.
  - change (byte_eqb char_minus char_star) with false.
    change (byte_eqb char_minus char_plus) with false in Hs.
    change (byte_eqb char_minus char_minus) with true in Hs. cbv iota in Hs.
    destruct (sub_bounds base alph Hb Halph z1 z2 Hz1 Hz2) as [Bp Bn]. fold M in Bp, Bn.
    assert (length s <= if (0 <? base)%Z
                        then (if (signed_value base alph z1 - signed_value base alph z2 <? 0)%Z
                              then 1 + Nat.max 1 (M + 1) else Nat.max 1 (M + 1))
                        else Nat.max 1 (M + 2))%nat as H.
    { apply Hlen; [done| |done]. intros Hp. specialize (Bp Hp). lia. }
    clear - H HM. destruct (0 <? base); [destruct (_ <? 0)|]; lia.
  - change (byte_eqb char_star char_star) with true.
    change (byte_eqb char_star char_plus) with false in Hs.
    change (byte_eqb char_star char_minus) with false in Hs. cbv iota in Hs.
    destruct (mul_bounds base alph Hb Halph z1 z2 Hz1 Hz2) as [Bp Bn]. fold M in Bp, Bn.
    pose proof (Hlen _ (2 * M - 1)%nat (2 * M)%nat (2 * M + 1)%nat Hs Bp Bn) as H.
    clear - H HM. destruct (0 <? base); [destruct (_ <? 0)|]; lia.
Qed.

(** ** The default alphabet *)

Lemma create_alph_valid base :
  2 <= Z.abs base <= 10 ->
  check_alphabet (create_alph (Z.to_nat (Z.abs base))) base = Done tt.
Proof.
  intros Hb.
  assert (In base [2; 3; 4; 5; 6; 7; 8; 9; 10; -2; -3; -4; -5; -6; -7; -8; -9; -10]) as H.
  { cbn [In]. lia. }
  cbn [In] in H.
  repeat (destruct H as [<-|H]; [vm_compute; reflexivity|]). destruct H.
Qed.

Lemma binary_logarithm_ceil v :
  2 <= Z.abs v <= 256 ->
  2 ^ (binary_logarithm_8bit_abs_ceil v - 1) < Z.abs v <= 2 ^ binary_logarithm_8bit_abs_ceil v.
Proof.
  intros Hv. unfold binary_logarithm_8bit_abs_ceil. cbn [binary_logarithm_loop].
  repeat match goal with
         | |- context [?x <? Z.abs v] =>
             let y := eval vm_compute in x in
             change x with y; destruct (Z.ltb_spec y (Z.abs v))
         end; cbn; lia.
Qed.

(** ** The two cores *)

(** The strings, the numbers and the bound on the length of the result of
    the whole computation. *)
Lemma result_properties base alph z1 z2 op s :
  2 <= Z.abs base <= 128 -> valid_alphabet base alph ->
  valid_number base alph z1 -> valid_number base alph z2 ->
  op = char_plus \/ op = char_minus \/ op = char_star ->
  8 * Z.of_nat (Nat.max (length z1) (length z2)) < 2 ^ 31 ->
  numeral_of base alph (arith op (signed_value base alph z1) (signed_value base alph z2)) s ->
  valid_number base alph s /\
  signed_value base alph s = arith op (signed_value base alph z1) (signed_value base alph z2) /\
  canonicalize base alph s = s /\
  Z.of_nat (length s)
  <= (if byte_eqb op char_star then max_needed_chars_mul z1 z2
      else max_needed_chars_add_sub z1 z2).
Proof.
  intros Hb Halph Hz1 Hz2 Hop Hint Hs.
  destruct (numeral_of_sound base alph _ s Hb Halph Hs) as (H1 & H2 & H3).
  split; [done|]. split; [done|]. split; [done|].
  pose proof (numeral_fits base alph z1 z2 op s Hb Halph Hz1 Hz2 Hs Hop) as Hl.
  cbv zeta in Hl. unfold max_needed_chars_mul, max_needed_chars_add_sub, uint64.
  rewrite max_chars_spec. change (2 ^ 31) with 2147483648 in Hint.
  change (2 ^ 64) with 18446744073709551616.
  set (M := Nat.max (length z1) (length z2)) in *.
  rewrite !Z.mod_small by lia.
  destruct (byte_eqb op char_star); lia.
Qed.

Lemma valid_alphabet_binary : valid_alphabet 2 (cstr "01").
Proof.
  split; [reflexivity|]. split.
  - apply NoDup_ListNoDup. repeat constructor; cbn; intuition discriminate.
  - intros _ H. cbn in H. intuition discriminate.
Qed.

Lemma valid_alphabet_negabinary : valid_alphabet (-2) (cstr "01").
Proof.
  split; [reflexivity|]. split.
  - apply NoDup_ListNoDup. repeat constructor; cbn; intuition discriminate.
  - intros H. lia.
Qed.

Lemma no_nul_binary : ~ In Byte.x00 (cstr "01").
Proof. cbn. intuition discriminate. Qed.

(** A numeral over an alphabet without the terminator does not contain the
    terminator. *)
Lemma numeral_of_no_nul base alph v s :
  2 <= Z.abs base <= 128 -> valid_alphabet base alph -> ~ In Byte.x00 alph ->
  numeral_of base alph v s -> ~ In Byte.x00 s.
Proof.
  intros Hb Halph Hnul (W & HW & _ & ->). pose proof Halph as (Hlen & Hnd & _).
  assert (Forall (fun c => In c alph) (digits_string alph (trim W))) as HD
    by (apply (digits_string_chars base alph); [done..|by apply digit_list_trim]).
  intros Hin. apply in_app_or in Hin as [Hin|Hin].
  - destruct ((0 <? base) && (v <? 0)); [|done].
    destruct Hin as [Hin|[]]. discriminate.
  - apply Hnul. rewrite Forall_forall in HD. by apply HD.
Qed.



(** * Further properties of the code *)

(** ** [big_integer.c] and [big_integer_arithmetic.c] *)














(** X8: on an integer whose sign flag is clear, [big_integer_increment]
    adds one modulo the capacity of the buffer. *)
Theorem big_integer_increment_nonneg_adds_one (a : big_integer) :
  sign a = false ->
  sign (big_integer_increment a) = false /\
  bi_length (big_integer_increment a) = bi_length a /\
  le_val (mem (big_integer_increment a))
  = (le_val (mem a) + 1) mod 256 ^ Z.of_nat (bi_length a).
Proof. apply big_integer_increment_nonneg. Qed.

Lemma big_integer_increment_nonneg_adds_one_witness :
  sign (big_integer_increment two_bytes_256) = false /\
  bi_length (big_integer_increment two_bytes_256) = bi_length two_bytes_256 /\
  le_val (mem (big_integer_increment two_bytes_256))
  = (le_val (mem two_bytes_256) + 1) mod 256 ^ Z.of_nat (bi_length two_bytes_256).
Proof. apply (big_integer_increment_nonneg_adds_one two_bytes_256). reflexivity. Defined.







(** X12: [copy_big_integer_value_into_another] gives the destination the
    sign of the source and its magnitude modulo the capacity of the
    destination, whose length stays. *)
Theorem copy_big_integer_value_into_another_value (source destination : big_integer) :
  sign (copy_big_integer_value_into_another source destination) = sign source /\
  bi_length (copy_big_integer_value_into_another source destination)
  = bi_length destination /\
  le_val (mem (copy_big_integer_value_into_another source destination))
  = le_val (mem source) mod 256 ^ Z.of_nat (bi_length destination).
Proof.
  split; [apply sign_copy_big_integer|]. split; [apply bi_length_copy_big_integer|].
  apply le_val_copy_big_integer.
Qed.

(** ** [arithmetic_helper.c] and the sizes *)

(** X13: for [2 <= |value| <= 256] the result of
    [binary_logarithm_8bit_abs_ceil] is the binary logarithm of [|value|]
    rounded up. *)
Theorem binary_logarithm_8bit_abs_ceil_rounds_up (value : Z) :
  2 <= Z.abs value <= 256 ->
  2 ^ (binary_logarithm_8bit_abs_ceil value - 1) < Z.abs value
  <= 2 ^ binary_logarithm_8bit_abs_ceil value.
Proof. apply binary_logarithm_ceil. Qed.

Lemma binary_logarithm_8bit_abs_ceil_rounds_up_witness :
  2 ^ (binary_logarithm_8bit_abs_ceil (-100) - 1) < Z.abs (-100)
  <= 2 ^ binary_logarithm_8bit_abs_ceil (-100).
Proof. apply (binary_logarithm_8bit_abs_ceil_rounds_up (-100)). lia. Defined.

(** X14: for an exponent [n] with [8 * n < 2 ^ 31] the product of the
    logarithm and the exponent, which the source evaluates in [int], stays
    within [int], and an integer of
    [get_big_integer_min_size_exponentiation base n] bytes holds every
    magnitude up to [|base| ^ n]. *)
Theorem get_big_integer_min_size_exponentiation_fits (base : Z) (n : nat) :
  2 <= Z.abs base <= 256 ->
  8 * Z.of_nat n < 2 ^ 31 ->
  0 <= binary_logarithm_8bit_abs_ceil base * Z.of_nat n < 2 ^ 31 /\
  (1 <= get_big_integer_min_size_exponentiation base (Z.of_nat n))%nat /\
  Z.abs base ^ Z.of_nat n
  < 256 ^ Z.of_nat (get_big_integer_min_size_exponentiation base (Z.of_nat n)).
Proof.
  intros Hb Hn. split; [|by apply min_size_exponentiation_spec].
  destruct (binary_logarithm_spec base Hb) as [Hl _].
  set (l := binary_logarithm_8bit_abs_ceil base) in *. clearbody l.
  clear - Hl Hn. nia.
Qed.

Lemma get_big_integer_min_size_exponentiation_fits_witness :
  0 <= binary_logarithm_8bit_abs_ceil (-10) * Z.of_nat 5 < 2 ^ 31 /\
  (1 <= get_big_integer_min_size_exponentiation (-10) (Z.of_nat 5))%nat /\
  Z.abs (-10) ^ Z.of_nat 5
  < 256 ^ Z.of_nat (get_big_integer_min_size_exponentiation (-10) (Z.of_nat 5)).
Proof. apply (get_big_integer_min_size_exponentiation_fits (-10) 5); lia. Defined.

(** ** [common.c] and the conversions of [impl_binary_conversion.c] *)

(** X15: for an alphabet of distinct characters, [generate_lut] builds the
    inverse of the alphabet: the entry of the character at index [k] is [k],
    the alphabet at the entry of one of its characters is that character,
    and the entries of all other characters are left as they were. *)
Theorem generate_lut_inverts_alphabet (lut : list byte) (alph : cstring) :
  length lut = 256%nat -> NoDup alph -> (length alph <= 256)%nat ->
  (forall k, (k < length alph)%nat ->
     byte.unsigned (get_char_value (char_at alph k) (generate_lut lut (length alph) alph))
     = Z.of_nat k) /\
  (forall c, In c alph ->
     char_at alph
       (Z.to_nat (byte.unsigned (get_char_value c (generate_lut lut (length alph) alph))))
     = c) /\
  (forall c, ~ In c alph ->
     get_char_value c (generate_lut lut (length alph) alph) = get_char_value c lut).
Proof.
  intros Hl Hnd Hlen. unfold generate_lut.
  assert (forall k, (k < length alph)%nat ->
            byte.unsigned (get_char_value (char_at alph k)
                             (generate_lut_loop (length alph) 0 lut alph)) = Z.of_nat k) as H.
  { intros k Hk. rewrite generate_lut_loop_hit by (done || lia).
    apply unsigned_of_Z_small. lia. }
  split; [exact H|]. split.
  - intros c Hc. apply In_nth with (d := Byte.x00) in Hc as (k & Hk & <-).
    fold (char_at alph k). rewrite H by done. by rewrite Nat2Z.id.
  - intros c Hc. apply generate_lut_loop_other; [done|].
    intros k Hk Heq. apply Hc. rewrite <- Heq. apply nth_In. lia.
Qed.

Lemma generate_lut_inverts_alphabet_witness :
  (forall k, (k < length (cstr "abc"))%nat ->
     byte.unsigned
       (get_char_value (char_at (cstr "abc") k)
          (generate_lut (replicate 256 Byte.xff) (length (cstr "abc")) (cstr "abc")))
     = Z.of_nat k) /\
  (forall c, In c (cstr "abc") ->
     char_at (cstr "abc")
       (Z.to_nat
          (byte.unsigned
             (get_char_value c
                (generate_lut (replicate 256 Byte.xff) (length (cstr "abc")) (cstr "abc")))))
     = c) /\
  (forall c, ~ In c (cstr "abc") ->
     get_char_value c
       (generate_lut (replicate 256 Byte.xff) (length (cstr "abc")) (cstr "abc"))
     = get_char_value c (replicate 256 Byte.xff)).
Proof.
  apply (generate_lut_inverts_alphabet (replicate 256 Byte.xff) (cstr "abc")).
  - reflexivity.
  - apply NoDup_ListNoDup. repeat constructor; cbn; intuition discriminate.
  - cbn. lia.
Defined.







(** ** The binary-conversion core *)



(** ** The digit-wise core ([impl_naive.c])

    The capacity of the buffers is not part of the embedding: the theorems
    say what is written, X25 also that the result fits the buffer that
    [main] allocates. *)

(** X20: [add_sub_unsigned] writes the sum or the difference of two strings
    of digits, without leading zeros and after a minus sign when [negate] is
    set and the result is not zero.  In a positive base the difference must
    not be negative. *)
Theorem add_sub_unsigned_correct (fuel : nat) (lut0 : list byte) (add negate : bool)
    (base : Z) (alph z1 z2 : cstring) :
  2 <= Z.abs base <= 128 -> Z.of_nat (length alph) = Z.abs base -> NoDup alph ->
  length lut0 = 256%nat ->
  Forall (fun c => In c alph) z1 -> Forall (fun c => In c alph) z2 -> z1 <> [] ->
  (Nat.max (length z1) (length z2) + 2 < fuel)%nat ->
  (0 < base ->
   0 <= number_value base alph z1 + (if add then 1 else -1) * number_value base alph z2) ->
  exists W,
    digit_list base W /\
    digits_value base W
    = number_value base alph z1 + (if add then 1 else -1) * number_value base alph z2 /\
    Naive.add_sub_unsigned fuel lut0 add negate base alph z1 z2
    = Done ((if negate && negb (digits_value base W =? 0) then [char_minus] else [])
            ++ digits_string alph (trim W)).
Proof.
  intros Hb Hlen Hnd Hlut Hz1 Hz2 Hne Hfuel Hpos.
  destruct (add_sub_unsigned_spec base alph lut0 Hb Hlen Hnd Hlut add negate z1 z2 fuel
              Hz1 Hz2 Hne Hfuel Hpos) as (W & H1 & H2 & _ & H3).
  by exists W.
Qed.

Lemma add_sub_unsigned_correct_witness :
  exists W,
    digit_list (-2) W /\
    digits_value (-2) W
    = number_value (-2) (cstr "01") (cstr "1")
      + (if false then 1 else -1) * number_value (-2) (cstr "01") (cstr "11") /\
    Naive.add_sub_unsigned 5 (replicate 256 Byte.xff) false true (-2) (cstr "01") (cstr "1")
      (cstr "11")
    = Done ((if true && negb (digits_value (-2) W =? 0) then [char_minus] else [])
            ++ digits_string (cstr "01") (trim W)).
Proof.
  apply (add_sub_unsigned_correct 5 (replicate 256 Byte.xff) false true (-2) (cstr "01")
           (cstr "1") (cstr "11")).
  - cbn. lia.
  - reflexivity.
  - apply NoDup_ListNoDup. repeat constructor; cbn; intuition discriminate.
  - reflexivity.
  - repeat (apply Forall_cons; [cbn; auto|]). apply Forall_nil.
  - repeat (apply Forall_cons; [cbn; auto|]). apply Forall_nil.
  - discriminate.
  - cbn. lia.
  - lia.
Defined.

(** X21: [cmp_unsigned_pos_base] compares, in a positive base, two
    numerals without redundant leading zeros: the result is the sign of the
    difference of the two numbers. *)
Theorem cmp_unsigned_pos_base_compares (lut0 : list byte) (base : Z) (alph : cstring)
    (W1 W2 : list Z) :
  2 <= base <= 128 -> Z.of_nat (length alph) = Z.abs base -> NoDup alph ->
  length lut0 = 256%nat -> ~ In Byte.x00 alph ->
  digit_list base W1 -> digit_list base W2 -> trim W1 = W1 -> trim W2 = W2 ->
  Naive.cmp_unsigned_pos_base lut0 base alph (digits_string alph W1) (digits_string alph W2)
  = Z.sgn (digits_value base W1 - digits_value base W2).
Proof.
  intros Hb Hlen Hnd Hlut Hnul H1 H2 Ht1 Ht2.
  apply cmp_unsigned_pos_base_spec; done || lia.
Qed.

Lemma cmp_unsigned_pos_base_compares_witness :
  Naive.cmp_unsigned_pos_base (replicate 256 Byte.xff) 2 (cstr "01")
    (digits_string (cstr "01") [1; 0; 1]) (digits_string (cstr "01") [0; 1; 1])
  = Z.sgn (digits_value 2 [1; 0; 1] - digits_value 2 [0; 1; 1]).
Proof.
  apply (cmp_unsigned_pos_base_compares (replicate 256 Byte.xff) 2 (cstr "01")
           [1; 0; 1] [0; 1; 1]).
  - lia.
  - reflexivity.
  - apply NoDup_ListNoDup. repeat constructor; cbn; intuition discriminate.
  - reflexivity.
  - exact no_nul_binary.
  - repeat constructor; lia.
  - repeat constructor; lia.
  - reflexivity.
  - reflexivity.
Defined.

(** X22: [sub_unsigned_to_signed] writes, in a positive base, the
    difference of two numerals without redundant leading zeros, whichever of
    the two is greater: the digits of the absolute value, after a minus sign
    when the difference is negative. *)
Theorem sub_unsigned_to_signed_correct (fuel : nat) (lut0 : list byte) (base : Z)
    (alph : cstring) (W1 W2 : list Z) :
  2 <= base <= 128 -> Z.of_nat (length alph) = Z.abs base -> NoDup alph ->
  length lut0 = 256%nat -> ~ In Byte.x00 alph ->
  digit_list base W1 -> digit_list base W2 -> trim W1 = W1 -> trim W2 = W2 ->
  (Nat.max (length W1) (length W2) + 3 < fuel)%nat ->
  exists W,
    digit_list base W /\
    digits_value base W = Z.abs (digits_value base W1 - digits_value base W2) /\
    Naive.sub_unsigned_to_signed fuel lut0 base alph (digits_string alph W1)
      (digits_string alph W2)
    = Done ((if (digits_value base W1 - digits_value base W2 <? 0) then [char_minus] else [])
            ++ digits_string alph (trim W)).
Proof.
  intros Hb Hlen Hnd Hlut Hnul H1 H2 Ht1 Ht2 Hfuel.
  apply sub_unsigned_to_signed_spec; done || lia.
Qed.

Lemma sub_unsigned_to_signed_correct_witness :
  exists W,
    digit_list 2 W /\
    digits_value 2 W = Z.abs (digits_value 2 [1] - digits_value 2 [0; 1; 1]) /\
    Naive.sub_unsigned_to_signed 7 (replicate 256 Byte.xff) 2 (cstr "01")
      (digits_string (cstr "01") [1]) (digits_string (cstr "01") [0; 1; 1])
    = Done ((if (digits_value 2 [1] - digits_value 2 [0; 1; 1] <? 0) then [char_minus] else [])
            ++ digits_string (cstr "01") (trim W)).
Proof.
  apply (sub_unsigned_to_signed_correct 7 (replicate 256 Byte.xff) 2 (cstr "01") [1] [0; 1; 1]).
  - lia.
  - reflexivity.
  - apply NoDup_ListNoDup. repeat constructor; cbn; intuition discriminate.
  - reflexivity.
  - exact no_nul_binary.
  - repeat constructor; lia.
  - repeat constructor; lia.
  - reflexivity.
  - reflexivity.
  - cbn. lia.
Defined.



(** X24: [strip_zeroes] removes the leading zero digits that are
    redundant: what stays is the numeral of the same number, without leading
    zeros, and the single zero digit for the number zero. *)
Theorem strip_zeroes_canonical (base : Z) (alph z : cstring) :
  2 <= Z.abs base <= 128 -> Z.of_nat (length alph) = Z.abs base -> NoDup alph ->
  ~ In Byte.x00 alph -> z <> [] -> Forall (fun c => In c alph) z ->
  Naive.strip_zeroes z (char_at alph 0) = digits_string alph (trim (digits_of alph z)) /\
  number_value base alph (Naive.strip_zeroes z (char_at alph 0)) = number_value base alph z.
Proof.
  intros Hb Hlen Hnd Hnul Hne Hz.
  destruct (stripped_digits base alph Hb Hlen Hnd z Hnul Hne Hz)
    as (T & HT & Ht & Hv & _ & Hs).
  assert (Naive.strip_zeroes z (char_at alph 0) = digits_string alph (trim (digits_of alph z)))
    as E.
  { rewrite naive_strip_zeroes.
    - by apply (strip_zeroes_digits base alph).
    - intros Hin. apply Hnul. by apply (proj1 (List.Forall_forall _ _) Hz). }
  split; [exact E|].
  rewrite E, (number_value_digits_string base alph) by (done || apply digit_list_trim;
    by apply (digit_list_digits_of base alph)).
  apply digits_value_trim.
Qed.

Lemma strip_zeroes_canonical_witness :
  Naive.strip_zeroes (cstr "0010") (char_at (cstr "01") 0)
  = digits_string (cstr "01") (trim (digits_of (cstr "01") (cstr "0010"))) /\
  number_value 2 (cstr "01") (Naive.strip_zeroes (cstr "0010") (char_at (cstr "01") 0))
  = number_value 2 (cstr "01") (cstr "0010").
Proof.
  apply (strip_zeroes_canonical 2 (cstr "01") (cstr "0010")).
  - cbn. lia.
  - reflexivity.
  - apply NoDup_ListNoDup. repeat constructor; cbn; intuition discriminate.
  - exact no_nul_binary.
  - discriminate.
  - repeat (apply Forall_cons; [cbn; auto|]). apply Forall_nil.
Defined.

(** X25: on a valid input (as for X19, the alphabet being a C string: it
    does not contain the terminator) the digit-wise core returns a
    well-formed number in canonical form that stands for the sum, the
    difference or the product of the numbers that the operands stand for,
    and that has at most as many characters as [util.c] computes for the
    result buffer; the content of its lookup table on entry does not matter. *)
Theorem impl_naive_correct (fuel : nat) (lut0 : list byte) (base : Z) (alph z1 z2 : cstring)
    (op : byte) (result : cstring) :
  2 <= Z.abs base <= 128 -> valid_alphabet base alph -> ~ In Byte.x00 alph ->
  length lut0 = 256%nat ->
  valid_number base alph z1 -> valid_number base alph z2 ->
  op = char_plus \/ op = char_minus \/ op = char_star ->
  8 * Z.of_nat (Nat.max (length z1) (length z2)) < 2 ^ 31 ->
  (3 * (length z1 + length z2) + 5 + Z.to_nat (Z.abs base) < fuel)%nat ->
  exists s,
    Naive.impl_naive fuel lut0 base alph z1 z2 op result = Done s /\
    valid_number base alph s /\
    signed_value base alph s
    = arith op (signed_value base alph z1) (signed_value base alph z2) /\
    canonicalize base alph s = s /\
    Z.of_nat (length s)
    <= (if byte_eqb op char_star then max_needed_chars_mul z1 z2
        else max_needed_chars_add_sub z1 z2).
Proof.
  intros Hb Halph Hnul Hlut Hz1 Hz2 Hop Hint Hfuel. pose proof Halph as (Hlen & Hnd & _).
  destruct (impl_naive_spec base alph lut0 Hb Hlen Hnd Hlut z1 z2 op result fuel Hnul Hz1 Hz2
              Hop Hfuel) as (s & Hrun & Hs).
  exists s. split; [done|]. by apply result_properties.
Qed.

Lemma impl_naive_correct_witness :
  exists s,
    Naive.impl_naive 40 (replicate 256 Byte.xff) 2 (cstr "01") (cstr "-101") (cstr "0011")
      char_star [] = Done s /\
    valid_number 2 (cstr "01") s /\
    signed_value 2 (cstr "01") s
    = arith char_star (signed_value 2 (cstr "01") (cstr "-101"))
        (signed_value 2 (cstr "01") (cstr "0011")) /\
    canonicalize 2 (cstr "01") s = s /\
    Z.of_nat (length s)
    <= (if byte_eqb char_star char_star
        then max_needed_chars_mul (cstr "-101") (cstr "0011")
        else max_needed_chars_add_sub (cstr "-101") (cstr "0011")).
Proof.
  apply (impl_naive_correct 40 (replicate 256 Byte.xff) 2 (cstr "01") (cstr "-101")
           (cstr "0011") char_star []).
  - cbn. lia.
  - exact valid_alphabet_binary.
  - exact no_nul_binary.
  - reflexivity.
  - split; [discriminate|]. change (digit_chars 2 (cstr "-101")) with (cstr "101").
    repeat (apply Forall_cons; [cbn; auto|]). apply Forall_nil.
  - split; [discriminate|]. change (digit_chars 2 (cstr "0011")) with (cstr "0011").
    repeat (apply Forall_cons; [cbn; auto|]). apply Forall_nil.
  - right. right. reflexivity.
  - vm_compute. reflexivity.
  - cbn. lia.
Defined.



(** ** The checks of the input ([main.c]) *)

(** X27: [check_alphabet] returns, instead of ending the process, exactly
    on the alphabets of [|base|] distinct printable characters that do not
    contain the minus sign when the base is positive. *)
Theorem check_alphabet_accepts (alph : cstring) (base : Z) :
  check_alphabet alph base = Done tt <->
  valid_alphabet base alph /\ Forall (fun c => isprint c = true) alph.
Proof. apply check_alphabet_spec. Qed.

(** X28: for a base with [|base| >= 2] and two C strings, [check_numbers]
    returns exactly when both are well-formed numbers: after the minus sign
    that may come first in a positive base, at least one character, and only
    characters of the alphabet. *)
Theorem check_numbers_accepts (z1 z2 alph : cstring) (base : Z) :
  2 <= Z.abs base -> ~ In Byte.x00 z1 -> ~ In Byte.x00 z2 ->
  check_numbers z1 z2 alph base = Done tt <->
  valid_number base alph z1 /\ valid_number base alph z2.
Proof. apply check_numbers_spec. Qed.

Lemma check_numbers_accepts_witness :
  check_numbers (cstr "-101") (cstr "0") (cstr "01") 2 = Done tt <->
  valid_number 2 (cstr "01") (cstr "-101") /\ valid_number 2 (cstr "01") (cstr "0").
Proof.
  apply (check_numbers_accepts (cstr "-101") (cstr "0") (cstr "01") 2).
  - cbn. lia.
  - cbn. intuition discriminate.
  - cbn. intuition discriminate.
Defined.

(** X29: the default alphabet that [create_alph] builds for a base with
    [2 <= |base| <= 10] consists of the first [|base|] decimal digits, and
    [check_alphabet] accepts it. *)
Theorem create_alph_accepted (base : Z) :
  2 <= Z.abs base <= 10 ->
  create_alph (Z.to_nat (Z.abs base)) = take (Z.to_nat (Z.abs base)) (cstr "0123456789") /\
  check_alphabet (create_alph (Z.to_nat (Z.abs base))) base = Done tt.
Proof.
  intros Hb. split; [|by apply create_alph_valid].
  assert (In (Z.abs base) [2; 3; 4; 5; 6; 7; 8; 9; 10]) as H by (cbn [In]; lia).
  cbn [In] in H. repeat (destruct H as [<-|H]; [reflexivity|]). destruct H.
Qed.

Lemma create_alph_accepted_witness :
  create_alph (Z.to_nat (Z.abs (-7))) = take (Z.to_nat (Z.abs (-7))) (cstr "0123456789") /\
  check_alphabet (create_alph (Z.to_nat (Z.abs (-7)))) (-7) = Done tt.
Proof. apply (create_alph_accepted (-7)). cbn. lia. Defined.

(** ** An operator that is not legal *)

(** X30: on an operator other than [+], [-] and [*] the binary-conversion
    core parses the operands and then ends the process, while the digit-wise
    core returns and leaves the result buffer as it was. *)
Theorem illegal_operator (fuel : nat) (lut0 : list byte) (base : Z) (alph z1 z2 : cstring)
    (op : byte) (result : cstring) (simd : bool) :
  2 <= Z.abs base <= 128 -> Z.of_nat (length alph) = Z.abs base ->
  op <> char_plus -> op <> char_minus -> op <> char_star ->
  arith_op_any_base__binary_conversion fuel base alph z1 z2 op simd = Abort /\
  Naive.impl_naive fuel lut0 base alph z1 z2 op result = Done result.
Proof.
  intros Hb Hlen Hp Hm Hs.
  assert (forall c, op <> c -> byte_eqb op c = false) as Hne.
  { intros c Hc. destruct (byte_eqb op c) eqn:E; [|done]. by apply byte_eqb_eq in E. }
  split.
  - unfold arith_op_any_base__binary_conversion. cbv zeta.
    rewrite (Hne _ Hp), (Hne _ Hm), (Hne _ Hs). cbn [orb].
    destruct (min_size_fits base (length z1) _ Hb (Nat.le_refl _)) as [_ Hf1].
    destruct (min_size_fits base (length z2) _ Hb (Nat.le_refl _)) as [_ Hf2].
    destruct (convert_numbers_value base alph z1 z2
                (get_big_integer_min_size base (length z1))
                (get_big_integer_min_size base (length z2)) simd)
      as (b1 & b2 & -> & _);
      [lia | by apply digit_list_digits_of | by apply digit_list_digits_of | done | done |].
    done.
  - unfold Naive.impl_naive. rewrite (Hne _ Hp), (Hne _ Hm), (Hne _ Hs).
    destruct (base <? 0); [done|].
    by destruct (Naive.strip_sign z1), (Naive.strip_sign z2).
Qed.

Lemma illegal_operator_witness :
  arith_op_any_base__binary_conversion 9 10 (cstr "0123456789") (cstr "12") (cstr "-7")
    Byte.x2f true = Abort /\
  Naive.impl_naive 9 (replicate 256 Byte.xff) 10 (cstr "0123456789") (cstr "12") (cstr "-7")
    Byte.x2f (cstr "?") = Done (cstr "?").
Proof.
  apply (illegal_operator 9 (replicate 256 Byte.xff) 10 (cstr "0123456789") (cstr "12")
           (cstr "-7") Byte.x2f (cstr "?") true);
    [cbn; lia | reflexivity | discriminate..].
Defined.
